(* ===== verification/_CoqProject ===== *)
-Q . S2P
Prelude.v
Paths.v
PathNormalize.v
PathEquiv.v
Mutex.v
Lru.v
LruThreads.v
Sprintf.v
Solver.v
Deleter.v
Backoff.v
ProcessKiller.v
HttpHelper.v
Boost.v
UriParser.v
Beast.v
Handler.v
Router.v
Session.v
SessionLifetime.v
Initializer.v
Server.v
CurlClient.v
CurlMemory.v
Double.v
P90.v
Aps.v
LockedClasses.v
Scheduler.v
SlotPool.v
SchedulerTheorems.v
SchedulerLiveness.v
SchedulerExceptions.v
QueueThreads.v
ProcessManager.v
ManagerThreads.v
HandlerLifetime.v
SchedulerProcesses.v
