(* ===== verification/Prelude.v ===== *)
(** * Verification of the inks HTTP server and process scheduler

    The program is an HTTP server on Boost.Beast ([httpd/], [server/]), a
    scheduler of child processes on Boost.Process ([process/]), an HTTP client on
    libcurl ([curl_client/]) and the utilities they share ([foundation/]).  Each
    component is a file: its data as records and inductive types, each function
    of the source as a definition with the source's name, then reference
    definitions, lemmas and, last, the properties, with the inputs they are
    applied to.

    ** The files

    - [Prelude] (this file): strings, the outcomes of a C++ call ([Ret], [Throw],
      [UB]) with the notation [let! x := m in k], loops with fuel, machine
      integers, lists with keys.
    - [Paths]: the operations of [std::filesystem::path] that the start-up uses.
    - [PathNormalize]: [foundation/path_normalize.h].  The function is what
      walking a path from any directory means, and idempotent.
    - [PathEquiv]: paths that lead to the same place, an equivalence that normal forms
      decide and that appending paths respects.
    - [Mutex]: classes whose calls lock a mutex, as sequences of accesses that the
      threads interleave; what locks is atomic, what does not lock races.
    - [Lru]: [foundation/lru.h], [lru.inl].  The list, the map and its iterators
      refine a list ordered by use; what is among the [capacity] last used stays.
    - [LruThreads]: the same cache shared by threads, on [Mutex].
    - [Sprintf], [Deleter]: [foundation/string_sprintf.h], [deleter.h].
      Formatting ends after two passes with the text; a deleter runs once.
    - [Solver]: [process/aps_solver.cpp], the program that stands for a solver.
    - [Backoff]: [foundation/exponential_backoff_iterator.h].  A retry is an
      attempt before and after each of the delays, which are capped powers of 2.
    - [ProcessKiller]: [process/process_killer.cpp], on [Backoff].
    - [HttpHelper]: [foundation/inline_utils.h] and the decoder of
      [httpd/http_helper.cpp].  Decoding is a grammar, and inverse to encoding.
    - [Boost]: what is used of Boost's string algorithms, as the classes
      [BoostStrings] and [BoostStringsLaws], with an instance; [tokenize.h].
    - [UriParser]: [httpd/http_uri_parser.cpp].  Parsing an encoded path and
      query gives them back.
    - [Beast]: Boost.Beast's messages as a class, and the stock responses of
      [httpd/http_helper.cpp].
    - [Handler]: [http_handler.cpp], [http_echo_handler.cpp],
      [http_handler_factory.cpp].
    - [Router]: [http_router.cpp].  Dispatching finds the longest route.
    - [Session]: [http_session.cpp], [http_acceptor.cpp], as state machines whose
      steps are the completions of asio.  Every request read is answered in
      order; after a completion the session waits for another or is closed.
    - [SessionLifetime]: the shared pointers around the sessions; a session lives
      exactly as long as it waits for something.
    - [Initializer]: [server/initializer.cpp], [settings.h]: the settings, the
      routes and the log file, each failure as the value that [init] returns or the
      exception that leaves it.
    - [Server]: [server/main.cpp]: [main] up to [io_context::run], then the signals
      and the completions as steps; what a started server answers, how it ends.
    - [CurlClient], [CurlMemory]: [curl_client/].  The first passes header lists by
      value; the second has them on a heap, and each is freed once.
    - [Double], [P90]: binary64 as far as [1.5 * p] needs it; the estimator of
      [process/aps_p90_estimator.cpp] gives a 90th percentile of a window.
    - [Aps]: the scheduler's data, queue and storage ([process/aps_*.h]).
    - [LockedClasses]: queue, storage and estimator shared by threads, on [Mutex]; the
      queue's two calls that do not lock race with those that write.
    - [Scheduler]: [process/aps_scheduler.cpp], each callback a definition, the
      state with the process manager in it, and [step] for one callback.
    - [SlotPool]: the abstract scheduler, a pool of slots, the invariants [safe]
      (any run) and [exact] (no id submitted twice), and one lemma per callback.
    - [SchedulerTheorems]: the properties of whole runs.
    - [SchedulerLiveness]: infinite sequences of callbacks; in a fair one every job
      leaves the queue and then the table for good, with an exit that the storage
      answers for, or stays without a process, when its last spawn failed.
    - [SchedulerExceptions]: the callbacks with the state that an exception of the
      process manager leaves; what each exception costs.
    - [QueueThreads]: [process/aps_pending_queue.cpp] between threads: jobs pushed
      while a turn of the loop is in progress, which takes effect at once unless a
      push races with the unlocked [front].
    - [ProcessManager]: [process/process_handler.cpp], [process_manager.cpp].
    - [ManagerThreads]: the manager's calls by several threads, cut where the mutex
      is released; each takes effect at once, except where a removal meets a wait.
    - [HandlerLifetime]: the reads that asio has while handlers are removed; one that
      outlives its handler is undefined, and the scheduler starts none.
    - [SchedulerProcesses]: the scheduler run on [ProcessManager]'s manager: the
      jobs of its table are the processes of the manager's map.

    ** How the parts are joined

    A client is proved against an interface, a class that its implementation
    instantiates: [Session] against [Dispatcher] (the instance is [Router]'s),
    [Scheduler] against [Finished_IStorage] (the instance is [Aps]'s) and
    [Process_Manager_I] (the instance is [ProcessManager]'s), [UriParser] and
    [Router] against [BoostStrings], [Handler] against [Beast], [Initializer]
    against [Json] and [Files], [Server] against [Asio].  Third-party code is always
    such a class or an argument; its laws are documented behaviour, and an instance
    shows that they can hold.  Two files put components together: [Server] starts
    with [Initializer] and serves with [Session] over the [Router] it configured;
    [SchedulerProcesses] runs [Scheduler] on [ProcessManager], which keeps the two
    promises asked of a manager: [Process_Manager_Laws] (its calls return) when the
    system's operations do, [Process_Manager_Keeps] (they may throw) in any case.

    ** Conventions

    A function that changes an object takes and returns it.  Singletons
    ([HTTP_Router::instance()], ...) are arguments.  What asio, the kernel, the
    clock or a random source decides is an argument or a step of the environment,
    in any order.  Mutexes make calls atomic, so a call is a function;
    [LruThreads] and [LockedClasses] prove that it is one, and [ManagerThreads] and
    [QueueThreads] take apart what is not, into steps that interleave.
    [size_t] is 64 bits where the code computes with it ([u64]), and a length
    otherwise.
    Loops with a structural reading are fixpoints; the others run with fuel, which
    is the length of what they walk ([PathNormalize], [Router]), two passes
    ([Sprintf]) or the number of retries ([Backoff]), and theorems say that the
    result is there.

    ** What is not modelled

    Logging, except for the log file's name and its directory; the aliases of the
    message types; the build and packaging files; the tests, whose cases are the
    examples of [PathNormalize], [UriParser] and [Router].  Left out are what an object
    looks like after a call threw in its middle (except for the scheduler, in
    [SchedulerExceptions]; the server's exceptions end it), and a second thread in
    [io_context::run] (the program has one).  That a signal stops the process until
    it is continued is a delay, and no step ([Server]). *)

From Stdlib Require Export Ascii ZArith Lia.
From stdpp Require Export base tactics option gmap strings numbers list.

(** ** Strings

    [std::string] is a list of 8-bit characters; [lit] turns a literal into
    one.  [None] stands for [std::string::npos]. *)

Abbreviation str := (list ascii).

Definition lit (s : string) : str := String.list_ascii_of_string s.

Declare Scope inks_scope.
Delimit Scope inks_scope with inks.
Open Scope inks_scope.

(** [s.find(c)]. *)
Definition str_find (c : ascii) (s : str) : option nat := fst <$> list_find (c =.) s.

Fixpoint rfind_down (c : ascii) (s : str) (i : nat) : option nat :=
  if decide (s !! i = Some c) then Some i
  else match i with O => None | S i' => rfind_down c s i' end.

(** [s.rfind(c, pos)]: the last occurrence at an index [<= pos]. *)
Definition str_rfind (c : ascii) (pos : nat) (s : str) : option nat :=
  match s with
  | [] => None
  | _ => rfind_down c s (pos `min` (length s - 1))
  end.

(** [s.substr(pos, n)], for [pos <= s.size()]. *)
Definition substr (pos n : nat) (s : str) : str := take n (drop pos s).

(** ** Outcomes

    A C++ call returns, throws, or has undefined behaviour (an iterator or a
    pointer that refers to nothing, [back()] of an empty container, ...). *)

Inductive outcome (A : Type) : Type :=
| Ret (a : A)
| Throw (what : str)
| UB.
Arguments Ret {A} a.
Arguments Throw {A} what.
Arguments UB {A}.

Definition obind {A B} (m : outcome A) (k : A → outcome B) : outcome B :=
  match m with
  | Ret a => k a
  | Throw w => Throw w
  | UB => UB
  end.

Notation "'let!' x := m 'in' k" := (obind m (λ x, k))
  (at level 10, x name, k at level 200) : inks_scope.
Notation "'let!' ' p := m 'in' k" := (obind m (λ x, match x with p => k end))
  (at level 10, p pattern, k at level 200) : inks_scope.

(** Dereferencing: a missing object is undefined behaviour. *)
Definition deref {A} (o : option A) : outcome A :=
  match o with Some a => Ret a | None => UB end.

Lemma obind_ret {A} (m : outcome A) : obind m Ret = m.
Proof. by destruct m. Qed.

Lemma obind_assoc {A B C} (m : outcome A) (f : A → outcome B) (g : B → outcome C) :
  obind (obind m f) g = obind m (λ x, obind (f x) g).
Proof. by destruct m. Qed.

Lemma obind_Ret_inv {A B} (m : outcome A) (k : A → outcome B) b :
  obind m k = Ret b → ∃ a, m = Ret a ∧ k a = Ret b.
Proof. destruct m; naive_solver. Qed.

(** It returns or throws, and what it returns satisfies [P]. *)
Definition defined {A} (P : A → Prop) (o : outcome A) : Prop :=
  match o with Ret a => P a | Throw _ => True | UB => False end.

Lemma defined_bind {A B} (P : A → Prop) (Q : B → Prop) (o : outcome A) (k : A → outcome B) :
  defined P o → (∀ a, P a → defined Q (k a)) → defined Q (obind o k).
Proof. destruct o; simpl; auto. Qed.

Lemma defined_mono {A} (P Q : A → Prop) (o : outcome A) : (∀ a, P a → Q a) → defined P o → defined Q o.
Proof. destruct o; simpl; auto. Qed.

Lemma defined_not_UB {A} (o : outcome A) : o ≠ UB → defined (λ _, True) o.
Proof. by destruct o. Qed.

(** ** Loops

    A [while] loop whose body either continues with a new state or leaves
    with a result, run with fuel. *)

Section Loop.
Context {St R : Type} (body : St → St + R).

Fixpoint loop (fuel : nat) (s : St) : option R :=
  match fuel with
  | O => None
  | S fuel' =>
      match body s with
      | inl s' => loop fuel' s'
      | inr r => Some r
      end
  end.

Lemma loop_mono n n' s r : loop n s = Some r → n ≤ n' → loop n' s = Some r.
Proof.
  revert n' s; induction n as [|n IH]; intros [|n'] s; simpl; try done || lia.
  destruct (body s) as [s'|r']; [|done]. intros H ?. apply IH; [done|lia].
Qed.

(** A measure that every iteration decreases under an invariant gives a
    result that satisfies the postcondition. *)
Lemma loop_total (I : St → Prop) (Q : R → Prop) (m : St → nat) fuel s :
  (∀ s s', I s → body s = inl s' → I s' ∧ m s' < m s) →
  (∀ s r, I s → body s = inr r → Q r) →
  I s → m s < fuel →
  ∃ r, loop fuel s = Some r ∧ Q r.
Proof.
  intros Hstep Hexit. revert s; induction fuel as [|fuel IH]; intros s HI Hm; [lia|].
  simpl. destruct (body s) as [s'|r] eqn:E; [|eauto].
  destruct (Hstep _ _ HI E) as [HI' Hlt]. apply IH; [done|lia].
Qed.

(** The loop computes [f] when [f] is invariant under an iteration and is
    the result on exit. *)
Lemma loop_computes (I : St → Prop) (f : St → R) (m : St → nat) fuel s :
  (∀ s s', I s → body s = inl s' → I s' ∧ m s' < m s ∧ f s' = f s) →
  (∀ s r, I s → body s = inr r → f s = r) →
  I s → m s < fuel →
  loop fuel s = Some (f s).
Proof.
  intros Hstep Hexit. revert s; induction fuel as [|fuel IH]; intros s HI Hm; [lia|].
  simpl. destruct (body s) as [s'|r] eqn:E.
  - destruct (Hstep _ _ HI E) as (HI' & Hlt & <-). apply IH; [done|lia].
  - by rewrite (Hexit _ _ HI E).
Qed.
End Loop.

(** ** Machine integers

    A [w]-bit unsigned value is a [Z] in [0, 2^w); [wrap] is the conversion
    to it. *)

Definition wrap (w z : Z) : Z := (z mod 2 ^ w)%Z.

Abbreviation u16 := (wrap 16).
Abbreviation u32 := (wrap 32).
Abbreviation u64 := (wrap 64).

Definition UINT_MAX : Z := 4294967295.

Lemma wrap_small w z : (0 ≤ z < 2 ^ w)%Z → wrap w z = z.
Proof. apply Z.mod_small. Qed.

Lemma wrap_bound w z : (0 ≤ w)%Z → (0 ≤ wrap w z < 2 ^ w)%Z.
Proof. intros. apply Z.mod_pos_bound. lia. Qed.

Lemma wrap_wrap w z : (0 ≤ w)%Z → wrap w (wrap w z) = wrap w z.
Proof. intros. apply wrap_small, wrap_bound; done. Qed.

(** The conversion of an integer to a 32-bit [int]. *)
Definition int32 (z : Z) : Z := (let w := wrap 32 z in if w <? 2 ^ 31 then w else w - 2 ^ 32)%Z.

Lemma int32_small z : (0 ≤ z < 2 ^ 31)%Z → int32 z = z.
Proof. intros. unfold int32. rewrite wrap_small by lia. by rewrite (proj2 (Z.ltb_lt _ _)) by lia. Qed.

Create HintDb inks discriminated.
#[export] Hint Resolve wrap_small wrap_bound : inks.

(** Induction on the length of a list. *)
Lemma list_len_ind {A} (P : list A → Prop) :
  (∀ l, (∀ l', length l' < length l → P l') → P l) → ∀ l, P l.
Proof.
  intros H l. assert (∀ n l, length l < n → P l) as Hn; [|eauto].
  clear l. induction n as [|n IH]; intros l Hl; [lia|].
  apply H. intros l' Hl'. apply IH. lia.
Qed.

Lemma filter_id {A} (P : A → Prop) `{∀ x, Decision (P x)} (l : list A) :
  (∀ x, x ∈ l → P x) → filter P l = l.
Proof.
  induction l as [|x l IH]; intros Hl; [done|].
  rewrite filter_cons_True by (apply Hl; set_solver). f_equal. apply IH. set_solver.
Qed.

Lemma list_delete_insert {A} (l : list A) i x : delete i (<[i := x]> l) = delete i l.
Proof. rewrite !delete_take_drop, take_insert_ge, drop_insert_lt by lia. done. Qed.

(** ** Lists with a key

    [f] is injective on the list: the way a container indexes its elements. *)

Section Keyed.
Context {A K : Type} `{EqDecision K} (f : A → K).

Lemma keyed_inj l x y : NoDup (f <$> l) → x ∈ l → y ∈ l → f x = f y → x = y.
Proof.
  intros Hnd [i Hi]%list_elem_of_lookup [j Hj]%list_elem_of_lookup Hf.
  assert (i = j) as ->; [|congruence].
  eapply NoDup_lookup; [done|by rewrite list_lookup_fmap, Hi|].
  by rewrite list_lookup_fmap, Hj, Hf.
Qed.

Lemma keyed_find l i x :
  NoDup (f <$> l) → l !! i = Some x → list_find (λ y, f y = f x) l = Some (i, x).
Proof.
  intros Hnd Hi. apply list_find_Some. split_and!; [done..|].
  intros j y Hj Hlt Hf. assert (j = i); [|lia].
  eapply NoDup_lookup; [done|by rewrite list_lookup_fmap, Hj|].
  by rewrite list_lookup_fmap, Hi, Hf.
Qed.

Lemma keyed_filter_delete l i x :
  NoDup (f <$> l) → l !! i = Some x → filter (λ y, f y ≠ f x) l = delete i l.
Proof.
  revert i. induction l as [|y l IH]; intros i Hnd Hi; [done|].
  apply NoDup_cons in Hnd as [Hy Hnd]. destruct i as [|i]; simplify_eq/=.
  - rewrite filter_cons_False by naive_solver. apply filter_id. intros z Hz Hf.
    apply Hy. rewrite <-Hf. by apply list_elem_of_fmap_2.
  - rewrite filter_cons_True; [f_equal; by apply IH|].
    intros Hz. apply Hy. rewrite Hz. apply list_elem_of_fmap. exists x. split; [done|].
    by eapply list_elem_of_lookup_2.
Qed.

Lemma keyed_delete l i : NoDup (f <$> l) → NoDup (f <$> delete i l).
Proof.
  intros Hnd. eapply sublist_NoDup; [done|].
  rewrite list_fmap_delete. apply sublist_delete.
Qed.

Lemma keyed_elem_delete l i x y :
  NoDup (f <$> l) → l !! i = Some x → y ∈ delete i l ↔ y ∈ l ∧ f y ≠ f x.
Proof.
  intros Hnd Hi. rewrite <-(keyed_filter_delete _ _ _ Hnd Hi), list_elem_of_filter. tauto.
Qed.
End Keyed.
