(* ===== verification/Paths.v ===== *)
(** [std::filesystem::path] on POSIX, as far as [server/initializer.cpp] uses it:
    [operator/] and [replace_extension] on path names. *)

From S2P Require Import Prelude.

Definition slash : ascii := "/"%char.
Definition dot : ascii := "."%char.

(** ** The operations *)

Definition is_absolute (p : str) : bool := bool_decide (head p = Some slash).

(** [p.filename()]: what follows the last slash. *)
Definition filename (p : str) : str :=
  match str_rfind slash (length p) p with None => p | Some i => drop (S i) p end.

(** [p / q]. *)
Definition path_append (p q : str) : str :=
  if is_absolute q then q
  else if bool_decide (filename p = []) then p ++ q
  else p ++ [slash] ++ q.

(** Where the extension of a file name starts: its last dot, unless that is its
    first character. *)
Definition extension_start (f : str) : option nat :=
  if bool_decide (f = [dot]) || bool_decide (f = [dot; dot]) then None
  else match str_rfind dot (length f) f with Some 0 => None | r => r end.

(** [p] without [p.extension()]. *)
Definition remove_extension (p : str) : str :=
  match extension_start (filename p) with
  | None => p
  | Some i => take (length p - length (filename p) + i) p
  end.

(** [p.replace_extension(e)]. *)
Definition replace_extension (e p : str) : str :=
  if bool_decide (e = []) || bool_decide (head e = Some dot)
  then remove_extension p ++ e
  else remove_extension p ++ [dot] ++ e.

(** ** Lemmas *)

Lemma rfind_down_None c s i : c ∉ s → rfind_down c s i = None.
Proof.
  intros Hc. assert (∀ j, s !! j ≠ Some c) as Hj by (intros j ?%list_elem_of_lookup_2; done).
  induction i as [|i IH]; simpl; by rewrite decide_False.
Qed.

Lemma str_rfind_None c pos s : c ∉ s → str_rfind c pos s = None.
Proof. intros. destruct s; [done|]. by apply rfind_down_None. Qed.

(** The last occurrence, given what follows it. *)
Lemma rfind_down_last c (a b : str) i :
  c ∉ b → length a ≤ i → rfind_down c (a ++ c :: b) i = Some (length a).
Proof.
  intros Hb. induction i as [|i IH]; intros Hi; simpl; case_decide as H.
  - f_equal. lia.
  - destruct H. destruct a; [done|simpl in *; lia].
  - f_equal. destruct (decide (S i = length a)) as [|Hne]; [done|]. destruct Hb.
    rewrite lookup_app_r in H by lia. replace (S i - length a) with (S (i - length a)) in H by lia.
    exact (list_elem_of_lookup_2 b (i - length a) c H).
  - apply IH. destruct (decide (S i = length a)) as [E|]; [|lia]. destruct H. rewrite E.
    by apply list_lookup_middle.
Qed.

Lemma str_rfind_last c (a b : str) pos :
  c ∉ b → length a ≤ pos → str_rfind c pos (a ++ c :: b) = Some (length a).
Proof.
  intros Hb Hpos. unfold str_rfind. rewrite length_app. simpl.
  destruct (a ++ c :: b) eqn:E; [by destruct a|]. rewrite <-E. apply rfind_down_last; [done|lia].
Qed.

Lemma filename_append d (f : str) : slash ∉ f → filename (d ++ slash :: f) = f.
Proof.
  intros Hf. unfold filename. rewrite str_rfind_last by (rewrite ?length_app; simpl; done || lia).
  rewrite drop_app_ge by lia. by replace (S (length d) - length d) with 1 by lia.
Qed.

Lemma path_append_relative d (f : str) :
  filename d ≠ [] → slash ∉ f → path_append d f = d ++ [slash] ++ f.
Proof.
  intros Hd Hf. unfold path_append, is_absolute. rewrite bool_decide_false.
  - by rewrite bool_decide_false.
  - destruct f; [done|]. set_solver.
Qed.

Lemma extension_start_None (f : str) : dot ∉ f → extension_start f = None.
Proof.
  intros Hf. unfold extension_start.
  rewrite str_rfind_None by done. by case_match.
Qed.

Lemma extension_start_last (a b : str) :
  a ≠ [] → head a ≠ Some dot → dot ∉ b → extension_start (a ++ dot :: b) = Some (length a).
Proof.
  intros Ha Hda Hb. unfold extension_start. assert (∃ x a', a = x :: a' ∧ x ≠ dot) as (x & a' & -> & Hx).
  { destruct a as [|x a']; [done|]. exists x, a'. split; [done|]. intros ->. done. }
  rewrite !bool_decide_false by (simpl; congruence). simpl orb. cbv iota.
  rewrite str_rfind_last by (rewrite ?length_app; simpl; done || lia). done.
Qed.

(** The whole path of a file [f] without a dot in a directory [d]. *)
Lemma replace_extension_plain d (f e : str) :
  slash ∉ f → dot ∉ f → head e = Some dot →
  replace_extension e (d ++ slash :: f) = d ++ slash :: f ++ e.
Proof.
  intros Hf Hd He. unfold replace_extension, remove_extension. rewrite filename_append by done.
  rewrite extension_start_None by done. rewrite (bool_decide_true (head e = _)), orb_true_r by done.
  by rewrite <-app_assoc.
Qed.

(** What follows the last dot of a file name is dropped. *)
Lemma replace_extension_dotted d (a b e : str) :
  slash ∉ a → slash ∉ b → a ≠ [] → head a ≠ Some dot → dot ∉ b → head e = Some dot →
  replace_extension e (d ++ slash :: a ++ dot :: b) = d ++ slash :: a ++ e.
Proof.
  intros Hsa Hsb Ha Hda Hdb He. unfold replace_extension, remove_extension.
  assert (slash ∉ a ++ dot :: b) by (rewrite elem_of_app, elem_of_cons; intros [|[[=]|]]; done).
  rewrite filename_append, extension_start_last by done.
  rewrite (bool_decide_true (head e = _)), orb_true_r by done.
  rewrite take_app_ge by (rewrite length_app; simpl; rewrite ?length_app; simpl; lia).
  rewrite <-app_assoc. f_equal.
  match goal with |- take ?n _ ++ _ = _ => replace n with (S (length a)) by (rewrite !length_app; simpl; rewrite ?length_app; simpl; lia) end.
  simpl. by rewrite take_app_length.
Qed.

Example join_paths :
  path_append (lit "/etc/inks/conf") (lit "inks.conf") = lit "/etc/inks/conf/inks.conf" ∧
  path_append (lit "/etc/") (lit "inks.conf") = lit "/etc/inks.conf" ∧
  path_append (lit "/etc") (lit "/abs") = lit "/abs" ∧ path_append [] (lit "a") = lit "a".
Proof. repeat split. Qed.

Example extensions :
  replace_extension (lit ".log") (lit "/var/log/inks/inks") = lit "/var/log/inks/inks.log" ∧
  replace_extension (lit "log") (lit "a.b/c.d.e") = lit "a.b/c.d.log" ∧
  replace_extension (lit ".log") (lit "a/.hidden") = lit "a/.hidden.log" ∧
  replace_extension (lit ".log") (lit "..") = lit "...log" ∧ replace_extension [] (lit "a.b") = lit "a".
Proof. repeat split. Qed.
