(* ===== verification/PathNormalize.v ===== *)
(** Lexical path normalisation: [foundation/path_normalize.h].

    The scanner works on positions as the source does; [tokens] and
    [normalize_tokens] are the reference the scanner is proved equal to, and
    [resolve] is the meaning of a path, a walk from a working directory. *)

From S2P Require Import Prelude.

Section PathNormalize.
Context {T : Type} `{EqDecision T}.

(** [sep] is the separator, [dot_char] is [static_cast<T>('.')]. *)
Context (sep dot_char : T).

Definition dot : list T := [dot_char].
Definition dotdot : list T := [dot_char; dot_char].

(** ** The code *)

(** [while (pos < size && path[pos] == sep) ++pos;] *)
Definition skip_sep_body (path : list T) (pos : nat) : nat + nat :=
  if decide (pos < length path ∧ path !! pos = Some sep) then inl (S pos) else inr pos.

Definition skip_sep (path : list T) (pos : nat) : option nat :=
  loop (skip_sep_body path) (S (length path)) pos.

(** [while (end < size && path[end] != sep) ++end;] *)
Definition scan_token_body (path : list T) (end_ : nat) : nat + nat :=
  if decide (end_ < length path ∧ path !! end_ ≠ Some sep) then inl (S end_) else inr end_.

Definition scan_token (path : list T) (end_ : nat) : option nat :=
  loop (scan_token_body path) (S (length path)) end_.

(** What one token does to [segments]. *)
Definition push_segment (is_absolute : bool) (segments : list (list T)) (token : list T)
    : list (list T) :=
  if decide (token = dot) then segments
  else if decide (token = dotdot) then
    if decide (segments ≠ [] ∧ (last segments ≠ Some dotdot)) then removelast segments
    else if is_absolute then segments else segments ++ [token]
  else segments ++ [token].

(** One iteration of the outer loop; [None] when a scan ran out of fuel. *)
Definition segment_body (path : list T) (is_absolute : bool)
    (s : nat * list (list T)) : (nat * list (list T)) + option (list (list T)) :=
  let '(pos, segments) := s in
  if decide (pos < length path) then
    match skip_sep path pos with
    | None => inr None
    | Some pos =>
        if decide (length path ≤ pos) then inr (Some segments)
        else match scan_token path pos with
             | None => inr None
             | Some end_ =>
                 let token := take (end_ - pos) (drop pos path) in
                 inl (end_, push_segment is_absolute segments token)
             end
    end
  else inr (Some segments).

(** The [for] loop that appends the segments to [normalized]. *)
Definition append_segment (normalized : list T) (p : nat * list T) : list T :=
  let '(i, segment) := p in
  (if decide (0 < i) then normalized ++ [sep] else normalized) ++ segment.

Definition append_segments (normalized : list T) (segments : list (list T)) : list T :=
  foldl append_segment normalized (imap pair segments).

Definition path_normalize (path : list T) : option (list T) :=
  match path with
  | [] => Some []
  | front :: _ =>
      let is_absolute := bool_decide (front = sep) in
      segments ← mjoin (loop (segment_body path is_absolute) (S (length path)) (0, []));
      Some (append_segments (if is_absolute then [sep] else []) segments)
  end.

(** [path_normalize_copy]: the same on a copy of the argument. *)
Definition path_normalize_copy (path : list T) : option (list T) :=
  let res := path in path_normalize res.

(** ** Reference definitions *)

Fixpoint split_sep (p : list T) : list (list T) :=
  match p with
  | [] => [[]]
  | c :: p' =>
      if decide (c = sep) then [] :: split_sep p'
      else match split_sep p' with
           | [] => [[c]]
           | h :: t => (c :: h) :: t
           end
  end.

(** The non-empty segments of a path. *)
Definition tokens (p : list T) : list (list T) := filter (λ t, t ≠ []) (split_sep p).

Definition absolute (p : list T) : bool := bool_decide (head p = Some sep).

Definition normalize_tokens (is_absolute : bool) (ts : list (list T)) : list (list T) :=
  foldl (push_segment is_absolute) [] ts.

Fixpoint join_sep (segs : list (list T)) : list T :=
  match segs with
  | [] => []
  | [s] => s
  | s :: segs' => s ++ sep :: join_sep segs'
  end.

Definition root_prefix (is_absolute : bool) : list T := if is_absolute then [sep] else [].

Definition normalize_spec (p : list T) : list T :=
  root_prefix (absolute p) ++ join_sep (normalize_tokens (absolute p) (tokens p)).

(** Walking a path from a directory, given as the names below the root;
    the parent of the root is the root. *)
Definition walk1 (cwd : list (list T)) (t : list T) : list (list T) :=
  if decide (t = dot) then cwd
  else if decide (t = dotdot) then removelast cwd
  else cwd ++ [t].

Definition resolve (cwd : list (list T)) (p : list T) : list (list T) :=
  foldl walk1 (if absolute p then [] else cwd) (tokens p).

(** A name that can occur between separators. *)
Definition segment_ok (s : list T) : Prop := s ≠ [] ∧ sep ∉ s.

(** Normal forms: no [.], and [..] only as a leading run of a relative path. *)
Definition normal (is_absolute : bool) (segs : list (list T)) : Prop :=
  Forall (λ s, segment_ok s ∧ s ≠ dot) segs ∧
  ∃ n names, segs = replicate n dotdot ++ names ∧ (dotdot ∉ names) ∧
             (is_absolute = true → n = 0).

(** ** Tokens *)

Lemma tokens_nil : tokens [] = [].
Proof. done. Qed.

Lemma tokens_sep p : tokens (sep :: p) = tokens p.
Proof. unfold tokens. simpl. rewrite decide_True by done. by rewrite filter_cons_False by naive_solver. Qed.

Lemma split_sep_app t p :
  sep ∉ t → p = [] ∨ head p = Some sep →
  ∃ ts, split_sep (t ++ p) = t :: ts ∧ filter (λ t, t ≠ []) ts = tokens p.
Proof.
  intros Ht Hp. induction t as [|c t IH]; simpl.
  - destruct p as [|c p]; [by exists []|].
    destruct Hp as [|[= ->]]; [done|]. exists (split_sep p). simpl.
    rewrite decide_True by done. by rewrite tokens_sep.
  - apply not_elem_of_cons in Ht as [Hc Ht].
    destruct (IH Ht) as (ts & -> & Hts). rewrite decide_False by done. by exists ts.
Qed.

Lemma tokens_app t p :
  segment_ok t → p = [] ∨ head p = Some sep → tokens (t ++ p) = t :: tokens p.
Proof.
  intros [Hne Ht] Hp. destruct (split_sep_app t p Ht Hp) as (ts & Hs & Hts).
  unfold tokens at 1. rewrite Hs, filter_cons_True by done. by rewrite Hts.
Qed.

Lemma split_sep_no_sep p : Forall (λ t, sep ∉ t) (split_sep p).
Proof.
  induction p as [|c p IH]; simpl; [by repeat constructor; apply not_elem_of_nil|].
  case_decide; [constructor; [apply not_elem_of_nil|done]|].
  destruct (split_sep p) as [|h ts]; [by repeat constructor; rewrite list_elem_of_singleton|].
  apply Forall_cons in IH as [Hh Hts]. constructor; [|done].
  rewrite elem_of_cons. naive_solver.
Qed.

Lemma tokens_ok p : Forall segment_ok (tokens p).
Proof.
  apply Forall_forall. intros t [Hne Hin]%list_elem_of_filter. split; [done|].
  pose proof (split_sep_no_sep p) as H. rewrite Forall_forall in H. auto.
Qed.

(** ** The scanner computes the tokens *)

Lemma skip_sep_spec p pos :
  ∃ pos', skip_sep p pos = Some pos' ∧ pos ≤ pos' ∧
          p !! pos' ≠ Some sep ∧ tokens (drop pos' p) = tokens (drop pos p).
Proof.
  unfold skip_sep.
  apply (loop_total (skip_sep_body p)
           (λ q, pos ≤ q ∧ tokens (drop q p) = tokens (drop pos p)) _ (λ q, length p - q)).
  - intros q q' [Hle Ht]. unfold skip_sep_body. case_decide as Hq; [|done].
    intros [= <-]. destruct Hq as [Hlt Hq]. rewrite <-Ht, (drop_S p sep q), tokens_sep by done.
    repeat split; lia.
  - intros q r [Hle Ht]. unfold skip_sep_body. case_decide as Hq; [done|].
    intros [= <-]. repeat split; try done. intros Hs. apply Hq. split; [|done].
    by eapply lookup_lt_Some.
  - done.
  - lia.
Qed.

Lemma scan_token_spec p pos :
  pos < length p → p !! pos ≠ Some sep →
  ∃ end_, scan_token p pos = Some end_ ∧ pos < end_ ∧
          segment_ok (take (end_ - pos) (drop pos p)) ∧
          (drop end_ p = [] ∨ head (drop end_ p) = Some sep).
Proof.
  intros Hlt Hne. unfold scan_token.
  apply (loop_total (scan_token_body p)
           (λ q, pos ≤ q ∧ (sep ∉ take (q - pos) (drop pos p)) ∧ (q = pos ∨ pos < q))
           _ (λ q, length p - q)).
  - intros q q' (Hle & Hs & _). unfold scan_token_body. case_decide as Hq; [|done].
    intros [= <-]. destruct Hq as [Hq1 Hq2]. repeat split; [lia| |lia|lia].
    apply lookup_lt_is_Some in Hq1 as [c Hc].
    rewrite Nat.sub_succ_l by lia.
    rewrite (take_S_r _ _ c) by (rewrite lookup_drop; by replace (pos + (q - pos)) with q by lia).
    rewrite elem_of_app, list_elem_of_singleton. naive_solver.
  - intros q r (Hle & Hs & Hcase). unfold scan_token_body. case_decide as Hq; [done|].
    intros [= <-]. apply not_and_l in Hq as [Hq|Hq].
    + assert (length p ≤ q) by lia. repeat split; [lia| |done|].
      * rewrite <-length_zero_iff_nil, length_take, length_drop. lia.
      * left. by apply drop_ge.
    + apply dec_stable in Hq. destruct Hcase as [->|Hgt]; [done|].
      repeat split; [done| |done|].
      * apply lookup_lt_Some in Hq. rewrite <-length_zero_iff_nil, length_take, length_drop. lia.
      * right. by rewrite (drop_S _ _ _ Hq).
  - repeat split; [lia| |by left]. rewrite Nat.sub_diag. apply not_elem_of_nil.
  - lia.
Qed.

Lemma segment_body_spec p abs pos segs :
  (∃ pos' t, segment_body p abs (pos, segs) = inl (pos', push_segment abs segs t) ∧
             pos < pos' ∧ pos < length p ∧
             tokens (drop pos p) = t :: tokens (drop pos' p)) ∨
  (segment_body p abs (pos, segs) = inr (Some segs) ∧ tokens (drop pos p) = []).
Proof.
  simpl. case_decide as Hpos; [|right; split; [done|]; rewrite drop_ge by lia; done].
  destruct (skip_sep_spec p pos) as (q & -> & Hle & Hq & <-).
  case_decide as Hge; [right; split; [done|]; rewrite drop_ge by lia; done|].
  destruct (scan_token_spec p q) as (e & -> & Hlt & Hok & Hrest); [lia|done|].
  left. eexists e, _. repeat split; [lia|done|].
  rewrite <-(take_drop (e - q) (drop q p)) at 1. rewrite drop_drop.
  replace (q + (e - q)) with e by lia. by apply tokens_app.
Qed.

(** The outer loop folds [push_segment] over the tokens. *)
Lemma segments_loop p abs :
  loop (segment_body p abs) (S (length p)) (0, []) = Some (Some (normalize_tokens abs (tokens p))).
Proof.
  rewrite <-(drop_0 p) at 3.
  apply (loop_computes (segment_body p abs) (λ _, True)
           (λ s, Some (foldl (push_segment abs) s.2 (tokens (drop s.1 p)))) (λ s, length p - s.1));
    [| |done|simpl; lia].
  - intros [pos segs] s' _ Hb.
    destruct (segment_body_spec p abs pos segs) as [(pos' & t & Heq & ? & ? & Htok)|[Heq _]];
      rewrite Heq in Hb; simplify_eq/=.
    rewrite Htok. split_and!; [done|lia|done].
  - intros [pos segs] r _ Hb.
    destruct (segment_body_spec p abs pos segs) as [(pos' & t & Heq & _)|[Heq Htok]];
      rewrite Heq in Hb; simplify_eq/=. by rewrite Htok.
Qed.

(** ** Joining *)

Lemma append_segments_gen n acc segs :
  0 < n →
  foldl append_segment acc (imap (λ i s, (n + i, s)) segs) = acc ++ mjoin (cons sep <$> segs).
Proof.
  revert n acc. induction segs as [|s segs IH]; intros n acc Hn; simpl; [by rewrite app_nil_r|].
  rewrite decide_True by lia.
  rewrite (imap_ext _ (λ i s, (S n + i, s))) by (intros; simpl; f_equal; lia).
  rewrite IH by lia. rewrite <-!app_assoc. done.
Qed.

Lemma join_sep_cons s segs : join_sep (s :: segs) = s ++ mjoin (cons sep <$> segs).
Proof.
  revert s. induction segs as [|s' segs IH]; intros s; simpl; [by rewrite app_nil_r|].
  rewrite <-IH. done.
Qed.

Lemma append_segments_join acc segs : append_segments acc segs = acc ++ join_sep segs.
Proof.
  unfold append_segments. destruct segs as [|s segs]; [by rewrite app_nil_r|].
  rewrite join_sep_cons. simpl. rewrite app_assoc.
  rewrite (imap_ext _ (λ i s, (1 + i, s))) by done.
  by rewrite append_segments_gen by lia.
Qed.

Lemma path_normalize_eq p : path_normalize p = Some (normalize_spec p).
Proof.
  destruct p as [|c p]; [done|].
  unfold path_normalize. rewrite segments_loop. simpl.
  rewrite append_segments_join. unfold normalize_spec, absolute, root_prefix. simpl.
  rewrite (bool_decide_ext (Some c = Some sep) (c = sep)) by naive_solver. done.
Qed.

(** ** Normal forms *)

Lemma dotdot_neq_dot : dotdot ≠ dot.
Proof. done. Qed.

Lemma last_replicate_dotdot n : n ≠ 0 → last (replicate n dotdot) = Some dotdot.
Proof. intros. destruct n; [done|]. by rewrite replicate_S_end, last_snoc. Qed.

Lemma normal_last n names :
  dotdot ∉ names → last (replicate n dotdot ++ names) = Some dotdot → names = [].
Proof.
  intros Hn. destruct names as [|x names _] using rev_ind; [done|].
  rewrite app_assoc, last_snoc. intros [= ->]. set_solver.
Qed.

Lemma push_segment_normal abs segs t :
  segment_ok t → normal abs segs → normal abs (push_segment abs segs t).
Proof.
  intros Ht [Hall (n & names & -> & Hdd & Habs)]. unfold push_segment.
  case_decide as Hdot; [split; eauto|].
  case_decide as Hdotdot; [case_decide as Hb|].
  - destruct Hb as [Hne Hlast].
    destruct names as [|x names _] using rev_ind.
    { rewrite app_nil_r in *. destruct n; [done|]. by rewrite last_replicate_dotdot in Hlast. }
    rewrite app_assoc, removelast_last. split.
    + rewrite app_assoc in Hall. by apply Forall_app in Hall as [? _].
    + exists n, names. set_solver.
  - assert (names = []) as ->.
    { destruct names as [|x names]; [done|]. apply not_and_l in Hb as [Hb|Hb].
      - by destruct n; apply dec_stable in Hb.
      - apply dec_stable in Hb. by apply (normal_last n). }
    rewrite app_nil_r in *. destruct abs; [split; [done|]; exists n, []; by rewrite app_nil_r|].
    subst. split; [apply Forall_app; split; [done|]; by apply Forall_singleton|].
    exists (S n), []. by rewrite app_nil_r, replicate_S_end.
  - split; [apply Forall_app; split; [done|]; by apply Forall_singleton|].
    exists n, (names ++ [t]). rewrite app_assoc. set_solver.
Qed.

Lemma normal_nil abs : normal abs [].
Proof. split; [done|]. exists 0, []. set_solver. Qed.

Lemma normalize_tokens_normal abs ts : Forall segment_ok ts → normal abs (normalize_tokens abs ts).
Proof.
  unfold normalize_tokens. generalize (normal_nil abs). generalize (@nil (list T)).
  induction ts as [|t ts IH]; intros segs Hs Hts; [done|].
  apply Forall_cons in Hts as [??]. simpl. apply IH; [by apply push_segment_normal|done].
Qed.

Lemma foldl_push_names abs acc names :
  Forall (λ s, s ≠ dot) names → dotdot ∉ names →
  foldl (push_segment abs) acc names = acc ++ names.
Proof.
  revert acc. induction names as [|s names IH]; intros acc Hd Hdd; simpl; [by rewrite app_nil_r|].
  apply Forall_cons in Hd as [??]. apply not_elem_of_cons in Hdd as [??].
  unfold push_segment at 2. rewrite !decide_False by done.
  rewrite IH by done. by rewrite <-app_assoc.
Qed.

Lemma foldl_push_dotdot m n :
  foldl (push_segment false) (replicate m dotdot) (replicate n dotdot) = replicate (m + n) dotdot.
Proof.
  revert m. induction n as [|n IH]; intros m; simpl; [by rewrite Nat.add_0_r|].
  unfold push_segment at 2. rewrite decide_False, decide_True by done.
  rewrite decide_False.
  - rewrite <-replicate_S_end, IH. f_equal. lia.
  - intros [Hne Hl]. destruct m; [done|]. by rewrite last_replicate_dotdot in Hl.
Qed.

Lemma normalize_tokens_id abs segs : normal abs segs → normalize_tokens abs segs = segs.
Proof.
  intros [Hall (n & names & -> & Hdd & Habs)]. unfold normalize_tokens.
  rewrite foldl_app. apply Forall_app in Hall as [_ Hall].
  assert (foldl (push_segment abs) [] (replicate n dotdot) = replicate n dotdot) as ->.
  { destruct abs; [by rewrite (Habs eq_refl)|]. apply (foldl_push_dotdot 0). }
  apply foldl_push_names; [|done]. eapply Forall_impl; [done|]. naive_solver.
Qed.

Lemma normal_ok abs segs : normal abs segs → Forall segment_ok segs.
Proof. intros [H _]. eapply Forall_impl; [done|]. naive_solver. Qed.

(** ** The result read back *)

Lemma tokens_cons_sep segs : Forall segment_ok segs → tokens (mjoin (cons sep <$> segs)) = segs.
Proof.
  induction 1 as [|s segs Hs _ IH]; [done|]. csimpl. rewrite tokens_sep, tokens_app; [by rewrite IH|done|].
  destruct segs; [by left|by right].
Qed.

Lemma tokens_root_join abs segs :
  Forall segment_ok segs → tokens (root_prefix abs ++ join_sep segs) = segs.
Proof.
  intros H. trans (tokens (join_sep segs)); [destruct abs; [apply tokens_sep|done]|].
  destruct H as [|s segs Hs H]; [done|].
  rewrite join_sep_cons, tokens_app; [by rewrite tokens_cons_sep|done|].
  destruct segs; [by left|by right].
Qed.

Lemma absolute_root_join abs segs :
  Forall segment_ok segs → absolute (root_prefix abs ++ join_sep segs) = abs.
Proof.
  intros H. unfold absolute. destruct abs; [by apply bool_decide_true|].
  apply bool_decide_false. simpl. destruct H as [|s segs [Hne Hs] H]; [done|].
  rewrite join_sep_cons. destruct s; [done|]. simpl. set_solver.
Qed.

Lemma normalize_spec_read p :
  absolute (normalize_spec p) = absolute p ∧
  tokens (normalize_spec p) = normalize_tokens (absolute p) (tokens p).
Proof.
  pose proof (normal_ok _ _ (normalize_tokens_normal (absolute p) _ (tokens_ok p))).
  split; [by apply absolute_root_join|by apply tokens_root_join].
Qed.

(** ** Meaning *)

Lemma walk1_snoc cwd t : t ≠ dot → t ≠ dotdot → walk1 cwd t = cwd ++ [t].
Proof. intros. unfold walk1. by rewrite !decide_False by done. Qed.

Lemma walk1_dotdot cwd : walk1 cwd dotdot = removelast cwd.
Proof. unfold walk1. by rewrite decide_False, decide_True by done. Qed.

Lemma walk_push abs cwd segs t :
  normal abs segs → (abs = true → cwd = []) →
  foldl walk1 cwd (push_segment abs segs t) = walk1 (foldl walk1 cwd segs) t.
Proof.
  intros [Hall (n & names & -> & Hdd & Habs)] Hcwd. unfold push_segment.
  case_decide as Hdot; [unfold walk1 at 2; by rewrite decide_True|].
  case_decide as Hdotdot; [|by rewrite foldl_snoc].
  case_decide as Hb; [|destruct abs; [|by rewrite foldl_snoc]].
  - destruct Hb as [Hne Hlast]. destruct names as [|x names _] using rev_ind.
    { rewrite app_nil_r in *. destruct n; [done|]. by rewrite last_replicate_dotdot in Hlast. }
    rewrite app_assoc, removelast_last, foldl_snoc.
    rewrite !Forall_app, Forall_singleton in Hall. destruct Hall as (_ & _ & _ & Hx).
    rewrite (walk1_snoc _ x) by set_solver. by rewrite Hdotdot, walk1_dotdot, removelast_last.
  - rewrite (Habs eq_refl), (Hcwd eq_refl) in *. simpl in *.
    assert (names = []) as ->; [|by rewrite Hdotdot, walk1_dotdot].
    destruct names as [|x names _] using rev_ind; [done|]. exfalso. apply Hb.
    rewrite last_snoc. split; [by destruct names|set_solver].
Qed.

Lemma walk_normalize abs cwd ts :
  Forall segment_ok ts → (abs = true → cwd = []) →
  foldl walk1 cwd (normalize_tokens abs ts) = foldl walk1 cwd ts.
Proof.
  intros Hts Hcwd. unfold normalize_tokens. induction ts as [|t ts IH] using rev_ind; [done|].
  apply Forall_app in Hts as [Hts _]. rewrite !foldl_snoc, walk_push; [by rewrite IH| |done].
  by apply normalize_tokens_normal.
Qed.

Lemma resolve_normalize cwd p : resolve cwd (normalize_spec p) = resolve cwd p.
Proof.
  destruct (normalize_spec_read p) as [Ha Ht]. unfold resolve. rewrite Ha, Ht.
  apply walk_normalize; [apply tokens_ok|by intros ->].
Qed.

(** ** Length *)

Definition weight (segs : list (list T)) : nat := sum_list_with (S ∘ length) segs.

Lemma weight_app s1 s2 : weight (s1 ++ s2) = weight s1 + weight s2.
Proof. apply sum_list_with_app. Qed.

Lemma weight_split p : weight (split_sep p) = S (length p).
Proof.
  induction p as [|c p IH]; [done|]. simpl. case_decide; [by unfold weight in *; simpl; rewrite IH|].
  destruct (split_sep p); unfold weight in *; simpl in *; lia.
Qed.

Lemma weight_filter segs : weight (filter (λ t, t ≠ []) segs) ≤ weight segs.
Proof.
  induction segs as [|s segs IH]; [done|]. rewrite filter_cons.
  unfold weight in *. case_decide; simpl; lia.
Qed.

Lemma weight_tokens p : weight (tokens p) + (if absolute p then 1 else 0) ≤ S (length p).
Proof.
  unfold absolute. case_bool_decide as H.
  - destruct p as [|c p]; [done|]. injection H as ->. rewrite tokens_sep. simpl.
    pose proof (weight_filter (split_sep p)). rewrite weight_split in H. unfold tokens. lia.
  - pose proof (weight_filter (split_sep p)). rewrite weight_split in H0. unfold tokens. lia.
Qed.

Lemma weight_push abs segs t : weight (push_segment abs segs t) ≤ weight segs + weight [t].
Proof.
  unfold push_segment. case_decide; [lia|]. case_decide; [case_decide as Hb|].
  - destruct segs as [|x segs _] using rev_ind; [simpl; lia|].
    rewrite removelast_last, weight_app. lia.
  - destruct abs; [lia|]. by rewrite weight_app.
  - by rewrite weight_app.
Qed.

Lemma weight_normalize abs ts : weight (normalize_tokens abs ts) ≤ weight ts.
Proof.
  unfold normalize_tokens. induction ts as [|t ts IH] using rev_ind; [done|].
  rewrite foldl_snoc, weight_app. pose proof (weight_push abs (foldl (push_segment abs) [] ts) t). lia.
Qed.

Lemma length_join segs : length (join_sep segs) = weight segs - 1.
Proof.
  destruct segs as [|s segs]; [done|]. rewrite join_sep_cons, length_app.
  enough (length (mjoin (cons sep <$> segs)) = weight segs) as ->; [unfold weight; simpl; lia|].
  induction segs as [|x segs IH]; [done|]. csimpl. rewrite length_app, IH. done.
Qed.

(** ** Properties *)

(** C10: [path_normalize] always terminates with a result; the result is a
    normal form (no empty or [.] segment, [..] only as a leading run and
    only in a relative path), it is absolute exactly when the argument is,
    and walking it from any directory ends where walking the argument does. *)
Theorem path_normalize_resolves (p : list T) (cwd : list (list T)) :
  ∃ q, path_normalize p = Some q ∧
       absolute q = absolute p ∧
       normal (absolute q) (tokens q) ∧
       resolve cwd q = resolve cwd p.
Proof.
  exists (normalize_spec p). rewrite path_normalize_eq.
  rewrite resolve_normalize. destruct (normalize_spec_read p) as [-> ->].
  split_and!; [done..| |done]. apply normalize_tokens_normal, tokens_ok.
Qed.

(** Normalising twice is normalising once, and the result is never
    longer than the argument. *)
Theorem path_normalize_idempotent (p : list T) :
  ∃ q, path_normalize p = Some q ∧ path_normalize q = Some q ∧ length q ≤ length p.
Proof.
  exists (normalize_spec p). rewrite !path_normalize_eq. split_and!; [done| |].
  - f_equal. destruct (normalize_spec_read p) as [Ha Ht]. unfold normalize_spec at 1.
    rewrite Ha, Ht, normalize_tokens_id; [done|]. apply normalize_tokens_normal, tokens_ok.
  - unfold normalize_spec. rewrite length_app, length_join.
    pose proof (weight_tokens p). pose proof (weight_normalize (absolute p) (tokens p)).
    destruct p; [done|]. destruct (absolute _); simpl in *; lia.
Qed.
End PathNormalize.

(** ** The cases of [tests/path_normalize_test.cpp] *)

Definition normalize_path (p : string) : option str :=
  path_normalize "/"%char "."%char (lit p).

Example collapses_dot : normalize_path "foo//./bar///baz" = Some (lit "foo/bar/baz").
Proof. reflexivity. Qed.
Example resolves_parent : normalize_path "alpha/beta/../gamma" = Some (lit "alpha/gamma").
Proof. reflexivity. Qed.
Example leading_parent : normalize_path "../../alpha/../beta" = Some (lit "../../beta").
Proof. reflexivity. Qed.
Example above_root : normalize_path "/../../alpha//beta/.." = Some (lit "/alpha").
Proof. reflexivity. Qed.
Example root_only : normalize_path "////" = Some (lit "/").
Proof. reflexivity. Qed.
Example to_empty : normalize_path "././." = Some [].
Proof. reflexivity. Qed.
