(* ===== verification/PathEquiv.v ===== *)
(** Paths that lead to the same place: what [foundation/path_normalize.h] decides.

    Two paths are equivalent when walking them from any directory ends in the same
    directory.  [path_normalize] chooses one path of each class, the shortest, so
    that comparing normal forms decides the equivalence; appending paths
    ([Paths.path_append]) respects it. *)

From S2P Require Import Prelude Paths PathNormalize.

Section Same_Place.
Context {T : Type} `{EqDecision T} (sep dot_char : T).

Abbreviation dot := (PathNormalize.dot dot_char).
Abbreviation dotdot := (PathNormalize.dotdot dot_char).
Abbreviation walk := (foldl (walk1 dot_char)).
Abbreviation normal_form := (normalize_spec sep dot_char).

(** ** The equivalence *)

(** What a directory can be called. *)
Definition name_ok (s : list T) : Prop := segment_ok sep s ∧ s ≠ dot ∧ s ≠ dotdot.

Definition directory (cwd : list (list T)) : Prop := Forall name_ok cwd.

Definition same_place (p q : list T) : Prop :=
  ∀ cwd, directory cwd → resolve sep dot_char cwd p = resolve sep dot_char cwd q.

#[export] Instance same_place_equivalence : Equivalence same_place.
Proof.
  split; [by intros p cwd|by intros p q H cwd Hd; rewrite H|].
  intros p q r Hpq Hqr cwd Hd. by rewrite Hpq, Hqr.
Qed.

Lemma normal_form_same_place p : same_place (normal_form p) p.
Proof. intros cwd _. apply resolve_normalize. Qed.

(** ** Walks *)

Lemma walk_names cwd names :
  Forall (λ s, s ≠ dot) names → dotdot ∉ names → walk cwd names = cwd ++ names.
Proof.
  revert cwd. induction names as [|s names IH]; intros cwd Hd Hdd; simpl; [by rewrite app_nil_r|].
  apply Forall_cons in Hd as [??]. apply not_elem_of_cons in Hdd as [??].
  rewrite walk1_snoc, IH by done. by rewrite <-app_assoc.
Qed.

Lemma removelast_take (l : list (list T)) : removelast l = take (length l - 1) l.
Proof. rewrite removelast_firstn_len. f_equal. lia. Qed.

Lemma walk_dotdots n cwd : walk cwd (replicate n dotdot) = take (length cwd - n) cwd.
Proof.
  induction n as [|n IH]; [simpl; by rewrite Nat.sub_0_r, firstn_all|].
  rewrite replicate_S_end, foldl_snoc, IH, walk1_dotdot, removelast_take, take_take, length_take. f_equal. lia.
Qed.

Lemma walk_normal abs segs :
  normal sep dot_char abs segs →
  ∃ n names, segs = replicate n dotdot ++ names ∧ (abs = true → n = 0) ∧
    ∀ cwd, walk cwd segs = take (length cwd - n) cwd ++ names.
Proof.
  intros [Hall (n & names & -> & Hdd & Habs)]. exists n, names. split_and!; [done..|]. intros cwd.
  apply Forall_app in Hall as [_ Hall]. rewrite foldl_app, walk_dotdots. apply walk_names; [|done].
  eapply Forall_impl; [done|]. naive_solver.
Qed.

(** Walking stays among directories. *)
Lemma walk_directory cwd ts : directory cwd → Forall (segment_ok sep) ts → directory (walk cwd ts).
Proof.
  intros Hd Hts. revert cwd Hd. induction Hts as [|t ts Ht _ IH]; intros cwd Hd; [done|]. simpl. apply IH.
  unfold walk1. case_decide; [done|]. case_decide.
  - rewrite removelast_take. by apply Forall_take.
  - apply Forall_app. split; [done|]. by apply Forall_singleton.
Qed.

Lemma resolve_directory cwd p : directory cwd → directory (resolve sep dot_char cwd p).
Proof. intros Hd. apply walk_directory; [unfold absolute; case_bool_decide; [constructor|done]|apply tokens_ok]. Qed.

(** ** A name that is not among some names *)

Definition fresh (names : list (list T)) : list T := replicate (3 + sum_list_with length names) dot_char.

Lemma fresh_not_in names : fresh names ∉ names.
Proof.
  assert (∀ s, s ∈ names → length s ≤ sum_list_with length names) as H.
  { induction names as [|t names IH]; intros s; [by rewrite elem_of_nil|].
    rewrite elem_of_cons. simpl. intros [->|Hs]; [lia|]. specialize (IH s Hs). lia. }
  intros Hin. apply H in Hin. unfold fresh in Hin. rewrite length_replicate in Hin. lia.
Qed.

Context (Hsep : sep ≠ dot_char).

Lemma fresh_ok names : name_ok (fresh names).
Proof.
  split_and!; [split; [done|]|done..]. unfold fresh. intros Hin%elem_of_replicate. naive_solver.
Qed.

Lemma deep_directory n names : directory (replicate n (fresh names)).
Proof. apply Forall_replicate, fresh_ok. Qed.

(** ** Normal forms are told apart *)

(** From deep enough, going up further than the other path leaves a trace. *)
Lemma replicate_app_inj (x : list T) m1 m2 l1 l2 :
  x ∉ l1 → x ∉ l2 → replicate m1 x ++ l1 = replicate m2 x ++ l2 → m1 = m2 ∧ l1 = l2.
Proof.
  revert m2. induction m1 as [|m1 IH]; intros [|m2] H1 H2 Heq; simpl in Heq; [done|subst; set_solver..|].
  injection Heq as Heq. destruct (IH m2 H1 H2 Heq) as [-> ->]. done.
Qed.

Lemma walk_deep abs n k (names l : list (list T)) :
  (abs = true → n = 0) → n ≤ k →
  take (length (if abs : bool then [] else replicate k (fresh l)) - n) (if abs then [] else replicate k (fresh l)) ++ names =
  replicate (if abs then 0 else k - n) (fresh l) ++ names.
Proof.
  intros Habs Hk. destruct abs; [by rewrite take_nil|].
  rewrite length_replicate, take_replicate. do 2 f_equal. lia.
Qed.

Lemma normal_form_unique p q : same_place p q → normal_form p = normal_form q.
Proof.
  intros Hpq. assert (same_place (normal_form p) (normal_form q)) as H by by rewrite !normal_form_same_place.
  destruct (normalize_spec_read sep dot_char p) as [Hap Htp], (normalize_spec_read sep dot_char q) as [Haq Htq].
  unfold same_place, resolve in H. rewrite Hap, Haq, Htp, Htq in H.
  unfold normalize_spec. set (a := absolute sep p) in *. set (b := absolute sep q) in *.
  set (ps := normalize_tokens _ a _) in *. set (qs := normalize_tokens _ b _) in *.
  destruct (walk_normal a ps) as (n & names & Hps & Ha & Hw1); [apply normalize_tokens_normal, tokens_ok|].
  destruct (walk_normal b qs) as (m & names' & Hqs & Hb & Hw2); [apply normalize_tokens_normal, tokens_ok|].
  specialize (H _ (deep_directory (S (n + m)) (names ++ names'))). rewrite Hw1, Hw2, !walk_deep in H by (done || lia).
  pose proof (fresh_not_in (names ++ names')) as Hf. apply not_elem_of_app in Hf as [Hf1 Hf2].
  apply replicate_app_inj in H as [Hnm ->]; [|done..].
  rewrite Hps, Hqs. destruct a, b; [..|lia|lia|].
  - by rewrite Ha, Hb.
  - by replace n with m by lia.
Qed.

Lemma same_place_normal_form p q : same_place p q ↔ normal_form p = normal_form q.
Proof.
  split; [apply normal_form_unique|]. intros H.
  by rewrite <-(normal_form_same_place p), <-(normal_form_same_place q), H.
Qed.

#[export] Instance path_normalize_proper : Proper (same_place ==> eq) (path_normalize sep dot_char).
Proof. intros p q H. rewrite !path_normalize_eq. by rewrite (normal_form_unique _ _ H). Qed.

(** ** Property *)

(** C12: [path_normalize] decides whether two paths lead to the same place, for any
    character type whose separator is not the dot: its result is the one path of the
    class that [path_normalize] gives for every member and for nothing else, and none
    of the class is shorter.  So nothing that is left in a normal form is redundant,
    and two different normal forms lead from some directory to different places. *)
Theorem path_normalize_canonical (p : list T) :
  ∃ n, path_normalize sep dot_char p = Some n ∧ same_place n p ∧
    ∀ q, (same_place q p ↔ path_normalize sep dot_char q = Some n) ∧
         (same_place q p → length n ≤ length q).
Proof using Hsep.
  exists (normal_form p). rewrite path_normalize_eq. split_and!; [done|apply normal_form_same_place|]. intros q.
  split; [rewrite path_normalize_eq, same_place_normal_form; split; [by intros ->|by intros [= ->]]|].
  intros Hq%normal_form_unique. destruct (path_normalize_idempotent sep dot_char q) as (n & Hn & _ & Hlen).
  rewrite path_normalize_eq in Hn. by injection Hn as <-; rewrite <-Hq.
Qed.
End Same_Place.

Lemma path_normalize_canonical_witness :
  ∃ n, path_normalize "/"%char "."%char (lit "a/../../b//./c") = Some n ∧
    same_place "/"%char "."%char n (lit "a/../../b//./c") ∧
    ∀ q, (same_place "/"%char "."%char q (lit "a/../../b//./c") ↔ path_normalize "/"%char "."%char q = Some n) ∧
         (same_place "/"%char "."%char q (lit "a/../../b//./c") → length n ≤ length q).
Proof. apply (path_normalize_canonical "/"%char "."%char); discriminate. Defined.

(** ** Appending paths *)

Section Append.
Abbreviation tokens := (tokens slash).
Abbreviation resolve := (resolve slash Paths.dot).

Lemma split_sep_app_sep (p q : str) : split_sep slash (p ++ slash :: q) = split_sep slash p ++ split_sep slash q.
Proof.
  induction p as [|c p IH]; [done|]. simpl. rewrite IH. case_decide; [done|].
  destruct (split_sep slash p) eqn:E; [|done]. destruct p; simpl in E; [done|]. case_decide; [done|].
  by destruct (split_sep slash p).
Qed.

Lemma tokens_app_sep p q : tokens (p ++ slash :: q) = tokens p ++ tokens q.
Proof. unfold PathNormalize.tokens. by rewrite split_sep_app_sep, filter_app. Qed.

(** A path without a file name ends where a segment would start. *)
Lemma filename_nil (p : str) : filename p = [] → p = [] ∨ ∃ p', p = p' ++ [slash].
Proof.
  intros Hf. destruct (decide (slash ∈ p)) as [Hin|Hn].
  - apply list_elem_of_split_r in Hin as (a & b & -> & Hb). rewrite filename_append in Hf by done.
    subst. right. by exists a.
  - left. unfold filename in Hf. by rewrite str_rfind_None in Hf.
Qed.

(** [p / q] is [q] seen from where [p] leads. *)
Lemma resolve_append cwd (p q : str) : resolve cwd (path_append p q) = resolve (resolve cwd p) q.
Proof.
  unfold path_append, is_absolute, PathNormalize.resolve. fold (absolute slash q).
  destruct (absolute slash q) eqn:Hq; [by rewrite Hq|]. case_bool_decide as Hf.
  - apply filename_nil in Hf as [->|[p' ->]]; [simpl; by rewrite Hq|].
    rewrite <-app_assoc. simpl. rewrite !tokens_app_sep, app_nil_r, foldl_app.
    by destruct p'.
  - simpl. rewrite tokens_app_sep, foldl_app. by destruct p.
Qed.

#[export] Instance path_append_proper :
  Proper (same_place slash Paths.dot ==> same_place slash Paths.dot ==> same_place slash Paths.dot) path_append.
Proof.
  intros p p' Hp q q' Hq cwd Hd. rewrite !resolve_append, Hp by done. apply Hq. by apply resolve_directory.
Qed.

(** Normalising the parts first changes nothing. *)
Theorem append_normalized (p q : str) :
  ∃ p' q', path_normalize slash Paths.dot p = Some p' ∧ path_normalize slash Paths.dot q = Some q' ∧
    path_normalize slash Paths.dot (path_append p' q') = path_normalize slash Paths.dot (path_append p q).
Proof.
  eexists _, _. rewrite !(path_normalize_eq slash Paths.dot). split_and!; [done..|].
  rewrite <-!(path_normalize_eq slash Paths.dot). pose proof (path_normalize_proper slash Paths.dot) as HP.
  apply HP; [done|]. by rewrite !(normal_form_same_place slash Paths.dot).
Qed.
End Append.
