(* ===== verification/Mutex.v ===== *)
(** Classes whose calls lock a [std::mutex], between threads.

    [lru.inl], [aps_pending_queue.cpp], [aps_finished_storage.cpp] and
    [aps_p90_estimator.cpp] protect their members the same way: a call takes the
    mutex when it starts and gives it back when it returns ([lock_guard],
    [unique_lock]), or does not take it at all.  A call is here the sequence of its
    accesses to the members, and the accesses of the threads interleave.  The files
    of the classes define the calls in one piece; [LockedClasses] shows that they are
    these accesses. *)

From S2P Require Import Prelude.

(** ** The accesses of a call *)

Inductive kind := Read | Write.

#[export] Instance kind_eq_dec : EqDecision kind.
Proof. solve_decision. Defined.

(** What is left of a call on the members [O]: it returns, or its next access reads
    or writes them and says how it goes on; [None] when the access is undefined. *)
Inductive body (O R : Type) :=
| Done (r : R)
| Access (k : kind) (f : O → option (O * body O R)).
Arguments Done {O R} r.
Arguments Access {O R} k f.

(** A class: which calls lock the mutex, and what each call does. *)
Class Monitor (O C R : Type) := {
  locked : C → bool;
  code : C → body O R
}.

(** The value of an outcome that returned. *)
Definition returned {A} (m : outcome A) : option A := match m with Ret a => Some a | _ => None end.

(** A call that nothing interrupts. *)
Fixpoint run_body {O R} (b : body O R) (o : O) : outcome (R * O) :=
  match b with
  | Done r => Ret (r, o)
  | Access _ f =>
      match f o with
      | Some (o, b) => run_body b o
      | None => UB
      end
  end.

(** Calls that only read; reading changes nothing. *)
Inductive reads_only {O R} : body O R → Prop :=
| reads_done r : reads_only (Done r)
| reads_access f : (∀ o o' b, f o = Some (o', b) → o' = o ∧ reads_only b) → reads_only (Access Read f).

Section Threads.
Context {O C R : Type} `{!Monitor O C R}.

(** The members, the thread that holds the mutex, and the calls in progress. *)
Record state := mkState { obj : O; holder : option nat; running : gmap nat (C * body O R) }.

Definition idle (o : O) : state := mkState o None ∅.

(** A call that returned: its thread, what it was, its result. *)
Abbreviation event := (nat * C * R)%type.

(** The steps of the threads; [may i c] when the thread [i] makes the call [c]. *)
Inductive step (may : nat → C → Prop) : state → option event → state → Prop :=
| step_enter i c s :
    may i c → running s !! i = None → (locked c = true → holder s = None) →
    step may s None (mkState (obj s) (if locked c then Some i else holder s) (<[i := (c, code c)]> (running s)))
| step_access i c k f o b s :
    running s !! i = Some (c, Access k f) → f (obj s) = Some (o, b) →
    step may s None (mkState o (holder s) (<[i := (c, b)]> (running s)))
| step_leave i c r s :
    running s !! i = Some (c, Done r) →
    step may s (Some (i, c, r)) (mkState (obj s) (if locked c then None else holder s) (delete i (running s))).

(** The states that threads can reach from the members [o], with the calls that
    returned on the way, in that order. *)
Inductive runs (may : nat → C → Prop) (o : O) : list event → state → Prop :=
| runs_idle : runs may o [] (idle o)
| runs_step hs s e s' : runs may o hs s → step may s e s' → runs may o (hs ++ option_list e) s'.

(** Two threads are about to access the members, one of them to write. *)
Definition racy (s : state) : Prop :=
  ∃ i j c c' k k' f f', i ≠ j ∧ running s !! i = Some (c, Access k f) ∧
    running s !! j = Some (c', Access k' f') ∧ (k = Write ∨ k' = Write).

(** The next access of a thread is undefined. *)
Definition undefined (s : state) : Prop :=
  ∃ i c k f, running s !! i = Some (c, Access k f) ∧ f (obj s) = None.

(** ** Reference: the calls one after the other *)

Definition calls (hs : list event) : list C := (λ h, h.1.2) <$> hs.
Definition results (hs : list event) : list R := snd <$> hs.

Fixpoint atomic (cs : list C) (o : O) : outcome (list R * O) :=
  match cs with
  | [] => Ret ([], o)
  | c :: cs =>
      let! '(r, o) := run_body (code c) o in
      let! '(rs, o) := atomic cs o in
      Ret (r :: rs, o)
  end.

(** ** Lemmas *)

Lemma atomic_snoc cs c o rs o1 r o2 :
  atomic cs o = Ret (rs, o1) → run_body (code c) o1 = Ret (r, o2) → atomic (cs ++ [c]) o = Ret (rs ++ [r], o2).
Proof.
  revert o rs. induction cs as [|c' cs IH]; intros o rs; simpl.
  - intros [= <- <-] Hr. by rewrite Hr.
  - intros H Hr. apply obind_Ret_inv in H as ([r1 o3] & -> & H). simpl.
    apply obind_Ret_inv in H as ([rs1 o4] & Ha & [= <- <-]). by rewrite (IH _ _ Ha Hr).
Qed.

Lemma enter_unlocked may i c s :
  may i c → running s !! i = None → locked c = false →
  step may s None (mkState (obj s) (holder s) (<[i := (c, code c)]> (running s))).
Proof. intros Hm Hi Hc. pose proof (step_enter may i c s Hm Hi) as Hs. rewrite Hc in Hs. by apply Hs. Qed.

Lemma enter_locked may i c s :
  may i c → running s !! i = None → locked c = true → holder s = None →
  step may s None (mkState (obj s) (Some i) (<[i := (c, code c)]> (running s))).
Proof. intros Hm Hi Hc Hh. pose proof (step_enter may i c s Hm Hi) as Hs. rewrite Hc in Hs. by apply Hs. Qed.

(** What one of the calls found and returned. *)
Lemma atomic_at hs1 i c r hs2 o o' :
  atomic (calls (hs1 ++ (i, c, r) :: hs2)) o = Ret (results (hs1 ++ (i, c, r) :: hs2), o') →
  ∃ o1 o2, atomic (calls hs1) o = Ret (results hs1, o1) ∧ run_body (code c) o1 = Ret (r, o2).
Proof.
  revert o. induction hs1 as [|[[j c'] r'] hs1 IH]; intros o H; simpl in H.
  - apply obind_Ret_inv in H as ([r1 o1] & Hr & H). apply obind_Ret_inv in H as ([rs o2] & _ & [= -> -> ->]).
    by exists o, o1.
  - apply obind_Ret_inv in H as ([r1 o1] & Hr & H). apply obind_Ret_inv in H as ([rs o2] & Ha & [= -> -> ->]).
    destruct (IH o1 Ha) as (o3 & o4 & H3 & H4). exists o3, o4. split; [|done]. unfold calls, results in *. csimpl. by rewrite Hr; simpl; rewrite H3.
Qed.

(** A call in progress was allowed, is locked only by the thread that holds the
    mutex, and only reads if the call does. *)
Definition well_run (may : nat → C → Prop) (s : state) : Prop :=
  map_Forall (λ i cb, may i cb.1 ∧ (locked cb.1 = true → holder s = Some i) ∧
    (reads_only (code cb.1) → reads_only cb.2)) (running s).

Lemma runs_well_run may o hs s : runs may o hs s → well_run may s.
Proof.
  induction 1 as [|hs s e s' _ IH Hs]; [apply map_Forall_empty|].
  inversion Hs as [i c s0 Hm Hi Hl|i c k f o' b s0 Hi Hf|i c r s0 Hi]; subst; unfold well_run in *; simpl.
  - apply map_Forall_insert_2.
    + simpl. split_and!; [done|by intros ->|done].
    + intros j cb Hj. destruct (IH j cb Hj) as (H1 & H2 & H3). split_and!; [done| |done]. intros Hc.
      specialize (H2 Hc). destruct (locked c); [|done]. by rewrite Hl in H2.
  - apply map_Forall_insert_2; [|done]. destruct (IH i _ Hi) as (H1 & H2 & H3). split_and!; [done..|]. simpl in *.
    intros Hc. specialize (H3 Hc). inversion H3 as [|f' Hf']; subst. by apply (Hf' _ _ _ Hf).
  - intros j cb [Hne Hj]%lookup_delete_Some. destruct (IH j cb Hj) as (H1 & H2 & H3). split_and!; [done| |done].
    intros Hc. specialize (H2 Hc). destruct (locked c) eqn:Hl; [|done].
    destruct (IH i _ Hi) as (_ & H4 & _). specialize (H4 Hl). congruence.
Qed.

Lemma runs_may may o hs s : runs may o hs s → Forall (λ h, may h.1.1 h.1.2) hs.
Proof.
  induction 1 as [|hs s e s' Hr IH Hs]; [done|]. apply Forall_app. split; [done|].
  inversion Hs as [| |i c r s0 Hi]; subst; simpl; [done..|]. apply Forall_singleton. simpl.
  by destruct (runs_well_run _ _ _ _ Hr i _ Hi).
Qed.

(** A race takes two threads, a call without the mutex, and a call that writes. *)
Lemma race_needs_unlocked may o hs s :
  runs may o hs s → racy s →
  ∃ i j c c', i ≠ j ∧ may i c ∧ may j c' ∧ locked c = false ∧ (¬ reads_only (code c) ∨ ¬ reads_only (code c')).
Proof.
  intros Hr%runs_well_run (i & j & c & c' & k & k' & f & f' & Hne & Hi & Hj & Hw).
  destruct (Hr i _ Hi) as (H1 & H2 & H3), (Hr j _ Hj) as (H4 & H5 & H6). simpl in *.
  assert (¬ reads_only (code c) ∨ ¬ reads_only (code c')) as Hn.
  { destruct Hw as [-> | ->]; [left; intros H%H3|right; intros H%H6]; inversion H. }
  destruct (locked c) eqn:Hc; [|by exists i, j, c, c'].
  destruct (locked c') eqn:Hc'; [rewrite H2 in H5 by done; specialize (H5 eq_refl); congruence|].
  exists j, i, c', c. split_and!; [done..|]. tauto.
Qed.

Section Locked.
Context (may : nat → C → Prop) (Hlocked : ∀ i c, may i c → locked c = true).

(** With the mutex in every call there is one call in progress at most, and the
    others happened one after the other. *)
Lemma locked_calls_serialize o hs s :
  runs may o hs s →
  ∃ o1, atomic (calls hs) o = Ret (results hs, o1) ∧
    match holder s with
    | None => running s = ∅ ∧ obj s = o1
    | Some i => ∃ c b, running s = {[i := (c, b)]} ∧ may i c ∧ run_body b (obj s) = run_body (code c) o1
    end.
Proof.
  induction 1 as [|hs s e s' Hr (o1 & Ha & IH) Hs]; [by exists o|].
  inversion Hs as [i c s0 Hm Hi Hl|i c k f o' b s0 Hi Hf|i c r s0 Hi]; subst; simpl; rewrite ?app_nil_r.
  - exists o1. rewrite (Hlocked i c Hm) in *. rewrite Hl in IH by done. destruct IH as [-> ->].
    split; [done|]. exists c, (code c). by rewrite insert_empty.
  - exists o1. split; [done|]. destruct (holder s) as [j|]; [|destruct IH as [Hrun _]; by rewrite Hrun in Hi].
    destruct IH as (c' & b' & Hrun & Hm & Hb). rewrite Hrun in *. apply lookup_singleton_Some in Hi as [-> [= -> ->]].
    exists c, b. rewrite insert_singleton_eq. split_and!; [done..|]. rewrite <-Hb. simpl. by rewrite Hf.
  - destruct (holder s) as [j|]; [|destruct IH as [Hrun _]; by rewrite Hrun in Hi].
    destruct IH as (c' & b' & Hrun & Hm & Hb). rewrite Hrun in *. apply lookup_singleton_Some in Hi as [-> [= -> ->]].
    exists (obj s). rewrite (Hlocked i c Hm). unfold calls, results. rewrite !fmap_app. simpl. split.
    + eapply atomic_snoc; [done|]. by rewrite <-Hb.
    + split; [apply delete_singleton_eq|done].
Qed.

Lemma locked_calls_idle o hs s : runs may o hs s → running s = ∅ → atomic (calls hs) o = Ret (results hs, obj s).
Proof.
  intros Hr Hidle. destruct (locked_calls_serialize _ _ _ Hr) as (o1 & Ha & Ho).
  destruct (holder s) as [i|]; [|by destruct Ho as [_ ->]].
  destruct Ho as (c & b & Hrun & _). rewrite Hrun in Hidle. by apply map_non_empty_singleton in Hidle.
Qed.

Lemma locked_calls_never_race o hs s : runs may o hs s → ¬ racy s.
Proof.
  intros Hr Hs. destruct (race_needs_unlocked _ _ _ _ Hr Hs) as (i & j & c & c' & _ & Hm & _ & Hc & _).
  by rewrite (Hlocked i c Hm) in Hc.
Qed.

(** A call that is undefined is so where the others left the members. *)
Lemma locked_calls_undefined o hs s :
  runs may o hs s → undefined s →
  ∃ o1 i c, atomic (calls hs) o = Ret (results hs, o1) ∧ may i c ∧ run_body (code c) o1 = UB.
Proof.
  intros Hr (i & c & k & f & Hi & Hf). destruct (locked_calls_serialize _ _ _ Hr) as (o1 & Ha & H).
  destruct (holder s) as [j|]; [|destruct H as [Hrun _]; by rewrite Hrun in Hi].
  destruct H as (c' & b' & Hrun & Hm & Hb). rewrite Hrun in Hi. apply lookup_singleton_Some in Hi as [-> [= -> ->]].
  exists o1, i, c. split_and!; [done..|]. rewrite <-Hb. simpl. by rewrite Hf.
Qed.
End Locked.

(** ** Running a schedule *)

(** One step of the thread [i]: it goes on with its call, or starts [c]. *)
Definition turn (i : nat) (c : option C) (s : state) : option (state * list event) :=
  match running s !! i, c with
  | None, Some c =>
      if locked c && bool_decide (is_Some (holder s)) then None
      else Some (mkState (obj s) (if locked c then Some i else holder s) (<[i := (c, code c)]> (running s)), [])
  | Some (c, Access k f), None =>
      '(o, b) ← f (obj s); Some (mkState o (holder s) (<[i := (c, b)]> (running s)), [])
  | Some (c, Done r), None =>
      Some (mkState (obj s) (if locked c then None else holder s) (delete i (running s)), [(i, c, r)])
  | _, _ => None
  end.

Fixpoint turns (l : list (nat * option C)) (s : state) : option (state * list event) :=
  match l with
  | [] => Some (s, [])
  | (i, c) :: l =>
      '(s, hs) ← turn i c s;
      '(s, hs') ← turns l s;
      Some (s, hs ++ hs')
  end.

Lemma turn_step may i c s s' hs :
  turn i c s = Some (s', hs) → (∀ c', c = Some c' → may i c') → ∃ e, step may s e s' ∧ hs = option_list e.
Proof.
  unfold turn. intros H Hm. destruct (running s !! i) as [[c' [r|k f]]|] eqn:Hi, c as [c''|]; try done.
  - injection H as <- <-. exists (Some (i, c', r)). split; [by apply step_leave|done].
  - destruct (f (obj s)) as [[o b]|] eqn:Hf; [|done]. injection H as <- <-. exists None. split; [by eapply step_access|done].
  - destruct (locked c'' && _) eqn:Hl; [done|]. injection H as <- <-. exists None. split; [|done].
    apply step_enter; [by apply Hm|done|]. intros Hc. rewrite Hc in Hl. simpl in Hl.
    apply bool_decide_eq_false in Hl. by apply eq_None_not_Some.
Qed.

Lemma turns_runs may o l s0 hs0 s hs :
  runs may o hs0 s0 → turns l s0 = Some (s, hs) → Forall (λ ic, ∀ c, ic.2 = Some c → may ic.1 c) l →
  runs may o (hs0 ++ hs) s.
Proof.
  revert s0 hs0 hs. induction l as [|[i c] l IH]; intros s0 hs0 hs Hr; simpl.
  - intros [= <- <-] _. by rewrite app_nil_r.
  - intros H Hm. apply Forall_cons in Hm as [Hm Hms].
    destruct (turn i c s0) as [[s1 hs1]|] eqn:Ht; [|done]. simpl in H.
    destruct (turns l s1) as [[s2 hs2]|] eqn:Hts; [|done]. injection H as <- <-.
    destruct (turn_step may _ _ _ _ _ Ht Hm) as (e & Hs & ->). rewrite app_assoc. eapply IH; [by econstructor|done..].
Qed.
End Threads.
