(* ===== verification/Lru.v ===== *)
(** The LRU cache: [foundation/lru.h], [foundation/lru.inl].

    [list_] is a list of nodes with an identity, because [cache_] holds
    iterators into it; an iterator that refers to no node is dangling and
    using it is undefined.  The second half gives the abstract cache (an
    association list, most recent first) that the class implements. *)

From S2P Require Import Prelude.

Section LRU.
Context {Key Value : Type} `{Countable Key}.

(** ** The code *)

(** An element of [std::list<std::pair<Key, Value>>]; [nid] is what an
    iterator to it stands for. *)
Record node := Node { nid : nat; first : Key; second : Value }.

(** [next_] supplies the identities of new nodes. *)
Record LRU := mkLRU {
  capacity_ : nat;
  list_ : list node;
  cache_ : gmap Key nat;
  next_ : nat
}.

Definition LRU_new (cap : nat) : LRU := mkLRU cap [] ∅ 0.

Definition set_list (l : list node) (s : LRU) : LRU :=
  mkLRU (capacity_ s) l (cache_ s) (next_ s).

(** The node an iterator refers to, with its position. *)
Definition node_at (it : nat) (l : list node) : outcome (nat * node) :=
  deref (list_find (λ n, nid n = it) l).

(** [list_.splice(list_.begin(), list_, it)] *)
Definition splice_front (it : nat) (l : list node) : outcome (list node) :=
  let! '(i, n) := node_at it l in Ret (n :: delete i l).

(** [it->second = v] *)
Definition assign (it : nat) (v : Value) (l : list node) : outcome (list node) :=
  let! '(i, n) := node_at it l in Ret (<[i := Node (nid n) (first n) v]> l).

Definition get (k : Key) (s : LRU) : outcome (option Value * LRU) :=
  match cache_ s !! k with
  | None => Ret (None, s)
  | Some it =>
      let! l := splice_front it (list_ s) in
      let! '(_, n) := node_at it l in
      Ret (Some (second n), set_list l s)
  end.

Definition put (k : Key) (v : Value) (s : LRU) : outcome LRU :=
  match cache_ s !! k with
  | Some it =>
      let! l := assign it v (list_ s) in
      let! l := splice_front it l in
      Ret (set_list l s)
  | None =>
      let! s :=
        if decide (length (list_ s) = capacity_ s) then
          let! victim := deref (last (list_ s)) in
          Ret (mkLRU (capacity_ s) (removelast (list_ s))
                     (delete (first victim) (cache_ s)) (next_ s))
        else Ret s in
      Ret (mkLRU (capacity_ s) (Node (next_ s) k v :: list_ s)
                 (<[k := next_ s]> (cache_ s)) (S (next_ s)))
  end.

Definition erase (k : Key) (s : LRU) : outcome LRU :=
  match cache_ s !! k with
  | Some it =>
      let! '(i, _) := node_at it (list_ s) in
      Ret (mkLRU (capacity_ s) (delete i (list_ s)) (delete k (cache_ s)) (next_ s))
  | None => Ret s
  end.

(** A sequence of calls with what [get] returned. *)
Inductive op := Get (k : Key) | Put (k : Key) (v : Value) | Erase (k : Key).

Definition step (o : op) (s : LRU) : outcome (list (option Value) * LRU) :=
  match o with
  | Get k => let! '(r, s) := get k s in Ret ([r], s)
  | Put k v => let! s := put k v s in Ret ([], s)
  | Erase k => let! s := erase k s in Ret ([], s)
  end.

Fixpoint run (ops : list op) (s : LRU) : outcome (list (option Value) * LRU) :=
  match ops with
  | [] => Ret ([], s)
  | o :: ops =>
      let! '(r, s) := step o s in
      let! '(rs, s) := run ops s in
      Ret (r ++ rs, s)
  end.

(** ** The abstract cache *)

Notation entries := (list (Key * Value)).

Definition assoc (k : Key) (l : entries) : option Value :=
  snd ∘ snd <$> list_find (λ e, e.1 = k) l.

Definition remove (k : Key) (l : entries) : entries := filter (λ e, e.1 ≠ k) l.

Definition spec_get (k : Key) (l : entries) : option Value * entries :=
  match assoc k l with
  | None => (None, l)
  | Some v => (Some v, (k, v) :: remove k l)
  end.

(** The [cap] most recent entries. *)
Definition spec_put (cap : nat) (k : Key) (v : Value) (l : entries) : entries :=
  take cap ((k, v) :: remove k l).

Definition spec_step (cap : nat) (o : op) (l : entries) : list (option Value) * entries :=
  match o with
  | Get k => let '(r, l) := spec_get k l in ([r], l)
  | Put k v => ([], spec_put cap k v l)
  | Erase k => ([], remove k l)
  end.

Fixpoint spec_run (cap : nat) (ops : list op) (l : entries) : list (option Value) * entries :=
  match ops with
  | [] => ([], l)
  | o :: ops =>
      let '(r, l) := spec_step cap o l in
      let '(rs, l) := spec_run cap ops l in
      (r ++ rs, l)
  end.

(** [ops] keeps [k] when it neither overwrites nor erases it; [touched]
    are the other keys it uses. *)
Definition keeps (k : Key) (o : op) : Prop :=
  match o with Get _ => True | Put k' _ | Erase k' => k' ≠ k end.

Definition touched1 (k : Key) (o : op) : gset Key :=
  match o with
  | Get k' | Put k' _ => if decide (k' = k) then ∅ else {[k']}
  | Erase _ => ∅
  end.

Definition touched (k : Key) (ops : list op) : gset Key := ⋃ (touched1 k <$> ops).

(** The abstract state of a cache and the invariant of the class. *)
Definition entry (n : node) : Key * Value := (first n, second n).
Definition abs (s : LRU) : entries := entry <$> list_ s.

Record inv (s : LRU) : Prop := {
  inv_nid : NoDup (nid <$> list_ s);
  inv_key : NoDup (first <$> list_ s);
  inv_fresh : ∀ n, n ∈ list_ s → nid n < next_ s;
  inv_cache : ∀ k it, cache_ s !! k = Some it ↔ ∃ v, Node it k v ∈ list_ s;
  inv_cap : length (list_ s) ≤ capacity_ s
}.

(** ** The invariant *)

Lemma LRU_new_inv cap : inv (LRU_new cap).
Proof. split; simpl; [constructor|constructor|set_solver| |lia]. intros. set_solver. Qed.

Lemma node_at_lookup l i n :
  NoDup (nid <$> l) → l !! i = Some n → node_at (nid n) l = Ret (i, n).
Proof. intros Hnd Hi. unfold node_at. by rewrite (keyed_find nid l i n). Qed.

Lemma inv_hit s k it :
  inv s → cache_ s !! k = Some it →
  ∃ i v, list_ s !! i = Some (Node it k v) ∧ node_at it (list_ s) = Ret (i, Node it k v).
Proof.
  intros Hinv Hit. apply (inv_cache s Hinv) in Hit as [v Hin].
  apply list_elem_of_lookup in Hin as [i Hi]. exists i, v. split; [done|].
  apply (node_at_lookup _ _ _ (inv_nid s Hinv) Hi).
Qed.

Lemma inv_miss s k n : inv s → cache_ s !! k = None → n ∈ list_ s → first n ≠ k.
Proof.
  intros Hinv Hnone Hn <-. destruct n as [it k v].
  assert (cache_ s !! k = Some it) by (apply (inv_cache s Hinv); eauto). simpl in *. congruence.
Qed.

Lemma abs_key s : fst <$> abs s = first <$> list_ s.
Proof. unfold abs. by rewrite <-list_fmap_compose. Qed.

Lemma abs_key_nodup s : inv s → NoDup (fst <$> abs s).
Proof. intros Hinv. rewrite abs_key. apply (inv_key s Hinv). Qed.

Lemma abs_lookup s i n : list_ s !! i = Some n → abs s !! i = Some (entry n).
Proof. intros Hi. unfold abs. by rewrite list_lookup_fmap, Hi. Qed.

Lemma abs_hit s i n :
  inv s → list_ s !! i = Some n →
  assoc (first n) (abs s) = Some (second n) ∧
  remove (first n) (abs s) = entry <$> delete i (list_ s).
Proof.
  intros Hinv Hi. apply abs_lookup in Hi as Ha.
  pose proof (abs_key_nodup s Hinv) as Hnd. split.
  - unfold assoc. by rewrite (keyed_find fst _ i (entry n) Hnd Ha).
  - unfold remove. rewrite (keyed_filter_delete fst _ i (entry n) Hnd Ha).
    unfold abs. by rewrite list_fmap_delete.
Qed.

Lemma abs_miss s k :
  inv s → cache_ s !! k = None → assoc k (abs s) = None ∧ remove k (abs s) = abs s.
Proof.
  intros Hinv Hnone.
  assert (∀ e, e ∈ abs s → e.1 ≠ k) as Hne.
  { intros e (n & -> & Hn)%list_elem_of_fmap. by apply (inv_miss s). }
  split; [|by apply filter_id]. unfold assoc.
  rewrite (proj2 (list_find_None _ _)); [done|]. by apply Forall_forall.
Qed.

(** A node moved to the front, its value possibly replaced. *)
Lemma inv_front s i it k v v' :
  inv s → list_ s !! i = Some (Node it k v) →
  inv (set_list (Node it k v' :: delete i (list_ s)) s).
Proof.
  intros Hinv Hi. destruct (Hinv) as [Hnid Hkey Hfresh Hcache Hcap].
  apply list_elem_of_lookup_2 in Hi as Hin.
  pose proof (λ y, keyed_elem_delete nid _ _ _ y Hnid Hi) as Hdn.
  pose proof (λ y, keyed_elem_delete first _ _ _ y Hkey Hi) as Hdk. simpl in *.
  split; simpl.
  - constructor; [|by apply keyed_delete].
    intros (n & Heq & [_ Hn]%Hdn)%list_elem_of_fmap. done.
  - constructor; [|by apply keyed_delete].
    intros (n & Heq & [_ Hn]%Hdk)%list_elem_of_fmap. done.
  - intros n [->|[Hn _]%Hdn]%elem_of_cons; [by apply (Hfresh _ Hin)|by apply Hfresh].
  - intros k0 it0. rewrite Hcache. setoid_rewrite elem_of_cons. setoid_rewrite Hdk. simpl.
    destruct (decide (k0 = k)) as [->|Hk]; [|naive_solver].
    split; [intros [v0 Hv0]|intros [v0 [Heq|[_ ?]]]; [|done]].
    + pose proof (keyed_inj first _ _ _ Hkey Hv0 Hin eq_refl). simplify_eq. eauto.
    + simplify_eq. eauto.
  - rewrite length_delete by eauto. apply lookup_lt_Some in Hi. lia.
Qed.

Lemma inv_delete s i n :
  inv s → list_ s !! i = Some n →
  inv (mkLRU (capacity_ s) (delete i (list_ s)) (delete (first n) (cache_ s)) (next_ s)).
Proof.
  intros Hinv Hi. destruct (Hinv) as [Hnid Hkey Hfresh Hcache Hcap].
  pose proof (λ y, keyed_elem_delete first _ _ _ y Hkey Hi) as Hdk.
  split; simpl; [by apply keyed_delete..| | |].
  - intros m [Hm _]%Hdk. by apply Hfresh.
  - intros k it. rewrite lookup_delete_Some, Hcache. setoid_rewrite Hdk. simpl. naive_solver.
  - rewrite length_delete by eauto. lia.
Qed.

Lemma inv_evict s l n :
  inv s → list_ s = l ++ [n] →
  inv (mkLRU (capacity_ s) l (delete (first n) (cache_ s)) (next_ s)).
Proof.
  intros Hinv Hl. assert (delete (length l) (list_ s) = l) as <-.
  { rewrite Hl, delete_take_drop, take_app_length, drop_ge by (rewrite length_app; simpl; lia).
    apply app_nil_r. }
  apply inv_delete; [done|]. rewrite Hl. by apply list_lookup_middle.
Qed.

Lemma inv_insert s k v :
  inv s → cache_ s !! k = None → length (list_ s) < capacity_ s →
  inv (mkLRU (capacity_ s) (Node (next_ s) k v :: list_ s) (<[k := next_ s]> (cache_ s)) (S (next_ s))).
Proof.
  intros Hinv Hnone Hlen. destruct (Hinv) as [Hnid Hkey Hfresh Hcache Hcap].
  pose proof (λ n, inv_miss s k n Hinv Hnone) as Hne.
  split; simpl.
  - constructor; [|done]. intros (n & Heq & Hn)%list_elem_of_fmap. apply Hfresh in Hn. simpl in *. lia.
  - constructor; [|done]. intros (n & Heq & Hn)%list_elem_of_fmap. by apply (Hne n).
  - intros n [->|Hn%Hfresh]%elem_of_cons; simpl; lia.
  - intros k0 it0. rewrite lookup_insert_Some, Hcache. setoid_rewrite elem_of_cons. split.
    + intros [[<- <-]|[? [v0 ?]]]; eauto.
    + intros [v0 [Heq|Hin]]; [simplify_eq; auto|]. right. split; [|eauto].
      intros <-. by apply Hne in Hin.
  - lia.
Qed.

(** ** The operations implement the abstract ones *)

Definition refines (s : LRU) (l : entries) : Prop := inv s ∧ abs s = l.

Lemma get_refines k s :
  inv s →
  ∃ s', get k s = Ret ((spec_get k (abs s)).1, s') ∧
        refines s' (spec_get k (abs s)).2 ∧ capacity_ s' = capacity_ s.
Proof.
  intros Hinv. unfold get, spec_get. destruct (cache_ s !! k) as [it|] eqn:Hk.
  - destruct (inv_hit s k it Hinv Hk) as (i & v & Hi & Hat).
    destruct (abs_hit s i _ Hinv Hi) as [Ha Hr]. simpl in Ha, Hr. rewrite Ha.
    unfold splice_front at 1. rewrite Hat. simpl.
    pose proof (inv_front s i it k v v Hinv Hi) as Hinv'.
    pose proof (node_at_lookup _ 0 (Node it k v) (inv_nid _ Hinv') eq_refl) as Hat'.
    simpl in Hat'. rewrite Hat'. simpl.
    eexists. split; [done|]. split; [|done]. split; [done|]. unfold abs at 1. simpl. by rewrite Hr.
  - destruct (abs_miss s k Hinv Hk) as [-> _]. by exists s.
Qed.

Lemma put_hit k v s it :
  inv s → cache_ s !! k = Some it →
  ∃ i v0, list_ s !! i = Some (Node it k v0) ∧
          put k v s = Ret (set_list (Node it k v :: delete i (list_ s)) s).
Proof.
  intros Hinv Hk. destruct (inv_hit s k it Hinv Hk) as (i & v0 & Hi & Hat).
  exists i, v0. split; [done|]. unfold put, assign, splice_front. rewrite Hk, Hat. simpl.
  pose proof (node_at_lookup (<[i:=Node it k v]> (list_ s)) i (Node it k v)) as Hat'.
  simpl in Hat'. rewrite Hat'.
  - simpl. by rewrite list_delete_insert.
  - rewrite list_fmap_insert, list_insert_id; [apply (inv_nid s Hinv)|].
    by rewrite list_lookup_fmap, Hi.
  - apply list_lookup_insert_eq. by eapply lookup_lt_Some.
Qed.

Lemma put_miss k v s :
  inv s → cache_ s !! k = None → 1 ≤ capacity_ s →
  ∃ s1, put k v s = Ret (mkLRU (capacity_ s) (Node (next_ s1) k v :: list_ s1)
                           (<[k := next_ s1]> (cache_ s1)) (S (next_ s1))) ∧
        inv s1 ∧ capacity_ s1 = capacity_ s ∧ cache_ s1 !! k = None ∧
        length (list_ s1) < capacity_ s ∧ abs s1 = take (capacity_ s - 1) (abs s).
Proof.
  intros Hinv Hk Hcap. unfold put. rewrite Hk. pose proof (inv_cap s Hinv). case_decide as Hfull.
  - destruct (last (list_ s)) as [n|] eqn:Hlast; [|apply last_None in Hlast; rewrite Hlast in *; simpl in *; lia].
    apply last_Some in Hlast as [l Hl]. simpl. rewrite Hl, removelast_last.
    eexists (mkLRU _ l _ (next_ s)). simpl. split; [done|]. rewrite Hl, length_app in Hfull. simpl in Hfull.
    split_and!; [by apply inv_evict|done| |lia|].
    + rewrite lookup_delete_None. by right.
    + unfold abs. rewrite Hl, fmap_app, take_app_le by (rewrite length_fmap; lia).
      rewrite take_ge by (rewrite length_fmap; lia). done.
  - exists s. split_and!; try done; [lia|].
    rewrite take_ge; [done|]. unfold abs. rewrite length_fmap. lia.
Qed.

Lemma put_refines k v s :
  inv s → 1 ≤ capacity_ s →
  ∃ s', put k v s = Ret s' ∧ refines s' (spec_put (capacity_ s) k v (abs s)) ∧
        capacity_ s' = capacity_ s.
Proof.
  intros Hinv Hcap. destruct (cache_ s !! k) as [it|] eqn:Hk.
  - destruct (put_hit k v s it Hinv Hk) as (i & v0 & Hi & ->).
    pose proof (inv_front s i it k v0 v Hinv Hi) as Hinv'.
    destruct (abs_hit s i _ Hinv Hi) as [_ Hr]. simpl in Hr.
    eexists. split; [done|]. split; [|done]. split; [done|]. unfold spec_put, abs at 1. simpl.
    rewrite Hr, take_ge; [done|]. simpl. rewrite length_fmap. apply (inv_cap _ Hinv').
  - destruct (put_miss k v s Hinv Hk Hcap) as (s1 & -> & Hinv1 & Hc1 & Hk1 & Hlen & Habs).
    eexists. split; [done|]. split; [|done]. split.
    + rewrite <-Hc1. apply inv_insert; [done..|]. by rewrite Hc1.
    + unfold spec_put, abs at 1. simpl. destruct (abs_miss s k Hinv Hk) as [_ ->].
      destruct (capacity_ s) as [|c]; [lia|]. simpl. f_equal.
      trans (abs s1); [done|]. rewrite Habs. f_equal. lia.
Qed.

Lemma erase_refines k s :
  inv s →
  ∃ s', erase k s = Ret s' ∧ refines s' (remove k (abs s)) ∧ capacity_ s' = capacity_ s.
Proof.
  intros Hinv. unfold erase. destruct (cache_ s !! k) as [it|] eqn:Hk.
  - destruct (inv_hit s k it Hinv Hk) as (i & v & Hi & ->). simpl.
    eexists. split; [done|]. split; [|done]. split.
    + apply (inv_delete s i _ Hinv Hi).
    + destruct (abs_hit s i _ Hinv Hi) as [_ Hr]. simpl in Hr. by rewrite Hr.
  - exists s. destruct (abs_miss s k Hinv Hk) as [_ ->]. done.
Qed.

Lemma step_refines o s :
  inv s → 1 ≤ capacity_ s →
  ∃ s', step o s = Ret ((spec_step (capacity_ s) o (abs s)).1, s') ∧
        refines s' (spec_step (capacity_ s) o (abs s)).2 ∧ capacity_ s' = capacity_ s.
Proof.
  intros Hinv Hcap. destruct o as [k|k v|k]; simpl.
  - destruct (get_refines k s Hinv) as (s' & -> & Hs'). destruct (spec_get _ _). by exists s'.
  - destruct (put_refines k v s Hinv Hcap) as (s' & -> & Hs'). by exists s'.
  - destruct (erase_refines k s Hinv) as (s' & -> & Hs'). by exists s'.
Qed.

Lemma run_refines ops s :
  inv s → 1 ≤ capacity_ s →
  ∃ s', run ops s = Ret ((spec_run (capacity_ s) ops (abs s)).1, s') ∧
        refines s' (spec_run (capacity_ s) ops (abs s)).2 ∧ capacity_ s' = capacity_ s.
Proof.
  revert s. induction ops as [|o ops IH]; intros s Hinv Hcap; simpl; [by exists s|].
  destruct (step_refines o s Hinv Hcap) as (s1 & -> & [Hinv1 Habs1] & Hc1).
  destruct (spec_step _ _ _) as [r l]. simpl in *. subst l.
  rewrite <-Hc1 in Hcap. destruct (IH s1 Hinv1 Hcap) as (s2 & Hrun & Href & Hc2). rewrite Hc1 in *.
  destruct (spec_run _ _ _) as [rs l]. rewrite Hrun. exists s2. by rewrite Hc2.
Qed.

(** ** Retention: the abstract cache *)

Lemma spec_run_app cap ops1 ops2 l :
  spec_run cap (ops1 ++ ops2) l =
  ((spec_run cap ops1 l).1 ++ (spec_run cap ops2 (spec_run cap ops1 l).2).1,
   (spec_run cap ops2 (spec_run cap ops1 l).2).2).
Proof.
  revert l. induction ops1 as [|o ops1 IH]; intros l; simpl; [by destruct (spec_run _ _ _)|].
  destruct (spec_step cap o l) as [r l1]. rewrite IH. destruct (spec_run cap ops1 l1) as [r1 l2].
  simpl. by rewrite <-app_assoc.
Qed.

Notation keys l := (fst <$> (l : entries)).

Lemma keys_remove k l : NoDup (keys l) → NoDup (keys (remove k l)).
Proof. intros Hnd. eapply sublist_NoDup; [done|]. apply fmap_sublist, sublist_filter. Qed.

Lemma keys_remove_fresh k l : k ∉ keys (remove k l).
Proof. intros (e & -> & [He _]%list_elem_of_filter)%list_elem_of_fmap. done. Qed.

Lemma keys_cons_remove k v l : NoDup (keys l) → NoDup (keys ((k, v) :: remove k l)).
Proof. intros. simpl. constructor; [apply keys_remove_fresh|by apply keys_remove]. Qed.

Lemma keys_step cap o l : NoDup (keys l) → NoDup (keys (spec_step cap o l).2).
Proof.
  intros Hnd. destruct o as [k|k v|k]; simpl.
  - unfold spec_get. destruct (assoc k l); [by apply keys_cons_remove|done].
  - eapply sublist_NoDup; [by apply (keys_cons_remove k v l)|].
    apply fmap_sublist, sublist_take.
  - by apply keys_remove.
Qed.

Lemma keys_run cap ops l : NoDup (keys l) → NoDup (keys (spec_run cap ops l).2).
Proof.
  revert l. induction ops as [|o ops IH]; intros l Hnd; simpl; [done|].
  pose proof (keys_step cap o l Hnd) as H1. destruct (spec_step cap o l) as [r l1].
  specialize (IH l1 H1). by destruct (spec_run cap ops l1).
Qed.

(** [k] is bound to [v] behind entries whose keys are all in [T]. *)
Definition retained (k : Key) (v : Value) (T : gset Key) (l : entries) : Prop :=
  NoDup (keys l) ∧ ∃ pre post, l = pre ++ (k, v) :: post ∧ (∀ e, e ∈ pre → e.1 ∈ T).

Lemma retained_assoc k v T l : retained k v T l → assoc k l = Some v.
Proof.
  intros [Hnd (pre & post & -> & _)]. unfold assoc.
  by rewrite (keyed_find fst _ (length pre) (k, v) Hnd) by apply list_lookup_middle, eq_refl.
Qed.

Lemma retained_front k v T l : NoDup (keys l) → retained k v T ((k, v) :: remove k l).
Proof. intros. split; [by apply keys_cons_remove|]. exists [], (remove k l). set_solver. Qed.

Lemma remove_middle k k' v pre post :
  k' ≠ k → remove k' (pre ++ (k, v) :: post) = remove k' pre ++ (k, v) :: remove k' post.
Proof. intros. unfold remove. by rewrite filter_app, filter_cons_True. Qed.

Lemma retained_remove k v T k' l : k' ≠ k → retained k v T l → retained k v T (remove k' l).
Proof.
  intros Hk [Hnd (pre & post & -> & Hpre)]. split; [by apply keys_remove|].
  rewrite remove_middle by done. exists (remove k' pre), (remove k' post). split; [done|].
  intros e [_ He]%list_elem_of_filter. auto.
Qed.

Lemma retained_push k v T k' v' l :
  k' ≠ k → retained k v T l → retained k v (T ∪ {[k']}) ((k', v') :: remove k' l).
Proof.
  intros Hk Hr. destruct (retained_remove k v T k' l Hk Hr) as [_ (pre & post & Heq & Hpre)].
  split; [apply keys_cons_remove, Hr|]. exists ((k', v') :: pre), post.
  rewrite Heq. split; [done|]. intros e [->|He]%elem_of_cons; set_solver.
Qed.

Lemma retained_take k v T n l : size T < n → retained k v T l → retained k v T (take n l).
Proof.
  intros Hn [Hnd (pre & post & -> & Hpre)].
  assert (length pre ≤ size T) as Hlen.
  { rewrite fmap_app in Hnd. apply NoDup_app in Hnd as [Hnd _].
    rewrite <-(length_fmap fst), <-(size_list_to_set (C:=gset Key)) by done.
    apply subseteq_size. intros x. rewrite elem_of_list_to_set.
    intros (e & -> & He)%list_elem_of_fmap. auto. }
  split; [eapply sublist_NoDup; [done|]; apply fmap_sublist, sublist_take|].
  exists pre, (take (n - length pre - 1) post). split; [|done].
  rewrite take_app, take_ge by lia. f_equal.
  destruct (n - length pre) as [|m] eqn:E; [lia|]. simpl. by rewrite Nat.sub_0_r.
Qed.

Lemma retained_weaken k v T T' l : T ⊆ T' → retained k v T l → retained k v T' l.
Proof. intros HT [Hnd (pre & post & -> & Hpre)]. split; [done|]. exists pre, post. set_solver. Qed.

Lemma retained_step cap k v T o l :
  keeps k o → size (T ∪ touched1 k o) < cap → retained k v T l →
  retained k v (T ∪ touched1 k o) (spec_step cap o l).2.
Proof.
  intros Hk Hsz Hr. destruct o as [k'|k' v'|k']; simpl in *.
  - unfold spec_get. case_decide as Hkk.
    + subst. rewrite (retained_assoc _ _ _ _ Hr). apply retained_front, Hr.
    + destruct (assoc k' l); [by apply retained_push|].
      eapply retained_weaken; [|done]. set_solver.
  - case_decide; [done|]. apply retained_take; [done|]. by apply retained_push.
  - eapply retained_weaken; [|by apply retained_remove]. set_solver.
Qed.

Lemma retained_run cap k v T ops l :
  Forall (keeps k) ops → size (T ∪ touched k ops) < cap → retained k v T l →
  retained k v (T ∪ touched k ops) (spec_run cap ops l).2.
Proof.
  revert T l. induction ops as [|o ops IH]; intros T l Hk Hsz Hr; csimpl.
  - eapply retained_weaken; [|done]. set_solver.
  - apply Forall_cons in Hk as [Ho Hk]. unfold touched in *. csimpl in *.
    rewrite (assoc_L (∪)) in *.
    assert (retained k v (T ∪ touched1 k o) (spec_step cap o l).2) as Hr1.
    { apply retained_step; [done| |done]. eapply Nat.le_lt_trans; [|done].
      apply subseteq_size. set_solver. }
    destruct (spec_step cap o l) as [r l1]. specialize (IH _ l1 Hk Hsz Hr1).
    by destruct (spec_run cap ops l1).
Qed.

(** ** Properties *)

(** From a fresh cache of capacity at least one, every sequence of
    [get], [put] and [erase] runs without undefined behaviour, returns what
    the abstract cache returns, ends in its state, keeps the class invariant
    (list and index agree, no dangling iterator) and never holds more than
    [cap] entries. *)
Theorem lru_implements_spec (cap : nat) (ops : list op) (Hcap : 1 ≤ cap) :
  ∃ s, run ops (LRU_new cap) = Ret ((spec_run cap ops []).1, s) ∧
       abs s = (spec_run cap ops []).2 ∧ inv s ∧ length (list_ s) ≤ cap.
Proof.
  destruct (run_refines ops (LRU_new cap) (LRU_new_inv cap) Hcap) as (s & Hrun & [Hinv Habs] & Hc).
  exists s. split_and!; [done..|]. simpl in Hc. rewrite <-Hc. apply (inv_cap s Hinv).
Qed.

(** C40: A value put under [k] is returned by a later [get k] as long as
    fewer than [cap] other keys are used in between and [k] is neither
    overwritten nor erased, whatever happened before. *)
Theorem lru_retains (cap : nat) (k : Key) (v : Value) (before after : list op)
    (Hkeep : Forall (keeps k) after) (Hfew : size (touched k after) < cap) :
  ∃ rs s, run (before ++ [Put k v] ++ after ++ [Get k]) (LRU_new cap) = Ret (rs ++ [Some v], s).
Proof.
  destruct (run_refines (before ++ [Put k v] ++ after ++ [Get k]) (LRU_new cap)
              (LRU_new_inv cap)) as (s & Hrun & _); [simpl; lia|].
  eexists _, s. rewrite Hrun. f_equal. f_equal. change (abs (LRU_new cap)) with (@nil (Key * Value)).
  rewrite !spec_run_app. simpl. set (l0 := (spec_run cap before []).2).
  assert (retained k v ∅ (spec_put cap k v l0)) as Hr0.
  { apply retained_take; [rewrite size_empty; lia|].
    apply retained_front, keys_run. constructor. }
  apply (retained_run cap k v ∅ after) in Hr0; [|done|by rewrite (left_id_L ∅ (∪))].
  unfold spec_get. rewrite (retained_assoc _ _ _ _ Hr0). simpl.
  by rewrite app_assoc.
Qed.

(** A cache of capacity zero is not a cache that stores nothing: its
    first [put] reads [back()] of the empty list, which is undefined; with
    any other capacity the first [put] returns. *)
Theorem lru_put_fresh_undefined (cap : nat) (k : Key) (v : Value) :
  put k v (LRU_new cap) = UB ↔ cap = 0.
Proof.
  split; [|by intros ->]. destruct cap; [done|]. by unfold put, LRU_new.
Qed.
End LRU.

Lemma lru_implements_spec_witness :
  1 ≤ 2 ∧
  ∃ s, run [Put 1 10; Put 2 20; Get 1; Put 3 30; Get 2; Get 1] (LRU_new 2) =
         Ret ([Some 10; None; Some 10], s).
Proof.
  split; [lia|].
  destruct (lru_implements_spec 2 [Put 1 10; Put 2 20; Get 1; Put 3 30; Get 2; Get 1]) as (s & H & _);
    [lia|].
  exists s. rewrite H. reflexivity.
Defined.

Lemma lru_retains_witness :
  ∃ rs s, run ([Put 7 70] ++ [Put 1 10] ++ [Put 2 20; Get 1; Put 2 21] ++ [Get 1]) (LRU_new 2) =
            Ret (rs ++ [Some 10], s).
Proof.
  apply (lru_retains 2 1 10 [Put 7 70] [Put 2 20; Get 1; Put 2 21]).
  - repeat constructor; simpl; lia.
  - vm_compute. lia.
Defined.
