(* ===== verification/LruThreads.v ===== *)
(** The LRU cache between threads: [foundation/lru.inl], whose calls all lock the
    mutex.

    Each call is written as its accesses to the list and the map ([Mutex]) and proved
    to be the function of [Lru]; the cache that several threads use refines the
    abstract cache. *)

From S2P Require Import Prelude Mutex Lru.

Section Lru_Threads.
Context {Key Value : Type} `{Countable Key}.

Abbreviation members := (@LRU Key Value _ _).
Abbreviation call := (@op Key Value).
Abbreviation result := (list (option Value)).
Implicit Types (s : members) (c : call).

(** [cache_[k] = list_.begin()] after [list_.emplace_front(k, v)]. *)
Definition insert_front (k : Key) (v : Value) : body members result :=
  Access Write (λ s, Some (mkLRU (capacity_ s) (Node (next_ s) k v :: list_ s) (cache_ s) (S (next_ s)),
    Access Write (λ s, begin ← head (list_ s);
      Some (mkLRU (capacity_ s) (list_ s) (<[k := nid begin]> (cache_ s)) (next_ s), Done [])))).

Definition accesses (c : call) : body members result :=
  match c with
  | Get k =>
      Access Read (λ s, Some (s,
        match cache_ s !! k with
        | None => Done [None]
        | Some it =>
            Access Write (λ s, l ← returned (splice_front it (list_ s)); Some (set_list l s,
              Access Read (λ s, '(_, n) ← returned (node_at it (list_ s)); Some (s, Done [Some (second n)]))))
        end))
  | Put k v =>
      Access Read (λ s, Some (s,
        match cache_ s !! k with
        | Some it =>
            Access Write (λ s, l ← returned (assign it v (list_ s)); Some (set_list l s,
              Access Write (λ s, l ← returned (splice_front it (list_ s)); Some (set_list l s, Done []))))
        | None =>
            Access Read (λ s, Some (s,
              if decide (length (list_ s) = capacity_ s) then
                Access Read (λ s, victim ← last (list_ s); Some (s,
                  Access Write (λ s, Some (mkLRU (capacity_ s) (list_ s) (delete (first victim) (cache_ s)) (next_ s),
                    Access Write (λ s, Some (mkLRU (capacity_ s) (removelast (list_ s)) (cache_ s) (next_ s),
                      insert_front k v))))))
              else insert_front k v))
        end))
  | Erase k =>
      Access Read (λ s, Some (s,
        match cache_ s !! k with
        | None => Done []
        | Some it =>
            Access Write (λ s, '(i, _) ← returned (node_at it (list_ s)); Some (set_list (delete i (list_ s)) s,
              Access Write (λ s, Some (mkLRU (capacity_ s) (list_ s) (delete k (cache_ s)) (next_ s), Done []))))
        end))
  end.

#[export] Instance monitor : Monitor members call result := { locked _ := true; code := accesses }.

(** None of these accesses throws. *)
Lemma node_at_throws it (l : list (@node Key Value)) w : node_at it l ≠ Throw w.
Proof. unfold node_at. by destruct (list_find _ _). Qed.

Lemma splice_throws it (l : list (@node Key Value)) w : splice_front it l ≠ Throw w.
Proof. unfold splice_front. pose proof (node_at_throws it l) as Ht. destruct (node_at it l) as [[i n]| |]; naive_solver. Qed.

Lemma assign_throws it v (l : list (@node Key Value)) w : assign it v l ≠ Throw w.
Proof. unfold assign. pose proof (node_at_throws it l) as Ht. destruct (node_at it l) as [[i n]| |]; naive_solver. Qed.

Lemma lru_call_atomic c s : run_body (code c) s = Lru.step c s.
Proof.
  destruct s as [cap l ca nx], c as [k|k v|k]; simpl; unfold get, put, erase; simpl; destruct (ca !! k) as [it|]; try done; simpl.
  - pose proof (splice_throws it l) as H1. destruct (splice_front it l) as [l1| |]; [|naive_solver..]. simpl.
    pose proof (node_at_throws it l1) as H2. destruct (node_at it l1) as [[i n]| |]; naive_solver.
  - pose proof (assign_throws it v l) as H1. destruct (assign it v l) as [l1| |]; [|naive_solver..]. simpl.
    pose proof (splice_throws it l1) as H2. destruct (splice_front it l1); naive_solver.
  - case_decide; [|done]. simpl. by destruct (last l).
  - pose proof (node_at_throws it l) as H1. destruct (node_at it l) as [[i n]| |]; naive_solver.
Qed.

Lemma lru_atomic_run cs s rs s' : atomic cs s = Ret (rs, s') → Lru.run cs s = Ret (mjoin rs, s').
Proof.
  revert s rs. induction cs as [|c cs IH]; intros s rs; [by intros [= <- <-]|]. cbn [atomic]. rewrite lru_call_atomic.
  intros H1. apply obind_Ret_inv in H1 as ([r s1] & Hs & H1). apply obind_Ret_inv in H1 as ([rs1 s2] & Ha & [= <- <-]).
  cbn [Lru.run]. rewrite Hs. cbn [obind]. by rewrite (IH _ _ Ha).
Qed.

(** What threads can make of a new cache, with the calls that returned. *)
Definition shared_by_threads (cap : nat) (hs : list (nat * call * result)) (s : state (O := members) (C := call) (R := result)) : Prop :=
  runs (λ _ _, True) (LRU_new cap) hs s.

(** ** Property *)

(** C11: the cache can be shared by threads.  Whatever threads call [get], [put] and
    [erase] on a new cache of capacity at least one, and however their accesses to the
    list and the map interleave, no two accesses race, none is undefined (no iterator
    dangles, also in the middle of a call), each call returns what the abstract cache
    returns when the calls are taken one after the other, and when no call is in
    progress the cache is that abstract cache, in the order of use. *)
Theorem lru_threads_refine_spec (cap : nat) hs (s : state) (Hcap : 1 ≤ cap) (Hrun : shared_by_threads cap hs s) :
  ¬ racy s ∧ ¬ undefined s ∧ mjoin (results hs) = (spec_run cap (calls hs) []).1 ∧
  (running s = ∅ → abs (obj s) = (spec_run cap (calls hs) []).2 ∧ inv (obj s)).
Proof.
  unfold shared_by_threads in Hrun. assert (∀ (i : nat) (c : call), True → locked c = true) as Hl by done.
  assert (∀ o1, atomic (calls hs) (LRU_new cap) = Ret (results hs, o1) →
    mjoin (results hs) = (spec_run cap (calls hs) []).1 ∧ refines o1 (spec_run cap (calls hs) []).2 ∧ capacity_ o1 = cap) as Hat.
  { intros o1 Ha%lru_atomic_run. destruct (run_refines (calls hs) (LRU_new cap) (LRU_new_inv cap) Hcap) as (s1 & Hr & Href & Hc).
    rewrite Ha in Hr. injection Hr as -> ->. done. }
  split_and!.
  - by eapply locked_calls_never_race.
  - intros Hu. destruct (locked_calls_undefined _ Hl _ _ _ Hrun Hu) as (o1 & i & c & Ha & _ & Hub).
    destruct (Hat o1 Ha) as (_ & [Hinv _] & Hc). rewrite lru_call_atomic in Hub.
    destruct (step_refines c o1 Hinv) as (s2 & Hs & _); [by rewrite Hc|]. by rewrite Hs in Hub.
  - destruct (locked_calls_serialize _ Hl _ _ _ Hrun) as (o1 & Ha & _). by apply Hat in Ha as [? _].
  - intros Hidle. by destruct (Hat _ (locked_calls_idle _ Hl _ _ _ Hrun Hidle)) as (_ & [? ?] & _).
Qed.
End Lru_Threads.

(** Two threads: an insertion, one that evicts, a miss and, left in its middle, a hit. *)
Definition two_threads : list (nat * option (@op nat nat)) :=
  [(1, Some (Put 1 10)); (1, None); (1, None); (1, None); (1, None); (1, None);
   (2, Some (Put 2 20)); (2, None); (2, None); (2, None); (2, None); (2, None); (2, None); (2, None); (2, None);
   (1, Some (Get 1)); (1, None); (1, None); (2, Some (Get 2)); (2, None); (2, None)].

Definition two_threads_hs : list (nat * @op nat nat * list (option nat)) :=
  [(1, Put 1 10, []); (2, Put 2 20, []); (1, Get 1, [None])].

Definition two_threads_end : state (O := @LRU nat nat _ _) (C := @op nat nat) (R := list (option nat)) :=
  default (idle (LRU_new 1)) (fst <$> turns two_threads (idle (LRU_new 1))).

Lemma two_threads_run : runs (λ _ _, True) (LRU_new 1) two_threads_hs two_threads_end.
Proof.
  apply (turns_runs (λ _ _, True) (LRU_new 1) two_threads (idle (LRU_new 1)) []); [constructor|vm_compute; reflexivity|].
  by apply Forall_true.
Qed.

Lemma lru_threads_refine_spec_witness :
  ¬ racy two_threads_end ∧ ¬ undefined two_threads_end ∧
  mjoin (results two_threads_hs) = (spec_run 1 [Put 1 10; Put 2 20; Get 1] []).1.
Proof.
  destruct (lru_threads_refine_spec 1 two_threads_hs two_threads_end (le_n 1) two_threads_run) as (H1 & H2 & H3 & _).
  exact (conj H1 (conj H2 H3)).
Defined.
