(* ===== verification/Sprintf.v ===== *)
(** Formatting into a string: [foundation/string_sprintf.h].

    What [vsnprintf] makes of the format and the arguments, which each pass
    copies, is a [rendering]: the text, or the failure of the call, which may
    leave anything in the bytes it was given.  [int] is 32 bits, [size_t] 64. *)

From S2P Require Import Prelude.

#[local] Open Scope Z_scope.

Definition SPRINTF_INITIAL_SIZE : nat := 128.

Definition NUL : ascii := "000"%char.

Inductive rendering :=
| Text (t : str)
| Failure (code : Z) (junk : str).

(** ** The code *)

(** [str.resize(n)]. *)
Definition resize (n : nat) (s : str) : str := take n s ++ replicate (n - length s) NUL.

(** Bytes stored from [pos] on. *)
Definition write_at (pos : nat) (w s : str) : str := take pos s ++ w ++ drop (pos + length w) s.

(** [std::vsnprintf(str.data() + pos, size, fmt, ap)]. *)
Definition vsnprintf (r : rendering) (pos size : nat) (s : str) : Z * str :=
  match r with
  | Text t =>
      (Z.of_nat (length t), if decide (size = 0%nat) then s else write_at pos (take (size - 1) t ++ [NUL]) s)
  | Failure code junk => (code, write_at pos (take size junk) s)
  end.

(** One pass of the [do ... while (true)]: the string to go on with, or the
    result and the string it is returned with. *)
Definition vsprintf_body (r : rendering) (pos : nat) (s : str) : str + Z * str :=
  let size := (length s - pos)%nat in
  let '(size, s) :=
    if decide (size < SPRINTF_INITIAL_SIZE)%nat
    then (SPRINTF_INITIAL_SIZE, resize (pos + SPRINTF_INITIAL_SIZE) s)
    else (size, s) in
  let '(len, s) := vsnprintf r pos size s in
  if len <? 0 then inr (len, if decide (pos = 0%nat) then [] else resize pos s)
  else if len <? int32 (Z.of_nat size) then
    let s := resize (pos + Z.to_nat len) s in
    inr (int32 (Z.of_nat (length s)), s)
  else inl (resize (pos + Z.to_nat len + 1) s).

Definition string_vsprintf (fuel : nat) (r : rendering) (append : bool) (s : str) : option (Z * str) :=
  let pos := if append then length s else 0%nat in
  loop (vsprintf_body r pos) fuel s.

(** The three wrappers: a new string, an assigned one, an extended one. *)
Definition string_sprintf (fuel : nat) (r : rendering) : option str :=
  snd <$> string_vsprintf fuel r false [].

Definition string_sprintf_to (fuel : nat) (r : rendering) (s : str) : option (Z * str) :=
  string_vsprintf fuel r false s.

Definition string_sprintf_append (fuel : nat) (r : rendering) (s : str) : option (Z * str) :=
  string_vsprintf fuel r true s.

(** ** Lemmas *)

Lemma resize_shorter n (s : str) : (n ≤ length s)%nat → resize n s = take n s.
Proof. intros. unfold resize. replace (n - length s)%nat with 0%nat by lia. by rewrite app_nil_r. Qed.

Lemma length_resize n (s : str) : length (resize n s) = n.
Proof. unfold resize. rewrite length_app, length_take, length_replicate. lia. Qed.

Lemma take_resize n m (s : str) : (n ≤ m)%nat → (n ≤ length s)%nat → take n (resize m s) = take n s.
Proof. intros. unfold resize. rewrite take_app_le by (rewrite length_take; lia). by rewrite take_take, Nat.min_l by lia. Qed.

Lemma take_write n pos (w s : str) : (n ≤ pos)%nat → (pos ≤ length s)%nat → take n (write_at pos w s) = take n s.
Proof. intros. unfold write_at. rewrite take_app_le by (rewrite length_take; lia). by rewrite take_take, Nat.min_l by lia. Qed.

Lemma length_write pos (w s : str) : (pos + length w ≤ length s)%nat → length (write_at pos w s) = length s.
Proof. intros. unfold write_at. rewrite !length_app, length_take, length_drop. lia. Qed.

Lemma take_write_text pos (t u s : str) :
  (pos ≤ length s)%nat → take (pos + length t) (write_at pos (t ++ u) s) = take pos s ++ t.
Proof.
  intros. unfold write_at. rewrite take_app_ge by (rewrite length_take; lia).
  f_equal. rewrite length_take, Nat.min_l by lia. replace (pos + length t - pos)%nat with (length t) by lia.
  by rewrite <-app_assoc, take_app_length.
Qed.

(** A pass over a string that has [pos] characters to keep. *)
Lemma vsprintf_pass t pos (s : str) :
  let size := (128 `max` (length s - pos))%nat in
  (pos ≤ length s)%nat → Z.of_nat size < 2 ^ 31 →
  if decide (length t < size)%nat then
    vsprintf_body (Text t) pos s = inr (int32 (Z.of_nat (pos + length t)), take pos s ++ t)
  else
    ∃ s', vsprintf_body (Text t) pos s = inl s' ∧ length s' = (pos + length t + 1)%nat ∧ take pos s' = take pos s.
Proof.
  intros size Hpos Hsize. unfold vsprintf_body, SPRINTF_INITIAL_SIZE.
  set (p := if decide (length s - pos < 128)%nat then _ else _).
  assert (∃ s1, p = (size, s1) ∧ length s1 = (pos + size)%nat ∧ take pos s1 = take pos s) as (s1 & -> & Hl1 & Ht1).
  { unfold p, size. case_decide; eexists; (split; [f_equal; lia|]).
    - rewrite length_resize, take_resize by lia. split; [lia|done].
    - split; [lia|done]. }
  unfold vsnprintf. rewrite (decide_False (P := size = 0%nat)) by (unfold size; lia). cbv beta iota zeta. rewrite (proj2 (Z.ltb_ge _ _)) by lia.
  rewrite (int32_small (Z.of_nat size)) by lia. rewrite Nat2Z.id. set (w := take (size - 1) t ++ [NUL]).
  assert (length w ≤ size)%nat as Hw by (unfold w; rewrite length_app, length_take; simpl; unfold size; lia).
  case_decide as Hlen.
  - rewrite (proj2 (Z.ltb_lt _ _)) by lia. rewrite length_resize. f_equal. f_equal.
    rewrite resize_shorter by (rewrite length_write; lia).
    unfold w. rewrite (take_ge t) by lia. by rewrite take_write_text, Ht1 by lia.
  - rewrite (proj2 (Z.ltb_ge _ _)) by lia. eexists. split; [done|].
    rewrite length_resize, take_resize, take_write by (rewrite ?length_write; lia). done.
Qed.

(** The text, whatever its length, in two passes. *)
Lemma string_vsprintf_text (fuel : nat) t (append : bool) (s : str) :
  let prefix := if append then s else [] in
  (2 ≤ fuel)%nat → Z.of_nat (length s) < 2 ^ 31 - 128 → Z.of_nat (length prefix + length t) < 2 ^ 31 - 1 →
  string_vsprintf fuel (Text t) append s = Some (Z.of_nat (length (prefix ++ t)), prefix ++ t).
Proof.
  intros prefix Hfuel Hs Ht. unfold string_vsprintf. set (pos := if append then length s else 0%nat).
  assert (pos ≤ length s)%nat as Hpos by (unfold pos; destruct append; lia).
  assert (take pos s = prefix) as Hpre by (unfold pos, prefix; destruct append; [by rewrite firstn_all|done]).
  assert (length prefix = pos) as Hlp by (rewrite <-Hpre, length_take; lia).
  eapply (loop_mono _ 2); [|exact Hfuel]. simpl. rewrite length_app, Hlp in *.
  pose proof (vsprintf_pass t pos s Hpos) as Hp. case_decide as Hlt.
  - rewrite Hp by lia. rewrite Hpre. by rewrite int32_small by lia.
  - destruct Hp as (s' & -> & Hl' & Ht'); [lia|].
    pose proof (vsprintf_pass t pos s' ltac:(lia) ltac:(lia)) as Hp. rewrite decide_True in Hp by lia.
    rewrite Hp. rewrite Ht', Hpre. by rewrite int32_small by lia.
Qed.

Lemma string_sprintf_text (fuel : nat) t :
  (2 ≤ fuel)%nat → Z.of_nat (length t) < 2 ^ 31 - 1 → string_sprintf fuel (Text t) = Some t.
Proof. intros. unfold string_sprintf. rewrite string_vsprintf_text by (simpl; lia). done. Qed.

(** ** Properties *)

(** C35: formatting takes at most two passes and gives the text: whatever the
    string held, and however long the text is (the result and the old string
    shorter than [INT_MAX]), the string becomes its old contents, when appending,
    followed by exactly the rendered text, and its length is returned; when
    [vsnprintf] fails its code is returned, and the string is left as it was when
    appending and empty otherwise. *)
Theorem string_vsprintf_renders (fuel : nat) (r : rendering) (append : bool) (s : str) :
  let prefix := if append then s else [] in
  (2 ≤ fuel)%nat → Z.of_nat (length s) < 2 ^ 31 - 128 →
  match r with
  | Text t => Z.of_nat (length prefix + length t) < 2 ^ 31 - 1
  | Failure code junk => code < 0
  end →
  string_vsprintf fuel r append s =
  Some match r with
       | Text t => (Z.of_nat (length (prefix ++ t)), prefix ++ t)
       | Failure code _ => (code, prefix)
       end.
Proof.
  intros prefix Hfuel Hs Hr. destruct r as [t|code junk]; [by apply string_vsprintf_text|].
  unfold string_vsprintf. set (pos := if append then length s else 0%nat).
  assert (pos ≤ length s)%nat as Hpos by (unfold pos; destruct append; lia).
  assert (take pos s = prefix) as Hpre by (unfold pos, prefix; destruct append; [by rewrite firstn_all|done]).
  eapply (loop_mono _ 2); [|exact Hfuel]. simpl.
  unfold vsprintf_body. simpl. set (p := if decide (length s - pos < _)%nat then _ else _).
  assert (∃ n s1, p = (n, s1) ∧ (pos ≤ length s1)%nat ∧ take pos s1 = take pos s) as (n & s1 & -> & Hl1 & Ht1).
  { unfold p, SPRINTF_INITIAL_SIZE. case_decide; eexists _, _; (split; [done|]).
    - rewrite length_resize, take_resize by lia. split; [lia|done].
    - done. }
  rewrite (proj2 (Z.ltb_lt _ _)) by lia. f_equal. f_equal. case_decide as H0.
  - rewrite H0 in Hpre. by rewrite <-Hpre.
  - rewrite resize_shorter, take_write by (unfold write_at; rewrite ?length_app, ?length_take; lia). congruence.
Qed.

Lemma string_vsprintf_renders_witness :
  string_vsprintf 2 (Text (lit "world")) true (lit "hello ") = Some (11, lit "hello world") ∧
  string_vsprintf 2 (Text (replicate 300 "x"%char)) false (lit "old") = Some (300, replicate 300 "x"%char).
Proof.
  split.
  - apply (string_vsprintf_renders 2 (Text (lit "world")) true (lit "hello ")); simpl; lia.
  - apply (string_vsprintf_renders 2 (Text (replicate 300 "x"%char)) false (lit "old")); simpl; lia.
Defined.
