(* ===== verification/Solver.v ===== *)
(** The solver simulator: [process/aps_solver.cpp], a program the scheduler can start.
    The random draws and whether the memory is there are the environment's; a
    conversion of [string_sprintf] renders a number in decimal. *)

From stdpp Require Import pretty.
From S2P Require Import Prelude Sprintf.

#[local] Open Scope Z_scope.

(** A [vector<uint8_t>] whose bytes are all the same. *)
Record buffer := mkBuffer { bytes_ : Z; value_ : Z }.

(** [vector(n)] zeroes its bytes; [fill]. *)
Definition fill (v : Z) (b : buffer) : buffer := mkBuffer (bytes_ b) v.

(** What the process did: its output, the memory it held, how long it slept, its
    status. *)
Record solver_run := mkRun {
  cout_ : str;
  memory_ : option buffer;
  slept_ : Z;
  status_ : Z
}.

Definition newline_ : str := [ascii_of_nat 10].
Definition decimal (z : Z) : str := lit (pretty z).

(** ** The code *)

(** [draw a b] is a number of [uniform_int_distribution(a, b)], [alloc n] whether
    [n] bytes can be had (else [bad_alloc]). *)
Definition main (fuel : nat) (draw : Z → Z → Z) (alloc : Z → bool) : option solver_run :=
  let target_seconds := draw 10 30 in
  let target_megabytes := draw 64 1024 in
  l1 ← string_sprintf fuel (Text (lit "[Status] Begin ro run solver ..."));
  l2 ← string_sprintf fuel (Text (lit "[Status]   Simulated runtime: " ++ decimal target_seconds ++ lit " seconds"));
  l3 ← string_sprintf fuel (Text (lit "[Status]   Simulated memory: " ++ decimal target_megabytes ++ lit " MB"));
  let cout := l1 ++ newline_ ++ l2 ++ newline_ ++ l3 ++ newline_ in
  let size := u64 (u64 (target_megabytes * 1024) * 1024) in
  if negb (alloc size) then Some (mkRun cout None 0 (-1))
  else
    let memory_buffer := fill 170 (mkBuffer size 0) in
    l4 ← string_sprintf fuel (Text (lit "[Status] Succeed to run solver, goodbye."));
    Some (mkRun (cout ++ l4 ++ newline_) (Some memory_buffer) target_seconds 0).

(** ** Properties *)

Lemma decimal_short z : 0 <= z <= 1024 → (length (decimal z) ≤ 4)%nat.
Proof.
  intros Hz. assert (Forall (λ n, (length (decimal (Z.of_nat n)) ≤ 4)%nat) (seq 0 1025)) as Hall.
  { apply (bool_decide_unpack _). vm_compute. exact I. }
  rewrite Forall_forall in Hall. specialize (Hall (Z.to_nat z)). rewrite Z2Nat.id in Hall by lia.
  apply Hall, elem_of_seq. lia.
Qed.

(** A run of the simulator, whatever it draws in its ranges: two passes of each
    formatting suffice; it asks for 64 MB to 1 GB, which no product wraps; with the
    memory it fills all of it, sleeps 10 to 30 seconds and exits with 0; without it
    exits with -1 at once, after the three lines that announce the run. *)
Theorem solver_outcome (fuel : nat) (draw : Z → Z → Z) (alloc : Z → bool)
    (Hfuel : (2 ≤ fuel)%nat) (Hdraw : ∀ a b, a <= b → a <= draw a b <= b) :
  ∃ r, main fuel draw alloc = Some r ∧
    let size := draw 64 1024 * 2 ^ 20 in
    2 ^ 26 <= size <= 2 ^ 30 ∧
    if alloc size then status_ r = 0 ∧ memory_ r = Some (mkBuffer size 170) ∧ 10 <= slept_ r <= 30
    else status_ r = -1 ∧ memory_ r = None ∧ slept_ r = 0.
Proof.
  pose proof (Hdraw 10 30 ltac:(lia)) as Hs. pose proof (Hdraw 64 1024 ltac:(lia)) as Hm.
  pose proof (decimal_short (draw 10 30) ltac:(lia)). pose proof (decimal_short (draw 64 1024) ltac:(lia)).
  unfold main. rewrite !string_sprintf_text by (rewrite ?length_app; simpl; lia). cbn [mbind option_bind].
  rewrite (wrap_small 64 (draw 64 1024 * 1024)), wrap_small by lia.
  replace (draw 64 1024 * 1024 * 1024) with (draw 64 1024 * 2 ^ 20) by lia.
  destruct (alloc _); eexists; (split; [reflexivity|]); cbn; (split; [lia|]); done.
Qed.

Lemma solver_outcome_witness :
  ∃ r, main 2 (λ a b, b) (λ n, n <=? 2 ^ 29) = Some r ∧ status_ r = -1.
Proof.
  destruct (solver_outcome 2 (λ a b, b) (λ n, n <=? 2 ^ 29)) as (r & Hr & _ & H); [lia|intros; lia|].
  exists r. exact (conj Hr (proj1 H)).
Defined.

Example quiet_run :
  option_map cout_ (main 2 (λ a b, a) (λ n, true)) =
  Some (lit "[Status] Begin ro run solver ..." ++ newline_ ++ lit "[Status]   Simulated runtime: 10 seconds" ++ newline_ ++
        lit "[Status]   Simulated memory: 64 MB" ++ newline_ ++ lit "[Status] Succeed to run solver, goodbye." ++ newline_).
Proof. vm_compute. reflexivity. Qed.
