(* ===== verification/Deleter.v ===== *)
(** The scope guard: [foundation/deleter.h].

    Guards are objects with an identity: the store maps a guard that is alive to
    its [valid] flag, and counts the calls of the deleter they share. *)

From S2P Require Import Prelude.

Record guards := mkGuards { valid : gmap nat bool; calls : nat }.

Inductive guard_op :=
| Make (g : nat)              (** [auto g = make_deleter(d)] *)
| Move (rhs g : nat)          (** [Scoped_Deleter g(std::move(rhs))] *)
| Release (g : nat)           (** [g.release()] *)
| Destroy (g : nat).          (** the end of [g]'s scope *)

(** ** The code *)

Definition construct (g : nat) (s : guards) : outcome guards :=
  match valid s !! g with
  | Some _ => UB
  | None => Ret (mkGuards (<[g := true]> (valid s)) (calls s))
  end.

(** The returned temporary is [g] itself: no move. *)
Definition make_deleter (g : nat) (s : guards) : outcome guards := construct g s.

(** [del] is forwarded; [valid] of the new guard is its default, [true]. *)
Definition move_construct (rhs g : nat) (s : guards) : outcome guards :=
  let! _ := deref (valid s !! rhs) in
  let! s := construct g s in
  Ret (mkGuards (<[rhs := false]> (valid s)) (calls s)).

Definition release (g : nat) (s : guards) : outcome guards :=
  let! _ := deref (valid s !! g) in
  Ret (mkGuards (<[g := false]> (valid s)) (calls s)).

Definition free (g : nat) (s : guards) : outcome guards :=
  let! v := deref (valid s !! g) in
  let n := if v : bool then S (calls s) else calls s in
  Ret (mkGuards (<[g := false]> (valid s)) n).

Definition destruct_guard (g : nat) (s : guards) : outcome guards :=
  let! s := free g s in
  Ret (mkGuards (delete g (valid s)) (calls s)).

Definition guard_step (o : guard_op) (s : guards) : outcome guards :=
  match o with
  | Make g => make_deleter g s
  | Move rhs g => move_construct rhs g s
  | Release g => release g s
  | Destroy g => destruct_guard g s
  end.

Fixpoint guard_steps (os : list guard_op) (s : guards) : outcome guards :=
  match os with
  | [] => Ret s
  | o :: os => let! s := guard_step o s in guard_steps os s
  end.

Definition no_guards : guards := mkGuards ∅ 0.

(** ** Reference definitions *)

(** The guards that would call the deleter. *)
Definition armed (s : guards) : gmap nat bool := filter (λ kv, kv.2 = true) (valid s).

(** A move takes from an armed guard. *)
Definition move_ok (o : guard_op) (s : guards) : Prop :=
  match o with Move rhs _ => valid s !! rhs = Some true | _ => True end.

Fixpoint moves_ok (os : list guard_op) (s : guards) : Prop :=
  match os with
  | [] => True
  | o :: os => move_ok o s ∧ match guard_step o s with Ret s' => moves_ok os s' | _ => True end
  end.

(** What a call adds to the guards made, and to the armed ones disarmed. *)
Definition made (o : guard_op) : nat := match o with Make _ => 1 | _ => 0 end.

Definition disarmed (o : guard_op) (s : guards) : nat :=
  match o with Release g => if decide (valid s !! g = Some true) then 1 else 0 | _ => 0 end.

Fixpoint all_disarmed (os : list guard_op) (s : guards) : nat :=
  match os with
  | [] => 0
  | o :: os => disarmed o s + match guard_step o s with Ret s' => all_disarmed os s' | _ => 0 end
  end.

(** ** Lemmas *)

Definition is_true_n (v : bool) : nat := if v then 1 else 0.

Lemma armed_insert_fresh (m : gmap nat bool) g v :
  m !! g = None →
  size (filter (λ kv, kv.2 = true) (<[g := v]> m)) = size (filter (λ kv, kv.2 = true) m) + is_true_n v.
Proof.
  intros Hg. destruct v.
  - rewrite map_filter_insert_True by done.
    rewrite map_size_insert_None by (apply map_lookup_filter_None; auto). simpl. lia.
  - rewrite map_filter_insert_False by done. rewrite delete_id by done. simpl. lia.
Qed.

Lemma armed_delete (m : gmap nat bool) g v :
  m !! g = Some v →
  size (filter (λ kv, kv.2 = true) m) = size (filter (λ kv, kv.2 = true) (delete g m)) + is_true_n v.
Proof.
  intros Hg. rewrite <-(insert_delete_id m g v Hg) at 1. apply armed_insert_fresh, lookup_delete_eq.
Qed.

Lemma armed_insert (m : gmap nat bool) g v v' :
  m !! g = Some v →
  size (filter (λ kv, kv.2 = true) (<[g := v']> m)) + is_true_n v = size (filter (λ kv, kv.2 = true) m) + is_true_n v'.
Proof.
  intros Hg. rewrite <-insert_delete_eq, armed_insert_fresh by apply lookup_delete_eq.
  rewrite (armed_delete m g v Hg). lia.
Qed.

(** Every guard made is armed, has called the deleter or was disarmed. *)
Lemma guard_step_count o s s' :
  guard_step o s = Ret s' → move_ok o s →
  size (armed s') + calls s' + disarmed o s = size (armed s) + calls s + made o.
Proof.
  unfold armed. destruct o as [g|rhs g|g|g]; simpl.
  - unfold make_deleter, construct. destruct (valid s !! g) eqn:E; [done|]. intros [= <-] _. simpl.
    rewrite armed_insert_fresh by done. simpl. lia.
  - unfold move_construct. intros H Hrhs. rewrite Hrhs in H. simpl in H. unfold construct in H.
    destruct (valid s !! g) eqn:E; [done|]. injection H as <-. simpl.
    pose proof (armed_insert (<[g := true]> (valid s)) rhs true false) as Hi.
    rewrite lookup_insert_ne in Hi by (intros ->; congruence). specialize (Hi Hrhs). simpl in Hi.
    rewrite (armed_insert_fresh (valid s) g true E) in Hi. simpl in Hi. lia.
  - unfold release. destruct (valid s !! g) as [v|] eqn:E; [|done]. intros [= <-] _. simpl.
    pose proof (armed_insert (valid s) g v false E) as Hi. destruct v; simpl in *; lia.
  - unfold destruct_guard, free. destruct (valid s !! g) as [v|] eqn:E; [|done]. intros [= <-] _. simpl.
    rewrite delete_insert_eq. rewrite (armed_delete (valid s) g v E). destruct v; simpl; lia.
Qed.

Lemma guard_steps_count os s s' :
  guard_steps os s = Ret s' → moves_ok os s →
  size (armed s') + calls s' + all_disarmed os s = size (armed s) + calls s + sum_list_with made os.
Proof.
  revert s. induction os as [|o os IH]; intros s H Hm; simpl in H; [injection H as <-; simpl; lia|].
  apply obind_Ret_inv in H as (s1 & H1 & H). destruct Hm as [Ho Hm]. simpl. rewrite H1 in *.
  pose proof (guard_step_count o s s1 H1 Ho). specialize (IH s1 H Hm). lia.
Qed.

(** ** Properties *)

(** The deleter is called exactly once for each guard that is made, however
    it is moved around, unless it is released: when all guards are gone, the
    number of calls is the number of guards made less those released while they
    were armed.  Moves are from armed guards. *)
Theorem deleter_called_once os s :
  guard_steps os no_guards = Ret s → moves_ok os no_guards → valid s = ∅ →
  calls s + all_disarmed os no_guards = sum_list_with made os.
Proof.
  intros H Hm Hgone. pose proof (guard_steps_count os no_guards s H Hm) as Hc.
  unfold armed in Hc. rewrite Hgone in Hc. simpl in Hc. rewrite map_filter_empty, map_size_empty in Hc. lia.
Qed.

Lemma deleter_called_once_witness :
  ∃ s, guard_steps [Make 0; Move 0 1; Make 2; Release 2; Destroy 0; Destroy 1; Destroy 2] no_guards = Ret s ∧
    calls s + 1 = 2.
Proof.
  eexists. split; [vm_compute; reflexivity|].
  apply (deleter_called_once [Make 0; Move 0 1; Make 2; Release 2; Destroy 0; Destroy 1; Destroy 2]).
  - vm_compute. reflexivity.
  - repeat split.
  - reflexivity.
Defined.

(** The move constructor does not take over [valid]: a guard moved from a
    released one calls the deleter after all. *)
Example moved_after_release_calls :
  ∃ s, guard_steps [Make 0; Release 0; Move 0 1; Destroy 1; Destroy 0] no_guards = Ret s ∧ calls s = 1.
Proof. eexists. split; [vm_compute; reflexivity|]. reflexivity. Qed.
