(* ===== verification/Backoff.v ===== *)
(** Exponential backoff: [foundation/exponential_backoff_iterator.h].

    [unsigned] is 32 bits, [unsigned long long] 64 bits.  The random engine is
    a state [R] with [draw], one call of
    [std::uniform_int_distribution<unsigned long long>(0, c)] on it; what the
    retried functor and [sleep_for] act on is a world [W]. *)

From S2P Require Import Prelude.

#[local] Open Scope Z_scope.

Section Backoff.
Context {R W : Type}.
Context (draw : R → Z → Z * R).
Context (sleep_for : Z → W → W).

(** ** The iterator *)

Record Exponential_Backoff_Iterator := mkIterator {
  base_ : Z;
  max_retries_ : Z;
  capped_ : Z;
  jitter_ : bool;
  rng_ : option R;
  current_retry_ : Z;
  current_value_ : Z
}.

Definition compute (it : Exponential_Backoff_Iterator) : Exponential_Backoff_Iterator :=
  let calculated := base_ it in
  let calculated :=
    if current_retry_ it <? 64 then u64 (Z.shiftl calculated (current_retry_ it))
    else capped_ it in
  let calculated := if calculated >? capped_ it then capped_ it else calculated in
  let '(calculated, rng) :=
    match jitter_ it, rng_ it with
    | true, Some rng => let '(x, rng) := draw rng calculated in (x, Some rng)
    | _, _ => (calculated, rng_ it)
    end in
  mkIterator (base_ it) (max_retries_ it) (capped_ it) (jitter_ it) rng
             (current_retry_ it) (u32 calculated).

(** The constructor; [rd] is the engine seeded from [std::random_device]. *)
Definition make_iterator (base max_retries capped : Z) (jitter : bool) (rd : R)
    : Exponential_Backoff_Iterator :=
  compute (mkIterator base max_retries capped jitter
                      (if jitter then Some rd else None) 0 0).

(** The default constructor: the end iterator. *)
Definition end_iterator : Exponential_Backoff_Iterator :=
  mkIterator 0 0 0 false None UINT_MAX 0.

Definition dereference (it : Exponential_Backoff_Iterator) : Z := current_value_ it.

Definition equal (it other : Exponential_Backoff_Iterator) : bool :=
  if (max_retries_ it <=? current_retry_ it) && (max_retries_ other <? current_retry_ other)
  then true
  else (base_ it =? base_ other) && (current_retry_ it =? current_retry_ other).

Definition increment (it : Exponential_Backoff_Iterator) : Exponential_Backoff_Iterator :=
  if current_retry_ it <? max_retries_ it then
    let it := mkIterator (base_ it) (max_retries_ it) (capped_ it) (jitter_ it) (rng_ it)
                         (u32 (current_retry_ it + 1)) (current_value_ it) in
    if current_retry_ it <? max_retries_ it then compute it else it
  else it.

(** [exponential_backoff]: the range from [i] to the end iterator. *)
Definition exponential_backoff (i : Exponential_Backoff_Iterator)
    : Exponential_Backoff_Iterator * Exponential_Backoff_Iterator :=
  (i, end_iterator).

(** ** The retry loop *)

Context (func : W → bool * W).

(** One iteration of the range [for]. *)
Definition retry_body (end_ : Exponential_Backoff_Iterator)
    (s : Exponential_Backoff_Iterator * W) :
    (Exponential_Backoff_Iterator * W) + (bool * W) :=
  let '(it, w) := s in
  if equal it end_ then inr (false, w)
  else
    let i := dereference it in
    let w := sleep_for i w in
    let '(ok, w) := func w in
    if ok then inr (true, w) else inl (increment it, w).

Definition exponential_retry (base max_retries capped : Z) (jitter : bool) (rd : R) (w : W)
    : option (bool * W) :=
  let '(ok, w) := func w in
  if ok then Some (true, w)
  else
    let '(begin_, end_) := exponential_backoff (make_iterator base max_retries capped jitter rd) in
    loop (retry_body end_) (S (Z.to_nat max_retries)) (begin_, w).

(** ** Reference definitions *)

(** Sleep and try again for each delay, until an attempt succeeds. *)
Fixpoint retry_spec (delays : list Z) (w : W) : bool * W :=
  match delays with
  | [] => (false, w)
  | d :: delays =>
      let '(ok, w) := func (sleep_for d w) in
      if ok then (true, w) else retry_spec delays w
  end.

Definition attempt_then (delays : list Z) (w : W) : bool * W :=
  let '(ok, w) := func w in if ok then (true, w) else retry_spec delays w.

(** The delay before retry [i] without jitter, as computed. *)
Definition delay (base capped i : Z) : Z :=
  Z.min (if i <? 64 then u64 (Z.shiftl base i) else capped) capped.

(** ** Lemmas *)

Hypothesis draw_range : ∀ r c, 0 ≤ c → 0 ≤ (draw r c).1 ≤ c.

(** What the value of an iterator may be; without jitter it is the delay. *)
Definition value_ok (it : Exponential_Backoff_Iterator) : Prop :=
  0 ≤ current_value_ it ≤ delay (base_ it) (capped_ it) (current_retry_ it) ∧
  (jitter_ it = false → current_value_ it = delay (base_ it) (capped_ it) (current_retry_ it)).

Lemma delay_bound base capped i :
  0 ≤ capped ≤ UINT_MAX → 0 ≤ delay base capped i ≤ capped.
Proof.
  unfold delay. intros. case_match; [|lia].
  pose proof (wrap_bound 64 (Z.shiftl base i)). lia.
Qed.

Lemma compute_ok it :
  0 ≤ capped_ it ≤ UINT_MAX →
  value_ok (compute it) ∧
  base_ (compute it) = base_ it ∧ max_retries_ (compute it) = max_retries_ it ∧
  capped_ (compute it) = capped_ it ∧ jitter_ (compute it) = jitter_ it ∧
  current_retry_ (compute it) = current_retry_ it.
Proof.
  intros Hc. pose proof (delay_bound (base_ it) (capped_ it) (current_retry_ it) Hc) as Hd.
  assert (∀ x, (if x >? capped_ it then capped_ it else x) = Z.min x (capped_ it)) as Hmin.
  { intros x. destruct (Z.gtb_spec x (capped_ it)); lia. }
  unfold compute, value_ok. rewrite Hmin. fold (delay (base_ it) (capped_ it) (current_retry_ it)).
  set (d := delay _ _ _) in *.
  assert (∀ x, 0 ≤ x ≤ d → u32 x = x) as Hu by (intros; apply wrap_small; unfold UINT_MAX in *; lia).
  destruct (jitter_ it) eqn:Hj; [destruct (rng_ it) as [r|]|].
  - pose proof (draw_range r d) as Hr. destruct (draw r d) as [x r']. simpl in *.
    rewrite Hu by lia. split_and!; try done; lia.
  - simpl. rewrite Hu by lia. split_and!; done || lia.
  - simpl. rewrite Hu by lia. split_and!; done || lia.
Qed.

(** An iterator inside the range of a retry loop with these parameters. *)
Record in_range (base max_retries capped : Z) (jitter : bool)
    (it : Exponential_Backoff_Iterator) : Prop := {
  ir_base : base_ it = base;
  ir_max : max_retries_ it = max_retries;
  ir_capped : capped_ it = capped;
  ir_jitter : jitter_ it = jitter;
  ir_retry : 0 ≤ current_retry_ it ≤ max_retries;
  ir_value : current_retry_ it < max_retries → value_ok it
}.

Section Range.
Context (base max_retries capped : Z) (jitter : bool).
Hypothesis Hmax : 0 ≤ max_retries ≤ UINT_MAX.
Hypothesis Hcapped : 0 ≤ capped ≤ UINT_MAX.

Notation range := (in_range base max_retries capped jitter).

Lemma make_iterator_range rd :
  range (make_iterator base max_retries capped jitter rd) ∧
  current_retry_ (make_iterator base max_retries capped jitter rd) = 0.
Proof.
  unfold make_iterator. set (it := mkIterator _ _ _ _ _ _ _).
  destruct (compute_ok it Hcapped) as (Hv & ? & ? & ? & ? & Hr). split; [|done].
  split; try done. rewrite Hr. simpl. lia.
Qed.

Lemma equal_end it : range it → equal it end_iterator = bool_decide (current_retry_ it = max_retries).
Proof.
  intros [Hb Hm _ _ Hr _]. unfold equal, end_iterator. simpl. rewrite Hm.
  destruct (Z.leb_spec max_retries (current_retry_ it)); simpl.
  - rewrite bool_decide_true by lia. done.
  - rewrite bool_decide_false by lia. unfold UINT_MAX in *.
    apply andb_false_iff. right. apply Z.eqb_neq. lia.
Qed.

Lemma increment_range it :
  range it → current_retry_ it < max_retries →
  range (increment it) ∧ current_retry_ (increment it) = current_retry_ it + 1.
Proof.
  intros [Hb Hm Hc Hj Hr _] Hlt. unfold increment. simpl. rewrite Hm.
  rewrite (wrap_small 32) by (unfold UINT_MAX in *; lia).
  destruct (Z.ltb_spec (current_retry_ it) max_retries); [|lia]. simpl.
  set (it' := mkIterator _ _ _ _ _ _ _). destruct (compute_ok it') as (Hv & ? & ? & ? & ? & Hr').
  { simpl. by rewrite Hc. }
  destruct (Z.ltb_spec (current_retry_ it + 1) max_retries).
  - split; [|done]. split; simpl in *; congruence || lia || done.
  - split; [|done]. split; simpl in *; try congruence; lia.
Qed.

(** The delays a loop started at retry [i] may sleep. *)
Definition delays_from (i : Z) (ds : list Z) : Prop :=
  i + Z.of_nat (length ds) = max_retries ∧
  ∀ j d, ds !! j = Some d →
    0 ≤ d ≤ delay base capped (i + Z.of_nat j) ∧
    (jitter = false → d = delay base capped (i + Z.of_nat j)).

Lemma retry_loop fuel it w :
  range it → (Z.to_nat (max_retries - current_retry_ it) < fuel)%nat →
  ∃ ds, delays_from (current_retry_ it) ds ∧
        loop (retry_body end_iterator) fuel (it, w) = Some (retry_spec ds w).
Proof.
  revert it w. induction fuel as [|fuel IH]; intros it w Hr Hf; [lia|]. simpl.
  rewrite equal_end by done. case_bool_decide as Heq.
  { exists []. split; [|done]. split; [simpl; lia|done]. }
  assert (current_retry_ it < max_retries) as Hlt by (destruct Hr; lia).
  destruct (increment_range it Hr Hlt) as [Hr' Hi'].
  assert (∀ ds, delays_from (current_retry_ it + 1) ds →
                delays_from (current_retry_ it) (dereference it :: ds)) as Hcons.
  { intros ds [Hlen Hds]. split; [simpl; lia|]. intros [|j] d Hj; simplify_eq/=.
    - destruct (ir_value _ _ _ _ _ Hr Hlt) as [Hv1 Hv2]. destruct Hr as [Hb _ Hc Hj' _ _].
      rewrite Hb, Hc in Hv1. rewrite Hb, Hc, Hj' in Hv2. by rewrite Z.add_0_r.
    - replace (current_retry_ it + Z.of_nat (S j)) with (current_retry_ it + 1 + Z.of_nat j) by lia.
      by apply Hds. }
  destruct (IH (increment it) (func (sleep_for (dereference it) w)).2 Hr') as (ds & Hds & Hloop); [lia|].
  rewrite Hi' in Hds. exists (dereference it :: ds). split; [by apply Hcons|].
  simpl. destruct (func (sleep_for (dereference it) w)) as [[] w']; [done|]. exact Hloop.
Qed.
End Range.

Lemma exponential_retry_loop base max_retries capped jitter rd w :
  0 ≤ max_retries ≤ UINT_MAX → 0 ≤ capped ≤ UINT_MAX →
  ∃ ds, delays_from base max_retries capped jitter 0 ds ∧
        exponential_retry base max_retries capped jitter rd w = Some (attempt_then ds w).
Proof.
  intros Hmax Hcapped.
  destruct (make_iterator_range base max_retries capped jitter Hmax Hcapped rd) as [Hr H0].
  destruct (retry_loop base max_retries capped jitter Hmax Hcapped (S (Z.to_nat max_retries))
              _ (func w).2 Hr) as (ds & Hds & Hloop); [lia|].
  rewrite H0 in Hds. exists ds. split; [done|].
  unfold exponential_retry, exponential_backoff, attempt_then.
  destruct (func w) as [[] w']; [done|]. exact Hloop.
Qed.

Lemma delay_exact base capped i :
  0 ≤ base → 0 ≤ i < 64 → base * 2 ^ i < 2 ^ 64 → delay base capped i = Z.min (base * 2 ^ i) capped.
Proof.
  unfold delay. intros Hb Hi Hlt. destruct (Z.ltb_spec i 64); [|lia]. by rewrite Z.shiftl_mul_pow2, wrap_small by lia.
Qed.

(** Up to retry 32 the shift of a 32-bit base loses nothing. *)
Lemma delay_small base capped i :
  0 ≤ base ≤ UINT_MAX → 0 ≤ i ≤ 32 → delay base capped i = Z.min (base * 2 ^ i) capped.
Proof.
  intros Hb Hi. apply delay_exact; [lia|lia|].
  assert (2 ^ i ≤ 2 ^ 32) by (apply Z.pow_le_mono_r; lia). unfold UINT_MAX in *. nia.
Qed.

Lemma delay_late base capped i : 64 ≤ i → delay base capped i = capped.
Proof. unfold delay. intros Hi. destruct (Z.ltb_spec i 64); lia. Qed.

Lemma delay_overflows k capped : 1 ≤ k ≤ 31 → 0 ≤ capped → delay (2 ^ k) capped (64 - k) = 0.
Proof.
  intros Hk Hcapped. unfold delay. destruct (Z.ltb_spec (64 - k) 64); [|lia].
  rewrite Z.shiftl_mul_pow2, <-Z.pow_add_r by lia.
  replace (k + (64 - k)) with 64 by lia. unfold wrap. rewrite Z_mod_same_full. lia.
Qed.

(** The iterator after [n] increments. *)
Lemma iterate_range base max_retries capped jitter rd n :
  0 ≤ max_retries ≤ UINT_MAX → 0 ≤ capped ≤ UINT_MAX → Z.of_nat n ≤ max_retries →
  let it := Nat.iter n increment (make_iterator base max_retries capped jitter rd) in
  in_range base max_retries capped jitter it ∧ current_retry_ it = Z.of_nat n.
Proof.
  intros Hmax Hcapped. induction n as [|n IH]; intros Hn; [by apply make_iterator_range|].
  destruct IH as [Hr Hc]; [lia|]. destruct (increment_range _ _ _ _ Hmax Hcapped _ Hr) as [Hr' Hc']; [lia|].
  rewrite Nat.iter_succ. split; [done|]. rewrite Hc'. lia.
Qed.

(** ** Properties *)

(** C20: [exponential_retry] terminates for every functor: it tries once,
    then exactly follows a list of [max_retries] delays, sleeping each one
    and trying again until an attempt succeeds (at most [max_retries + 1]
    attempts, false only after the last failed).  Delay [i] lies between 0
    and the capped backoff [delay base capped i], and is that value when
    there is no jitter. *)
Theorem exponential_retry_follows_delays (base max_retries capped : Z) (jitter : bool) (rd : R) (w : W)
    (Hmax : 0 ≤ max_retries ≤ UINT_MAX) (Hcapped : 0 ≤ capped ≤ UINT_MAX) :
  ∃ ds, delays_from base max_retries capped jitter 0 ds ∧
        exponential_retry base max_retries capped jitter rd w = Some (attempt_then ds w).
Proof. by apply exponential_retry_loop. Qed.

(** The types of the C++ fields, and what the class keeps of them: an engine exactly
    when there is jitter, never more retries than the maximum. *)
Record iterator_typed (it : Exponential_Backoff_Iterator) : Prop := mkTyped {
  typed_base : 0 ≤ base_ it ≤ UINT_MAX;
  typed_max : 0 ≤ max_retries_ it ≤ UINT_MAX;
  typed_capped : 0 ≤ capped_ it ≤ UINT_MAX;
  typed_retry : 0 ≤ current_retry_ it ≤ max_retries_ it;
  typed_value : 0 ≤ current_value_ it ≤ capped_ it;
  typed_rng : is_Some (rng_ it) ↔ jitter_ it = true
}.

Lemma compute_typed it : 
  0 ≤ base_ it ≤ UINT_MAX → 0 ≤ capped_ it ≤ UINT_MAX → 0 ≤ max_retries_ it ≤ UINT_MAX →
  0 ≤ current_retry_ it ≤ max_retries_ it → (is_Some (rng_ it) ↔ jitter_ it = true) → iterator_typed (compute it).
Proof.
  intros Hb Hc Hm Hr Hj. destruct (compute_ok it Hc) as ([Hv _] & E1 & E2 & E3 & E4 & E5).
  rewrite E1, E3, E5 in Hv. pose proof (delay_bound (base_ it) (capped_ it) (current_retry_ it) Hc).
  split; rewrite ?E1, ?E2, ?E3, ?E4, ?E5; try done; [lia|].
  rewrite <-Hj. unfold compute. destruct (jitter_ it), (rng_ it) as [r|] eqn:Er; simpl; rewrite ?Er; try done.
  by destruct (draw r _).
Qed.

Lemma increment_typed it : iterator_typed it → iterator_typed (increment it).
Proof.
  intros [Hb Hm Hc Hr Hv Hj]. unfold increment. destruct (Z.ltb_spec (current_retry_ it) (max_retries_ it)); [|by split].
  assert (u32 (current_retry_ it + 1) = current_retry_ it + 1) as E by (apply wrap_small; unfold UINT_MAX in *; lia).
  rewrite E. simpl. destruct (Z.ltb_spec (current_retry_ it + 1) (max_retries_ it)).
  - apply compute_typed; simpl; try done; lia.
  - split; simpl; try done; lia.
Qed.

(** C32: an iterator is well typed from its construction on, through any number of
    increments: its fields are [unsigned] values, the delay is at most the cap, the
    count of retries at most the maximum, where it stays, and the random engine is
    there exactly when jitter was asked for. *)
Theorem iterator_well_typed (base max_retries capped : Z) (jitter : bool) (rd : R) (n : nat)
    (Hb : 0 ≤ base ≤ UINT_MAX) (Hm : 0 ≤ max_retries ≤ UINT_MAX) (Hc : 0 ≤ capped ≤ UINT_MAX) :
  let it := Nat.iter n increment (make_iterator base max_retries capped jitter rd) in
  iterator_typed it ∧ base_ it = base ∧ max_retries_ it = max_retries ∧ capped_ it = capped ∧
  current_retry_ it = Z.min (Z.of_nat n) max_retries.
Proof.
  induction n as [|n IH].
  - cbn [Nat.iter nat_rect]. unfold make_iterator. set (it := mkIterator _ _ _ _ _ _ _).
    destruct (compute_ok it Hc) as (_ & -> & -> & -> & _ & ->). split_and!; try done; [|simpl; lia].
    apply compute_typed; simpl; try done; [lia|]. by destruct jitter; split; [|intros _; eexists| |].
  - destruct IH as (Ht & E1 & E2 & E3 & E4). rewrite Nat.iter_succ. cbv zeta. set (it := Nat.iter n _ _) in *.
    split; [by apply increment_typed|]. unfold increment. rewrite E2, E4.
    destruct (Z.ltb_spec (Z.min (Z.of_nat n) max_retries) max_retries); [|split_and!; try done; lia].
    set (it' := mkIterator _ _ _ _ _ _ _). assert (current_retry_ it' = Z.of_nat (S n)) as E5.
    { simpl. rewrite wrap_small; [lia|]. unfold UINT_MAX in *. lia. }
    change (max_retries_ it') with max_retries. rewrite E5. destruct (Z.ltb_spec (Z.of_nat (S n)) max_retries).
    + destruct (compute_ok it') as (_ & -> & -> & -> & _ & ->); [by rewrite <-E3 in Hc|]. simpl in *. split_and!; done || lia.
    + simpl in *. split_and!; done || lia.
Qed.

(** C33: the delay an iterator gives after [n] increments, while there are retries
    left, is the textbook exponential backoff [min (base * 2^n) capped], before retry
    64 and as long as [base * 2^n] fits 64 bits (for any base up to retry 32), and
    from retry 64 on it is the cap; with jitter it is a value between 0 and that.  In between the shift
    can overflow before the comparison with the cap: a base [2^k] is shifted to 0
    at retry [64 - k], which then does not wait at all instead of [capped] seconds. *)
Theorem delay_is_capped_exponential (base max_retries capped : Z) (jitter : bool) (rd : R) (n : nat)
    (Hbase : 0 ≤ base ≤ UINT_MAX) (Hmax : 0 ≤ max_retries ≤ UINT_MAX) (Hcapped : 0 ≤ capped ≤ UINT_MAX)
    (Hn : Z.of_nat n < max_retries) :
  let d := dereference (Nat.iter n increment (make_iterator base max_retries capped jitter rd)) in
  let backs_off c := 0 ≤ d ≤ c ∧ (jitter = false → d = c) in
  (Z.of_nat n < 64 → base * 2 ^ Z.of_nat n < 2 ^ 64 → backs_off (Z.min (base * 2 ^ Z.of_nat n) capped)) ∧
  (64 ≤ Z.of_nat n → backs_off capped) ∧
  (∀ k, 1 ≤ k ≤ 31 → base = 2 ^ k → Z.of_nat n = 64 - k → d = 0).
Proof.
  destruct (iterate_range base max_retries capped jitter rd n Hmax Hcapped) as [Hr Hc]; [lia|].
  intros d backs_off. assert (backs_off (delay base capped (Z.of_nat n))) as Hd.
  { destruct (ir_value _ _ _ _ _ Hr) as [H1 H2]; [lia|]. destruct Hr as [Hb _ Hcap Hj _ _].
    rewrite Hb, Hcap, Hc in H1, H2. rewrite Hj in H2. done. }
  split_and!.
  - intros Hlt Hfit. by rewrite <-delay_exact by lia.
  - intros Hge. rewrite delay_late in Hd by done. done.
  - intros k Hk -> Hnk. rewrite Hnk, delay_overflows in Hd by lia. destruct Hd as [Hd _]. lia.
Qed.
End Backoff.

(** A world that logs sleeps and succeeds on the attempt after [n] failures;
    the engine always draws the upper bound. *)
Definition log_world : Type := nat * list Z.
Definition log_draw (r : unit) (c : Z) : Z * unit := (c, r).
Definition log_sleep (d : Z) (w : log_world) : log_world := (w.1, w.2 ++ [d]).
Definition log_func (w : log_world) : bool * log_world :=
  match w.1 with O => (true, w) | S n => (false, (n, w.2)) end.

Example retry_log :
  exponential_retry log_draw log_sleep log_func 3 5 20 true tt (4%nat, []) =
  Some (true, (0%nat, [3; 6; 12; 20])).
Proof. reflexivity. Qed.

Example retry_exhausted :
  exponential_retry log_draw log_sleep log_func 1 3 UINT_MAX true tt (9%nat, []) =
  Some (false, (5%nat, [1; 2; 4])).
Proof. reflexivity. Qed.

Lemma exponential_retry_follows_delays_witness :
  ∃ ds, delays_from 3 5 20 true 0 ds ∧
        exponential_retry log_draw log_sleep log_func 3 5 20 true tt (4%nat, []) =
        Some (attempt_then log_sleep log_func ds (4%nat, [])).
Proof.
  apply (exponential_retry_follows_delays log_draw log_sleep log_func).
  - intros r c Hc. simpl. lia.
  - unfold UINT_MAX. lia.
  - unfold UINT_MAX. lia.
Defined.

Lemma iterator_well_typed_witness :
  current_retry_ (Nat.iter 5 (increment log_draw) (make_iterator log_draw 3 4 20 true tt)) = 4 ∧
  iterator_typed (Nat.iter 5 (increment log_draw) (make_iterator log_draw 3 4 20 true tt)).
Proof.
  destruct (iterator_well_typed log_draw) with (base := 3) (max_retries := 4) (capped := 20) (jitter := true) (rd := tt) (n := 5%nat)
    as (Ht & _ & _ & _ & Hn); [intros r c Hc; simpl; lia|unfold UINT_MAX; lia..|].
  exact (conj Hn Ht).
Defined.

Lemma delay_is_capped_exponential_witness :
  dereference (Nat.iter 7 (increment log_draw) (make_iterator log_draw 3 80 1000 false tt)) = 384 ∧
  dereference (Nat.iter 63 (increment log_draw) (make_iterator log_draw 2 80 1000 false tt)) = 0.
Proof.
  split.
  - refine (proj2 (proj1 (delay_is_capped_exponential log_draw _ 3 80 1000 false tt 7 _ _ _ _) _ _) eq_refl);
      try (unfold UINT_MAX; lia). intros r c Hc. simpl. lia.
  - apply (proj2 (proj2 (delay_is_capped_exponential log_draw ltac:(intros r c Hc; simpl; lia) 2 80 1000 false tt 63
      ltac:(unfold UINT_MAX; lia) ltac:(unfold UINT_MAX; lia) ltac:(unfold UINT_MAX; lia) ltac:(lia))) 1); lia.
Defined.
