(* ===== verification/ProcessKiller.v ===== *)
(** Killing a process: [process/process_killer.cpp].

    [kill] and [errno] are the system's, over a world [W]; the retries are
    those of [Backoff]. *)

From S2P Require Import Prelude Backoff.

#[local] Open Scope Z_scope.

Definition SIGKILL : Z := 9.
Definition SIGTERM : Z := 15.
Definition EPERM : Z := 1.
Definition ESRCH : Z := 3.

Section ProcessKiller.
Context {R W : Type}.
Context (draw : R → Z → Z * R) (sleep_for : Z → W → W).

(** [::kill(pid, sig)]: its result; and [errno] after a call. *)
Context (kill : Z → Z → W → Z * W) (errno : W → Z).

(** ** The code *)

Definition alive (pid : Z) (w : W) : bool * W :=
  let '(r, w) := kill pid 0 w in
  ((r =? 0) || (errno w =? EPERM), w).

(** The functors given to [exponential_retry]. *)
Definition kill_and_check (pid sig : Z) (w : W) : bool * W :=
  let '(r, w) := kill pid sig w in
  if r =? 0 then let '(a, w) := alive pid w in (negb a, w) else (false, w).

(** [rd1], [rd2] are the seeds of the two backoff iterators. *)
Definition elegant_kill (pid : Z) (rd1 rd2 : R) (w : W) : option (bool * W) :=
  let '(a, w) := alive pid w in
  if negb a then Some (false, w)
  else
    match exponential_retry draw sleep_for (kill_and_check pid SIGTERM) 1 3 UINT_MAX true rd1 w with
    | None => None
    | Some (true, w) => Some (true, w)
    | Some (false, w) =>
        exponential_retry draw sleep_for (kill_and_check pid SIGKILL) 1 3 UINT_MAX true rd2 w
    end.

Definition terminate (pid : Z) (rd1 rd2 : R) (w : W) : option W :=
  snd <$> elegant_kill pid rd1 rd2 w.

(** The body is still to be written. *)
Definition terminate_with_children (pid : Z) (w : W) : W := w.

(** ** Lemmas *)

Hypothesis draw_range : ∀ r c, 0 ≤ c → 0 ≤ (draw r c).1 ≤ c.

(** The capped delays of [exponential_retry(1, 3, ...)]: at most 1, 2, 4. *)
Definition short_delays (ds : list Z) : Prop :=
  length ds = 3%nat ∧ ∀ j d, ds !! j = Some d → 0 ≤ d ≤ 2 ^ Z.of_nat j.

Lemma retry_1_3 sig pid rd w :
  ∃ ds, short_delays ds ∧
        exponential_retry draw sleep_for (kill_and_check pid sig) 1 3 UINT_MAX true rd w =
        Some (attempt_then sleep_for (kill_and_check pid sig) ds w).
Proof.
  destruct (exponential_retry_loop draw sleep_for (kill_and_check pid sig) draw_range
              1 3 UINT_MAX true rd w) as (ds & [Hlen Hds] & ->); [unfold UINT_MAX; lia..|].
  exists ds. split; [|done]. split; [lia|]. intros j d Hj.
  apply lookup_lt_Some in Hj as Hlt.
  destruct (Hds j d Hj) as [Hd _]. rewrite Z.add_0_l in Hd.
  rewrite delay_small in Hd by (unfold UINT_MAX; lia).
  rewrite Z.mul_1_l in Hd. lia.
Qed.

(** What [elegant_kill] does, with the delays made explicit. *)
Definition kill_spec (pid : Z) (ds1 ds2 : list Z) (w : W) : bool * W :=
  let '(a, w) := alive pid w in
  if a then
    let '(ok, w) := attempt_then sleep_for (kill_and_check pid SIGTERM) ds1 w in
    if ok then (true, w) else attempt_then sleep_for (kill_and_check pid SIGKILL) ds2 w
  else (false, w).

Lemma elegant_kill_eq pid rd1 rd2 w :
  ∃ ds1 ds2, short_delays ds1 ∧ short_delays ds2 ∧
             elegant_kill pid rd1 rd2 w = Some (kill_spec pid ds1 ds2 w).
Proof.
  unfold elegant_kill, kill_spec. destruct (alive pid w) as [a w1].
  destruct (retry_1_3 SIGTERM pid rd1 w1) as (ds1 & H1 & ->).
  destruct (attempt_then sleep_for (kill_and_check pid SIGTERM) ds1 w1) as [ok w2] eqn:E1.
  destruct (retry_1_3 SIGKILL pid rd2 w2) as (ds2 & H2 & Heq).
  exists ds1, ds2. split_and!; [done..|]. rewrite E1. destruct a, ok; done.
Qed.

(** A predicate on worlds that sleeping keeps and under which the functor
    fails and keeps it makes every attempt fail. *)
Lemma attempts_fail (P : W → Prop) f ds w :
  (∀ d w, P w → P (sleep_for d w)) →
  (∀ w, P w → (f w).1 = false ∧ P (f w).2) →
  P w → (attempt_then sleep_for f ds w).1 = false ∧ P (attempt_then sleep_for f ds w).2.
Proof.
  intros Hs Hf Hw.
  assert (∀ ds w, P w → (retry_spec sleep_for f ds w).1 = false ∧ P (retry_spec sleep_for f ds w).2)
    as Hretry.
  { clear w Hw ds. induction ds as [|d ds IH]; intros w Hw; [done|]. simpl.
    destruct (Hf _ (Hs d w Hw)) as [H1 H2]. destruct (f (sleep_for d w)) as [ok w'].
    simpl in *. subst ok. by apply IH. }
  unfold attempt_then. destruct (Hf w Hw) as [H1 H2]. destruct (f w) as [ok w'].
  simpl in *. subst ok. by apply Hretry.
Qed.

Lemma attempts_true f ds w w' :
  attempt_then sleep_for f ds w = (true, w') → ∃ w0, f w0 = (true, w').
Proof.
  unfold attempt_then. destruct (f w) as [[] w1] eqn:E; [intros [= ->]; eauto|].
  clear E. revert w1. induction ds as [|d ds IH]; intros w1; simpl; [done|].
  destruct (f (sleep_for d w1)) as [[] w2] eqn:E; [intros [= ->]; eauto|]. apply IH.
Qed.

(** ** Properties *)

(** C34: [elegant_kill] always returns; it returns true only right after a
    [SIGTERM] or [SIGKILL] that the system accepted and a probe that found
    the process gone; a process that the first probe finds gone gets no
    signal and the answer is false. *)
Theorem elegant_kill_true_means_gone (pid : Z) (rd1 rd2 : R) (w : W) :
  ∃ ok w', elegant_kill pid rd1 rd2 w = Some (ok, w') ∧
    (ok = true → ∃ sig w0 w1, (sig = SIGTERM ∨ sig = SIGKILL) ∧
                              kill pid sig w0 = (0, w1) ∧ alive pid w1 = (false, w')) ∧
    ((alive pid w).1 = false → ok = false ∧ w' = (alive pid w).2).
Proof.
  destruct (elegant_kill_eq pid rd1 rd2 w) as (ds1 & ds2 & _ & _ & ->).
  assert (∀ sig w0 w', kill_and_check pid sig w0 = (true, w') →
            ∃ w1, kill pid sig w0 = (0, w1) ∧ alive pid w1 = (false, w')) as Hcheck.
  { intros sig w0 w'. unfold kill_and_check. destruct (kill pid sig w0) as [r w1].
    destruct (Z.eqb_spec r 0) as [->|]; [|done].
    destruct (alive pid w1) as [[] w2] eqn:E; [done|]. intros [= ->]. eauto. }
  destruct (kill_spec pid ds1 ds2 w) as [ok w'] eqn:E. exists ok, w'. split; [done|].
  unfold kill_spec in E. destruct (alive pid w) as [[] w1]; simpl; [|split; intros; simplify_eq; done].
  split; [|done]. intros ->.
  destruct (attempt_then _ (kill_and_check pid SIGTERM) ds1 w1) as [[] w2] eqn:E1.
  - simplify_eq. apply attempts_true in E1 as [w0 Hw0]. apply Hcheck in Hw0 as (w3 & ? & ?).
    exists SIGTERM, w0, w3. auto.
  - apply attempts_true in E as [w0 Hw0]. apply Hcheck in Hw0 as (w3 & ? & ?).
    exists SIGKILL, w0, w3. auto.
Qed.

(** A process that is still there right after the first [SIGTERM] but
    disappears before the next attempt (and whose pid stays unknown to the
    system, so that [kill] fails) is reported as not killed: all later
    attempts fail because signalling a dead process fails. *)
Theorem elegant_kill_misses_late_exit (pid : Z) (rd1 rd2 : R) (gone : W → Prop) (w : W)
    (Hgone_kill : ∀ sig w, gone w → (kill pid sig w).1 ≠ 0 ∧ gone (kill pid sig w).2)
    (Hgone_sleep : ∀ d w, gone w → gone (sleep_for d w))
    (Halive : (alive pid w).1 = true)
    (Hfirst : (kill_and_check pid SIGTERM (alive pid w).2).1 = false)
    (Hlate : ∀ d, gone (sleep_for d (kill_and_check pid SIGTERM (alive pid w).2).2)) :
  ∃ w', elegant_kill pid rd1 rd2 w = Some (false, w') ∧ gone w'.
Proof.
  destruct (elegant_kill_eq pid rd1 rd2 w) as (ds1 & ds2 & [Hlen _] & _ & ->).
  assert (∀ sig w, gone w → (kill_and_check pid sig w).1 = false ∧ gone (kill_and_check pid sig w).2)
    as Hfail.
  { intros sig w0 Hw0. unfold kill_and_check. destruct (Hgone_kill sig w0 Hw0) as [Hr Hg].
    destruct (kill pid sig w0) as [r w1]. simpl in *. by destruct (Z.eqb_spec r 0). }
  unfold kill_spec. destruct (alive pid w) as [a w1]. simpl in *. subst a.
  unfold attempt_then at 1. destruct (kill_and_check pid SIGTERM w1) as [ok w2]. simpl in *. subst ok.
  destruct ds1 as [|d ds1]; [done|]. simpl.
  destruct (attempts_fail gone (kill_and_check pid SIGTERM) ds1 (sleep_for d w2) Hgone_sleep
              (Hfail SIGTERM) (Hlate d)) as [H1 H2].
  unfold attempt_then in H1, H2.
  destruct (kill_and_check pid SIGTERM (sleep_for d w2)) as [ok w3].
  destruct (if ok then (true, w3) else retry_spec sleep_for (kill_and_check pid SIGTERM) ds1 w3)
    as [ok' w4]. simpl in *. subst ok'.
  destruct (attempts_fail gone (kill_and_check pid SIGKILL) ds2 w4 Hgone_sleep (Hfail SIGKILL) H2)
    as [H3 H4].
  destruct (attempt_then _ _ ds2 w4) as [ok5 w5]. simpl in *. subst. eauto.
Qed.
End ProcessKiller.

(** A process table of one process, [(signalled, exited, log)], that exits
    during the first sleep after a signal. *)
Definition table : Type := bool * bool * list Z.
Definition table_kill (pid sig : Z) (w : table) : Z * table :=
  let '(signalled, exited, log) := w in
  if exited then (-1, w) else (0, ((0 <? sig) || signalled, false, log ++ [sig])).
Definition table_errno (w : table) : Z := ESRCH.
Definition table_sleep (d : Z) (w : table) : table :=
  let '(signalled, exited, log) := w in (signalled, signalled || exited, log).

Example late_exit_is_missed :
  elegant_kill log_draw table_sleep table_kill table_errno 42 tt tt (false, false, []) =
  Some (false, (true, true, [0; 15; 0])).
Proof. reflexivity. Qed.

Lemma elegant_kill_true_means_gone_witness :
  ∃ ok w', elegant_kill log_draw table_sleep table_kill table_errno 42 tt tt (true, true, []) =
           Some (ok, w') ∧ ok = false.
Proof.
  destruct (elegant_kill_true_means_gone log_draw table_sleep table_kill table_errno
              ltac:(intros r c Hc; simpl; lia) 42 tt tt (true, true, [])) as (ok & w' & H1 & _ & H2).
  exists ok, w'. split; [done|]. by apply H2.
Defined.

Lemma elegant_kill_misses_late_exit_witness :
  ∃ w', elegant_kill log_draw table_sleep table_kill table_errno 42 tt tt (false, false, []) =
        Some (false, w') ∧ w'.1.2 = true.
Proof.
  apply (elegant_kill_misses_late_exit log_draw table_sleep table_kill table_errno
           ltac:(intros r c Hc; simpl; lia) 42 tt tt (λ w, w.1.2 = true)).
  - intros sig [[s e] l] He. simpl in He. by subst e.
  - intros d [[s e] l] Hw. simpl in *. subst. apply orb_true_r.
  - done.
  - done.
  - done.
Defined.
