(* ===== verification/HttpHelper.v ===== *)
(** Percent decoding: [foundation/inline_utils.h] and the [decode_*] functions
    of [httpd/http_helper.cpp].

    The code is [char2hex] and [decode_percent] with its callers; [Decodes] is
    the grammar of what they accept, [percent_encode] an RFC 3986 encoder. *)

From S2P Require Import Prelude.

#[local] Open Scope Z_scope.

(** ** The code *)

(** The value of a [char], which is signed. *)
Definition char_val (c : ascii) : Z :=
  let n := Z.of_N (N_of_ascii c) in if n <? 128 then n else n - 256.

(** [static_cast<unsigned char>(z)], as a character. *)
Definition byte_of (z : Z) : ascii := ascii_of_N (Z.to_N (z mod 256)).

Definition char2hex (c : ascii) : Z :=
  let between lo hi := (char_val lo <=? char_val c) && (char_val c <=? char_val hi) in
  if between "0"%char "9"%char then char_val c - char_val "0"%char
  else if between "A"%char "F"%char then char_val c - char_val "A"%char + 10
  else if between "a"%char "f"%char then char_val c - char_val "a"%char + 10
  else -1.

Definition HLPR_FLAG_NONE : Z := 0.
Definition HLPR_FLAG_SLASH : Z := Z.shiftl 1 0.
Definition HLPR_FLAG_SPACE : Z := Z.shiftl 1 1.

(** [flags & f], as a condition. *)
Definition has_flag (flags f : Z) : bool := negb (Z.land flags f =? 0).

(** The [while (src < end)] loop; the characters from [src] to [end] are the
    list, so [end - src < HEX_PAIR_LEN] is fewer than two after the [%]. *)
Fixpoint decode_loop (flags : Z) (src res : str) : bool * str :=
  match src with
  | [] => (true, res)
  | c :: src1 =>
      if decide (c = "%"%char) then
        match src1 with
        | c1 :: c2 :: src3 =>
            let h := char2hex c1 in
            let l := char2hex c2 in
            if (h <? 0) || (l <? 0) then (false, res)
            else
              let decoded := byte_of (Z.lor (Z.shiftl h 4) l) in
              if decide (decoded = "/"%char) then
                if has_flag flags HLPR_FLAG_SLASH
                then decode_loop flags src3 (res ++ [decoded])
                else decode_loop flags src3 (res ++ [c; c1; c2])
              else decode_loop flags src3 (res ++ [decoded])
        | _ => (false, res)
        end
      else if bool_decide (c = "+"%char) && has_flag flags HLPR_FLAG_SPACE then
        decode_loop flags src1 (res ++ [" "%char])
      else decode_loop flags src1 (res ++ [c])
  end.

(** [src] is the memory from the pointer on ([None] for a null pointer), [res]
    the string passed by reference: the result and its value after the call. *)
Definition decode_percent (src : option str) (len : nat) (res : str) (flags : Z) : bool * str :=
  match src with
  | None => (false, res)
  | Some src =>
      let res := [] in
      if decide (len = 0%nat) then (true, res)
      else decode_loop flags (take len src) res
  end.

Definition decode_path (src : option str) (len : nat) (res : str) (flags : Z) : bool * str :=
  decode_percent src len res flags.

Definition decode_path_str (src : option str) (len : nat) (flags : Z) : str :=
  let '(ok, res) := decode_path src len [] flags in
  if negb ok then [] else res.

Definition decode_query (src : option str) (len : nat) (res : str) (flags : Z) : bool * str :=
  decode_percent src len res flags.

Definition decode_query_str (src : option str) (len : nat) (flags : Z) : str :=
  let '(ok, res) := decode_query src len [] flags in
  if negb ok then [] else res.

(** The default arguments of the declarations. *)
Definition path_flags : Z := HLPR_FLAG_SLASH.
Definition query_flags : Z := Z.lor HLPR_FLAG_SLASH HLPR_FLAG_SPACE.

(** ** The grammar *)

(** [Hex c n]: [c] is the hexadecimal digit of value [n]. *)
Definition Hex (c : ascii) (n : Z) : Prop := char2hex c = n ∧ 0 ≤ n.

Inductive Decodes (flags : Z) : str → str → Prop :=
| Decodes_nil : Decodes flags [] []
| Decodes_char c src out :
    c ≠ "%"%char → (c = "+"%char → has_flag flags HLPR_FLAG_SPACE = false) →
    Decodes flags src out → Decodes flags (c :: src) (c :: out)
| Decodes_plus src out :
    has_flag flags HLPR_FLAG_SPACE = true →
    Decodes flags src out → Decodes flags ("+"%char :: src) (" "%char :: out)
| Decodes_hex c1 c2 h l src out :
    Hex c1 h → Hex c2 l →
    (byte_of (16 * h + l) = "/"%char → has_flag flags HLPR_FLAG_SLASH = true) →
    Decodes flags src out →
    Decodes flags ("%"%char :: c1 :: c2 :: src) (byte_of (16 * h + l) :: out)
| Decodes_kept c1 c2 h l src out :
    Hex c1 h → Hex c2 l →
    byte_of (16 * h + l) = "/"%char → has_flag flags HLPR_FLAG_SLASH = false →
    Decodes flags src out →
    Decodes flags ("%"%char :: c1 :: c2 :: src) ("%"%char :: c1 :: c2 :: out).

(** ** A percent encoder *)

Definition hex_digit (n : Z) : ascii :=
  if n <? 10 then byte_of (48 + n) else byte_of (55 + n).

Definition unreserved (c : ascii) : bool :=
  let n := Z.of_N (N_of_ascii c) in
  ((48 <=? n) && (n <=? 57)) || ((65 <=? n) && (n <=? 90)) || ((97 <=? n) && (n <=? 122)) ||
  (n =? 45) || (n =? 46) || (n =? 95) || (n =? 126).

Definition encode_char (c : ascii) : str :=
  if unreserved c then [c]
  else ["%"%char; hex_digit (Z.of_N (N_of_ascii c) / 16); hex_digit (Z.of_N (N_of_ascii c) mod 16)].

Definition percent_encode (s : str) : str := mjoin (encode_char <$> s).

(** ** Lemmas *)

Lemma char2hex_range c : -1 ≤ char2hex c ≤ 15.
Proof. destruct c as [[] [] [] [] [] [] [] []]; vm_compute; split; discriminate. Qed.

Lemma hex_pair h l : 0 ≤ h ≤ 15 → 0 ≤ l ≤ 15 → Z.lor (Z.shiftl h 4) l = 16 * h + l.
Proof.
  intros Hh Hl. rewrite Z.shiftl_mul_pow2 by lia.
  enough (Z.land (h * 2 ^ 4) l = 0) by (pose proof (Z.add_lor_land (h * 2 ^ 4) l); lia).
  apply Z.bits_inj'. intros n Hn.
  rewrite Z.land_spec, Z.bits_0. destruct (Z.ltb_spec n 4).
  - by rewrite Z.mul_pow2_bits_low by lia.
  - rewrite (Z.bits_above_log2 l); [apply andb_false_r|lia|].
    apply Z.lt_le_trans with 4; [|lia].
    destruct (Z.eqb_spec l 0) as [->|]; [done|]. apply Z.log2_lt_pow2; lia.
Qed.

(** The loop only appends to [res]. *)
Lemma decode_loop_app flags src res :
  decode_loop flags src res =
  ((decode_loop flags src []).1, res ++ (decode_loop flags src []).2).
Proof.
  revert res. induction src as [src IH] using list_len_ind. intros res.
  assert (∀ src' out, (length src' < length src)%nat →
            decode_loop flags src' (res ++ out) =
            ((decode_loop flags src' out).1, res ++ (decode_loop flags src' out).2)) as Hstep.
  { intros src' out Hl. rewrite (IH src' Hl (res ++ out)), (IH src' Hl out). simpl. by rewrite app_assoc. }
  destruct src as [|c src]; simpl in *; [by rewrite app_nil_r|].
  repeat (case_match || case_decide); simpl in *; rewrite ?app_nil_r; try done; apply Hstep; lia.
Qed.

Lemma decode_percent_some src len res flags :
  decode_percent (Some src) len res flags = decode_loop flags (take len src) [].
Proof. unfold decode_percent. case_decide; [by subst|done]. Qed.

Lemma decode_loop_cons flags src c :
  decode_loop flags src [c] = ((decode_loop flags src []).1, c :: (decode_loop flags src []).2).
Proof. by rewrite decode_loop_app. Qed.

(** What the loop accepts is the grammar. *)
Lemma decode_loop_run flags s out rest res :
  Decodes flags s out → decode_loop flags (s ++ rest) res = decode_loop flags rest (res ++ out).
Proof.
  intros H. revert res. induction H as [|c src out Hc Hp H IH|src out Hf H IH
    |c1 c2 h l src out [Hh ?] [Hl ?] Hs H IH|c1 c2 h l src out [Hh ?] [Hl ?] Hs Hf H IH];
    intros res; simpl; [by rewrite app_nil_r|..].
  - rewrite decide_False by done. case_bool_decide; simpl; rewrite ?Hp, IH, <-app_assoc by done; done.
  - by rewrite Hf, IH, <-app_assoc.
  - pose proof (char2hex_range c1). pose proof (char2hex_range c2).
    rewrite Hh, Hl in *. rewrite hex_pair by lia.
    destruct (Z.ltb_spec h 0), (Z.ltb_spec l 0); try lia. simpl.
    case_decide as Hd; [rewrite (Hs Hd)|]; by rewrite IH, <-app_assoc.
  - pose proof (char2hex_range c1). pose proof (char2hex_range c2).
    rewrite Hh, Hl in *. rewrite hex_pair by lia.
    destruct (Z.ltb_spec h 0), (Z.ltb_spec l 0); try lia. simpl.
    by rewrite decide_True, Hf, IH, <-app_assoc.
Qed.

Lemma decode_loop_good flags s out rest :
  Decodes flags s out →
  decode_loop flags (s ++ rest) [] =
  ((decode_loop flags rest []).1, out ++ (decode_loop flags rest []).2).
Proof. intros H. by rewrite (decode_loop_run _ _ _ _ _ H), decode_loop_app. Qed.

Lemma decode_loop_complete flags src out :
  Decodes flags src out → decode_loop flags src [] = (true, out).
Proof. intros H. rewrite <-(app_nil_r src). by rewrite (decode_loop_run _ _ _ _ _ H). Qed.

Lemma decode_loop_sound flags src out :
  decode_loop flags src [] = (true, out) → Decodes flags src out.
Proof.
  revert out. induction src as [src IH] using list_len_ind. intros out.
  destruct src as [|c src]; simpl in *; [intros [= <-]; constructor|].
  case_decide as Hc.
  - destruct src as [|c1 [|c2 src]]; [done..|].
    pose proof (char2hex_range c1). pose proof (char2hex_range c2).
    destruct (Z.ltb_spec (char2hex c1) 0), (Z.ltb_spec (char2hex c2) 0); simpl; try done.
    rewrite hex_pair by lia. subst c.
    assert (Hex c1 (char2hex c1)) by done. assert (Hex c2 (char2hex c2)) by done.
    case_decide as Hd; [destruct (has_flag flags HLPR_FLAG_SLASH) eqn:Hf|]; rewrite decode_loop_app;
      destruct (decode_loop flags src []) as [ok out'] eqn:E; simpl; intros [= -> <-];
      (apply IH in E; [|simpl; lia]);
      first [by apply Decodes_hex | by eapply Decodes_kept].
  - case_bool_decide as Hp; [destruct (has_flag flags HLPR_FLAG_SPACE) eqn:Hf|]; simpl;
      rewrite decode_loop_cons; destruct (decode_loop flags src []) as [ok out'] eqn:E; simpl;
      intros [= -> <-]; (apply IH in E; [|simpl; lia]); subst;
      first [by apply Decodes_plus | by apply Decodes_char].
Qed.

Lemma decode_loop_length flags src :
  (length (decode_loop flags src []).2 ≤ length src)%nat.
Proof.
  induction src as [src IH] using list_len_ind.
  destruct src as [|c src]; simpl in *; [lia|].
  repeat (case_match || case_decide); simpl in *; try lia;
    rewrite decode_loop_app; simpl;
    match goal with |- context [decode_loop flags ?s []] => pose proof (IH s) end; lia.
Qed.

Lemma unreserved_literal c : unreserved c = true → c ≠ "%"%char ∧ c ≠ "+"%char.
Proof. intros H. split; intros ->; discriminate H. Qed.

(** A boolean fact about the values of a hexadecimal digit, by computation. *)
Lemma nibble_cases (p : Z → bool) n : forallb p (seqZ 0 16) = true → 0 ≤ n < 16 → p n = true.
Proof. rewrite List.forallb_forall. intros H Hn. apply H, list_elem_of_In, elem_of_seqZ. lia. Qed.

Lemma hex_digit_hex n : 0 ≤ n < 16 → Hex (hex_digit n) n.
Proof.
  intros Hn. split; [|lia]. apply Z.eqb_eq.
  apply (nibble_cases (λ n, char2hex (hex_digit n) =? n)); [reflexivity|done].
Qed.

Lemma byte_of_ascii c : byte_of (Z.of_N (N_of_ascii c)) = c.
Proof.
  unfold byte_of. pose proof (N_ascii_bounded c).
  rewrite Z.mod_small, N2Z.id by lia. apply ascii_N_embedding.
Qed.

Lemma Decodes_encode_char flags c src out :
  has_flag flags HLPR_FLAG_SLASH = true →
  Decodes flags src out → Decodes flags (encode_char c ++ src) (c :: out).
Proof.
  intros Hf H. unfold encode_char. destruct (unreserved c) eqn:Hu.
  - apply unreserved_literal in Hu as [? ?]. by apply Decodes_char.
  - pose proof (N_ascii_bounded c). pose proof (byte_of_ascii c) as Hb.
    assert (0 ≤ Z.of_N (N_of_ascii c) < 256) as Hn by lia. revert Hn Hb.
    generalize (Z.of_N (N_of_ascii c)). intros n Hn Hb. rewrite (Z.div_mod n 16) in Hb by lia.
    rewrite <-Hb. apply Decodes_hex; [apply hex_digit_hex; Z.to_euclidean_division_equations; lia..|done|done].
Qed.

Lemma Decodes_encode flags s :
  has_flag flags HLPR_FLAG_SLASH = true → Decodes flags (percent_encode s) s.
Proof.
  intros Hf. induction s as [|c s IH]; [constructor|]. by apply Decodes_encode_char.
Qed.

(** On a malformed escape the loop stops with what it decoded so far. *)
Definition malformed (src : str) : Prop :=
  ∃ rest, src = "%"%char :: rest ∧
          ∀ c1 c2 rest', rest = c1 :: c2 :: rest' → char2hex c1 < 0 ∨ char2hex c2 < 0.

Lemma Decodes_app flags s1 o1 s2 o2 :
  Decodes flags s1 o1 → Decodes flags s2 o2 → Decodes flags (s1 ++ s2) (o1 ++ o2).
Proof. intros H1 H2. induction H1; simpl; try done; econstructor; done. Qed.

Lemma decode_loop_partial flags src out :
  decode_loop flags src [] = (false, out) →
  ∃ good bad, src = good ++ bad ∧ Decodes flags good out ∧ malformed bad.
Proof.
  revert out. induction src as [src IH] using list_len_ind. intros out.
  assert (∀ pre o src' out', (length src' < length src)%nat → Decodes flags pre o →
            decode_loop flags src' o = (false, out') →
            ∃ good bad, pre ++ src' = good ++ bad ∧ Decodes flags good out' ∧ malformed bad) as Hstep.
  { intros pre o src' out' Hl Hpre. rewrite decode_loop_app.
    destruct (decode_loop flags src' []) as [ok o'] eqn:E. simpl. intros [= -> <-].
    destruct (IH src' Hl o' E) as (good & bad & -> & Hg & Hb). exists (pre ++ good), bad.
    split_and!; [by rewrite app_assoc|by apply Decodes_app|done]. }
  destruct src as [|c src]; simpl in *; [done|].
  case_decide as Hc.
  - destruct src as [|c1 [|c2 src]].
    1,2: intros [= <-]; eexists [], _; split_and!; [done|constructor|]; subst; by eexists.
    subst c. pose proof (char2hex_range c1). pose proof (char2hex_range c2).
    destruct (Z.ltb_spec (char2hex c1) 0) as [?|?], (Z.ltb_spec (char2hex c2) 0) as [?|?]; simpl.
    1-3: intros [= <-]; eexists [], _; split_and!; [done|constructor|]; eexists; split; [done|];
         intros; simplify_eq; lia.
    rewrite hex_pair by lia.
    assert (Hex c1 (char2hex c1)) by done. assert (Hex c2 (char2hex c2)) by done.
    case_decide as Hd; [destruct (has_flag flags HLPR_FLAG_SLASH) eqn:Hf|];
      intros Hl; refine (Hstep ["%"%char; c1; c2] _ _ _ _ _ Hl); try (simpl; lia);
      first [apply Decodes_hex; done || constructor | eapply Decodes_kept; done || constructor].
  - case_bool_decide as Hp; [destruct (has_flag flags HLPR_FLAG_SPACE) eqn:Hf|]; simpl;
      intros Hl; refine (Hstep [c] _ _ _ _ _ Hl); try (simpl; lia); subst;
      first [apply Decodes_plus; done || constructor | apply Decodes_char; done || constructor].
Qed.

Lemma decode_loop_false flags src :
  (decode_loop flags src []).1 = false ↔ ∀ out, ¬ Decodes flags src out.
Proof.
  destruct (decode_loop flags src []) as [ok out] eqn:E. simpl. split.
  - intros -> out' H. apply decode_loop_complete in H. congruence.
  - intros H. destruct ok; [|done]. destruct (H out). by eapply decode_loop_sound.
Qed.

(** ** Properties *)

(** C9: [decode_percent] succeeds with [out] exactly when the grammar of
    percent-encoded strings (under the flags) derives [out], whatever the
    string held before; it fails exactly when there is no derivation; and
    what it leaves in the string is never longer than the input. *)
Theorem decode_percent_is_the_grammar (src : str) (len : nat) (res : str) (flags : Z) :
  (∀ out, decode_percent (Some src) len res flags = (true, out) ↔ Decodes flags (take len src) out) ∧
  ((decode_percent (Some src) len res flags).1 = false ↔ ∀ out, ¬ Decodes flags (take len src) out) ∧
  (length (decode_percent (Some src) len res flags).2 ≤ length (take len src))%nat.
Proof.
  rewrite decode_percent_some. split_and!.
  - intros out. split; [by eapply decode_loop_sound|apply decode_loop_complete].
  - apply decode_loop_false.
  - by eapply decode_loop_length.
Qed.

(** C31: with slashes converted, decoding the percent-encoding of any byte
    string gives the string back, under every other flag. *)
Theorem decode_percent_encode (s res : str) (flags : Z)
    (Hslash : has_flag flags HLPR_FLAG_SLASH = true) :
  decode_percent (Some (percent_encode s)) (length (percent_encode s)) res flags = (true, s).
Proof.
  rewrite decode_percent_some, take_ge by done. by apply decode_loop_complete, Decodes_encode.
Qed.

(** When [decode_percent] fails on a non-null source, the input splits
    into a well-formed part and a malformed escape, and the string holds the
    decoding of the well-formed part; on a null source it is left as it was. *)
Theorem decode_percent_failure (src : str) (len : nat) (res out : str) (flags : Z)
    (Hfail : decode_percent (Some src) len res flags = (false, out)) :
  (∃ good bad, take len src = good ++ bad ∧ Decodes flags good out ∧ malformed bad) ∧
  decode_percent None len res flags = (false, res).
Proof.
  rewrite decode_percent_some in Hfail. split; [|done]. by eapply decode_loop_partial.
Qed.

Lemma decode_percent_encode_witness :
  decode_percent (Some (percent_encode (lit "a/b +%")))
    (length (percent_encode (lit "a/b +%"))) [] query_flags = (true, lit "a/b +%").
Proof. apply (decode_percent_encode (lit "a/b +%") [] query_flags). reflexivity. Defined.

Lemma decode_percent_failure_witness :
  ∃ good bad, take 6 (lit "a%2Fb%zz") = good ++ bad ∧ Decodes path_flags good (lit "a/b") ∧ malformed bad.
Proof.
  apply (decode_percent_failure (lit "a%2Fb%zz") 6 [] (lit "a/b") path_flags). reflexivity.
Defined.

Example decode_keeps_slash : decode_percent (Some (lit "a%2fb+c")) 7 [] HLPR_FLAG_NONE = (true, lit "a%2fb+c").
Proof. reflexivity. Qed.
Example decode_query_space : decode_query_str (Some (lit "hello%20world+x")) 15 query_flags = lit "hello world x".
Proof. reflexivity. Qed.
Example decode_query_bad : decode_query_str (Some (lit "ok%4")) 4 query_flags = [].
Proof. reflexivity. Qed.
