(* ===== verification/Boost.v ===== *)
(** What the program uses of Boost's string algorithms.

    Boost is not part of the repository: its functions are the operations of a
    class, the behaviour its documentation states is a second class, and
    [list_boost] is a concrete instance that shows the laws can hold. *)

From S2P Require Import Prelude PathNormalize.

Class BoostStrings := {
  (** [boost::split(_, s, boost::is_any_of(c))], adjacent separators kept. *)
  split : ascii → str → list str;
  (** [boost::join(segments, sep)]. *)
  join : list str → str → str;
  (** The tokens of [boost::tokenizer] with a [char_separator] that drops the
      delimiter [d], keeps none and drops empty tokens. *)
  separator_tokens : ascii → str → list str;
  (** [boost::algorithm::starts_with(s, prefix)]. *)
  starts_with : str → str → bool
}.

Class BoostStringsLaws `{BoostStrings} : Prop := {
  split_no_sep c s : Forall (λ t, c ∉ t) (split c s);
  split_ne c s : split c s ≠ [];
  split_join c s : join (split c s) [c] = s;
  join_nil sep : join [] sep = [];
  join_one s sep : join [s] sep = s;
  join_cons s t l sep : join (s :: t :: l) sep = s ++ sep ++ join (t :: l) sep;
  tokens_empty d : separator_tokens d [] = [];
  tokens_delim d s : separator_tokens d (d :: s) = separator_tokens d s;
  tokens_token d t s :
    t ≠ [] → d ∉ t → s = [] ∨ head s = Some d →
    separator_tokens d (t ++ s) = t :: separator_tokens d s;
  starts_with_spec s p : starts_with s p = true ↔ p `prefix_of` s
}.

(** [foundation/tokenize.h], with its default arguments. *)
Definition tokenize `{BoostStrings} (input : str) (dropped_delim : ascii) : list str :=
  separator_tokens dropped_delim input.

(** ** Consequences of the laws *)

Section Laws.
Context `{BoostStringsLaws}.

Lemma join_inj c l l' :
  l ≠ [] → l' ≠ [] → Forall (λ t, c ∉ t) l → Forall (λ t, c ∉ t) l' →
  join l [c] = join l' [c] → l = l'.
Proof.
  assert (∀ s s' r r', c ∉ s → c ∉ s' → s ++ c :: r = s' ++ c :: r' → s = s' ∧ r = r') as Hsplit.
  { induction s as [|x s IH]; intros [|x' s'] r r' Hs Hs' Heq;
      rewrite ?not_elem_of_cons in *; simplify_eq/=; [done|naive_solver..|].
    destruct (IH s' r r') as [-> ->]; naive_solver. }
  assert (∀ s s' r, c ∉ s → s ≠ s' ++ c :: r) as Hno.
  { intros s s' r Hs ->. apply Hs. rewrite elem_of_app, elem_of_cons. auto. }
  intros Hl. revert l'. induction l as [|s [|t l] IH]; intros l' Hl' Hf Hf' Heq; [done|..].
  - destruct l' as [|s' [|t' l']]; [done|..]; rewrite ?join_one, ?join_cons in Heq; [congruence|].
    inversion_clear Hf. by apply Hno in Heq.
  - destruct l' as [|s' [|t' l']]; [done|..]; rewrite ?join_one, ?join_cons in Heq.
    + inversion_clear Hf'. by symmetry in Heq; apply Hno in Heq.
    + inversion_clear Hf. inversion_clear Hf'. apply Hsplit in Heq as [-> Heq]; [|done..].
      f_equal. by apply IH.
Qed.

(** Splitting is determined by the laws. *)
Lemma split_unique c l : l ≠ [] → Forall (λ t, c ∉ t) l → split c (join l [c]) = l.
Proof.
  intros Hl Hf. apply (join_inj c); [apply split_ne|done|apply split_no_sep|done|].
  apply split_join.
Qed.

Lemma join_elem c s l sep : s ∈ l → c ∈ s → c ∈ join l sep.
Proof.
  induction l as [|t [|t' l] IH]; intros Hs Hc; [by apply not_elem_of_nil in Hs|..].
  - apply list_elem_of_singleton in Hs as ->. by rewrite join_one.
  - rewrite join_cons, !elem_of_app. apply elem_of_cons in Hs as [->|Hs]; auto.
Qed.

Lemma tokens_join d l :
  Forall (λ t, t ≠ [] ∧ d ∉ t) l → l ≠ [] → separator_tokens d (join l [d]) = l.
Proof.
  induction 1 as [|t l [Ht Hd] Hl IH]; [done|]. intros _. destruct l as [|t' l].
  - rewrite join_one, <-(app_nil_r t), tokens_token by auto. by rewrite tokens_empty, app_nil_r.
  - rewrite join_cons. simpl. rewrite tokens_token by auto. rewrite tokens_delim. f_equal. by apply IH.
Qed.
End Laws.

(** ** A concrete instance *)

Fixpoint join_list (l : list str) (sep : str) : str :=
  match l with
  | [] => []
  | [s] => s
  | s :: l' => s ++ sep ++ join_list l' sep
  end.

#[export] Instance list_boost : BoostStrings := {|
  split c s := split_sep c s;
  join := join_list;
  separator_tokens d s := filter (λ t, t ≠ []) (split_sep d s);
  starts_with s p := bool_decide (p `prefix_of` s)
|}.

Lemma split_sep_ne (c : ascii) s : split_sep c s ≠ [].
Proof. destruct s; simpl; [done|]. case_decide; [done|]. by case_match. Qed.

#[export] Instance list_boost_laws : BoostStringsLaws.
Proof.
  split; simpl.
  - apply split_sep_no_sep.
  - apply split_sep_ne.
  - intros c s. induction s as [|x s IH]; [done|]. simpl.
    pose proof (split_sep_ne c s). destruct (split_sep c s) as [|t l]; [done|].
    case_decide as Hx; [rewrite Hx; simpl; f_equal; exact IH|]. by rewrite <-IH; destruct l.
  - done.
  - done.
  - done.
  - done.
  - intros d s. apply (tokens_sep d).
  - intros d t s Ht Hd Hs. by apply (tokens_app d).
  - intros s p. apply bool_decide_eq_true.
Qed.
