(* ===== verification/UriParser.v ===== *)
(** Request targets: [httpd/http_uri.h] and [httpd/http_uri_parser.cpp]. *)

From S2P Require Import Prelude HttpHelper Boost.

(** ** The code *)

Record HTTP_URI := mkURI {
  target : str;
  raw_path : str;
  decoded_path : str;
  raw_query : str;
  query_params : list (str * str)
}.

Definition uri_clear (uri : HTTP_URI) : HTTP_URI := mkURI [] [] [] [] [].

Section Parser.
Context {BO : BoostStrings}.

(** The body of the loop over the segments: the result of [decode_path] is
    only traced, the string it left is kept. *)
Definition decode_segment (seg : str) : str :=
  let '(ok, decoded_seg) := decode_path (Some seg) (length seg) [] path_flags in
  decoded_seg.

Definition parse_path (uri : HTTP_URI) : bool * HTTP_URI :=
  let segments := split "/"%char (raw_path uri) in
  let segments := decode_segment <$> segments in
  (true, mkURI (target uri) (raw_path uri) (join segments (lit "/")) (raw_query uri)
               (query_params uri)).

(** One token of the query; [key] and [value] live outside the loop. *)
Definition parse_token (s : str * str * list (str * str)) (token : str)
    : str * str * list (str * str) :=
  let '(_, _, params) := s in
  match str_find "="%char token with
  | None =>
      let key := decode_query_str (Some token) (length token) query_flags in
      (key, [], params ++ [(key, [])])
  | Some epos =>
      let key := decode_query_str (Some token) epos query_flags in
      let value := decode_query_str (Some (drop (epos + 1) token)) (length token - epos - 1) query_flags in
      (key, value, params ++ [(key, value)])
  end.

Definition parse_query (uri : HTTP_URI) : bool * HTTP_URI :=
  let '(_, _, params) :=
    foldl parse_token ([], [], query_params uri) (tokenize (raw_query uri) "&"%char) in
  (true, mkURI (target uri) (raw_path uri) (decoded_path uri) (raw_query uri) params).

Definition split_target (uri : HTTP_URI) : HTTP_URI :=
  match str_find "?"%char (target uri) with
  | None => mkURI (target uri) (target uri) (decoded_path uri) (raw_query uri) (query_params uri)
  | Some qpos =>
      mkURI (target uri) (substr 0 qpos (target uri)) (decoded_path uri)
            (drop (qpos + 1) (target uri)) (query_params uri)
  end.

Definition parse_i (uri : HTTP_URI) : bool * HTTP_URI :=
  if decide (target uri = []) then (true, uri)
  else
    let uri := split_target uri in
    let '(ok, uri) := if decide (raw_path uri ≠ []) then parse_path uri else (true, uri) in
    if negb ok then (false, uri)
    else
      let '(ok, uri) := if decide (raw_query uri ≠ []) then parse_query uri else (true, uri) in
      if negb ok then (false, uri) else (true, uri).

Definition parse (tgt : str) (uri : HTTP_URI) : bool * HTTP_URI :=
  let uri := uri_clear uri in
  parse_i (mkURI tgt (raw_path uri) (decoded_path uri) (raw_query uri) (query_params uri)).

(** ** Reference definitions *)

(** The key and value of a token. *)
Definition token_pair (token : str) : str * str :=
  match str_find "="%char token with
  | None => (decode_query_str (Some token) (length token) query_flags, [])
  | Some epos =>
      (decode_query_str (Some token) epos query_flags,
       decode_query_str (Some (drop (epos + 1) token)) (length token - epos - 1) query_flags)
  end.

Definition path_of (p : str) : str :=
  if decide (p = []) then [] else join (decode_segment <$> split "/"%char p) (lit "/").

Definition params_of (q : str) : list (str * str) := token_pair <$> tokenize q "&"%char.

(** An encoded path or query, the way a client writes it. *)
Definition encode_path (segments : list str) : str := join (percent_encode <$> segments) (lit "/").

Definition encode_pair (kv : str * str) : str :=
  percent_encode kv.1 ++ lit "=" ++ percent_encode kv.2.

Definition encode_query (params : list (str * str)) : str := join (encode_pair <$> params) (lit "&").

(** ** Lemmas *)

Context `{!BoostStringsLaws}.

Lemma foldl_parse_token k v params tokens :
  (foldl parse_token (k, v, params) tokens).2 = params ++ (token_pair <$> tokens).
Proof.
  revert k v params. induction tokens as [|t tokens IH]; intros k v params; csimpl; [by rewrite app_nil_r|].
  assert (∃ k' v', parse_token (k, v, params) t = (k', v', params ++ [token_pair t])) as (k' & v' & Ht).
  { unfold parse_token, token_pair. destruct (str_find "="%char t); eauto. }
  simpl in Ht. rewrite Ht, IH, <-app_assoc. done.
Qed.

Lemma parse_path_step uri :
  decoded_path uri = [] →
  (if decide (raw_path uri ≠ []) then parse_path uri else (true, uri)) =
  (true, mkURI (target uri) (raw_path uri) (path_of (raw_path uri)) (raw_query uri) (query_params uri)).
Proof.
  destruct uri as [t p d q ps]. simpl. intros ->. unfold path_of.
  case_decide; [by rewrite decide_False by done|by rewrite decide_True by done].
Qed.

Lemma parse_query_step uri :
  query_params uri = [] →
  (if decide (raw_query uri ≠ []) then parse_query uri else (true, uri)) =
  (true, mkURI (target uri) (raw_path uri) (decoded_path uri) (raw_query uri) (params_of (raw_query uri))).
Proof.
  destruct uri as [t p d q ps]. simpl. intros ->. case_decide as Hq.
  - unfold parse_query. simpl. pose proof (foldl_parse_token [] [] [] (tokenize q "&"%char)) as Hf.
    destruct (foldl _ _ _) as [[k v] params]. simpl in Hf. by subst.
  - rewrite Hq. unfold params_of, tokenize. by rewrite tokens_empty.
Qed.

(** What [parse] computes from the two halves of the target. *)
Lemma parse_eq tgt uri :
  parse tgt uri =
  (true, let halves := split_target (mkURI tgt [] [] [] []) in
         mkURI tgt (raw_path halves) (path_of (raw_path halves)) (raw_query halves)
               (params_of (raw_query halves))).
Proof.
  unfold parse, parse_i, uri_clear. simpl. case_decide as Ht.
  - subst. unfold split_target, params_of, tokenize. simpl. by rewrite tokens_empty.
  - set (halves := split_target _).
    assert (target halves = tgt ∧ decoded_path halves = [] ∧ query_params halves = []) as (H1 & H2 & H3).
    { unfold halves, split_target. simpl. by destruct (str_find _ _). }
    rewrite parse_path_step by done. cbn beta iota delta [negb].
    rewrite parse_query_step by done. simpl. by rewrite H1.
Qed.

Lemma str_find_None c s : c ∉ s → str_find c s = None.
Proof.
  intros Hc. unfold str_find. rewrite (proj2 (list_find_None _ _)); [done|].
  apply Forall_forall. intros x Hx ->. done.
Qed.

Lemma str_find_app c s t : c ∉ s → str_find c (s ++ c :: t) = Some (length s).
Proof.
  intros Hc. unfold str_find.
  rewrite (proj2 (list_find_Some (c =.) (s ++ c :: t) (length s) c)); [done|].
  split_and!; [by apply list_lookup_middle|done|].
  intros j y Hj Hlt <-. apply Hc. rewrite lookup_app_l in Hj by done.
  by eapply list_elem_of_lookup_2.
Qed.

(** Both kinds of target. *)
Lemma parse_no_query p uri :
  "?"%char ∉ p → parse p uri = (true, mkURI p p (path_of p) [] []).
Proof.
  intros Hp. rewrite parse_eq. unfold split_target. simpl. rewrite str_find_None by done. simpl.
  unfold params_of, tokenize. by rewrite tokens_empty.
Qed.

Lemma parse_with_query p q uri :
  "?"%char ∉ p →
  parse (p ++ lit "?" ++ q) uri = (true, mkURI (p ++ lit "?" ++ q) p (path_of p) q (params_of q)).
Proof.
  intros Hp. rewrite parse_eq. unfold split_target. simpl. rewrite str_find_app by done. simpl.
  unfold substr. rewrite drop_0, take_app_length.
  rewrite drop_app_ge by lia. replace (length p + 1 - length p) with 1 by lia. done.
Qed.

(** ** Encoded targets *)

(** The characters an encoded string is made of. *)
Definition encoded_char (c : ascii) : Prop := unreserved c = true ∨ c = "%"%char.

Lemma hex_digit_unreserved n : (0 ≤ n < 16)%Z → unreserved (hex_digit n) = true.
Proof.
  apply (nibble_cases (λ n, unreserved (hex_digit n))). reflexivity.
Qed.

Lemma encode_encoded s : Forall encoded_char (percent_encode s).
Proof.
  induction s as [|c s IH]; [constructor|]. apply Forall_app. split; [|done].
  unfold encode_char. destruct (unreserved c) eqn:Hc; [apply Forall_singleton; by left|].
  pose proof (N_ascii_bounded c). rewrite !Forall_cons, Forall_nil.
  split_and!; [by right|left|left|done]; apply hex_digit_unreserved; Z.to_euclidean_division_equations; lia.
Qed.

Lemma encode_free c s : unreserved c = false → c ≠ "%"%char → c ∉ percent_encode s.
Proof.
  intros Hu Hp Hc. pose proof (encode_encoded s) as Hall. rewrite Forall_forall in Hall.
  destruct (Hall c Hc); congruence.
Qed.

Lemma decode_segment_encode s : decode_segment (percent_encode s) = s.
Proof.
  unfold decode_segment, decode_path. rewrite decode_percent_some, take_ge by done.
  by rewrite (decode_loop_complete _ _ s) by by apply Decodes_encode.
Qed.

Lemma decode_query_encode s rest :
  decode_query_str (Some (percent_encode s ++ rest)) (length (percent_encode s)) query_flags = s.
Proof.
  unfold decode_query_str, decode_query. rewrite decode_percent_some, take_app_length.
  by rewrite (decode_loop_complete _ _ s) by by apply Decodes_encode.
Qed.

Lemma token_pair_encode kv : token_pair (encode_pair kv) = kv.
Proof.
  destruct kv as [k v]. unfold token_pair, encode_pair. simpl.
  rewrite str_find_app by by apply encode_free. rewrite decode_query_encode. f_equal.
  rewrite drop_app_ge by lia. replace (length (percent_encode k) + 1 - length (percent_encode k)) with 1 by lia.
  simpl. rewrite length_app. simpl.
  replace (length (percent_encode k) + S (length (percent_encode v)) - length (percent_encode k) - 1)
    with (length (percent_encode v)) by lia.
  rewrite drop_0. rewrite <-(app_nil_r (percent_encode v)) at 1. apply decode_query_encode.
Qed.

Lemma params_of_encode params : params_of (encode_query params) = params.
Proof.
  unfold params_of, tokenize, encode_query. destruct params as [|kv params].
  { simpl. by rewrite join_nil, tokens_empty. }
  rewrite tokens_join; [|apply Forall_fmap, Forall_forall; intros [k v] _; simpl|done].
  - rewrite <-list_fmap_compose. rewrite <-(list_fmap_id (kv :: params)) at 2.
    apply list_fmap_ext. intros. apply token_pair_encode.
  - unfold encode_pair. simpl. split; [by destruct (percent_encode k)|].
    rewrite elem_of_app, elem_of_cons.
    intros [Hk|[Hk|Hk]]; [by apply (encode_free "&"%char k) in Hk|done|by apply (encode_free "&"%char v) in Hk].
Qed.

Lemma join_free c l sep : c ∉ sep → Forall (λ t, c ∉ t) l → c ∉ join l sep.
Proof.
  intros Hsep. induction 1 as [|s [|t l] Hs Hl IH]; rewrite ?join_nil, ?join_one, ?join_cons;
    [apply not_elem_of_nil|done|]. rewrite !elem_of_app. tauto.
Qed.

Lemma path_of_join segments :
  segments ≠ [] → Forall (λ t, "/"%char ∉ t) segments →
  path_of (join segments (lit "/")) = join (decode_segment <$> segments) (lit "/").
Proof.
  intros Hne Hf. unfold path_of. simpl. rewrite split_unique by done.
  case_decide as Hj; [|done].
  destruct segments as [|s [|t l]]; rewrite ?join_one, ?join_cons in Hj; [done| |].
  - subst s. csimpl. rewrite join_one. done.
  - by destruct s.
Qed.

Lemma decode_segment_plain s : "%"%char ∉ s → decode_segment s = s.
Proof.
  intros Hs. unfold decode_segment, decode_path. rewrite decode_percent_some, take_ge by done.
  rewrite (decode_loop_complete _ _ s); [done|]. induction s as [|c s IH]; [constructor|].
  apply not_elem_of_cons in Hs as [Hc Hs]. by apply Decodes_char; auto.
Qed.

Lemma decode_segment_malformed good bad out :
  Decodes path_flags good out → malformed bad → decode_segment (good ++ bad) = out.
Proof.
  intros Hg (rest & -> & Hbad). unfold decode_segment, decode_path.
  rewrite decode_percent_some, take_ge by done.
  rewrite (decode_loop_good _ _ _ _ Hg). simpl.
  destruct rest as [|c1 [|c2 rest]]; simpl; rewrite ?app_nil_r; [done..|].
  specialize (Hbad c1 c2 rest eq_refl).
  destruct (Z.ltb_spec (char2hex c1) 0), (Z.ltb_spec (char2hex c2) 0); simpl; try lia;
    by rewrite app_nil_r.
Qed.

Lemma path_of_encode segments :
  segments ≠ [] → path_of (encode_path segments) = join segments (lit "/").
Proof.
  intros Hne. unfold encode_path. rewrite path_of_join.
  - f_equal. rewrite <-list_fmap_compose. rewrite <-(list_fmap_id segments) at 2.
    apply list_fmap_ext. intros. apply decode_segment_encode.
  - by destruct segments.
  - apply Forall_fmap, Forall_forall. intros s _. by apply encode_free.
Qed.

Lemma encode_path_free segments : "?"%char ∉ encode_path segments.
Proof.
  apply join_free; [set_solver|]. apply Forall_fmap, Forall_forall.
  intros s _. by apply encode_free.
Qed.

(** ** Properties *)

(** [parse] never fails and forgets what the URI held before: the
    target splits at its first question mark (without one it is all path),
    the decoded path is the segments decoded one by one and joined, and the
    query parameters are the decoded tokens of the query in order. *)
Theorem parse_result (tgt : str) (uri : HTTP_URI) :
  ∃ u, parse tgt uri = (true, u) ∧ target u = tgt ∧
       decoded_path u = path_of (raw_path u) ∧ query_params u = params_of (raw_query u) ∧
       ("?"%char ∉ raw_path u) ∧
       (tgt = raw_path u ++ lit "?" ++ raw_query u ∨ (tgt = raw_path u ∧ raw_query u = [])).
Proof.
  destruct (decide ("?"%char ∈ tgt)) as [Hin|Hin].
  - apply list_elem_of_split_l in Hin as (p & q & -> & Hp).
    eexists. split; [by apply (parse_with_query p q)|]. simpl. split_and!; auto.
  - eexists. split; [by apply parse_no_query|]. simpl. split_and!; auto.
    unfold params_of, tokenize. by rewrite tokens_empty.
Qed.

(** C8: a path of arbitrary segments and a list of arbitrary parameters,
    percent-encoded by the client, come back exactly. *)
Theorem parse_encoded (segments : list str) (params : list (str * str)) (uri : HTTP_URI)
    (Hne : segments ≠ []) :
  let tgt := encode_path segments ++ lit "?" ++ encode_query params in
  parse tgt uri =
  (true, mkURI tgt (encode_path segments) (join segments (lit "/")) (encode_query params) params).
Proof.
  intros tgt. unfold tgt. rewrite parse_with_query by by apply encode_path_free.
  by rewrite params_of_encode, path_of_encode.
Qed.

(** The decoded path is not normalised: a path without percent signs
    is passed on as it is, [.], [..] and repeated slashes included. *)
Theorem parse_keeps_plain_path (p : str) (uri : HTTP_URI)
    (Hquery : "?"%char ∉ p) (Hpercent : "%"%char ∉ p) :
  decoded_path (parse p uri).2 = p.
Proof.
  rewrite parse_no_query by done. simpl. unfold path_of. case_decide as Hp; [done|].
  rewrite <-(split_join "/"%char p) at 2. f_equal.
  rewrite <-(list_fmap_id (split "/"%char p)) at 2. apply list_fmap_ext. intros i s Hs.
  apply decode_segment_plain. intros Hin. apply Hpercent. rewrite <-(split_join "/"%char p).
  apply list_elem_of_lookup_2 in Hs. by eapply join_elem.
Qed.

(** A malformed escape is not reported: the request is accepted with
    the segment cut where the escape starts. *)
Theorem parse_cuts_malformed_segment (good bad out : str) (uri : HTTP_URI)
    (Hgood : Decodes path_flags good out) (Hbad : malformed bad)
    (Hslash : "/"%char ∉ good ++ bad) (Hquery : "?"%char ∉ good ++ bad) :
  (parse (lit "/" ++ good ++ bad) uri).1 = true ∧
  decoded_path (parse (lit "/" ++ good ++ bad) uri).2 = lit "/" ++ out.
Proof.
  assert (lit "/" ++ good ++ bad = join [[]; good ++ bad] (lit "/")) as Hj
    by by rewrite join_cons, join_one.
  rewrite parse_no_query by (simpl; set_solver). split; [done|]. cbn [snd decoded_path].
  rewrite Hj, path_of_join; [|done|].
  - csimpl. rewrite join_cons, join_one. by rewrite (decode_segment_malformed good bad out).
  - repeat constructor; [apply not_elem_of_nil|done].
Qed.
End Parser.

Definition empty_uri : HTTP_URI := mkURI [] [] [] [] [].

Lemma parse_result_witness :
  ∃ u, parse (lit "/a?b=c") empty_uri = (true, u) ∧ target u = lit "/a?b=c".
Proof.
  destruct (parse_result (lit "/a?b=c") empty_uri) as (u & Hu & Ht & _). by exists u.
Defined.

Lemma parse_encoded_witness :
  query_params (parse (encode_path [lit ""; lit "a b"] ++ lit "?" ++ encode_query [(lit "x&", lit "=1")])
                  empty_uri).2 = [(lit "x&", lit "=1")].
Proof.
  rewrite (parse_encoded [lit ""; lit "a b"] [(lit "x&", lit "=1")] empty_uri); [reflexivity|discriminate].
Defined.

Lemma parse_keeps_plain_path_witness :
  decoded_path (parse (lit "/a//./b/../c") empty_uri).2 = lit "/a//./b/../c".
Proof.
  apply (parse_keeps_plain_path (lit "/a//./b/../c") empty_uri); by apply (bool_decide_unpack _).
Defined.

Lemma parse_cuts_malformed_segment_witness :
  decoded_path (parse (lit "/" ++ lit "ab" ++ lit "%zzcd") empty_uri).2 = lit "/" ++ lit "ab".
Proof.
  apply (parse_cuts_malformed_segment (lit "ab") (lit "%zzcd") (lit "ab") empty_uri).
  - apply Decodes_char; [done|done|]. apply Decodes_char; [done|done|]. constructor.
  - exists (lit "zzcd"). split; [done|]. intros c1 c2 rest Heq. injection Heq as <- <- _. left. reflexivity.
  - by apply (bool_decide_unpack _).
  - by apply (bool_decide_unpack _).
Defined.

(** ** The cases of [tests/http_uri_parser_test.cpp] *)

Definition parsed (input : string) : str * list (str * str) :=
  let u := (parse (lit input) empty_uri).2 in (decoded_path u, query_params u).

Example case_index : parsed "/index.html" = (lit "/index.html", []).
Proof. reflexivity. Qed.
Example case_two : parsed "/search?q=test&lang=en" = (lit "/search", [(lit "q", lit "test"); (lit "lang", lit "en")]).
Proof. reflexivity. Qed.
Example case_empty_value : parsed "/submit?name=" = (lit "/submit", [(lit "name", [])]).
Proof. reflexivity. Qed.
Example case_flag : parsed "/flag?debug" = (lit "/flag", [(lit "debug", [])]).
Proof. reflexivity. Qed.
Example case_space :
  parsed "/path%20with%20space?q=hello%20world" = (lit "/path with space", [(lit "q", lit "hello world")]).
Proof. reflexivity. Qed.
Example case_escapes :
  parsed "/check?param1=1%262&param2=a%2Fb" = (lit "/check", [(lit "param1", lit "1&2"); (lit "param2", lit "a/b")]).
Proof. reflexivity. Qed.
Example case_folder : parsed "/folder/" = (lit "/folder/", []).
Proof. reflexivity. Qed.
Example case_empty : parsed "" = ([], []).
Proof. reflexivity. Qed.
Example case_only_query : parsed "?only=param" = ([], [(lit "only", lit "param")]).
Proof. reflexivity. Qed.
Example case_equals : parsed "/complex?data=a=b=c" = (lit "/complex", [(lit "data", lit "a=b=c")]).
Proof. reflexivity. Qed.
Example case_encoded_slash : parsed "/encoded%2Fslash?q=value" = (lit "/encoded/slash", [(lit "q", lit "value")]).
Proof. reflexivity. Qed.
Example case_weird : parsed "/weird?=value" = (lit "/weird", [([], lit "value")]).
Proof. reflexivity. Qed.
Example case_nothing : parsed "/nothing?" = (lit "/nothing", []).
Proof. reflexivity. Qed.
