(* ===== verification/Beast.v ===== *)
(** What the program uses of Boost.Beast's messages, and the stock responses
    of [httpd/http_helper.h] and [httpd/http_helper.cpp] built from it.

    Beast is not part of the repository: requests and responses are abstract,
    [BeastLaws] states what the documentation says about the setters, and
    [record_beast] is a concrete instance. *)

From S2P Require Import Prelude.

(** [boost::beast::http::verb]: the four the program names, and the others. *)
Inductive verb := get | post | put | delete_ | other_verb (code : Z).

#[export] Instance verb_eq_dec : EqDecision verb.
Proof. solve_decision. Defined.

(** [boost::beast::http::status] values. *)
Definition status_ok : Z := 200.
Definition status_bad_request : Z := 400.
Definition status_not_found : Z := 404.
Definition status_internal_server_error : Z := 500.
Definition status_not_implemented : Z := 501.

Definition field_server : str := lit "Server".
Definition field_content_type : str := lit "Content-Type".

Class Beast := {
  Request : Type;
  method : Request → verb;
  method_string : Request → str;
  req_target : Request → str;
  req_keep_alive : Request → bool;
  req_fields : Request → list (str * str);
  req_body : Request → str;
  empty_request : Request;
  Response : Type;
  make_response : Z → Z → Response;
  set_version : Z → Response → Response;
  set_keep_alive : bool → Response → Response;
  set_field : str → str → Response → Response;
  set_body : str → Response → Response;
  prepare_payload : Response → Response;
  status_of : Response → Z;
  keep_alive_of : Response → bool;
  body_of : Response → str;
  field_of : str → Response → option str
}.

(** Each setter sets its own part and leaves the observed others alone; the
    fields set by the program are [Server] and [Content-Type], neither of
    which decides persistence. *)
Class BeastLaws `{Beast} : Prop := {
  status_make s v : status_of (make_response s v) = s;
  status_version v r : status_of (set_version v r) = status_of r;
  status_keep b r : status_of (set_keep_alive b r) = status_of r;
  status_field n x r : status_of (set_field n x r) = status_of r;
  status_body b r : status_of (set_body b r) = status_of r;
  status_payload r : status_of (prepare_payload r) = status_of r;
  keep_keep b r : keep_alive_of (set_keep_alive b r) = b;
  keep_field n x r : n = field_server ∨ n = field_content_type →
    keep_alive_of (set_field n x r) = keep_alive_of r;
  keep_body b r : keep_alive_of (set_body b r) = keep_alive_of r;
  keep_payload r : keep_alive_of (prepare_payload r) = keep_alive_of r;
  body_body b r : body_of (set_body b r) = b;
  body_payload r : body_of (prepare_payload r) = body_of r;
  field_set n x r : field_of n (set_field n x r) = Some x;
  field_set_other n n' x r : n ≠ n' → field_of n (set_field n' x r) = field_of n r;
  field_body n b r : field_of n (set_body b r) = field_of n r;
  field_payload n r : n = field_server ∨ n = field_content_type →
    field_of n (prepare_payload r) = field_of n r
}.

#[export] Hint Rewrite @status_make @status_version @status_keep @status_field @status_body
  @status_payload @keep_keep @keep_body @keep_payload @body_body @body_payload @field_set
  @field_body using typeclasses eauto : beast.

(** [config.h] is generated by the build; it gives the project's name. *)
Class Config := { PROJECT_NAME : str }.

Section Responses.
Context {BE : Beast} {CF : Config}.

(** [hlpr::clear]. *)
Definition clear (req : Request) : Request := empty_request.

Definition init_response (res : Response) (keep_alive : bool) : Response :=
  let res := set_version 11 res in
  let res := set_keep_alive keep_alive res in
  set_field field_server PROJECT_NAME res.

Definition stock_response (status : Z) (keep_alive : bool) (body : str) : Response :=
  let res := make_response status 11 in
  let res := init_response res keep_alive in
  let res := set_field field_content_type (lit "text/plain; charset=utf-8") res in
  let res := set_body body res in
  prepare_payload res.

Definition bad_request (keep_alive : bool) (body : str) : Response :=
  let body := if decide (body = []) then lit "Bad Request" else body in
  stock_response status_bad_request keep_alive body.

Definition not_found (keep_alive : bool) (body : str) : Response :=
  let body := if decide (body = []) then lit "Not Found" else body in
  stock_response status_not_found keep_alive body.

Definition not_implemented (keep_alive : bool) (body : str) : Response :=
  let body := if decide (body = []) then lit "Not Implemented" else body in
  stock_response status_not_implemented keep_alive body.

Definition internal_server_error (keep_alive : bool) (body : str) : Response :=
  let body := if decide (body = []) then lit "Internal Server Error" else body in
  stock_response status_internal_server_error keep_alive body.

(** What a stock response shows to the session and the client. *)
Definition shows (r : Response) (status : Z) (keep_alive : bool) (body : str) : Prop :=
  status_of r = status ∧ keep_alive_of r = keep_alive ∧ body_of r = body ∧
  field_of field_server r = Some PROJECT_NAME ∧
  field_of field_content_type r = Some (lit "text/plain; charset=utf-8").

Lemma text_response_shows `{!BeastLaws} status keep_alive body r :
  r = prepare_payload (set_body body (set_field field_content_type (lit "text/plain; charset=utf-8")
        (init_response (make_response status 11) keep_alive))) →
  shows r status keep_alive body.
Proof.
  intros ->. unfold shows, init_response. autorewrite with beast.
  rewrite !keep_field, !field_payload by auto. autorewrite with beast.
  by rewrite field_set_other, field_set by done.
Qed.

Lemma stock_response_shows `{!BeastLaws} status keep_alive body :
  shows (stock_response status keep_alive body) status keep_alive body.
Proof. by apply text_response_shows. Qed.

(** Each stock response carries its status code, the persistence it was
    given, the server and content type fields, and the given body, or the
    default text of its status when the body is empty. *)
Theorem stock_responses `{!BeastLaws} (keep_alive : bool) (body : str) :
  let text default := if decide (body = []) then lit default else body in
  shows (bad_request keep_alive body) 400 keep_alive (text "Bad Request"%string) ∧
  shows (not_found keep_alive body) 404 keep_alive (text "Not Found"%string) ∧
  shows (not_implemented keep_alive body) 501 keep_alive (text "Not Implemented"%string) ∧
  shows (internal_server_error keep_alive body) 500 keep_alive (text "Internal Server Error"%string).
Proof. split_and!; apply stock_response_shows. Qed.
End Responses.

(** ** A concrete instance *)

Record request := mkRequest {
  r_method : verb; r_method_string : str; r_target : str; r_keep_alive : bool;
  r_fields : list (str * str); r_body : str
}.

Record response := mkResponse {
  p_status : Z; p_version : Z; p_keep_alive : bool; p_fields : gmap str str; p_body : str
}.

#[export] Instance record_beast : Beast := {|
  Request := request;
  method := r_method;
  method_string := r_method_string;
  req_target := r_target;
  req_keep_alive := r_keep_alive;
  req_fields := r_fields;
  req_body := r_body;
  empty_request := mkRequest (other_verb 0) [] [] true [] [];
  Response := response;
  make_response s v := mkResponse s v true ∅ [];
  set_version v r := mkResponse (p_status r) v (p_keep_alive r) (p_fields r) (p_body r);
  set_keep_alive b r := mkResponse (p_status r) (p_version r) b (p_fields r) (p_body r);
  set_field n x r := mkResponse (p_status r) (p_version r) (p_keep_alive r) (<[n := x]> (p_fields r)) (p_body r);
  set_body b r := mkResponse (p_status r) (p_version r) (p_keep_alive r) (p_fields r) b;
  prepare_payload r := r;
  status_of := p_status;
  keep_alive_of := p_keep_alive;
  body_of := p_body;
  field_of n r := p_fields r !! n
|}.

#[export] Instance record_beast_laws : BeastLaws.
Proof.
  split; try done; simpl; intros.
  - apply lookup_insert_eq.
  - by apply lookup_insert_ne.
Qed.

#[export] Instance inks_config : Config := {| PROJECT_NAME := lit "inks" |}.

Lemma stock_responses_witness :
  shows (bad_request true []) 400 true (lit "Bad Request").
Proof. apply (stock_responses true []). Defined.
