(* ===== verification/Handler.v ===== *)
(** HTTP handlers and their factory: [httpd/http_handler.cpp],
    [httpd/http_echo_handler.cpp], [httpd/http_handler_factory.cpp]. *)

From S2P Require Import Prelude Boost UriParser Beast.

Section Handler.
Context {BE : Beast} {CF : Config} {BO : BoostStrings}.

(** ** The base class *)

(** The virtual functions of a handler object. *)
Record HTTP_Handler := mkHandler {
  handle_get_i : Request → Response;
  handle_post_i : Request → Response;
  handle_put_i : Request → Response;
  handle_delete_i : Request → Response
}.

(** What a derived class inherits. *)
Definition base_handler : HTTP_Handler :=
  let default req := not_implemented (req_keep_alive req) [] in
  mkHandler default default default default.

Definition handle_get (h : HTTP_Handler) (req : Request) : Response := handle_get_i h req.
Definition handle_post (h : HTTP_Handler) (req : Request) : Response := handle_post_i h req.
Definition handle_put (h : HTTP_Handler) (req : Request) : Response := handle_put_i h req.
Definition handle_delete (h : HTTP_Handler) (req : Request) : Response := handle_delete_i h req.

Definition handle_request (h : HTTP_Handler) (req : Request) : Response :=
  match method req with
  | get => handle_get h req
  | post => handle_post h req
  | put => handle_put h req
  | delete_ => handle_delete h req
  | other_verb _ => not_implemented (req_keep_alive req) []
  end.

(** ** The echo handler *)

Definition nl : str := ["010"%char].
Definition tag : str := lit "[inks]".

Definition echo_body (req : Request) (uri : HTTP_URI) : str :=
  tag ++ lit " Parsed HTTP request:" ++ nl ++
  tag ++ lit "   Method: " ++ method_string req ++ nl ++
  tag ++ lit "   Target: " ++ req_target req ++ nl ++
  tag ++ lit "   Path: " ++ decoded_path uri ++ nl ++
  (if decide (raw_query uri ≠ []) then tag ++ lit "   Query: " ++ raw_query uri ++ nl else []) ++
  (if decide (query_params uri ≠ []) then
     tag ++ lit "   Query params:" ++ nl ++
     mjoin ((λ kv, tag ++ lit "     " ++ kv.1 ++ lit " = " ++ kv.2 ++ nl) <$> query_params uri)
   else []) ++
  tag ++ lit "   Headers:" ++ nl ++
  mjoin ((λ f, tag ++ lit "     " ++ f.1 ++ lit ": " ++ f.2 ++ nl) <$> req_fields req) ++
  tag ++ lit "   Body:" ++ nl ++
  req_body req ++
  nl ++
  tag ++ lit " End.".

Definition make_echo_response (req : Request) : Response :=
  let '(_, uri) := parse (req_target req) empty_uri in
  let res := make_response status_ok 11 in
  let res := init_response res (req_keep_alive req) in
  let res := set_field field_content_type (lit "text/plain; charset=utf-8") res in
  let res := set_body (echo_body req uri) res in
  prepare_payload res.

Definition echo (req : Request) : Response := make_echo_response req.

Definition HTTP_Echo_Handler : HTTP_Handler := mkHandler echo echo echo echo.

(** ** The factory *)

(** A creator returns a handler or a null pointer. *)
Abbreviation HTTP_Handler_Creator := (unit → option HTTP_Handler).

Record HTTP_Handler_Factory := mkFactory { creators_ : gmap str HTTP_Handler_Creator }.

Definition empty_factory : HTTP_Handler_Factory := mkFactory ∅.

Definition register_handler (name : str) (fn : HTTP_Handler_Creator) (f : HTTP_Handler_Factory)
    : HTTP_Handler_Factory :=
  mkFactory (<[name := fn]> (creators_ f)).

Definition unregister_handler (name : str) (f : HTTP_Handler_Factory) : HTTP_Handler_Factory :=
  match creators_ f !! name with
  | Some _ => mkFactory (delete name (creators_ f))
  | None => f
  end.

Definition contains (name : str) (f : HTTP_Handler_Factory) : bool :=
  bool_decide (is_Some (creators_ f !! name)).

Definition create (name : str) (f : HTTP_Handler_Factory) : option HTTP_Handler :=
  match creators_ f !! name with
  | None => None
  | Some c => c tt
  end.

(** [REGISTER_HTTP_HANDLER(HANDLER)]: a static initialiser. *)
Definition REGISTER_HTTP_HANDLER (name : str) (h : HTTP_Handler) (f : HTTP_Handler_Factory)
    : HTTP_Handler_Factory :=
  register_handler name (λ _, Some h) f.

(** The factory after the static initialisers of the library. *)
Definition static_factory : HTTP_Handler_Factory :=
  REGISTER_HTTP_HANDLER (lit "HTTP_Echo_Handler") HTTP_Echo_Handler empty_factory.

(** ** Properties *)

(** A handler answers the four verbs with its own functions and every
    other verb with 501; a handler that overrides nothing answers 501 to
    everything, on a connection that persists exactly when the request's
    does. *)
Theorem handler_verbs `{!BeastLaws} (h : HTTP_Handler) (req : Request) :
  handle_request h req =
    match method req with
    | get => handle_get_i h req | post => handle_post_i h req
    | put => handle_put_i h req | delete_ => handle_delete_i h req
    | other_verb _ => not_implemented (req_keep_alive req) []
    end ∧
  (∀ code, method req = other_verb code →
     shows (handle_request h req) 501 (req_keep_alive req) (lit "Not Implemented")) ∧
  shows (handle_request base_handler req) 501 (req_keep_alive req) (lit "Not Implemented").
Proof.
  split; [unfold handle_request; by destruct (method req)|]. split.
  - intros code Hc. unfold handle_request. rewrite Hc. apply stock_response_shows.
  - unfold handle_request. destruct (method req); apply stock_response_shows.
Qed.

(** The echo handler answers the four verbs with 200, the request's
    persistence and the rendering of the parsed request, and any other verb
    with 501. *)
Theorem echo_answers `{!BeastLaws} (req : Request) :
  shows (handle_request HTTP_Echo_Handler req)
    (match method req with other_verb _ => 501 | _ => 200 end)
    (req_keep_alive req)
    (match method req with
     | other_verb _ => lit "Not Implemented"
     | _ => echo_body req (parse (req_target req) empty_uri).2
     end).
Proof.
  assert (shows (echo req) 200 (req_keep_alive req) (echo_body req (parse (req_target req) empty_uri).2))
    as Hecho.
  { unfold echo, make_echo_response. destruct (parse _ _) as [ok uri]. by apply text_response_shows. }
  unfold handle_request. destruct (method req); try exact Hecho. apply stock_response_shows.
Qed.

(** The factory behaves as a map from names to creators: the last
    registration of a name wins, other names are untouched, and an
    unregistered or unknown name creates nothing. *)
Theorem factory_map (name other : str) (fn : HTTP_Handler_Creator) (f : HTTP_Handler_Factory) :
  create name (register_handler name fn f) = fn tt ∧
  contains name (register_handler name fn f) = true ∧
  create name (unregister_handler name f) = None ∧
  contains name (unregister_handler name f) = false ∧
  (name ≠ other →
     create other (register_handler name fn f) = create other f ∧
     create other (unregister_handler name f) = create other f ∧
     contains other (register_handler name fn f) = contains other f ∧
     contains other (unregister_handler name f) = contains other f) ∧
  (contains name f = false → create name f = None).
Proof.
  assert (∀ g, creators_ g !! name = None → contains name g = false ∧ create name g = None) as Hnone.
  { intros g Hg. unfold contains, create. rewrite Hg. split; [|done].
    apply bool_decide_eq_false. intros [? [=]]. }
  assert (creators_ (unregister_handler name f) !! name = None) as Hun.
  { unfold unregister_handler. destruct (creators_ f !! name) eqn:E; [apply lookup_delete_eq|exact E]. }
  split_and!.
  - unfold create, register_handler. simpl. rewrite lookup_insert_eq. done.
  - unfold contains, register_handler. simpl. rewrite lookup_insert_eq. apply bool_decide_eq_true. eauto.
  - by apply Hnone.
  - by apply Hnone.
  - intros Hne. unfold create, contains, register_handler, unregister_handler. simpl.
    rewrite lookup_insert_ne by done. destruct (creators_ f !! name); [|done]. simpl.
    by rewrite lookup_delete_ne by done.
  - unfold contains, create. intros Hc%bool_decide_eq_false. destruct (creators_ f !! name); [|done].
    destruct Hc. eauto.
Qed.
End Handler.

Definition get_request (tgt : string) (keep_alive : bool) : @Request record_beast :=
  mkRequest get (lit "GET") (lit tgt) keep_alive [] [].

Lemma handler_verbs_witness :
  shows (handle_request base_handler (get_request "/" true)) 501 true (lit "Not Implemented").
Proof. apply (handler_verbs base_handler (get_request "/" true)). Defined.

Lemma echo_answers_witness :
  status_of (handle_request HTTP_Echo_Handler (get_request "/echo" false)) = 200%Z.
Proof. apply (echo_answers (get_request "/echo" false)). Defined.

Lemma factory_map_witness :
  create (lit "A") (register_handler (lit "A") (λ _, None) static_factory) = None ∧
  create (lit "B") (register_handler (lit "A") (λ _, None) static_factory) = create (lit "B") static_factory.
Proof.
  destruct (factory_map (lit "A") (lit "B") (λ _, None) static_factory) as (H & _ & _ & _ & Hother & _).
  split; [exact H|]. apply Hother. discriminate.
Defined.
