(* ===== verification/Router.v ===== *)
(** Routing: [httpd/http_router.cpp]. *)

From S2P Require Import Prelude Boost UriParser Beast Handler.

Section Router.
Context {BE : Beast} {CF : Config} {BO : BoostStrings}.

(** ** The code *)

(** [routes_]: path -> handler name. *)
Record HTTP_Router := mkRouter { routes_ : gmap str str }.

Definition empty_router : HTTP_Router := mkRouter ∅.

Definition add (path name : str) (r : HTTP_Router) : HTTP_Router :=
  mkRouter (<[path := name]> (routes_ r)).

(** One iteration of [while (true)]: the state is [len], the result the
    handler name. *)
Definition find_body (routes : gmap str str) (path : str) (len : nat) : nat + str :=
  let key := substr 0 len path in
  match routes !! key with
  | Some name => inr name
  | None =>
      if decide (len = 1) then inr []
      else
        match str_rfind "/"%char (len - 1) path with
        | None => inr []
        | Some last_slash => if decide (last_slash = 0) then inl 1 else inl last_slash
        end
  end.

Definition find_name (routes : gmap str str) (path : str) : option str :=
  loop (find_body routes path) (S (length path)) (length path).

(** The outer option is the fuel of the loop, the inner one the pointer. *)
Definition find_handler (f : HTTP_Handler_Factory) (r : HTTP_Router) (path : str)
    : option (option HTTP_Handler) :=
  if bool_decide (path = []) || negb (starts_with path (lit "/")) then Some None
  else
    handler_name ← find_name (routes_ r) path;
    Some (create handler_name f).

Definition dispatch (f : HTTP_Handler_Factory) (r : HTTP_Router) (req : Request)
    : option Response :=
  let '(ok, uri) := parse (req_target req) empty_uri in
  if negb ok then Some (bad_request (req_keep_alive req) [])
  else
    handler ← find_handler f r (decoded_path uri);
    match handler with
    | None => Some (internal_server_error (req_keep_alive req) [])
    | Some handler => Some (handle_request handler req)
    end.

(** ** Reference definitions *)

(** The lengths at which a path may be cut: the whole path, the root, and
    in front of every slash but the first character. *)
Definition boundary (path : str) (len : nat) : Prop :=
  len = length path ∨ len = 1 ∨ (1 ≤ len ∧ path !! len = Some "/"%char).

(** [name] is the route of the longest prefix of [path], cut at a boundary,
    that has one; it is empty when none has. *)
Definition longest_route (routes : gmap str str) (path name : str) : Prop :=
  (∃ len, boundary path len ∧ 1 ≤ len ≤ length path ∧ routes !! take len path = Some name ∧
          ∀ len', boundary path len' → len < len' ≤ length path → routes !! take len' path = None) ∨
  (name = [] ∧ ∀ len', boundary path len' → 1 ≤ len' ≤ length path → routes !! take len' path = None).

(** What a request with this decoded path is answered by. *)
Definition respond (h : option HTTP_Handler) (req : Request) : Response :=
  match h with
  | None => internal_server_error (req_keep_alive req) []
  | Some h => handle_request h req
  end.

(** ** Lemmas *)

Lemma rfind_down_spec c s i :
  match rfind_down c s i with
  | Some j => j ≤ i ∧ s !! j = Some c ∧ ∀ k, j < k ≤ i → s !! k ≠ Some c
  | None => ∀ k, k ≤ i → s !! k ≠ Some c
  end.
Proof.
  induction i as [|i IH]; simpl; case_decide as Hc.
  - split_and!; [lia|done|intros; lia].
  - intros k Hk. by replace k with 0 by lia.
  - split_and!; [lia|done|intros; lia].
  - destruct (rfind_down c s i) as [j|].
    + destruct IH as (Hj & Hsj & Hk). split_and!; [lia|done|]. intros k Hjk.
      destruct (decide (k = S i)) as [->|]; [done|]. apply Hk. lia.
    + intros k Hk. destruct (decide (k = S i)) as [->|]; [done|]. apply IH. lia.
Qed.

Lemma str_rfind_spec c pos s i :
  str_rfind c pos s = Some i →
  i ≤ pos ∧ i < length s ∧ s !! i = Some c ∧ ∀ k, i < k ≤ pos → s !! k ≠ Some c.
Proof.
  unfold str_rfind. destruct s as [|x s]; [done|]. intros Hr.
  pose proof (rfind_down_spec c (x :: s) (pos `min` (length (x :: s) - 1))) as Hs.
  rewrite Hr in Hs. destruct Hs as (Hi & Hc & Hk). split_and!; [lia|simpl in *; lia|done|].
  intros k Hk'. destruct (decide (k ≤ length (x :: s) - 1)); [apply Hk; lia|].
  rewrite lookup_ge_None_2 by (simpl in *; lia). done.
Qed.

Lemma str_rfind_is_Some c pos s i : i ≤ pos → s !! i = Some c → is_Some (str_rfind c pos s).
Proof.
  intros Hi Hc. apply lookup_lt_Some in Hc as Hlt. unfold str_rfind. destruct s as [|x s]; [done|].
  pose proof (rfind_down_spec c (x :: s) (pos `min` (length (x :: s) - 1))) as Hs.
  destruct (rfind_down _ _ _); [eauto|]. destruct (Hs i); [simpl in *; lia|done].
Qed.

Lemma find_body_step routes path len :
  head path = Some "/"%char → boundary path len → 1 ≤ len ≤ length path →
  (∃ name, find_body routes path len = inr name ∧ routes !! take len path = Some name) ∨
  (routes !! take len path = None ∧ len = 1 ∧ find_body routes path len = inr []) ∨
  (routes !! take len path = None ∧
   ∃ len', find_body routes path len = inl len' ∧ boundary path len' ∧ 1 ≤ len' < len ∧
           ∀ b, boundary path b → len' < b < len → False).
Proof.
  intros Hhead Hb Hlen. unfold find_body, substr. rewrite drop_0.
  destruct (routes !! take len path) as [name|] eqn:Hr; [left; eauto|right].
  case_decide as H1; [left; done|right]. split; [done|].
  destruct (str_rfind_is_Some "/"%char (len - 1) path 0) as [ls Hls];
    [lia|by destruct path; simplify_eq/=|].
  rewrite Hls. apply str_rfind_spec in Hls as (Hle & Hlt & Hc & Hmax).
  assert (∀ b, boundary path b → (ls `max` 1) < b < len → False) as Hbetween.
  { intros b [?|[?|[? Hs]]] ?; [lia|lia|]. apply (Hmax b); [lia|done]. }
  case_decide as H0.
  - exists 1. split_and!; [done|by right; left|lia|lia|]. intros b Hbb ?. apply (Hbetween b Hbb). lia.
  - exists ls. split_and!; [done|right; right; split; [lia|done]|lia|lia|].
    intros b Hbb ?. apply (Hbetween b Hbb). lia.
Qed.

Lemma find_name_longest routes path :
  head path = Some "/"%char →
  ∃ name, find_name routes path = Some name ∧ longest_route routes path name.
Proof.
  intros Hhead. assert (1 ≤ length path) as Hlen by (destruct path; simpl in *; [done|lia]).
  unfold find_name.
  apply (loop_total (find_body routes path)
    (λ len, boundary path len ∧ 1 ≤ len ≤ length path ∧
            ∀ b, boundary path b → len < b ≤ length path → routes !! take b path = None) _ (λ len, len)).
  - intros len len' (Hb & Hl & Habove) Hbody.
    destruct (find_body_step routes path len Hhead Hb Hl)
      as [(name & Heq & _)|[(_ & _ & Heq)|(Hnone & l & Heq & Hb' & Hl' & Hgap)]];
      rewrite Heq in Hbody; simplify_eq.
    split_and!; [done|lia|lia| |lia]. intros b Hbb ?.
    destruct (decide (b = len)) as [->|]; [done|].
    destruct (decide (b < len)); [exfalso; apply (Hgap b Hbb); lia|]. apply Habove; [done|lia].
  - intros len name (Hb & Hl & Habove) Hbody.
    destruct (find_body_step routes path len Hhead Hb Hl)
      as [(name' & Heq & Hname)|[(Hnone & -> & Heq)|(_ & l & Heq & _)]];
      rewrite Heq in Hbody; simplify_eq.
    + left. exists len. done.
    + right. split; [done|]. intros b Hbb ?.
      destruct (decide (b = 1)) as [->|]; [done|]. apply Habove; [done|lia].
  - split_and!; [by left|lia|lia|]. intros; lia.
  - lia.
Qed.

Context `{!BoostStringsLaws}.

Lemma starts_with_slash path : starts_with path (lit "/") = bool_decide (head path = Some "/"%char).
Proof.
  apply eq_bool_prop_intro. rewrite !Is_true_true, starts_with_spec, bool_decide_eq_true.
  split.
  - intros [k ->]. done.
  - destruct path as [|x path]; [done|]. intros [= ->]. by exists path.
Qed.

Lemma find_handler_eq f r path :
  ∃ h, find_handler f r path = Some h ∧
       ((head path ≠ Some "/"%char ∧ h = None) ∨
        (∃ name, longest_route (routes_ r) path name ∧ h = create name f)).
Proof.
  unfold find_handler. rewrite starts_with_slash.
  destruct (decide (head path = Some "/"%char)) as [Hh|Hh].
  - rewrite (bool_decide_false (path = [])) by (by intros ->). rewrite bool_decide_true by done. simpl.
    destruct (find_name_longest (routes_ r) path Hh) as (name & -> & Hn). simpl. eauto 10.
  - rewrite (bool_decide_false (head path = _)) by done. rewrite orb_true_r. eauto.
Qed.

(** The decoded path decides the handler. *)
Lemma dispatch_eq f r req :
  ∃ h, find_handler f r (path_of (raw_path (parse (req_target req) empty_uri).2)) = Some h ∧
       dispatch f r req = Some (respond h req).
Proof.
  unfold dispatch. rewrite parse_eq. simpl.
  destruct (find_handler_eq f r (path_of (raw_path (split_target (mkURI (req_target req) [] [] [] [])))))
    as (h & Hh & _).
  exists h. split; [done|]. rewrite Hh. by destruct h.
Qed.

Lemma longest_route_unique routes path n1 n2 :
  longest_route routes path n1 → longest_route routes path n2 → n1 = n2.
Proof.
  intros [(l1 & Hb1 & Hl1 & Hr1 & Ha1)|[-> Hn1]] [(l2 & Hb2 & Hl2 & Hr2 & Ha2)|[-> Hn2]]; [| | |done].
  - destruct (Nat.lt_total l1 l2) as [Hlt|[->|Hlt]]; [|congruence|].
    + rewrite (Ha1 l2 Hb2) in Hr2; [done|lia].
    + rewrite (Ha2 l1 Hb1) in Hr1; [done|lia].
  - by rewrite (Hn2 l1 Hb1 Hl1) in Hr1.
  - by rewrite (Hn1 l2 Hb2 Hl2) in Hr2.
Qed.

(** [dispatch] as a total function. *)
Definition dispatch_total (f : HTTP_Handler_Factory) (r : HTTP_Router) (req : Request) : Response :=
  match dispatch f r req with
  | Some res => res
  | None => internal_server_error (req_keep_alive req) []
  end.

Lemma dispatch_total_eq f r req : dispatch f r req = Some (dispatch_total f r req).
Proof. unfold dispatch_total. by destruct (dispatch_eq f r req) as (h & _ & ->). Qed.

(** What [dispatch] does, given the handler of the longest route. *)
Lemma dispatch_handler f r req :
  let path := decoded_path (parse (req_target req) empty_uri).2 in
  ∃ h, dispatch f r req = Some (respond h req) ∧
    (head path ≠ Some "/"%char → h = None) ∧
    (head path = Some "/"%char → ∃ name, longest_route (routes_ r) path name ∧ h = create name f).
Proof.
  destruct (dispatch_eq f r req) as (h & Hf & Hd). rewrite parse_eq in *. simpl in *.
  exists h. split; [done|].
  destruct (find_handler_eq f r (path_of (raw_path (split_target (mkURI (req_target req) [] [] [] [])))))
    as (h' & Hf' & Hcase). rewrite Hf in Hf'. injection Hf' as <-.
  unfold find_handler in Hf. rewrite starts_with_slash in Hf. split; intros Hh.
  - rewrite (bool_decide_false (head _ = _)), orb_true_r in Hf by done. by injection Hf as <-.
  - by destruct Hcase as [[]|].
Qed.

(** ** Properties *)

(** C7: dispatching always produces a response.  An absolute decoded path is
    answered by the handler registered under the route of its longest
    prefix that ends at a segment boundary (there is exactly one such
    name); a path that is not absolute, a path without a route and a route
    whose handler cannot be created get an internal server error. *)
Theorem dispatch_longest_prefix (f : HTTP_Handler_Factory) (r : HTTP_Router) (req : Request) :
  let path := decoded_path (parse (req_target req) empty_uri).2 in
  ∃ h, dispatch f r req = Some (respond h req) ∧
    (head path ≠ Some "/"%char → h = None) ∧
    (head path = Some "/"%char →
     ∃ name, longest_route (routes_ r) path name ∧ h = create name f ∧
             ∀ name', longest_route (routes_ r) path name' → name' = name).
Proof.
  intros path. destruct (dispatch_handler f r req) as (h & Hd & Hn & Hp). exists h. split_and!; [done..|].
  intros Hh. destruct (Hp Hh) as (name & Hl & ->). exists name. split_and!; [done|done|].
  intros name' Hn'. by eapply longest_route_unique.
Qed.

(** The query string has no influence on the choice of the handler. *)
Theorem dispatch_ignores_query (f : HTTP_Handler_Factory) (r : HTTP_Router) (req req' : Request) (p q : str)
    (Hp : "?"%char ∉ p) (Hreq : req_target req = p ++ lit "?" ++ q) (Hreq' : req_target req' = p) :
  ∃ h, dispatch f r req = Some (respond h req) ∧ dispatch f r req' = Some (respond h req').
Proof.
  destruct (dispatch_eq f r req) as (h & Hf & Hd). destruct (dispatch_eq f r req') as (h' & Hf' & Hd').
  rewrite Hreq, parse_with_query in Hf by done. rewrite Hreq', parse_no_query in Hf' by done.
  simpl in *. rewrite Hf in Hf'. injection Hf' as <-. eauto.
Qed.

(** A request for a path that no route covers is answered 500 Internal
    Server Error (not 404), unless a handler is registered under the empty
    name. *)
Theorem dispatch_unrouted_is_500 `{!BeastLaws} (f : HTTP_Handler_Factory) (r : HTTP_Router) (req : Request)
    (Hname : contains [] f = false)
    (Hnone : let path := decoded_path (parse (req_target req) empty_uri).2 in
             ∀ len, boundary path len → 1 ≤ len ≤ length path → routes_ r !! take len path = None) :
  ∃ resp, dispatch f r req = Some resp ∧
          shows resp 500 (req_keep_alive req) (lit "Internal Server Error").
Proof.
  destruct (dispatch_eq f r req) as (h & Hf & Hd). rewrite parse_eq in *. simpl in *.
  destruct (find_handler_eq f r (path_of (raw_path (split_target (mkURI (req_target req) [] [] [] [])))))
    as (h' & Hf' & Hcase). rewrite Hf in Hf'. injection Hf' as <-.
  assert (h = None) as ->; [|eexists; split; [done|]; apply stock_response_shows].
  destruct Hcase as [[_ ->]|(name & Hn & ->)]; [done|].
  assert (name = []) as -> by (eapply longest_route_unique; [done|by right]).
  unfold contains, create in *. apply bool_decide_eq_false in Hname.
  destruct (creators_ f !! []); [|done]. destruct Hname. eauto.
Qed.
End Router.

(** ** The cases of [tests/http_router_matching_test.cpp] *)

Section Tests.
(** A handler that answers GET with its name. *)
Definition named (name : string) : HTTP_Handler :=
  mkHandler (λ req, stock_response status_ok (req_keep_alive req) (lit name))
    (handle_post_i base_handler) (handle_put_i base_handler) (handle_delete_i base_handler).

Definition test_factory : HTTP_Handler_Factory :=
  REGISTER_HTTP_HANDLER (lit "RouterUsersHandler") (named "users")
    (REGISTER_HTTP_HANDLER (lit "RouterV1Handler") (named "v1")
      (REGISTER_HTTP_HANDLER (lit "RouterAPIHandler") (named "api")
        (REGISTER_HTTP_HANDLER (lit "RouterBaseHandler") (named "base") static_factory))).

Definition test_router : HTTP_Router :=
  add (lit "/__http_router_lpm_test/api/v1/users") (lit "RouterUsersHandler")
    (add (lit "/__http_router_lpm_test/api/v1") (lit "RouterV1Handler")
      (add (lit "/__http_router_lpm_test/api") (lit "RouterAPIHandler")
        (add (lit "/__http_router_lpm_test") (lit "RouterBaseHandler") empty_router))).

Definition body_for (tgt : string) : option str :=
  body_of <$> dispatch test_factory test_router (get_request tgt false).
End Tests.

Example exact_route : body_for "/__http_router_lpm_test/api/v1" = Some (lit "v1").
Proof. vm_compute. reflexivity. Qed.
Example nested_path : body_for "/__http_router_lpm_test/api/v1/users/42/profile" = Some (lit "users").
Proof. vm_compute. reflexivity. Qed.
Example with_query : body_for "/__http_router_lpm_test/api/v1/users?active=true" = Some (lit "users").
Proof. vm_compute. reflexivity. Qed.
Example nearest_prefix : body_for "/__http_router_lpm_test/api/v1/projects/example" = Some (lit "v1").
Proof. vm_compute. reflexivity. Qed.
Example partial_segment : body_for "/__http_router_lpm_test/apiary" = Some (lit "base").
Proof. vm_compute. reflexivity. Qed.
Example no_route : body_for "/other" = Some (lit "Internal Server Error").
Proof. vm_compute. reflexivity. Qed.

Lemma dispatch_longest_prefix_witness :
  ∃ h, dispatch test_factory test_router (get_request "/__http_router_lpm_test/api/v1/x" true) =
       Some (respond h (get_request "/__http_router_lpm_test/api/v1/x" true)).
Proof.
  destruct (dispatch_longest_prefix test_factory test_router (get_request "/__http_router_lpm_test/api/v1/x" true))
    as (h & Hd & _). by exists h.
Defined.

Lemma dispatch_ignores_query_witness :
  ∃ h, dispatch test_factory test_router (get_request "/__http_router_lpm_test/api?x=1" true) =
         Some (respond h (get_request "/__http_router_lpm_test/api?x=1" true)) ∧
       dispatch test_factory test_router (get_request "/__http_router_lpm_test/api" true) =
         Some (respond h (get_request "/__http_router_lpm_test/api" true)).
Proof.
  apply (dispatch_ignores_query test_factory test_router (get_request "/__http_router_lpm_test/api?x=1" true)
           (get_request "/__http_router_lpm_test/api" true) (lit "/__http_router_lpm_test/api") (lit "x=1")); [|done|done].
  by apply (bool_decide_unpack _).
Defined.

Lemma dispatch_unrouted_is_500_witness :
  ∃ resp, dispatch test_factory empty_router (get_request "/nowhere" true) = Some resp ∧
          shows resp 500 true (lit "Internal Server Error").
Proof.
  apply (dispatch_unrouted_is_500 test_factory empty_router (get_request "/nowhere" true)); done.
Defined.
