(* ===== verification/Session.v ===== *)
(** Connections: [httpd/http_session.cpp] and [httpd/http_acceptor.cpp].

    Asio runs one completion handler at a time, so a session is a state
    machine driven by completions; what a handler asks asio to do next is the
    outstanding operation [op_].  Asking for a second operation, reading into a
    parser that was already used and using a closed stream are undefined. *)

From S2P Require Import Prelude Boost Beast Handler Router.

(** What a session needs of the router. *)
Class Dispatcher {BE : Beast} := { dispatch_request : Request → Response }.

(** The router keeps that promise: [HTTP_Router::instance()->dispatch]. *)
#[export] Instance router_dispatcher {BE : Beast} {CF : Config} {BO : BoostStrings}
    (f : HTTP_Handler_Factory) (r : HTTP_Router) : Dispatcher :=
  {| dispatch_request := dispatch_total f r |}.

Definition RECEIVE_REQUEST_TIMEOUT : Z := 30.
Definition SEND_RESPONSE_TIMEOUT : Z := 30.

(** [beast::error_code] as the program distinguishes it. *)
Inductive error_code := success | end_of_stream | operation_canceled | other_error (code : Z).

#[export] Instance error_code_eq_dec : EqDecision error_code.
Proof. solve_decision. Defined.

(** [if (ec)]. *)
Definition failed (ec : error_code) : bool := bool_decide (ec ≠ success).

Section Session.
Context {BE : Beast} {D : Dispatcher}.

(** ** The session *)

(** The request parser: new, holding a parsed request, or moved from. *)
Inductive parser := Fresh | Parsed (req : Request) | Released.

(** An operation given to asio; a write handler captured [keep_alive]. *)
Inductive operation := Reading | Writing (keep_alive : bool).

Record HTTP_Session := mkSession {
  open_ : bool;               (** the stream is open *)
  expires_ : option Z;        (** last [expires_after], consumed by the next operation *)
  parser_ : parser;
  op_ : option operation;     (** the outstanding operation *)
  written_ : list Response    (** what was given to [async_write], in order *)
}.

Definition reset_parser (s : HTTP_Session) : HTTP_Session :=
  mkSession (open_ s) (expires_ s) Fresh (op_ s) (written_ s).

(** The constructor. *)
Definition new_session : HTTP_Session :=
  reset_parser (mkSession true None Released None []).

Definition expires_after (seconds : Z) (s : HTTP_Session) : HTTP_Session :=
  mkSession (open_ s) (Some seconds) (parser_ s) (op_ s) (written_ s).

(** [http::async_read(stream_, buff_, *parser_, ...)] *)
Definition async_read (s : HTTP_Session) : outcome HTTP_Session :=
  match open_ s, op_ s, parser_ s with
  | true, None, Fresh => Ret (mkSession true None Fresh (Some Reading) (written_ s))
  | _, _, _ => UB
  end.

(** [beast::async_write(stream_, res, ...)] *)
Definition async_write (res : Response) (keep_alive : bool) (s : HTTP_Session) : outcome HTTP_Session :=
  match open_ s, op_ s with
  | true, None =>
      Ret (mkSession true None (parser_ s) (Some (Writing keep_alive)) (written_ s ++ [res]))
  | _, _ => UB
  end.

(** [stream_.socket().remote_endpoint()] throws when the socket is not
    connected any more. *)
Definition remote_endpoint (connected : bool) : outcome unit :=
  if connected then Ret tt else Throw (lit "remote_endpoint").

Definition close (connected : bool) (s : HTTP_Session) : outcome HTTP_Session :=
  let! _ := remote_endpoint connected in
  Ret (mkSession false (expires_ s) (parser_ s) (op_ s) (written_ s)).

Definition handle_request_reading (s : HTTP_Session) : outcome HTTP_Session :=
  let s := expires_after RECEIVE_REQUEST_TIMEOUT s in
  async_read s.

Definition run (s : HTTP_Session) : outcome HTTP_Session := handle_request_reading s.

(** [parser_->release()] *)
Definition release (s : HTTP_Session) : outcome (Request * HTTP_Session) :=
  match parser_ s with
  | Parsed req => Ret (req, mkSession (open_ s) (expires_ s) Released (op_ s) (written_ s))
  | _ => UB
  end.

Definition handle_request (s : HTTP_Session) : outcome (bool * HTTP_Session) :=
  let! '(req, s) := release s in
  let res := dispatch_request req in
  let keep_alive := keep_alive_of res in
  let s := expires_after SEND_RESPONSE_TIMEOUT s in
  let! s := async_write res keep_alive s in
  Ret (true, s).

Definition handle_request_received (ec : error_code) (connected : bool) (s : HTTP_Session)
    : outcome HTTP_Session :=
  if failed ec then close connected s
  else
    let! _ := remote_endpoint connected in
    let! '(ok, s) := handle_request s in
    if negb ok then close connected s else Ret s.

Definition handle_writing_finished (ec : error_code) (connected keep_alive : bool) (s : HTTP_Session)
    : outcome HTTP_Session :=
  if failed ec then close connected s
  else if negb keep_alive then close connected s
  else
    let s := reset_parser s in
    handle_request_reading s.

(** ** Completions *)

(** Asio finishes the outstanding operation; a read without error left a
    request in the parser.  [connected] is whether the peer is still there
    when the handler runs. *)
Inductive completion :=
| Read_failed (ec : error_code) (connected : bool)
| Read_done (req : Request) (connected : bool)
| Write_finished (ec : error_code) (connected : bool).

Definition finish_op (p : parser) (s : HTTP_Session) : HTTP_Session :=
  mkSession (open_ s) (expires_ s) p None (written_ s).

Inductive step (s : HTTP_Session) : completion → outcome HTTP_Session → Prop :=
| step_read_failed ec connected :
    op_ s = Some Reading → failed ec = true →
    step s (Read_failed ec connected)
         (handle_request_received ec connected (finish_op (parser_ s) s))
| step_read_done req connected :
    op_ s = Some Reading →
    step s (Read_done req connected)
         (handle_request_received success connected (finish_op (Parsed req) s))
| step_write_finished ec connected keep_alive :
    op_ s = Some (Writing keep_alive) →
    step s (Write_finished ec connected)
         (handle_writing_finished ec connected keep_alive (finish_op (parser_ s) s)).

(** The outcomes of a session after a sequence of completions. *)
Inductive serves : list completion → outcome HTTP_Session → Prop :=
| serves_start : serves [] (run new_session)
| serves_step cs c s o : serves cs (Ret s) → step s c o → serves (cs ++ [c]) o.

(** ** The invariant *)

Definition requests (cs : list completion) : list Request :=
  omap (λ c, match c with Read_done req _ => Some req | _ => None end) cs.

Definition peer_present (c : completion) : bool :=
  match c with
  | Read_failed _ connected | Read_done _ connected | Write_finished _ connected => connected
  end.

(** The session is closed with nothing outstanding, or waits for a request
    with a new parser after responses that all keep the connection, or for
    the end of the last write, whose persistence it remembers. *)
Inductive session_ok : HTTP_Session → Prop :=
| ok_closed e p ws : session_ok (mkSession false e p None ws)
| ok_reading ws :
    Forall (λ r, keep_alive_of r = true) ws →
    session_ok (mkSession true None Fresh (Some Reading) ws)
| ok_writing ws res :
    Forall (λ r, keep_alive_of r = true) ws →
    session_ok (mkSession true None Released (Some (Writing (keep_alive_of res))) (ws ++ [res])).

Lemma session_start : run new_session = Ret (mkSession true None Fresh (Some Reading) []).
Proof. done. Qed.

Lemma session_step_ok s c o :
  session_ok s → step s c o →
  (∃ s', o = Ret s' ∧ session_ok s' ∧
         written_ s' = written_ s ++ (dispatch_request <$> requests [c])) ∨
  (peer_present c = false ∧ o = Throw (lit "remote_endpoint")).
Proof.
  intros Hs Hstep. destruct Hstep as [ec conn Hop Hec|req conn Hop|ec conn ka Hop]; simpl.
  - destruct Hs; simplify_eq/=. unfold handle_request_received. rewrite Hec.
    destruct conn; simpl; [left|by right]. eexists. split; [done|].
    rewrite app_nil_r. split; [constructor|done].
  - destruct Hs as [| |]; simplify_eq/=. unfold handle_request_received. simpl.
    destruct conn; simpl; [left|by right]. eexists. split; [done|]. split; [by constructor|done].
  - destruct Hs as [| |ws res Hws]; simplify_eq/=. unfold handle_writing_finished.
    destruct (failed ec); simpl.
    { destruct conn; simpl; [left|by right]. eexists. split; [done|].
      rewrite app_nil_r. split; [constructor|done]. }
    destruct (keep_alive_of res) eqn:Hk; simpl.
    + left. eexists. split; [done|]. rewrite app_nil_r. split; [|done].
      constructor. apply Forall_app. auto.
    + destruct conn; simpl; [left|by right]. eexists. split; [done|].
      rewrite app_nil_r. split; [constructor|done].
Qed.

Lemma serves_ok cs o :
  serves cs o →
  (∃ s, o = Ret s ∧ session_ok s ∧ written_ s = dispatch_request <$> requests cs) ∨
  (o = Throw (lit "remote_endpoint") ∧ ∃ c, last cs = Some c ∧ peer_present c = false).
Proof.
  induction 1 as [|cs c s o Hs IH Hstep].
  - left. eexists. split; [done|]. split; [by constructor|done].
  - destruct IH as [(s' & Heq & Hok & Hw)|[[=] _]]. simplify_eq.
    destruct (session_step_ok _ _ _ Hok Hstep) as [(s2 & -> & Hok2 & Hw2)|[Hp ->]].
    + left. eexists. split; [done|]. split; [done|].
      unfold requests. rewrite omap_app, fmap_app. unfold requests in *. by rewrite Hw2, Hw.
    + right. split; [done|]. exists c. by rewrite last_snoc.
Qed.

(** ** Properties *)

(** C6: whatever completions asio delivers, a session never starts a second
    operation, never reads into a used parser and never uses a closed
    stream; as long as its handlers do not throw, the responses written are
    the router's answers to the requests read, in order, exactly one each,
    and the session is either closed with nothing outstanding, or reading
    after responses that all kept the connection, or writing the last one. *)
Theorem session_answers_in_order (cs : list completion) (o : outcome HTTP_Session) (Hrun : serves cs o) :
  o ≠ UB ∧
  ∀ s, o = Ret s → session_ok s ∧ written_ s = dispatch_request <$> requests cs.
Proof.
  destruct (serves_ok cs o Hrun) as [(s & -> & Hok & Hw)|[-> _]]; split; try done.
  by intros s' [= <-].
Qed.

(** C16: a session that waits for an operation always has a next state: an
    error or a response that does not keep the connection closes it, a
    request read is answered, a write that keeps the connection reads the
    next request; and the handlers do not throw while the peer is there. *)
Theorem session_progress (cs : list completion) (s : HTTP_Session) (c : completion) (o : outcome HTTP_Session)
    (Hrun : serves cs (Ret s)) (Hstep : step s c o) (Hpeer : peer_present c = true) :
  ∃ s', o = Ret s' ∧
    match c with
    | Read_failed _ _ => open_ s' = false ∧ op_ s' = None
    | Read_done req _ => op_ s' = Some (Writing (keep_alive_of (dispatch_request req)))
    | Write_finished ec _ =>
        if failed ec || negb (default false (keep_alive_of <$> last (written_ s)))
        then open_ s' = false ∧ op_ s' = None
        else op_ s' = Some Reading ∧ parser_ s' = Fresh
    end.
Proof.
  destruct (serves_ok _ _ Hrun) as [(s0 & [= <-] & Hok & _)|[[=] _]].
  destruct Hstep as [ec conn Hop Hec|req conn Hop|ec conn ka Hop]; simpl in Hpeer; subst conn.
  - unfold handle_request_received. rewrite Hec. simpl. eauto.
  - destruct Hok; simplify_eq/=. eauto.
  - destruct Hok as [| |ws res Hws]; simplify_eq/=. rewrite last_snoc. simpl.
    unfold handle_writing_finished. destruct (failed ec); simpl; [eauto|].
    destruct (keep_alive_of res); simpl; eauto.
Qed.

(** Closing asks the socket for its peer first, so a read error on a
    connection whose peer is gone makes the handler throw instead of closing
    the stream. *)
Theorem session_close_throws (cs : list completion) (s : HTTP_Session) (ec : error_code)
    (Hrun : serves cs (Ret s)) (Hop : op_ s = Some Reading) (Hec : failed ec = true) :
  serves (cs ++ [Read_failed ec false]) (Throw (lit "remote_endpoint")).
Proof.
  eapply serves_step; [done|].
  replace (Throw _) with (handle_request_received ec false (finish_op (parser_ s) s)).
  - by apply step_read_failed.
  - unfold handle_request_received. by rewrite Hec.
Qed.
End Session.

(** ** The acceptor *)

Section Acceptor.
Context {BE : Beast}.

Record HTTP_Acceptor := mkAcceptor {
  is_open : bool;
  accepting_ : bool;                       (** an [async_accept] is outstanding *)
  sessions_ : list (outcome HTTP_Session)  (** the sessions started, in order *)
}.

(** The constructor opens, binds and listens, or throws; [setup] is the
    outcome of those calls. *)
Definition new_acceptor (setup : outcome unit) : outcome HTTP_Acceptor :=
  let! _ := setup in Ret (mkAcceptor true false []).

(** [make_acceptor]: a null pointer when the constructor throws. *)
Definition make_acceptor (setup : outcome unit) : outcome (option HTTP_Acceptor) :=
  match new_acceptor setup with
  | Ret a => Ret (Some a)
  | Throw _ => Ret None
  | UB => UB
  end.

Definition accept (a : HTTP_Acceptor) : HTTP_Acceptor :=
  mkAcceptor (is_open a) true (sessions_ a).

Definition acceptor_run (a : HTTP_Acceptor) : HTTP_Acceptor := accept a.

Definition acceptor_close (a : HTTP_Acceptor) : HTTP_Acceptor :=
  if is_open a then mkAcceptor false (accepting_ a) (sessions_ a) else a.

(** The completion handler of [async_accept]. *)
Definition handle_accept (ec : error_code) (a : HTTP_Acceptor) : HTTP_Acceptor :=
  if failed ec then acceptor_close a
  else
    let s := run new_session in
    accept (mkAcceptor (is_open a) (accepting_ a) (sessions_ a ++ [s])).

(** Asio completes the outstanding accept, or the signal handler of [main]
    closes the acceptor. *)
Inductive acceptor_event := Accept_finished (ec : error_code) | Signal.

Inductive acceptor_step (a : HTTP_Acceptor) : acceptor_event → HTTP_Acceptor → Prop :=
| step_accept ec :
    accepting_ a = true →
    acceptor_step a (Accept_finished ec)
      (handle_accept ec (mkAcceptor (is_open a) false (sessions_ a)))
| step_signal : acceptor_step a Signal (acceptor_close a).

Inductive accepts (a0 : HTTP_Acceptor) : list acceptor_event → HTTP_Acceptor → Prop :=
| accepts_start : accepts a0 [] (acceptor_run a0)
| accepts_step es e a a' : accepts a0 es a → acceptor_step a e a' → accepts a0 (es ++ [e]) a'.

#[export] Instance acceptor_event_eq_dec : EqDecision acceptor_event.
Proof. solve_decision. Defined.

Definition accepted (es : list acceptor_event) : list acceptor_event :=
  filter (λ e, e = Accept_finished success) es.

Definition refused (e : acceptor_event) : bool :=
  match e with Accept_finished ec => failed ec | Signal => false end.

Lemma acceptor_inv a0 es a :
  make_acceptor (Ret tt) = Ret (Some a0) → accepts a0 es a →
  (accepting_ a = false → is_open a = false) ∧
  sessions_ a = replicate (length (accepted es)) (run new_session).
Proof.
  unfold accepted. intros [= <-]. induction 1 as [|es e a a' _ [IH1 IH2] Hstep]; [done|].
  destruct Hstep as [ec Ha|].
  - unfold handle_accept. destruct (failed ec) eqn:Hec.
    + unfold acceptor_close. simpl. rewrite filter_app, filter_cons_False, app_nil_r.
      * destruct (is_open a) eqn:Ho; simpl; split; done.
      * intros [= ->]. done.
    + assert (ec = success) as -> by (unfold failed in Hec; by apply bool_decide_eq_false in Hec as ?%dec_stable).
      simpl. split; [done|]. rewrite filter_app, filter_cons_True, length_app by done. simpl.
      by rewrite replicate_add, IH2.
  - unfold acceptor_close. rewrite filter_app, filter_cons_False, app_nil_r by done.
    destruct (is_open a) eqn:Ho; simpl; split; rewrite ?Ho; auto.
Qed.

Lemma acceptor_dead a0 es a :
  accepts a0 es a → existsb refused es = true → accepting_ a = false ∧ is_open a = false.
Proof.
  induction 1 as [|es e a a' _ IH Hstep]; [done|]. rewrite existsb_app, orb_true_iff. simpl.
  rewrite orb_false_r. intros [Hr|Hr].
  - destruct (IH Hr) as [H1 H2]. destruct Hstep as [ec Ha|]; [congruence|].
    unfold acceptor_close. by rewrite H2.
  - destruct Hstep as [ec Ha|]; [|done]. simpl in Hr. unfold handle_accept. rewrite Hr.
    unfold acceptor_close. simpl. by destruct (is_open a) eqn:Ho; simpl; rewrite ?Ho.
Qed.

(** An acceptor that is open always has an accept outstanding, and it
    started exactly one session, reading its first request, for every
    connection accepted; a constructor that throws gives a null pointer. *)
Theorem acceptor_keeps_listening (a0 a : HTTP_Acceptor) (es : list acceptor_event) (what : str)
    (Hmake : make_acceptor (Ret tt) = Ret (Some a0)) (Hrun : accepts a0 es a) :
  (is_open a = true → accepting_ a = true) ∧
  sessions_ a = replicate (length (accepted es)) (Ret (mkSession true None Fresh (Some Reading) [])) ∧
  make_acceptor (Throw what) = Ret None.
Proof.
  destruct (acceptor_inv a0 es a Hmake Hrun) as [H1 H2]. split_and!; [|done|done].
  destruct (accepting_ a); [done|]. intros Ho. by rewrite H1 in Ho.
Qed.

(** One failed accept, whatever the error, ends the server's listening
    for good: the acceptor is closed and no accept is ever outstanding
    again. *)
Theorem acceptor_stops_on_error (a0 a : HTTP_Acceptor) (es : list acceptor_event)
    (Hrun : accepts a0 es a) (Hfail : existsb refused es = true) :
  accepting_ a = false ∧ is_open a = false.
Proof. by eapply acceptor_dead. Qed.
End Acceptor.

(** ** Witnesses *)

#[local] Existing Instance record_beast.
#[local] Instance test_dispatcher : Dispatcher := router_dispatcher test_factory test_router.

Lemma session_start_serves : serves [] (Ret (mkSession true None Fresh (Some Reading) [])).
Proof. apply serves_start. Qed.

Lemma session_one_request (keep_alive : bool) :
  let req := get_request "/echo" keep_alive in
  serves [Read_done req true]
    (Ret (mkSession true None Released (Some (Writing keep_alive)) [dispatch_request req])).
Proof.
  intros req. change [Read_done req true] with ([] ++ [Read_done req true]).
  eapply serves_step; [apply session_start_serves|].
  replace (Ret _) with
    (handle_request_received success true
       (finish_op (Parsed req) (mkSession true None Fresh (Some Reading) []))).
  - by apply step_read_done.
  - by destruct keep_alive.
Qed.

Lemma session_answers_in_order_witness :
  ∃ s, Ret (mkSession true None Released (Some (Writing true))
              [dispatch_request (get_request "/echo" true)]) = Ret s ∧
       written_ s = [dispatch_request (get_request "/echo" true)].
Proof.
  eexists. split; [reflexivity|].
  apply (session_answers_in_order [Read_done (get_request "/echo" true) true] _ (session_one_request true)).
  reflexivity.
Defined.

Lemma session_progress_witness :
  ∃ s', handle_writing_finished success true true
          (finish_op Released (mkSession true None Released (Some (Writing true))
             [dispatch_request (get_request "/echo" true)])) = Ret s' ∧ op_ s' = Some Reading.
Proof.
  pose (s := mkSession true None Released (Some (Writing true)) [dispatch_request (get_request "/echo" true)]).
  destruct (session_progress [Read_done (get_request "/echo" true) true] s (Write_finished success true) _
              (session_one_request true) (step_write_finished s success true true eq_refl) eq_refl)
    as (s' & Hs' & Hop).
  exists s'. split; [exact Hs'|]. apply Hop.
Defined.

Lemma session_close_throws_witness :
  serves ([] ++ [Read_failed (other_error 104) false]) (Throw (lit "remote_endpoint")).
Proof.
  apply (session_close_throws [] _ (other_error 104) session_start_serves); reflexivity.
Defined.

Lemma acceptor_keeps_listening_witness :
  accepting_ (acceptor_run (mkAcceptor true false [])) = true.
Proof.
  apply (acceptor_keeps_listening (mkAcceptor true false []) _ [] [] eq_refl (accepts_start _)).
  reflexivity.
Defined.

Lemma acceptor_stops_on_error_witness :
  accepting_ (handle_accept (other_error 24) (mkAcceptor true false [])) = false ∧
  is_open (handle_accept (other_error 24) (mkAcceptor true false [])) = false.
Proof.
  apply (acceptor_stops_on_error (mkAcceptor true false []) _ ([] ++ [Accept_finished (other_error 24)])).
  - eapply accepts_step; [apply accepts_start|]. by apply (step_accept (mkAcceptor true true [])).
  - reflexivity.
Defined.
