(* ===== verification/SessionLifetime.v ===== *)
(** Who keeps a session alive: the [shared_ptr]s of [httpd/http_session.cpp] and
    [httpd/http_acceptor.cpp].

    A session is an object with a reference count.  [accept] makes it and gives its
    pointer up when the completion handler returns; each operation of the session
    captures [self = shared_from_this()] in the handler that asio keeps.  The handlers
    are those of [Session]; here are the objects around them. *)

From stdpp Require Import gmultiset.
From S2P Require Import Prelude Boost Beast Handler Router Session.

Section Session_Lifetime.
Context {BE : Beast} {D : Dispatcher}.

Abbreviation loc := nat.

(** A session and the number of pointers that own it. *)
Record object := mkObject { session_ : HTTP_Session; refs_ : nat }.

(** The sessions that exist, the [self] of each handler that asio keeps, the sessions
    that were destroyed, in order. *)
Record Sessions := mkSessions {
  objects_ : gmap loc object;
  handlers_ : gmultiset loc;
  destroyed_ : list loc;
  next_ : loc
}.

Definition set_objects (os : gmap loc object) (H : Sessions) : Sessions :=
  mkSessions os (handlers_ H) (destroyed_ H) (next_ H).

(** ** Pointers *)

Definition copy_pointer (l : loc) (H : Sessions) : outcome Sessions :=
  let! o := deref (objects_ H !! l) in
  Ret (set_objects (<[l := mkObject (session_ o) (S (refs_ o))]> (objects_ H)) H).

(** The last owner destroys the session. *)
Definition drop_pointer (l : loc) (H : Sessions) : outcome Sessions :=
  let! o := deref (objects_ H !! l) in
  if (refs_ o <=? 1)%nat then Ret (mkSessions (delete l (objects_ H)) (handlers_ H) (destroyed_ H ++ [l]) (next_ H))
  else Ret (set_objects (<[l := mkObject (session_ o) (refs_ o - 1)]> (objects_ H)) H).

(** [shared_from_this()]: there is an owner. *)
Definition shared_from_this (l : loc) (H : Sessions) : outcome Sessions := copy_pointer l H.

(** What a member function left of the session: an operation it started holds [self]. *)
Definition store_session (l : loc) (s : HTTP_Session) (H : Sessions) : outcome Sessions :=
  let! o := deref (objects_ H !! l) in
  let H := set_objects (<[l := mkObject s (refs_ o)]> (objects_ H)) H in
  match op_ s with
  | None => Ret H
  | Some _ =>
      let! H := shared_from_this l H in
      Ret (mkSessions (objects_ H) ({[+ l +]} ⊎ handlers_ H) (destroyed_ H) (next_ H))
  end.

(** ** The code *)

(** [auto s = make_shared<HTTP_Session>(...); s->run();], to the end of [s]'s scope. *)
Definition accept_session (H : Sessions) : outcome Sessions :=
  let l := next_ H in
  let H := mkSessions (<[l := mkObject new_session 1]> (objects_ H)) (handlers_ H) (destroyed_ H) (S l) in
  let! s := run new_session in
  let! H := store_session l s H in
  drop_pointer l H.

(** The completion handler that holds [l], with what its member function did: asio gives
    the handler up, runs it and destroys it, and its pointer with it. *)
Definition complete (l : loc) (o : outcome HTTP_Session) (H : Sessions) : outcome Sessions :=
  let H := mkSessions (objects_ H) (handlers_ H ∖ {[+ l +]}) (destroyed_ H) (next_ H) in
  let! s := o in
  let! H := store_session l s H in
  drop_pointer l H.

(** A connection is accepted, or an operation of a session completes. *)
Inductive event := Accepted | Completed (l : loc) (c : completion).

(** The session that a handler refers to; using one that does not exist is undefined. *)
Inductive happens (H : Sessions) : event → outcome Sessions → Prop :=
| happens_accepted : happens H Accepted (accept_session H)
| happens_completed l ob c o :
    l ∈ handlers_ H → objects_ H !! l = Some ob → Session.step (session_ ob) c o →
    happens H (Completed l c) (complete l o H)
| happens_dangling l c : l ∈ handlers_ H → objects_ H !! l = None → happens H (Completed l c) UB.

Definition no_sessions : Sessions := mkSessions ∅ ∅ [] 0.

Inductive history : list event → outcome Sessions → Prop :=
| history_start : history [] (Ret no_sessions)
| history_step es e H out : history es (Ret H) → happens H e out → history (es ++ [e]) out.

(** ** Lemmas *)

Record sessions_ok (H : Sessions) : Prop := mkSessionsOk {
  so_owned l o : objects_ H !! l = Some o → refs_ o = 1 ∧ op_ (session_ o) ≠ None ∧ session_ok (session_ o);
  so_held l : multiplicity l (handlers_ H) = if decide (is_Some (objects_ H !! l)) then 1 else 0;
  so_fresh l : is_Some (objects_ H !! l) → l < next_ H;
  so_destroyed l : l ∈ destroyed_ H ↔ l < next_ H ∧ objects_ H !! l = None;
  so_once : NoDup (destroyed_ H)
}.

Lemma held_alive H l : sessions_ok H → l ∈ handlers_ H ↔ is_Some (objects_ H !! l).
Proof.
  intros Hok. rewrite elem_of_multiplicity, (so_held H Hok). case_decide; split; try done; lia.
Qed.

(** The same while the session [l] runs: one pointer owns it, no handler holds it. *)
Record running_ok (l : loc) (H : Sessions) : Prop := mkRunningOk {
  ro_owned l' o : l' ≠ l → objects_ H !! l' = Some o → refs_ o = 1 ∧ op_ (session_ o) ≠ None ∧ session_ok (session_ o);
  ro_self : ∃ s, objects_ H !! l = Some (mkObject s 1);
  ro_held l' : multiplicity l' (handlers_ H) = if decide (l' ≠ l ∧ is_Some (objects_ H !! l')) then 1 else 0;
  ro_fresh l' : is_Some (objects_ H !! l') → l' < next_ H;
  ro_destroyed l' : l' ∈ destroyed_ H ↔ l' < next_ H ∧ objects_ H !! l' = None;
  ro_once : NoDup (destroyed_ H)
}.

(** The end of an accept or of a handler. *)
Lemma settle l s H : running_ok l H → session_ok s →
  ∃ H', (let! H := store_session l s H in drop_pointer l H) = Ret H' ∧ sessions_ok H' ∧ next_ H' = next_ H ∧
    match op_ s with
    | None => objects_ H' = delete l (objects_ H) ∧ destroyed_ H' = destroyed_ H ++ [l]
    | Some _ => objects_ H' = <[l := mkObject s 1]> (objects_ H) ∧ destroyed_ H' = destroyed_ H
    end.
Proof.
  intros [Hown [s0 Hl] Hheld Hfresh Hdest Honce] Hs. unfold store_session, shared_from_this, copy_pointer, drop_pointer.
  rewrite Hl. cbn [deref obind refs_]. destruct (op_ s) as [op|] eqn:Hop.
  - repeat (progress simpl || rewrite lookup_insert_eq). rewrite !insert_insert_eq.
    eexists. split; [done|]. split_and!; [|done..]. split; simpl.
    + intros l' o [[<- <-]|[Hne Hl']]%lookup_insert_Some; [simpl; by rewrite Hop|by eapply Hown].
    + intros l'. rewrite multiplicity_disj_union, Hheld. destruct (decide (l' = l)) as [->|Hne].
      * rewrite multiplicity_singleton, lookup_insert_eq. destruct (decide (l ≠ l ∧ _)) as [[? _]|_]; [done|]. by rewrite decide_True.
      * rewrite multiplicity_singleton_ne, lookup_insert_ne by done. apply decide_ext. tauto.
    + intros l'. destruct (decide (l' = l)) as [->|Hne]; [intros _; apply Hfresh; by rewrite Hl|].
      rewrite lookup_insert_ne by done. apply Hfresh.
    + intros l'. rewrite Hdest. destruct (decide (l' = l)) as [->|Hne]; [rewrite lookup_insert_eq, Hl; naive_solver|].
      by rewrite lookup_insert_ne.
    + done.
  - simpl. rewrite lookup_insert_eq. simpl. rewrite delete_insert_eq. eexists. split; [done|]. split_and!; [|done..]. split; simpl.
    + intros l' o [Hne Hl']%lookup_delete_Some. by eapply Hown.
    + intros l'. rewrite Hheld. destruct (decide (l' = l)) as [->|Hne]; [rewrite lookup_delete_eq|rewrite lookup_delete_ne by done];
        apply decide_ext; pose proof (is_Some_None (A := object)); tauto.
    + intros l' [o [Hne Hl']%lookup_delete_Some]. by apply Hfresh.
    + intros l'. rewrite elem_of_app, list_elem_of_singleton, Hdest. destruct (decide (l' = l)) as [->|Hne].
      * rewrite lookup_delete_eq. split; [|auto]. intros _. split; [|done]. apply Hfresh. by rewrite Hl.
      * rewrite lookup_delete_ne by done. naive_solver.
    + apply NoDup_app. split_and!; [done| |apply NoDup_singleton]. intros l' Hin ->%list_elem_of_singleton.
      apply Hdest in Hin as [_ Hin]. congruence.
Qed.

Lemma accept_session_ok H : sessions_ok H →
  ∃ H', accept_session H = Ret H' ∧ sessions_ok H' ∧ next_ H' = S (next_ H) ∧ destroyed_ H' = destroyed_ H ∧
    is_Some (objects_ H' !! next_ H).
Proof.
  intros [Hown Hheld Hfresh Hdest Honce]. unfold accept_session. rewrite session_start. cbn [obind].
  assert (objects_ H !! next_ H = None) as Hnone.
  { destruct (objects_ H !! next_ H) eqn:E; [|done]. assert (next_ H < next_ H); [apply Hfresh; by rewrite E|lia]. }
  edestruct (settle (next_ H) (mkSession true None Fresh (Some Reading) [])) as (H' & -> & Hok & Hn & Ho & Hd); [|by constructor|].
  - split; simpl.
    + intros l' o Hne. rewrite lookup_insert_ne by done. apply Hown.
    + eexists. apply lookup_insert_eq.
    + intros l'. rewrite Hheld. destruct (decide (l' = next_ H)) as [->|Hne]; [rewrite Hnone|rewrite lookup_insert_ne by done];
        apply decide_ext; pose proof (is_Some_None (A := object)); tauto.
    + intros l'. destruct (decide (l' = next_ H)) as [->|Hne]; [lia|]. rewrite lookup_insert_ne by done.
      intros Hl%Hfresh. lia.
    + intros l'. rewrite Hdest. destruct (decide (l' = next_ H)) as [->|Hne]; [rewrite lookup_insert_eq; naive_solver lia|].
      rewrite lookup_insert_ne by done. split; intros [? ?]; (split; [lia|done]).
    + done.
  - exists H'. split_and!; [done..|]. simpl in *. rewrite Ho, lookup_insert_eq. done.
Qed.

Lemma complete_ok H l ob c o : sessions_ok H → l ∈ handlers_ H → objects_ H !! l = Some ob → Session.step (session_ ob) c o →
  match o with
  | Ret s => ∃ H', complete l o H = Ret H' ∧ sessions_ok H' ∧ next_ H' = next_ H ∧
      (op_ s = None → destroyed_ H' = destroyed_ H ++ [l]) ∧ (op_ s ≠ None → destroyed_ H' = destroyed_ H)
  | Throw w => complete l o H = Throw w
  | UB => False
  end.
Proof.
  intros [Hown Hheld Hfresh Hdest Honce] Hin Hl Hstep. destruct (Hown l ob Hl) as (Hr & Hop & Hs).
  destruct (session_step_ok _ _ _ Hs Hstep) as [(s' & -> & Hs' & _)|[_ ->]]; [|done]. unfold complete. cbn [obind].
  edestruct (settle l s') as (H' & -> & Hok & Hn & Ho); [|done|].
  - split; simpl.
    + intros l' o' _. apply Hown.
    + exists (session_ ob). rewrite Hl. destruct ob as [s n]. simpl in *. by subst.
    + intros l'. rewrite multiplicity_difference, Hheld. destruct (decide (l' = l)) as [->|Hne].
      * rewrite multiplicity_singleton. destruct (decide (l ≠ l ∧ _)) as [[? _]|_]; [done|]. repeat case_decide; done.
      * rewrite multiplicity_singleton_ne, Nat.sub_0_r by done. apply decide_ext. tauto.
    + done.
    + done.
    + done.
  - exists H'. split_and!; [done..| |]; simpl in *; destruct (op_ s'); naive_solver.
Qed.

Definition connections (es : list event) : nat :=
  sum_list_with (λ e, match e with Accepted => 1 | Completed _ _ => 0 end) es.

Lemma history_ok es out : history es out →
  out ≠ UB ∧ ∀ H, out = Ret H → sessions_ok H ∧ next_ H = connections es.
Proof.
  induction 1 as [|es e H out Hh [_ IH] He].
  { split; [done|]. intros H [= <-]. split; [|done]. split; simpl.
    - by intros l o.
    - done.
    - intros l []%is_Some_None.
    - intros l. rewrite elem_of_nil. lia.
    - constructor. }
  destruct (IH H eq_refl) as [Hok Hn]. unfold connections. setoid_rewrite sum_list_with_app.
  destruct He as [|l ob c o Hin Hl Hstep|l c Hin Hl]; simpl.
  - destruct (accept_session_ok H Hok) as (H' & -> & Hok' & Hn' & _). split; [done|]. intros ? [= <-].
    split; [done|]. rewrite Hn', Hn. unfold connections. lia.
  - pose proof (complete_ok H l ob c o Hok Hin Hl Hstep) as Hc. destruct o as [s|w|]; [|by rewrite Hc|done].
    destruct Hc as (H' & -> & Hok' & Hn' & _). split; [done|]. intros ? [= <-].
    split; [done|]. rewrite Hn', Hn. unfold connections. lia.
  - apply (held_alive H l Hok) in Hin as [o Ho]. congruence.
Qed.

(** ** Property *)

(** C13: a session lives exactly as long as it waits for something.  Whatever connections
    are accepted and whatever operations complete, in any order, no completion handler
    finds its session destroyed and no pointer is used after that; as long as no handler
    threw, each handler that asio keeps owns one session that exists, and each session
    that exists is open, waits for one operation and is owned by that handler alone; of
    the sessions accepted each one either exists or was destroyed, once. *)
Theorem sessions_live_while_waiting (es : list event) (out : outcome Sessions) (Hrun : history es out) :
  out ≠ UB ∧
  ∀ H, out = Ret H →
    (∀ l, multiplicity l (handlers_ H) = if decide (is_Some (objects_ H !! l)) then 1 else 0) ∧
    (∀ l o, objects_ H !! l = Some o → refs_ o = 1 ∧ open_ (session_ o) = true ∧ op_ (session_ o) ≠ None) ∧
    NoDup (destroyed_ H) ∧
    ∀ l, (l < connections es ↔ is_Some (objects_ H !! l) ∨ l ∈ destroyed_ H) ∧
         (l ∈ destroyed_ H → objects_ H !! l = None).
Proof.
  destruct (history_ok es out Hrun) as [Hub Hok]. split; [done|]. intros H ->.
  destruct (Hok H eq_refl) as [[Hown Hheld Hfresh Hdest Honce] <-]. split_and!; [done| |done|].
  - intros l o Hl. destruct (Hown l o Hl) as (Hr & Hop & Hs). split_and!; [done| |done]. by destruct Hs.
  - intros l. split; [|by intros [_ ?]%Hdest]. split.
    + intros Hlt. destruct (objects_ H !! l) eqn:E; [by left|right]. by apply Hdest.
    + intros [Hl|Hl]; [by apply Hfresh|by apply Hdest in Hl as [? _]].
Qed.
End Session_Lifetime.

(** ** Two connections, one of them served and closed *)

#[local] Existing Instance record_beast.
#[local] Existing Instance test_dispatcher.

Definition returned_or (H : Sessions) (o : outcome Sessions) : Sessions := match o with Ret H => H | _ => H end.

Definition one_read : HTTP_Session := mkSession true None Fresh (Some Reading) [].
Definition answer : Response := dispatch_request (get_request "/echo" false).
Definition one_write : HTTP_Session := mkSession true None Released (Some (Writing false)) [answer].

Definition two_accepted : Sessions := mkSessions {[0 := mkObject one_read 1; 1 := mkObject one_read 1]} {[+ 0; 1 +]} [] 2.
Definition one_answered : Sessions := mkSessions {[0 := mkObject one_write 1; 1 := mkObject one_read 1]} {[+ 0; 1 +]} [] 2.
Definition one_closed : Sessions := mkSessions {[1 := mkObject one_read 1]} {[+ 1 +]} [0] 2.

Definition two_connections : list event :=
  [Accepted; Accepted; Completed 0 (Read_done (get_request "/echo" false) true); Completed 0 (Write_finished success true)].

Lemma two_connections_run : history two_connections (Ret one_closed).
Proof.
  apply (history_step [Accepted; Accepted; Completed 0 (Read_done (get_request "/echo" false) true)] _ one_answered).
  - apply (history_step [Accepted; Accepted] _ two_accepted).
    + apply (history_step [Accepted] _ (returned_or no_sessions (accept_session no_sessions))).
      * apply (history_step [] _ no_sessions); [constructor|].
        pose proof (happens_accepted no_sessions) as Hh. exact Hh.
      * pose proof (happens_accepted (returned_or no_sessions (accept_session no_sessions))) as Hh.
        replace (Ret two_accepted) with (accept_session (returned_or no_sessions (accept_session no_sessions))); [exact Hh|vm_compute; reflexivity].
    + pose proof (happens_completed two_accepted 0 (mkObject one_read 1) _ _ ltac:(vm_compute; by repeat constructor) eq_refl
        (step_read_done one_read (get_request "/echo" false) true eq_refl)) as Hh.
      replace (Ret one_answered) with (complete 0 (handle_request_received success true (finish_op (Parsed (get_request "/echo" false)) one_read)) two_accepted);
        [exact Hh|vm_compute; reflexivity].
  - pose proof (happens_completed one_answered 0 (mkObject one_write 1) _ _ ltac:(vm_compute; by repeat constructor) eq_refl
      (step_write_finished one_write success true false eq_refl)) as Hh.
    replace (Ret one_closed) with (complete 0 (handle_writing_finished success true false (finish_op Released one_write)) one_answered);
      [exact Hh|vm_compute; reflexivity].
Qed.

Lemma sessions_live_while_waiting_witness :
  multiplicity 0 (handlers_ one_closed) = 0 ∧ multiplicity 1 (handlers_ one_closed) = 1 ∧ NoDup (destroyed_ one_closed).
Proof.
  destruct (sessions_live_while_waiting two_connections (Ret one_closed) two_connections_run) as [_ H].
  destruct (H one_closed eq_refl) as (Hm & _ & Hd & _). exact (conj (Hm 0) (conj (Hm 1) Hd)).
Defined.
