(* ===== verification/Initializer.v ===== *)
(** Start-up: [server/initializer.cpp] and [server/settings.h].

    [nlohmann::json] is the class [Json]; its laws are the ones used.  The file
    system and spdlog's file sink are the class [Files], on a world [W]. *)

From S2P Require Import Prelude Paths Boost Beast Handler Router.

#[local] Open Scope Z_scope.

(** What the program uses of [nlohmann::json]. *)
Class Json := {
  json : Type;
  json_null : json;
  json_clear : json → json;
  json_empty : json → bool;
  is_object : json → bool;
  is_array : json → bool;
  is_string : json → bool;
  is_number_unsigned : json → bool;
  is_number_integer : json → bool;
  json_contains : str → json → bool;
  json_at : str → json → json;
  get_string : json → str;
  (** the number, before its conversion to the type asked for *)
  get_number : json → Z;
  (** the elements a range [for] visits *)
  elements : json → list json
}.

(** [clear] keeps the type of a value: it leaves an object and an array without
    members, but a string, a number or a boolean as a value that is not [empty]
    and that a range [for] visits once. *)
Class JsonLaws `{Json} : Prop := {
  null_empty : json_empty json_null = true;
  null_not_array : is_array json_null = false;
  clear_is_object j : is_object (json_clear j) = is_object j;
  clear_is_array j : is_array (json_clear j) = is_array j;
  clear_object j : is_object j = true → json_empty (json_clear j) = true;
  clear_array j : is_array j = true → elements (json_clear j) = []
}.

(** What reading a file gives.  A parse error leaves what was built before it; a
    number that no [double] holds is another exception of the library,
    [out_of_range]. *)
Inductive config_file {JS : Json} :=
| Not_open
| Parse_error (partial : json)
| Unrepresentable (what : str)
| Parsed (j : json).

(** What start-up uses of the file system and of spdlog.  [exists_] is false on an
    error; opening the log file may throw. *)
Class Files {JS : Json} (W : Type) := {
  exists_ : str → W → bool;
  create_directory : str → W → bool * W;
  rotating_file_sink : str → Z → Z → W → outcome W;
  read_json : str → W → config_file
}.

(** ** [server/settings.h] *)

Record Settings := mkSettings { host : str; port : Z; threads : Z }.

Definition default_settings : Settings := mkSettings (lit "127.0.0.1") 8080 (-1).

(** ** The default logger of spdlog, once it was set *)

Inductive log_level := trace | debug | info | warn | err | critical | off.

Record Logger := mkLogger {
  log_file : str;
  max_size : Z;
  max_files : Z;
  flush_level : log_level;
  level_ : log_level;
  pattern_ : str
}.

Section Initializer.
Context {JS : Json} {BE : Beast} {CF : Config} {BO : BoostStrings} {W : Type} {FS : Files W}.

(** The names of [config.h], which the build makes of the product's name. *)
Definition CONF_PREFIX : str := lit "/etc/" ++ PROJECT_NAME ++ lit "/conf".
Definition LOG_PREFIX : str := lit "/var/log/" ++ PROJECT_NAME.
Definition GLOBAL_CONFIG_FILE : str := PROJECT_NAME ++ lit ".conf".
Definition HANDLER_CONFIG_FILE : str := lit "handler.conf".

(** ** The code *)

Definition parse_from_file (path : str) (w : W) : outcome json :=
  match read_json path w with
  | Not_open => Ret json_null
  | Parse_error partial => Ret (json_clear partial)
  | Unrepresentable what => Throw what
  | Parsed j => Ret j
  end.

Definition init_spdlog (w : W) (l : option Logger) : outcome (bool * option Logger * W) :=
  let dir := LOG_PREFIX in
  let '(ok, w) := if exists_ dir w then (true, w) else create_directory dir w in
  if negb ok then Ret (false, l, w)
  else
    let dest := path_append dir PROJECT_NAME in
    let dest := replace_extension (lit ".log") dest in
    let! w := rotating_file_sink dest (64 * 1024 * 1024) 10 w in
    Ret (true, Some (mkLogger dest (64 * 1024 * 1024) 10 debug debug (lit "[%Y-%m-%d %H:%M:%S.%e] [%l] %v")), w).

Definition read_host (obj : json) (s : Settings) : Settings :=
  if json_contains (lit "host") obj then
    if is_string (json_at (lit "host") obj)
    then mkSettings (get_string (json_at (lit "host") obj)) (port s) (threads s) else s
  else s.

Definition read_port (obj : json) (s : Settings) : Settings :=
  if json_contains (lit "port") obj then
    if is_number_unsigned (json_at (lit "port") obj)
    then mkSettings (host s) (u16 (get_number (json_at (lit "port") obj))) (threads s) else s
  else s.

Definition read_threads (obj : json) (s : Settings) : Settings :=
  if json_contains (lit "threads") obj then
    if is_number_integer (json_at (lit "threads") obj)
    then mkSettings (host s) (port s) (int32 (get_number (json_at (lit "threads") obj))) else s
  else s.

Definition parse_settings (w : W) (s : Settings) : outcome (bool * Settings) :=
  let cfg := path_append CONF_PREFIX GLOBAL_CONFIG_FILE in
  let! obj := parse_from_file cfg w in
  if json_empty obj then Ret (false, s)
  else if negb (is_object obj) then Ret (false, s)
  else Ret (true, read_threads obj (read_port obj (read_host obj s))).

(** One turn of the loop over the handlers' array. *)
Definition handler_entry (fac : HTTP_Handler_Factory) (r : HTTP_Router) (i : json) : HTTP_Router :=
  if negb (is_object i) then r
  else if negb (json_contains (lit "path") i) || negb (is_string (json_at (lit "path") i)) ||
          negb (json_contains (lit "handler") i) || negb (is_string (json_at (lit "handler") i)) then r
  else
    let path := get_string (json_at (lit "path") i) in
    let handler := get_string (json_at (lit "handler") i) in
    if negb (contains handler fac) then r else add path handler r.

Definition parse_http_handler_config (w : W) (fac : HTTP_Handler_Factory) (r : HTTP_Router) :
    outcome (bool * HTTP_Router) :=
  let cfg := path_append CONF_PREFIX HANDLER_CONFIG_FILE in
  let! arr := parse_from_file cfg w in
  if negb (is_array arr) then Ret (false, r)
  else Ret (true, foldl (handler_entry fac) r (elements arr)).

(** What start-up changes: the default logger, the singletons [Settings] and
    [HTTP_Router], the world. *)
Record Startup := mkStartup {
  logger_ : option Logger;
  settings_ : Settings;
  router_ : HTTP_Router;
  world_ : W
}.

(** [init_spdlog() && parse_settings() && parse_http_handler_config()]. *)
Definition init (fac : HTTP_Handler_Factory) (st : Startup) : outcome (bool * Startup) :=
  let! '(ok, l, w) := init_spdlog (world_ st) (logger_ st) in
  let st := mkStartup l (settings_ st) (router_ st) w in
  if negb ok then Ret (false, st)
  else
    let! '(ok, s) := parse_settings w (settings_ st) in
    let st := mkStartup l s (router_ st) w in
    if negb ok then Ret (false, st)
    else
      let! '(ok, r) := parse_http_handler_config w fac (router_ st) in
      Ret (ok, mkStartup l s r w).

(** ** Reference definitions *)

(** The route of a well-formed entry. *)
Definition route_of (i : json) : option (str * str) :=
  if is_object i && json_contains (lit "path") i && is_string (json_at (lit "path") i) &&
     json_contains (lit "handler") i && is_string (json_at (lit "handler") i)
  then Some (get_string (json_at (lit "path") i), get_string (json_at (lit "handler") i)) else None.

(** The routes of a configuration whose handlers the factory knows. *)
Definition routes_of (fac : HTTP_Handler_Factory) (l : list json) : list (str * str) :=
  filter (λ ph, contains ph.2 fac = true) (omap route_of l).

(** The last value for a key. *)
Definition last_for (path : str) (l : list (str * str)) : option str :=
  snd <$> last (filter (λ ph, ph.1 = path) l).

(** A member of an object, when it is there and has the type wanted. *)
Definition member (name : str) (typed : json → bool) (obj : json) : option json :=
  if json_contains name obj && typed (json_at name obj) then Some (json_at name obj) else None.

Definition settings_of (obj : json) (s : Settings) : Settings :=
  mkSettings
    (default (host s) (get_string <$> member (lit "host") is_string obj))
    (default (port s) (u16 ∘ get_number <$> member (lit "port") is_number_unsigned obj))
    (default (threads s) (int32 ∘ get_number <$> member (lit "threads") is_number_integer obj)).

(** The files that start-up reads, and the one it writes. *)
Definition global_config : str := path_append CONF_PREFIX GLOBAL_CONFIG_FILE.
Definition handler_config : str := path_append CONF_PREFIX HANDLER_CONFIG_FILE.
Definition log_path : str := replace_extension (lit ".log") (path_append LOG_PREFIX PROJECT_NAME).

Definition rotating_logger : Logger :=
  mkLogger log_path 67108864 10 debug debug (lit "[%Y-%m-%d %H:%M:%S.%e] [%l] %v").

(** The log directory is there, or it is made. *)
Definition log_directory (w : W) : bool * W :=
  if exists_ LOG_PREFIX w then (true, w) else create_directory LOG_PREFIX w.

(** The log file is open, in a world [w'], from the world [w]. *)
Definition logs_to (w w' : W) : Prop :=
  ∃ w1, log_directory w = (true, w1) ∧ rotating_file_sink log_path 67108864 10 w1 = Ret w'.

(** The object a configuration holds, if it holds one. *)
Definition config_object (f : config_file) : option json :=
  match f with
  | Parsed obj => if is_object obj && negb (json_empty obj) then Some obj else None
  | _ => None
  end.

(** The entries of a handlers' file, if it is taken for an array. *)
Definition config_entries (f : config_file) : option (list json) :=
  match f with
  | Parsed arr => if is_array arr then Some (elements arr) else None
  | Parse_error partial => if is_array partial then Some [] else None
  | _ => None
  end.

(** The exception that reading a configuration ends in. *)
Definition config_throws (f : config_file) : option str :=
  match f with Unrepresentable what => Some what | _ => None end.

(** ** Lemmas *)

Lemma handler_entry_eq fac r i :
  routes_ (handler_entry fac r i) =
  match filter (λ ph, contains ph.2 fac = true) (omap route_of [i]) with
  | [] => routes_ r
  | ph :: _ => <[ph.1 := ph.2]> (routes_ r)
  end.
Proof.
  unfold handler_entry, route_of. generalize (lit "path"), (lit "handler"). intros kp kh. simpl.
  destruct (is_object i); simpl; [|done]. destruct (json_contains kp i); simpl; [|done].
  destruct (is_string (json_at kp i)); simpl; [|done]. destruct (json_contains kh i); simpl; [|done].
  destruct (is_string (json_at kh i)); simpl; [|done].
  destruct (contains _ fac) eqn:E; simpl.
  - by rewrite filter_cons_True.
  - by rewrite filter_cons_False by (simpl; congruence).
Qed.

Lemma routes_of_cons fac i l :
  routes_of fac (i :: l) = filter (λ ph, contains ph.2 fac = true) (omap route_of [i]) ++ routes_of fac l.
Proof. unfold routes_of. by rewrite <-filter_app, <-omap_app. Qed.

Lemma last_for_cons path ph l :
  last_for path (ph :: l) =
  match last_for path l with Some n => Some n | None => if decide (ph.1 = path) then Some ph.2 else None end.
Proof.
  unfold last_for. case_decide as H.
  - rewrite filter_cons_True by done. rewrite last_cons. by destruct (last _).
  - rewrite filter_cons_False by done. by destruct (last _).
Qed.

Lemma handlers_routes fac l r path :
  routes_ (foldl (handler_entry fac) r l) !! path =
  match last_for path (routes_of fac l) with Some n => Some n | None => routes_ r !! path end.
Proof.
  revert r. induction l as [|i l IH]; intros r; [done|]. simpl. rewrite IH, handler_entry_eq, routes_of_cons.
  simpl. destruct (route_of i) as [ph|]; [|done]. destruct (decide (contains ph.2 fac = true)) as [Hc|Hc].
  - rewrite filter_cons_True by done. simpl. rewrite last_for_cons. destruct (last_for path (routes_of fac l)); [done|].
    case_decide as E; [by rewrite E, lookup_insert_eq|by rewrite lookup_insert_ne].
  - by rewrite filter_cons_False by done.
Qed.

Lemma last_for_elem path n l : last_for path l = Some n → (path, n) ∈ l.
Proof.
  unfold last_for. intros H. apply fmap_Some in H as ([p n'] & Hl & ->). apply last_Some_elem_of in Hl.
  apply list_elem_of_filter in Hl as [<- Hin]. done.
Qed.

Lemma read_all_settings obj s : read_threads obj (read_port obj (read_host obj s)) = settings_of obj s.
Proof.
  unfold settings_of, read_threads, read_port, read_host, member.
  generalize (lit "host"), (lit "port"), (lit "threads"). intros kh kp kt. destruct s as [h p t].
  destruct (json_contains kh obj), (json_contains kp obj), (json_contains kt obj); simpl;
    by repeat case_match.
Qed.

Context {JL : JsonLaws}.

Lemma parse_settings_eq w s :
  let f := read_json global_config w in
  parse_settings w s =
  match config_throws f with
  | Some what => Throw what
  | None => Ret match config_object f with Some obj => (true, settings_of obj s) | None => (false, s) end
  end.
Proof.
  unfold parse_settings, parse_from_file, global_config. cbv zeta.
  destruct (read_json _ w) as [|partial|what|obj]; cbn [obind config_throws config_object]; [by rewrite null_empty| |done|].
  { rewrite clear_is_object. destruct (is_object partial) eqn:Ho; [by rewrite clear_object|]. by destruct (json_empty _). }
  destruct (json_empty obj); [by rewrite andb_false_r|]. rewrite read_all_settings.
  by destruct (is_object obj).
Qed.

Lemma parse_http_handler_config_eq w fac r :
  let f := read_json handler_config w in
  parse_http_handler_config w fac r =
  match config_throws f with
  | Some what => Throw what
  | None => Ret match config_entries f with
                | Some l => (true, foldl (handler_entry fac) r l)
                | None => (false, r)
                end
  end.
Proof.
  unfold parse_http_handler_config, parse_from_file, handler_config. cbv zeta.
  destruct (read_json _ w) as [|partial|what|arr]; cbn [obind config_throws config_entries]; try done.
  - by rewrite null_not_array.
  - rewrite clear_is_array. destruct (is_array partial) eqn:Ha; [|done]. simpl. by rewrite clear_array.
  - by destruct (is_array arr).
Qed.

Lemma init_spdlog_eq w l :
  init_spdlog w l =
  let '(ok, w1) := log_directory w in
  if ok : bool then
    let! w' := rotating_file_sink log_path 67108864 10 w1 in Ret (true, Some rotating_logger, w')
  else Ret (false, l, w1).
Proof.
  unfold init_spdlog, log_directory. by destruct (exists_ _ w); [|destruct (create_directory _ w) as [[] ?]].
Qed.

Lemma logs_to_det w w1 w2 : logs_to w w1 → logs_to w w2 → w2 = w1.
Proof. intros (? & H1 & H2) (? & H3 & H4). congruence. Qed.

(** The port is a [uint16_t] whatever the file says. *)
Lemma settings_of_port obj s : 0 <= port s < 2 ^ 16 → 0 <= port (settings_of obj s) < 2 ^ 16.
Proof. intros. simpl. destruct (member _ _ _); simpl; [apply wrap_bound; lia|done]. Qed.

Lemma init_router fac st st' : init fac st = Ret (true, st') →
  ∃ l, config_entries (read_json handler_config (world_ st')) = Some l ∧
       router_ st' = foldl (handler_entry fac) (router_ st) l.
Proof.
  unfold init. intros H. apply obind_Ret_inv in H as ([[[] l] w] & _ & H); simpl in H; [|done].
  apply obind_Ret_inv in H as ([[] s] & _ & H); simpl in H; [|done].
  apply obind_Ret_inv in H as ([ok r] & Hr & [= -> <-]). rewrite parse_http_handler_config_eq in Hr.
  destruct (config_throws _); [done|]. simpl. destruct (config_entries _) as [l'|]; naive_solver.
Qed.

(** ** Properties *)

(** The settings after start-up: reading fails, and changes nothing, when the
    file cannot be opened or parsed or is not a non-empty object; otherwise each
    setting is its member of the object when there is one of the right type, the
    port modulo 2^16 and the number of threads as a 32-bit [int], and keeps its
    default when there is not.  A number no [double] holds is an exception. *)
Theorem settings_read (w : W) :
  match read_json global_config w with
  | Parsed obj =>
      if is_object obj && negb (json_empty obj) then
        ∃ s, parse_settings w default_settings = Ret (true, s) ∧
        host s = match member (lit "host") is_string obj with Some j => get_string j | None => lit "127.0.0.1" end ∧
        port s = match member (lit "port") is_number_unsigned obj with Some j => u16 (get_number j) | None => 8080 end ∧
        threads s = match member (lit "threads") is_number_integer obj with Some j => int32 (get_number j) | None => -1 end ∧
        0 <= port s < 2 ^ 16
      else parse_settings w default_settings = Ret (false, default_settings)
  | Not_open | Parse_error _ => parse_settings w default_settings = Ret (false, default_settings)
  | Unrepresentable what => parse_settings w default_settings = Throw what
  end.
Proof.
  rewrite parse_settings_eq. destruct (read_json global_config w) as [| | |obj]; try done. cbn [config_throws config_object].
  destruct (is_object obj && negb (json_empty obj)); [|done]. eexists. split; [done|].
  assert (0 <= port (settings_of obj default_settings) < 2 ^ 16) as Hb by (apply settings_of_port; simpl; lia).
  refine (conj _ (conj _ (conj _ Hb))); clear Hb; unfold settings_of;
    generalize (lit "host"), (lit "port"), (lit "threads"); intros kh kp kt; simpl;
    [by destruct (member kh _ _)|by destruct (member kp _ _)|by destruct (member kt _ _)].
Qed.

(** The routes after start-up: from an array, a path is routed to the handler
    of its last entry that is well formed and names a registered handler, and to
    none without such an entry; so every route's handler can be found by name.  A
    file that is not an array is refused.  A file that breaks off inside an array
    is not: what was read is dropped and the server starts without a route. *)
Theorem routes_read (w : W) (fac : HTTP_Handler_Factory) :
  match read_json handler_config w with
  | Not_open => parse_http_handler_config w fac empty_router = Ret (false, empty_router)
  | Parse_error partial => parse_http_handler_config w fac empty_router = Ret (is_array partial, empty_router)
  | Unrepresentable what => parse_http_handler_config w fac empty_router = Throw what
  | Parsed arr =>
      ∃ r, parse_http_handler_config w fac empty_router = Ret (is_array arr, r) ∧
      (∀ path, routes_ r !! path = if is_array arr then last_for path (routes_of fac (elements arr)) else None) ∧
      (∀ path name, routes_ r !! path = Some name → contains name fac = true)
  end.
Proof.
  rewrite parse_http_handler_config_eq. destruct (read_json handler_config w) as [|partial| |arr]; try done; simpl.
  - by destruct (is_array partial).
  - assert (∀ path, routes_ (foldl (handler_entry fac) empty_router (elements arr)) !! path =
      last_for path (routes_of fac (elements arr))) as Hr.
    { intros path. rewrite handlers_routes. simpl. rewrite lookup_empty. by destruct (last_for _ _). }
    destruct (is_array arr); eexists; (split_and!; [done|..]).
    + done.
    + intros path name Hn. rewrite Hr in Hn. apply last_for_elem in Hn.
      by apply list_elem_of_filter in Hn as [? _].
    + intros path. apply lookup_empty.
    + intros path name Hn. simpl in Hn. by rewrite lookup_empty in Hn.
Qed.

(** C19: start-up as a whole, [init].  It succeeds exactly when the log directory
    is there or can be made (one level), the log file opens, the global
    configuration is a non-empty object and the handlers' file is taken for an
    array; then the log goes to the rotating file, the settings and the routes are
    the files'.  It fails at the first of the steps that does, with what the steps
    before it did and nothing of those after it.  The log file and a number that
    is out of range throw, and nothing catches that. *)
Theorem init_outcomes (fac : HTTP_Handler_Factory) (st : Startup) :
  (∀ st', init fac st = Ret (true, st') ↔
    ∃ obj l, logs_to (world_ st) (world_ st') ∧ logger_ st' = Some rotating_logger ∧
      config_object (read_json global_config (world_ st')) = Some obj ∧ settings_ st' = settings_of obj (settings_ st) ∧
      config_entries (read_json handler_config (world_ st')) = Some l ∧
      router_ st' = foldl (handler_entry fac) (router_ st) l) ∧
  (∀ st', init fac st = Ret (false, st') →
    router_ st' = router_ st ∧
    ((log_directory (world_ st) = (false, world_ st') ∧ logger_ st' = logger_ st ∧ settings_ st' = settings_ st) ∨
     (logs_to (world_ st) (world_ st') ∧ logger_ st' = Some rotating_logger ∧
      match config_object (read_json global_config (world_ st')) with
      | None => settings_ st' = settings_ st
      | Some obj => settings_ st' = settings_of obj (settings_ st) ∧
                    config_entries (read_json handler_config (world_ st')) = None
      end))) ∧
  (∀ what, init fac st = Throw what →
    ∃ w1, log_directory (world_ st) = (true, w1) ∧
      (rotating_file_sink log_path 67108864 10 w1 = Throw what ∨
       ∃ w', rotating_file_sink log_path 67108864 10 w1 = Ret w' ∧
         (config_throws (read_json global_config w') = Some what ∨
          config_throws (read_json handler_config w') = Some what))).
Proof.
  unfold init. rewrite init_spdlog_eq. destruct (log_directory (world_ st)) as [[] w1] eqn:Hdir; simpl.
  2: { split_and!; [|naive_solver..]. intros st'. split; [done|]. intros (? & ? & (? & ? & _) & _). congruence. }
  destruct (rotating_file_sink log_path 67108864 10 w1) as [w'|what|] eqn:Hsink; simpl.
  2, 3: (split_and!; [|naive_solver..]; intros st'; split; [done|]; intros (? & ? & (? & ? & ?) & _); congruence).
  assert (logs_to (world_ st) w') as Hlogs by (by exists w1).
  assert (∀ w, logs_to (world_ st) w → w = w') as Hdet by (intros; by eapply logs_to_det).
  rewrite parse_settings_eq. destruct (config_throws (read_json global_config w')) as [what|] eqn:Ht; simpl.
  { split_and!; [|naive_solver..]. intros st'. split; [done|]. intros (obj & l & ->%Hdet & _ & Ho & _).
    by destruct (read_json global_config w'). }
  destruct (config_object (read_json global_config w')) as [obj|] eqn:Ho; simpl.
  2: { split_and!; [| |done].
       - intros st'. split; [done|]. intros (obj & l & ->%Hdet & _ & ? & _). congruence.
       - intros st' [= <-]. simpl. rewrite Ho. eauto 10. }
  rewrite parse_http_handler_config_eq. destruct (config_throws (read_json handler_config w')) as [what|] eqn:Ht2; simpl.
  { split_and!; [|naive_solver..]. intros st'. split; [done|]. intros (obj' & l & ->%Hdet & _ & _ & _ & He & _).
    by destruct (read_json handler_config w'). }
  destruct (config_entries (read_json handler_config w')) as [l|] eqn:He; simpl; (split_and!; [| |done]).
  - intros st'. split; [intros [= <-]; exists obj, l; simpl; split_and!; eauto|].
    intros (obj' & l' & Hw & Hl & Ho' & Hset & He' & Hr). apply Hdet in Hw as Hw'. rewrite Hw' in Ho', He'.
    destruct st' as [lg s r wd]. simpl in *. congruence.
  - done.
  - intros st'. split; [done|]. intros (obj' & l' & ->%Hdet & _ & _ & _ & ? & _). congruence.
  - intros st' [= <-]. simpl. rewrite Ho. eauto 10.
Qed.

(** The log file is named after the product: [LOG_PREFIX/<name>.log], but
    [replace_extension] takes what follows the last dot of the name for an
    extension, and the build allows dots in names: [inks.test] logs to
    [inks.log]. *)
Theorem log_file_name (base ext : str) :
  PROJECT_NAME ≠ [] → slash ∉ PROJECT_NAME → head PROJECT_NAME ≠ Some dot →
  (dot ∉ PROJECT_NAME → log_path = LOG_PREFIX ++ lit "/" ++ PROJECT_NAME ++ lit ".log") ∧
  (PROJECT_NAME = base ++ dot :: ext → dot ∉ ext → log_path = LOG_PREFIX ++ lit "/" ++ base ++ lit ".log").
Proof.
  intros Hne Hs Hd. unfold log_path.
  assert (filename LOG_PREFIX ≠ []) as Hf.
  { unfold LOG_PREFIX. change (lit "/var/log/") with (lit "/var/log" ++ [slash]). rewrite <-app_assoc. simpl app at 2.
    by rewrite filename_append. }
  rewrite path_append_relative by done. split.
  - intros Hdot. by apply (replace_extension_plain LOG_PREFIX PROJECT_NAME (lit ".log")).
  - intros Hn He. transitivity (replace_extension (lit ".log") (LOG_PREFIX ++ slash :: base ++ dot :: ext)); [by rewrite <-Hn|].
    rewrite Hn in Hs, Hd. rewrite not_elem_of_app, not_elem_of_cons in Hs. destruct Hs as (Hs1 & _ & Hs2).
    apply (replace_extension_dotted LOG_PREFIX base ext (lit ".log")); try done.
    + intros ->. done.
    + by destruct base.
Qed.
End Initializer.


(** ** A concrete JSON, and the files the program is installed with *)

Inductive tree :=
| TNull
| TString (s : str)
| TNumber (z : Z)
| TObject (l : list (str * tree))
| TArray (l : list tree).

Definition field (k : str) (t : tree) : option tree :=
  match t with TObject l => snd <$> (list_find (λ kv, kv.1 = k) l ≫= λ p, Some p.2) | _ => None end.

#[export] Instance tree_json : Json := {
  json := tree;
  json_null := TNull;
  json_clear t := match t with TNull => TNull | TString _ => TString [] | TNumber _ => TNumber 0 | TObject _ => TObject [] | TArray _ => TArray [] end;
  json_empty t := match t with TNull => true | TObject l => bool_decide (length l = 0%nat) | TArray l => bool_decide (length l = 0%nat) | _ => false end;
  is_object t := match t with TObject _ => true | _ => false end;
  is_array t := match t with TArray _ => true | _ => false end;
  is_string t := match t with TString _ => true | _ => false end;
  is_number_unsigned t := match t with TNumber z => 0 <=? z | _ => false end;
  is_number_integer t := match t with TNumber z => true | _ => false end;
  json_contains k t := bool_decide (is_Some (field k t));
  json_at k t := default TNull (field k t);
  get_string t := match t with TString s => s | _ => [] end;
  get_number t := match t with TNumber z => z | _ => 0 end;
  elements t := match t with TNull => [] | TArray l => l | TObject l => l.*2 | _ => [t] end
}.

#[export] Instance tree_json_laws : JsonLaws.
Proof. split; try done; by intros []. Qed.

Definition product_conf : tree :=
  TObject [(lit "host", TString (lit "127.0.0.1")); (lit "port", TNumber 8080); (lit "threads", TNumber 1)].

Definition handler_conf : tree :=
  TArray [TObject [(lit "path", TString (lit "/echo")); (lit "handler", TString (lit "HTTP_Echo_Handler"))]].

(** A disk: the directories, and what reading the files gives. *)
Record disk := mkDisk { dirs : list str; confs : list (str * config_file (JS := tree_json)) }.

Definition parent (p : str) : str := take (default 0%nat (str_rfind slash (length p) p)) p.

#[export] Instance disk_files : Files disk := {
  exists_ p d := bool_decide (p ∈ dirs d);
  create_directory p d :=
    if decide (parent p ∈ dirs d) then (true, mkDisk (p :: dirs d) (confs d)) else (false, d);
  rotating_file_sink f _ _ d := if decide (parent f ∈ dirs d) then Ret d else Throw (lit "Failed opening file");
  read_json p d := default Not_open (snd <$> (list_find (λ kv, kv.1 = p) (confs d) ≫= λ q, Some q.2))
}.

(** The files as they are installed; the log directory is made at the first start. *)
Definition installed (global handlers : config_file) : disk :=
  mkDisk [lit "/var/log"] [(lit "/etc/inks/conf/inks.conf", global); (lit "/etc/inks/conf/handler.conf", handlers)].

Definition installed_disk : disk := installed (Parsed product_conf) (Parsed handler_conf).

Abbreviation parse_settings_t := (parse_settings (JS := tree_json) (W := disk)).
Abbreviation parse_handlers_t := (parse_http_handler_config (JS := tree_json) (BE := record_beast) (W := disk)).
Abbreviation init_t := (init (JS := tree_json) (BE := record_beast) (W := disk)).

Definition at_start (d : disk) : Startup := mkStartup None default_settings empty_router d.

Example installed_settings :
  parse_settings_t installed_disk default_settings = Ret (true, mkSettings (lit "127.0.0.1") 8080 1).
Proof. vm_compute. reflexivity. Qed.

Example port_wraps :
  parse_settings_t (installed (Parsed (TObject [(lit "port", TNumber 65616)])) Not_open) default_settings
    = Ret (true, mkSettings (lit "127.0.0.1") 80 (-1)).
Proof. vm_compute. reflexivity. Qed.

Example installed_routes :
  (let! '(_, r) := parse_handlers_t installed_disk static_factory empty_router in
   Ret (map_to_list (routes_ r))) = Ret [(lit "/echo", lit "HTTP_Echo_Handler")].
Proof. vm_compute. reflexivity. Qed.

(** The first start makes the directory and opens the log. *)
Example first_start :
  (let! '(ok, st) := init_t static_factory (at_start installed_disk) in
   Ret (ok, log_file <$> logger_ st, host (settings_ st), dirs (world_ st))) =
  Ret (true, Some (lit "/var/log/inks/inks.log"), lit "127.0.0.1", [lit "/var/log/inks"; lit "/var/log"]).
Proof. vm_compute. reflexivity. Qed.

(** A number like 1e999 in a configuration file ends the program. *)
Example number_out_of_range_throws :
  init_t static_factory (at_start (installed (Unrepresentable (lit "out_of_range")) (Parsed handler_conf))) =
  Throw (lit "out_of_range").
Proof. vm_compute. reflexivity. Qed.

Lemma settings_read_witness :
  ∃ s, parse_settings_t installed_disk default_settings = Ret (true, s) ∧ port s = 8080.
Proof.
  destruct (settings_read (JS := tree_json) installed_disk) as (s & H1 & _ & H3 & _).
  exists s. exact (conj H1 H3).
Defined.

Lemma routes_read_witness :
  ∃ r, parse_handlers_t installed_disk static_factory empty_router = Ret (true, r) ∧
       routes_ r !! lit "/echo" = Some (lit "HTTP_Echo_Handler").
Proof.
  destruct (routes_read (JS := tree_json) (BE := record_beast) installed_disk static_factory) as (r & H1 & H2 & _).
  exists r. exact (conj H1 (H2 (lit "/echo"))).
Defined.

Lemma init_outcomes_witness :
  ∃ st, init_t static_factory (at_start installed_disk) = Ret (true, st) ∧ host (settings_ st) = lit "127.0.0.1".
Proof.
  destruct (init_outcomes (JS := tree_json) (BE := record_beast) static_factory (at_start installed_disk)) as (H & _ & _).
  assert (∃ st, init_t static_factory (at_start installed_disk) = Ret (true, st)) as [st Hst]
    by (eexists; vm_compute; reflexivity).
  exists st. split; [exact Hst|].
  destruct (proj1 (H st) Hst) as (obj & l & (w1 & [= <-] & [= Hw]) & _ & Ho & Hs & _).
  rewrite Hs. rewrite <-Hw in Ho. injection Ho as <-. reflexivity.
Defined.

#[local] Instance dotted_config : Config := {| PROJECT_NAME := lit "inks.test" |}.

Lemma log_file_name_witness :
  log_path (CF := dotted_config) = lit "/var/log/inks.test/inks.log".
Proof.
  destruct (log_file_name (CF := dotted_config) (lit "inks") (lit "test")) as [_ H];
    [discriminate|by apply (bool_decide_unpack _)|discriminate|].
  apply H; [reflexivity|by apply (bool_decide_unpack _)].
Defined.
