(* ===== verification/Server.v ===== *)
(** The server's entry point: [server/main.cpp].

    [main] composes the start-up ([Initializer]), the acceptor and its sessions
    ([Session]) over the router it configured ([Router]), and the signals.  What
    [io_context::run] then does is a step relation: one step is a signal that
    arrives or a completion handler that asio runs; there is one thread.  Asio and
    the system calls are the class [Asio]. *)

From S2P Require Import Prelude Boost UriParser Beast Handler Router Session Initializer.

(** The signals of Linux, [signal(7)]; [SIGRT n] is [SIGRTMIN + n]. *)
Inductive signal :=
| SIGHUP | SIGINT | SIGQUIT | SIGILL | SIGTRAP | SIGABRT | SIGBUS | SIGFPE | SIGKILL | SIGUSR1 | SIGSEGV
| SIGUSR2 | SIGPIPE | SIGALRM | SIGTERM | SIGSTKFLT | SIGCHLD | SIGCONT | SIGSTOP | SIGTSTP | SIGTTIN
| SIGTTOU | SIGURG | SIGXCPU | SIGXFSZ | SIGVTALRM | SIGPROF | SIGWINCH | SIGIO | SIGPWR | SIGSYS
| SIGRT (n : nat).

#[export] Instance signal_eq_dec : EqDecision signal.
Proof. solve_decision. Defined.

(** What the kernel does with a signal; [To_asio] is the handler that
    [signal_set::add] installs, which notes the signal for the sets. *)
Inductive disposition := SIG_DFL | SIG_IGN | To_asio.

#[export] Instance disposition_eq_dec : EqDecision disposition.
Proof. solve_decision. Defined.

(** The dispositions that were set, the latest first. *)
Abbreviation dispositions := (list (signal * disposition)).

Definition set_disposition (s : signal) (d : disposition) (ds : dispositions) : dispositions := (s, d) :: ds.

Fixpoint disposition_of (s : signal) (ds : dispositions) : disposition :=
  match ds with
  | [] => SIG_DFL
  | (s', d) :: ds => if decide (s = s') then d else disposition_of s ds
  end.

(** The default action of a signal: some are ignored, some stop the process until
    it is continued, which is a delay and changes nothing here; the others end it. *)
Definition default_kills (s : signal) : bool :=
  match s with
  | SIGCHLD | SIGURG | SIGWINCH | SIGCONT => false
  | SIGSTOP | SIGTSTP | SIGTTIN | SIGTTOU => false
  | _ => true
  end.

(** The disposition that counts: [SIGKILL] and [SIGSTOP] have no other than the
    default. *)
Definition effective_disposition (s : signal) (ds : dispositions) : disposition :=
  match s with SIGKILL | SIGSTOP => SIG_DFL | _ => disposition_of s ds end.

(** [asio::signal_set]: its signals, whether an [async_wait] is outstanding, and
    the signals that were not waited for yet. *)
Record signal_set := mkSet { added_ : list signal; waiting_ : bool; queued_ : list signal }.

Definition empty_set : signal_set := mkSet [] false [].

Class Asio := {
  address : Type;
  make_address : str → address * error_code;
  (** [open], [set_option], [bind] and [listen] of an acceptor *)
  tcp_listen : address → Z → outcome unit;
  (** [sigaction], for [signal_set::add] *)
  sigaction : signal → outcome unit
}.

Definition EXIT_SUCCESS : Z := 0.
Definition EXIT_FAILURE : Z := 1.

Section Server.
Context {JS : Json} {BE : Beast} {CF : Config} {BO : BoostStrings} {W : Type} {FS : Files W} {AS : Asio}.

(** ** The code *)

(** [set.add(s)] *)
Definition add (s : signal) (x : signal_set * dispositions) : outcome (signal_set * dispositions) :=
  let '(set, ds) := x in
  let! _ := sigaction s in
  Ret (mkSet (added_ set ++ [s]) (waiting_ set) (queued_ set), set_disposition s To_asio ds).

Fixpoint add_all (l : list signal) (x : signal_set * dispositions) : outcome (signal_set * dispositions) :=
  match l with
  | [] => Ret x
  | s :: l => let! x := add s x in add_all l x
  end.

(** [set.async_wait(...)] *)
Definition async_wait (set : signal_set) : signal_set := mkSet (added_ set) true (queued_ set).

(** The objects of [main], and the singletons. *)
Record Server := mkServer {
  startup_ : Startup (W := W);
  acceptor_ : HTTP_Acceptor;
  term_act_ : signal_set;
  abnormal_term_act_ : signal_set;
  dispositions_ : dispositions;
  stopped_ : bool                 (** [ioc.stopped()] *)
}.

Definition set_acceptor (a : HTTP_Acceptor) (srv : Server) : Server :=
  mkServer (startup_ srv) a (term_act_ srv) (abnormal_term_act_ srv) (dispositions_ srv) (stopped_ srv).

Definition term_signals : list signal := [SIGINT; SIGQUIT; SIGTERM].

Definition abnormal_signals : list signal := [SIGILL; SIGABRT; SIGBUS; SIGFPE; SIGSEGV; SIGALRM; SIGXCPU].

(** [main] down to [ioc.run()]: an exit status, or the server that runs. *)
Definition main (fac : HTTP_Handler_Factory) (st : Startup) (ds : dispositions) : outcome (Z + Server) :=
  let! '(ok, st) := init fac st in
  if negb ok then Ret (inl EXIT_FAILURE)
  else
    let '(addr, ec) := make_address (host (settings_ st)) in
    if failed ec then Ret (inl EXIT_FAILURE)
    else
      let! acceptor := make_acceptor (tcp_listen addr (port (settings_ st))) in
      match acceptor with
      | None => Ret (inl EXIT_FAILURE)
      | Some acceptor =>
          let! '(term_act, ds) := add_all term_signals (empty_set, ds) in
          let term_act := async_wait term_act in
          let! '(abnormal_term_act, ds) := add_all abnormal_signals (empty_set, ds) in
          let ds := set_disposition SIGHUP SIG_IGN ds in
          let ds := set_disposition SIGPIPE SIG_IGN ds in
          let ds := set_disposition SIGURG SIG_IGN ds in
          let ds := set_disposition SIGIO SIG_IGN ds in
          let acceptor := acceptor_run acceptor in
          Ret (inr (mkServer st acceptor term_act abnormal_term_act ds false))
      end.

(** The handler of [term_act.async_wait]; its [ec] is not looked at. *)
Definition handle_term (srv : Server) : Server :=
  let acceptor := acceptor_close (acceptor_ srv) in
  let stopped := if negb (stopped_ srv) then true else stopped_ srv in
  mkServer (startup_ srv) acceptor (term_act_ srv) (abnormal_term_act_ srv) (dispositions_ srv) stopped.

(** ** [ioc.run()] *)

(** A signal arrives; the wait of [term_act], an accept, an operation of a session
    finishes; [run] returns. *)
Inductive event :=
| Signalled (s : signal)
| Wait_finished (s : signal)
| Accepted (ec : error_code)
| Completed (i : nat) (c : completion)
| Run_returned.

(** The process goes on; [main] returns; an exception leaves [main]; a signal ends
    the process; undefined behaviour. *)
Inductive status :=
| Running (srv : Server)
| Exited (code : Z) (srv : Server)
| Terminated (what : str)
| Killed (s : signal)
| Undefined.

Definition note (s : signal) (set : signal_set) : signal_set :=
  if decide (s ∈ added_ set) then mkSet (added_ set) (waiting_ set) (queued_ set ++ [s]) else set.

Definition deliver (s : signal) (srv : Server) : status :=
  match effective_disposition s (dispositions_ srv) with
  | SIG_IGN => Running srv
  | SIG_DFL => if default_kills s then Killed s else Running srv
  | To_asio =>
      Running (mkServer (startup_ srv) (acceptor_ srv) (note s (term_act_ srv)) (note s (abnormal_term_act_ srv))
                 (dispositions_ srv) (stopped_ srv))
  end.

(** An exception that leaves a completion handler leaves [run] and [main]. *)
Definition handler_result (o : outcome Server) : status :=
  match o with Ret srv => Running srv | Throw what => Terminated what | UB => Undefined end.

(** The session [i] after a completion. *)
Definition put_session (i : nat) (o : outcome HTTP_Session) (srv : Server) : outcome Server :=
  let! s := o in
  let a := acceptor_ srv in
  Ret (set_acceptor (mkAcceptor (is_open a) (accepting_ a) (<[i := Ret s]> (sessions_ a))) srv).

Variable fac : HTTP_Handler_Factory.

Inductive server_step (srv : Server) : event → status → Prop :=
| step_signalled s : server_step srv (Signalled s) (deliver s srv)
| step_wait s rest :
    stopped_ srv = false → waiting_ (term_act_ srv) = true → queued_ (term_act_ srv) = s :: rest →
    server_step srv (Wait_finished s)
      (Running (handle_term
         (mkServer (startup_ srv) (acceptor_ srv) (mkSet (added_ (term_act_ srv)) false rest)
            (abnormal_term_act_ srv) (dispositions_ srv) (stopped_ srv))))
| step_accepted ec a :
    stopped_ srv = false → acceptor_step (acceptor_ srv) (Accept_finished ec) a →
    server_step srv (Accepted ec) (Running (set_acceptor a srv))
| step_completed i s c o :
    stopped_ srv = false → sessions_ (acceptor_ srv) !! i = Some (Ret s) →
    Session.step (D := router_dispatcher fac (router_ (startup_ srv))) s c o →
    server_step srv (Completed i c) (handler_result (put_session i o srv))
| step_returned :
    stopped_ srv = true → server_step srv Run_returned (Exited EXIT_SUCCESS srv).

Inductive runs (srv0 : Server) : list event → status → Prop :=
| runs_start : runs srv0 [] (Running srv0)
| runs_step es srv e o : runs srv0 es (Running srv) → server_step srv e o → runs srv0 (es ++ [e]) o.

(** ** The same steps as a function *)

Definition exec_completion {D : Dispatcher} (s : HTTP_Session) (c : completion) : option (outcome HTTP_Session) :=
  match c, op_ s with
  | Read_failed ec connected, Some Reading =>
      if failed ec then Some (handle_request_received ec connected (finish_op (parser_ s) s)) else None
  | Read_done req connected, Some Reading =>
      Some (handle_request_received success connected (finish_op (Session.Parsed req) s))
  | Write_finished ec connected, Some (Writing keep_alive) =>
      Some (handle_writing_finished ec connected keep_alive (finish_op (parser_ s) s))
  | _, _ => None
  end.

Definition exec (srv : Server) (e : event) : option status :=
  let a := acceptor_ srv in
  match e with
  | Signalled s => Some (deliver s srv)
  | Run_returned => if stopped_ srv then Some (Exited EXIT_SUCCESS srv) else None
  | _ =>
      if stopped_ srv then None
      else
        match e with
        | Wait_finished s =>
            match waiting_ (term_act_ srv), queued_ (term_act_ srv) with
            | true, s' :: rest =>
                if decide (s = s') then
                  Some (Running (handle_term (mkServer (startup_ srv) a (mkSet (added_ (term_act_ srv)) false rest)
                    (abnormal_term_act_ srv) (dispositions_ srv) (stopped_ srv))))
                else None
            | _, _ => None
            end
        | Accepted ec =>
            if accepting_ a then
              Some (Running (set_acceptor (handle_accept ec (mkAcceptor (is_open a) false (sessions_ a))) srv))
            else None
        | Completed i c =>
            match sessions_ a !! i with
            | Some (Ret s) =>
                o ← exec_completion (D := router_dispatcher fac (router_ (startup_ srv))) s c;
                Some (handler_result (put_session i o srv))
            | _ => None
            end
        | _ => None
        end
  end.

Fixpoint exec_all (es : list event) (srv : Server) : option status :=
  match es with
  | [] => Some (Running srv)
  | e :: es =>
      match exec srv e, es with
      | Some (Running srv), _ => exec_all es srv
      | Some o, [] => Some o
      | _, _ => None
      end
  end.

(** ** Reference definitions *)

Implicit Types (st : Startup (W := W)) (srv : Server) (es : list event).

(** The completions of the session [i], in order. *)
Definition completions (i : nat) (es : list event) : list completion :=
  omap (λ e, match e with Completed j c => if decide (j = i) then Some c else None | _ => None end) es.

Definition ignored_signals : list signal := [SIGHUP; SIGPIPE; SIGURG; SIGIO].

(** The signals that [main] takes care of. *)
Definition handled_signals : list signal := term_signals ++ abnormal_signals ++ ignored_signals.

(** How [main] leaves the signals; [ds] are the dispositions that the process was
    started with. *)
Definition main_disposition (ds : dispositions) (s : signal) : disposition :=
  if decide (s ∈ ignored_signals) then SIG_IGN
  else if decide (s ∈ term_signals ++ abnormal_signals) then To_asio
  else disposition_of s ds.

(** The signals that end the process: those that [main] leaves as they were and
    that were not ignored, and [SIGKILL]. *)
Definition fatal (ds : dispositions) (s : signal) : Prop :=
  s ∉ handled_signals ∧ default_kills s = true ∧ (s = SIGKILL ∨ disposition_of s ds = SIG_DFL).

(** [res] answers [req] as the routes [R] say. *)
Definition answers (R : gmap str str) (req : Request) (res : Response) : Prop :=
  let path := decoded_path (parse (req_target req) empty_uri).2 in
  ∃ h, res = respond h req ∧
    (head path ≠ Some "/"%char → h = None) ∧
    (head path = Some "/"%char → ∃ name, longest_route R path name ∧ h = create name fac).

(** The routes of a list of configuration entries, over no routes. *)
Definition config_routes (l : list json) (R : gmap str str) : Prop :=
  ∀ path, R !! path = last_for path (routes_of fac l).

(** What [main] set up and no step changes. *)
Record set_up (ds : dispositions) (srv : Server) : Prop := mkSetUp {
  up_dispositions s : disposition_of s (dispositions_ srv) = main_disposition ds s;
  up_term : added_ (term_act_ srv) = term_signals;
  up_abnormal : added_ (abnormal_term_act_ srv) = abnormal_signals;
  up_no_wait : waiting_ (abnormal_term_act_ srv) = false
}.

(** The invariant of a running server, started with [st], after [es]. *)
Record server_ok (st : Startup) (ds : dispositions) (es : list event) (srv : Server) : Prop := mkOk {
  ok_startup : startup_ srv = st;
  ok_set_up : set_up ds srv;
  (** every session went through its own completions and no others *)
  ok_sessions i o : sessions_ (acceptor_ srv) !! i = Some o →
    (∃ s, o = Ret s) ∧ serves (D := router_dispatcher fac (router_ st)) (completions i es) o;
  ok_started i : completions i es ≠ [] → i < length (sessions_ (acceptor_ srv));
  ok_running : stopped_ srv = false →
    waiting_ (term_act_ srv) = true ∧ (is_open (acceptor_ srv) = true → accepting_ (acceptor_ srv) = true);
  ok_stopped : stopped_ srv = true →
    is_open (acceptor_ srv) = false ∧ ∃ s, s ∈ term_signals ∧ Signalled s ∈ es;
  ok_queued s : s ∈ queued_ (term_act_ srv) → s ∈ term_signals ∧ Signalled s ∈ es
}.

(** ** Lemmas *)

Lemma exec_completion_step {D : Dispatcher} s c o : exec_completion s c = Some o ↔ Session.step s c o.
Proof.
  unfold exec_completion. split.
  - destruct c as [ec conn|req conn|ec conn], (op_ s) as [[|ka]|] eqn:Hop; try done.
    + destruct (failed ec) eqn:Hec; [|done]. intros [= <-]. by constructor.
    + intros [= <-]. by constructor.
    + intros [= <-]. by constructor.
  - destruct 1 as [ec conn Hop Hec|req conn Hop|ec conn ka Hop]; by rewrite ?Hop, ?Hec.
Qed.

(** The step relation is this function: a run is determined by its events. *)
Lemma exec_step srv e o : exec srv e = Some o ↔ server_step srv e o.
Proof.
  unfold exec. split.
  - destruct e as [s|s|ec|i c|]; [intros [= <-]; constructor|..];
      destruct (stopped_ srv) eqn:Hs; try done.
    + destruct (waiting_ (term_act_ srv)) eqn:Hw, (queued_ (term_act_ srv)) as [|s' rest] eqn:Hq; try done. case_decide; [|done].
      intros [= <-]. subst s'. pose proof (step_wait srv s rest Hs Hw Hq) as H. by rewrite Hs in H.
    + destruct (accepting_ (acceptor_ srv)) eqn:Ha; [|done]. intros [= <-]. by apply step_accepted, step_accept.
    + destruct (sessions_ (acceptor_ srv) !! i) as [[s| |]|] eqn:Hi; try done. intros (o' & Ho & [= <-])%bind_Some.
      apply exec_completion_step in Ho. by eapply step_completed.
    + intros [= <-]. by constructor.
  - destruct 1 as [s|s rest Hs Hw Hq|ec a Hs Ha|i s c o Hs Hi Hc|Hs]; [done|..]; rewrite Hs; try done.
    + by rewrite Hw, Hq, decide_True.
    + inversion Ha as [? Hacc|]; subst. by rewrite Hacc.
    + rewrite Hi. apply exec_completion_step in Hc. by rewrite Hc.
Qed.

Lemma exec_all_runs srv0 es srv es' o : runs srv0 es (Running srv) → exec_all es' srv = Some o → runs srv0 (es ++ es') o.
Proof.
  revert es srv. induction es' as [|e es' IH]; intros es srv Hr; simpl.
  - intros [= <-]. by rewrite app_nil_r.
  - destruct (exec srv e) as [o'|] eqn:E; [|done]. apply exec_step in E.
    assert (runs srv0 (es ++ [e]) o') as Hr' by (by eapply runs_step).
    change (e :: es') with ([e] ++ es'). rewrite app_assoc.
    destruct o' as [srv'| | | |]; [by apply IH|..]; destruct es'; try done; intros [= <-]; by rewrite app_nil_r.
Qed.

Lemma completions_snoc i es e : completions i (es ++ [e]) = completions i es ++ completions i [e].
Proof. apply omap_app. Qed.

Lemma completions_other i es e :
  (∀ c, e ≠ Completed i c) → completions i (es ++ [e]) = completions i es.
Proof.
  intros He. rewrite completions_snoc. destruct e as [| | |j c|]; simpl; rewrite ?app_nil_r; try done.
  case_decide as E; [|by rewrite app_nil_r]. destruct (He c). by rewrite E.
Qed.

Lemma add_all_eq l x y :
  add_all l x = Ret y →
  added_ y.1 = added_ x.1 ++ l ∧ waiting_ y.1 = waiting_ x.1 ∧ queued_ y.1 = queued_ x.1 ∧
  ∀ s, disposition_of s y.2 = if decide (s ∈ l) then To_asio else disposition_of s x.2.
Proof.
  revert x. induction l as [|s l IH]; intros [set ds] H.
  { injection H as <-. by rewrite app_nil_r. }
  simpl in H. apply obind_Ret_inv in H as (x' & Hx' & H). apply obind_Ret_inv in Hx' as ([] & _ & [= <-]).
  destruct (IH _ H) as (Ha & Hw & Hq & Hd). simpl in *. split_and!; [by rewrite Ha, <-app_assoc|done..|].
  intros s'. rewrite Hd. repeat case_decide; set_solver.
Qed.

(** A server that [main] runs: what start-up made, nothing accepted yet. *)
Lemma main_runs st ds srv :
  main fac st ds = Ret (inr srv) →
  init fac st = Ret (true, startup_ srv) ∧ set_up ds srv ∧ acceptor_ srv = mkAcceptor true true [] ∧
  stopped_ srv = false ∧ waiting_ (term_act_ srv) = true ∧ queued_ (term_act_ srv) = [].
Proof.
  unfold main. intros H. apply obind_Ret_inv in H as ([[] st'] & Hi & H); cbn [negb] in H; [|done].
  destruct (make_address _) as [addr ec]. destruct (failed ec); [done|].
  apply obind_Ret_inv in H as ([a|] & Ha & H); [|done].
  apply obind_Ret_inv in H as ([t ds1] & Ht & H). apply obind_Ret_inv in H as ([b ds2] & Hb & [= <-]).
  apply add_all_eq in Ht as (Hta & Htw & Htq & Htd), Hb as (Hba & Hbw & Hbq & Hbd). simpl in *.
  assert (a = mkAcceptor true false []) as ->.
  { unfold make_acceptor, new_acceptor in Ha. by destruct (tcp_listen _ _); simplify_eq/=. }
  split_and!; [done| |done|done|done|by rewrite Htq]. split; simpl; [|by rewrite Hta|by rewrite Hba|by rewrite Hbw].
  intros s. unfold main_disposition. rewrite Hbd, Htd. by destruct s.
Qed.

Lemma main_ok st ds srv : main fac st ds = Ret (inr srv) → server_ok (startup_ srv) ds [] srv.
Proof.
  intros (_ & Hup & Ha & Hs & Hw & Hq)%main_runs. split; rewrite ?Ha, ?Hs, ?Hq; try done.
  - intros s Hin. by apply elem_of_nil in Hin.
Qed.

(** A step that leaves the sessions alone and is no completion of one. *)
Lemma sessions_unchanged st es e (a a' : HTTP_Acceptor) :
  (∀ i c, e ≠ Completed i c) → sessions_ a' = sessions_ a →
  (∀ i o, sessions_ a !! i = Some o →
     (∃ s, o = Ret s) ∧ serves (D := router_dispatcher fac (router_ st)) (completions i es) o) ∧
  (∀ i, completions i es ≠ [] → i < length (sessions_ a)) →
  (∀ i o, sessions_ a' !! i = Some o →
     (∃ s, o = Ret s) ∧ serves (D := router_dispatcher fac (router_ st)) (completions i (es ++ [e])) o) ∧
  (∀ i, completions i (es ++ [e]) ≠ [] → i < length (sessions_ a')).
Proof.
  intros He ->. intros [H1 H2]. split; intros i; rewrite completions_other by (intros; apply He); auto.
Qed.

Lemma close_sessions a : sessions_ (acceptor_close a) = sessions_ a ∧ is_open (acceptor_close a) = false.
Proof. unfold acceptor_close. by destruct (is_open a) eqn:E. Qed.

#[export] Instance fatal_dec ds s : Decision (fatal ds s).
Proof. unfold fatal. apply _. Defined.

(** A signal that [main] leaves alone goes to no set. *)
Lemma deliver_unhandled ds srv s : set_up ds srv → s ∉ handled_signals →
  deliver s srv = if decide (fatal ds s) then Killed s else Running srv.
Proof.
  intros [Hd Ht Hb _] Hs. assert (main_disposition ds s = disposition_of s ds) as Hm.
  { unfold main_disposition, handled_signals in *. rewrite !not_elem_of_app in Hs.
    rewrite !decide_False; [done|rewrite elem_of_app; tauto|tauto]. }
  assert (effective_disposition s (dispositions_ srv) = if decide (s ∈ [SIGKILL; SIGSTOP]) then SIG_DFL else disposition_of s ds) as He.
  { rewrite <-Hm, <-Hd. by destruct s. }
  assert (note s (term_act_ srv) = term_act_ srv ∧ note s (abnormal_term_act_ srv) = abnormal_term_act_ srv) as [Hn1 Hn2].
  { unfold handled_signals in Hs. rewrite !not_elem_of_app in Hs. unfold note. rewrite Ht, Hb, !decide_False by tauto. done. }
  unfold deliver. rewrite He, Hn1, Hn2. destruct (decide (s ∈ [SIGKILL; SIGSTOP])) as [Hin|Hin].
  - rewrite !elem_of_cons, elem_of_nil in Hin. destruct Hin as [-> |[-> |[]]].
    + by rewrite decide_True by (unfold fatal; auto).
    + by rewrite (decide_False (P := fatal ds SIGSTOP)) by by intros (_ & ? & _).
  - assert (s ≠ SIGKILL) by set_solver. destruct (disposition_of s ds) eqn:Hds.
    + destruct (default_kills s) eqn:Hk; [by rewrite decide_True by (unfold fatal; auto)|].
      by rewrite decide_False by (intros (_ & ? & _); congruence).
    + by rewrite decide_False by (intros (_ & _ & [?|?]); congruence).
    + rewrite decide_False by (intros (_ & _ & [?|?]); congruence). by destruct srv.
Qed.

Lemma deliver_handled ds srv s : set_up ds srv → s ∈ handled_signals →
  ∃ t b, deliver s srv = Running (mkServer (startup_ srv) (acceptor_ srv) t b (dispositions_ srv) (stopped_ srv)) ∧
    added_ t = term_signals ∧ waiting_ t = waiting_ (term_act_ srv) ∧
    queued_ t = queued_ (term_act_ srv) ++ (if decide (s ∈ term_signals) then [s] else []) ∧
    added_ b = abnormal_signals ∧ waiting_ b = false.
Proof.
  intros [Hd Ht Hb Hnw] Hs. unfold deliver, note. rewrite Ht, Hb.
  assert (effective_disposition s (dispositions_ srv) = main_disposition ds s) as ->.
  { rewrite <-Hd. unfold handled_signals in Hs. destruct s; try done; exfalso; revert Hs; by apply (bool_decide_unpack (_ ∉ _)). }
  destruct srv as [st' a [ta tw tq] [ba bw bq] d sd]. unfold handled_signals in Hs. simpl in *. subst.
  repeat (apply elem_of_cons in Hs as [-> |Hs]; [eexists _, _; (split; [reflexivity|]); simpl; by rewrite ?app_nil_r|]).
  by apply elem_of_nil in Hs.
Qed.

Lemma deliver_ok st ds es srv s : server_ok st ds es srv → ¬ fatal ds s →
  ∃ srv', deliver s srv = Running srv' ∧ server_ok st ds (es ++ [Signalled s]) srv' ∧
    acceptor_ srv' = acceptor_ srv ∧ stopped_ srv' = stopped_ srv ∧
    queued_ (term_act_ srv') =
      queued_ (term_act_ srv) ++ (if decide (s ∈ term_signals) then [s] else []).
Proof.
  intros [Hst Hup Hses Hstart Hrun Hstop Hq] Hf.
  assert (∃ t b, deliver s srv = Running (mkServer (startup_ srv) (acceptor_ srv) t b (dispositions_ srv) (stopped_ srv)) ∧
    added_ t = term_signals ∧ waiting_ t = waiting_ (term_act_ srv) ∧
    queued_ t = queued_ (term_act_ srv) ++ (if decide (s ∈ term_signals) then [s] else []) ∧
    added_ b = abnormal_signals ∧ waiting_ b = false) as (t & b & -> & Hta & Htw & Htq & Hba & Hbw).
  { destruct (decide (s ∈ handled_signals)) as [Hs|Hs]; [by eapply deliver_handled|].
    rewrite (deliver_unhandled ds) by done. rewrite decide_False by done. exists (term_act_ srv), (abnormal_term_act_ srv).
    rewrite decide_False by (unfold handled_signals in Hs; set_solver). rewrite app_nil_r. destruct Hup. by destruct srv. }
  eexists. split; [done|]. split; [|done].
  destruct (sessions_unchanged st es (Signalled s) (acceptor_ srv) (acceptor_ srv)) as [H1 H2]; [done..|].
  split; simpl; try done.
  - destruct Hup. by split.
  - by rewrite Htw.
  - intros Hs. destruct (Hstop Hs) as [? (s' & ? & ?)]. split; [done|]. exists s'. set_solver.
  - rewrite Htq. intros s' [Hin|Hin]%elem_of_app; [destruct (Hq s' Hin); set_solver|].
    case_decide; set_solver.
Qed.

Lemma handled_not_fatal ds s : s ∈ handled_signals → ¬ fatal ds s.
Proof. by intros Hs [? _]. Qed.

Lemma accept_ok st ds es srv ec a : server_ok st ds es srv → acceptor_step (acceptor_ srv) (Accept_finished ec) a →
  stopped_ srv = false → server_ok st ds (es ++ [Accepted ec]) (set_acceptor a srv).
Proof.
  intros [Hst Hup Hses Hstart Hrun Hstop Hq] Hstep Hs. inversion Hstep as [ec' Ha| ]; subst; clear Hstep.
  assert (∀ i, completions i (es ++ [Accepted ec]) = completions i es) as Hc by (intros; by apply completions_other).
  split; simpl; try done.
  - destruct Hup. by split.
  - intros i o. rewrite Hc. unfold handle_accept. destruct (failed ec); [by rewrite (proj1 (close_sessions _)); apply Hses|].
    simpl. intros [Hi|[Hlen Hi]]%lookup_app_Some; [by apply Hses|]. apply list_lookup_singleton_Some in Hi as [Hi <-].
    split; [eauto|]. destruct (completions i es) eqn:E; [apply serves_start|].
    assert (i < length (sessions_ (acceptor_ srv))) by (apply Hstart; by rewrite E). lia.
  - intros i. rewrite Hc. intros Hi%Hstart. unfold handle_accept. destruct (failed ec).
    + by rewrite (proj1 (close_sessions _)).
    + simpl. rewrite length_app. lia.
  - intros _. split; [by apply Hrun|]. unfold handle_accept. destruct (failed ec); [|done].
    by rewrite (proj2 (close_sessions _)).
  - congruence.
  - intros s Hin. destruct (Hq s Hin). set_solver.
Qed.

Lemma completions_self i c es : completions i (es ++ [Completed i c]) = completions i es ++ [c].
Proof. rewrite completions_snoc. simpl. by rewrite decide_True. Qed.

Lemma put_session_ok st ds es srv i c s s' : server_ok st ds es srv → stopped_ srv = false →
  sessions_ (acceptor_ srv) !! i = Some (Ret s) →
  Session.step (D := router_dispatcher fac (router_ st)) s c (Ret s') →
  ∃ srv', put_session i (Ret s') srv = Ret srv' ∧ server_ok st ds (es ++ [Completed i c]) srv'.
Proof.
  intros [Hst Hup Hses Hstart Hrun Hstop Hq] Hs Hi Hstep. eexists. split; [done|].
  destruct (Hses i _ Hi) as [_ Hserves]. apply lookup_lt_Some in Hi as Hlt.
  split; simpl; try done.
  - destruct Hup. by split.
  - intros j o Hj. destruct (decide (i = j)) as [<-|Hij].
    + rewrite list_lookup_insert_eq in Hj by done. injection Hj as <-. split; [eauto|].
      rewrite completions_self. by eapply serves_step.
    + rewrite list_lookup_insert_ne in Hj by done. rewrite completions_other by congruence. by apply Hses.
  - intros j. rewrite length_insert. destruct (decide (i = j)) as [<-|Hij]; [done|].
    rewrite completions_other by congruence. apply Hstart.
  - congruence.
  - intros s'' Hin. destruct (Hq s'' Hin). set_solver.
Qed.

Lemma term_ok st ds es srv s rest : server_ok st ds es srv → queued_ (term_act_ srv) = s :: rest →
  server_ok st ds (es ++ [Wait_finished s])
    (handle_term (mkServer (startup_ srv) (acceptor_ srv) (mkSet (added_ (term_act_ srv)) false rest)
       (abnormal_term_act_ srv) (dispositions_ srv) (stopped_ srv))).
Proof.
  intros [Hst Hup Hses Hstart Hrun Hstop Hq] Hs. destruct (close_sessions (acceptor_ srv)) as [Hc1 Hc2].
  destruct (sessions_unchanged st es (Wait_finished s) (acceptor_ srv) (acceptor_close (acceptor_ srv))) as [H1 H2]; [done..|].
  destruct (Hq s) as [Ht Hin]; [rewrite Hs; set_solver|].
  split; simpl; try done.
  - destruct Hup. by split.
  - by destruct (stopped_ srv).
  - intros _. split; [done|]. exists s. set_solver.
  - intros s' Hs'. destruct (Hq s'); rewrite ?Hs; set_solver.
Qed.

(** Every step of a good server is defined. *)
Lemma server_step_ok st ds es srv e o : server_ok st ds es srv → server_step srv e o →
  match o with
  | Running srv' => server_ok st ds (es ++ [e]) srv'
  | Exited code srv' => code = EXIT_SUCCESS ∧ e = Run_returned ∧ srv' = srv ∧ stopped_ srv = true
  | Terminated what => what = lit "remote_endpoint" ∧ ∃ i c, e = Completed i c ∧ peer_present c = false
  | Killed s => e = Signalled s ∧ fatal ds s
  | Undefined => False
  end.
Proof.
  intros Hok Hstep. destruct Hstep as [s|s rest Hs Hw Hq|ec a Hs Ha|i s c o Hs Hi Hc|Hs].
  - destruct (decide (fatal ds s)) as [Hf|Hf].
    + rewrite (deliver_unhandled ds), decide_True by (apply Hok || apply Hf || done). done.
    + by destruct (deliver_ok st ds es srv s Hok Hf) as (srv' & -> & H & _).
  - by apply term_ok.
  - by apply accept_ok.
  - rewrite (ok_startup _ _ _ _ Hok) in Hc. destruct (ok_sessions _ _ _ _ Hok i _ Hi) as [_ Hserves].
    destruct (serves_ok (D := router_dispatcher fac (router_ st)) _ _ Hserves) as [(s0 & [= <-] & Hsok & _)|[[=] _]].
    destruct (session_step_ok (D := router_dispatcher fac (router_ st)) _ _ _ Hsok Hc) as [(s' & -> & _ & _)|[Hp ->]].
    + by destruct (put_session_ok st ds es srv i c s s' Hok Hs Hi Hc) as (srv' & -> & H).
    + simpl. eauto.
  - done.
Qed.

Lemma runs_ok st ds srv0 es o : main fac st ds = Ret (inr srv0) → runs srv0 es o →
  match o with
  | Running srv => server_ok (startup_ srv0) ds es srv
  | Exited code srv => code = EXIT_SUCCESS ∧ stopped_ srv = true ∧
      ∃ es', es = es' ++ [Run_returned] ∧ server_ok (startup_ srv0) ds es' srv
  | Terminated what => what = lit "remote_endpoint" ∧ ∃ es' i c, es = es' ++ [Completed i c] ∧ peer_present c = false
  | Killed s => fatal ds s ∧ ∃ es', es = es' ++ [Signalled s]
  | Undefined => False
  end.
Proof.
  intros Hmain. induction 1 as [|es srv e o Hruns IH Hstep]; [by eapply main_ok|].
  pose proof (server_step_ok _ _ _ _ _ _ IH Hstep) as Ho. destruct o; naive_solver.
Qed.

(** After a failed accept nothing is accepted. *)
Lemma refused_accept srv0 es o ec : runs srv0 es o → Accepted ec ∈ es → failed ec = true →
  match o with
  | Running srv => accepting_ (acceptor_ srv) = false ∧ is_open (acceptor_ srv) = false
  | _ => True
  end.
Proof.
  intros Hruns Hin Hec. revert Hin. induction Hruns as [|es srv e o Hruns IH Hstep]; [by intros ?%elem_of_nil|].
  intros [Hin|Hin%list_elem_of_singleton]%elem_of_app.
  - destruct (IH Hin) as [Ha Ho]. destruct Hstep as [s|s rest Hs Hw Hq|ec' a Hs Ha'|i s c o Hs Hi Hc|Hs]; simpl; try done.
    + unfold deliver. destruct (effective_disposition s _); [by destruct (default_kills s)|done|done].
    + unfold acceptor_close. rewrite Ho. by rewrite Ho.
    + inversion Ha'. congruence.
    + by destruct o.
  - subst e. inversion Hstep as [| |ec' a Hs Ha| |]; subst. inversion Ha; subst. simpl. unfold handle_accept.
    rewrite Hec. unfold acceptor_close. simpl. by destruct (is_open (acceptor_ srv)) eqn:E.
Qed.

(** ** Properties *)

(** *** The answers, as the configuration says *)

Section Answers.
Context {JL : JsonLaws} {BL : BoostStringsLaws}.

Lemma dispatch_answers (r : HTTP_Router) (req : Request) :
  answers (routes_ r) req (dispatch_total fac r req).
Proof.
  destruct (dispatch_handler fac r req) as (h & Hd & Hh). exists h. split; [|done].
  unfold dispatch_total. by rewrite Hd.
Qed.

Lemma init_empty_routes st st' : init fac st = Ret (true, st') → router_ st = empty_router →
  ∃ l, config_entries (read_json handler_config (world_ st')) = Some l ∧ config_routes l (routes_ (router_ st')).
Proof.
  intros Hi Hr. apply init_router in Hi as (l & Hl & ->). exists l. split; [done|]. intros path.
  rewrite handlers_routes, Hr. simpl. rewrite lookup_empty. by destruct (last_for path _).
Qed.

(** C5: the server from its configuration file to its answers.  Whatever signals,
    accepts and completions come, in any order and on any number of connections:
    as long as the server runs, the responses a session has written are, one for
    one and in order, the answers to the requests that were read on its
    connection, each by the handler that the configuration gives the longest
    prefix of the request's path (the last well-formed entry for that prefix), or
    an internal server error when there is none. *)
Theorem server_answers_as_configured (st : Startup) (ds : dispositions) (srv0 srv : Server) (es : list event)
    (Hempty : router_ st = empty_router) (Hmain : main fac st ds = Ret (inr srv0)) (Hruns : runs srv0 es (Running srv)) :
  ∃ l R, config_entries (read_json handler_config (world_ (startup_ srv0))) = Some l ∧ config_routes l R ∧
    ∀ i o, sessions_ (acceptor_ srv) !! i = Some o →
      ∃ s, o = Ret s ∧ session_ok s ∧ Forall2 (answers R) (requests (completions i es)) (written_ s).
Proof.
  destruct (main_runs _ _ _ Hmain) as (Hi & _). destruct (init_empty_routes _ _ Hi Hempty) as (l & Hl & HR).
  exists l, (routes_ (router_ (startup_ srv0))). split_and!; [done..|]. intros i o Hi'.
  destruct (ok_sessions _ _ _ _ (runs_ok _ _ _ _ _ Hmain Hruns) i o Hi') as [[s ->] Hs]. exists s.
  destruct (serves_ok (D := router_dispatcher fac (router_ (startup_ srv0))) _ _ Hs) as [(s0 & [= <-] & Hok & Hw)|[[=] _]].
  split_and!; [done..|]. rewrite Hw. apply Forall2_fmap_r, Forall_Forall2_diag, Forall_true.
  intros req. apply dispatch_answers.
Qed.
End Answers.

(** *** The life of the process *)


(** C18: shutting down.  In a running server that was not stopped, SIGINT, SIGQUIT or
    SIGTERM is followed by the wait's completion, which closes the acceptor and
    stops the context, and [main] returns [EXIT_SUCCESS]; once stopped, no accept
    and no session is served any more. *)
Theorem term_signal_shuts_down (st : Startup) (ds : dispositions) (srv0 srv : Server) (es : list event) (s : signal)
    (Hmain : main fac st ds = Ret (inr srv0)) (Hruns : runs srv0 es (Running srv)) (Hrun : stopped_ srv = false)
    (Hs : s ∈ term_signals) :
  ∃ s' srv', runs srv0 (es ++ [Signalled s; Wait_finished s'; Run_returned]) (Exited EXIT_SUCCESS srv') ∧
    is_open (acceptor_ srv') = false ∧
    (∀ e o, server_step srv' e o → e = Run_returned ∨ ∃ s, e = Signalled s).
Proof.
  pose proof (runs_ok _ _ _ _ _ Hmain Hruns) as Hok.
  destruct (deliver_ok _ _ _ _ s Hok) as (srv1 & Hd & Hok1 & Ha1 & Hs1 & Hq1).
  { apply handled_not_fatal. unfold handled_signals. set_solver. }
  rewrite decide_True in Hq1 by done.
  destruct (queued_ (term_act_ srv1)) as [|s' rest] eqn:Hq; [by destruct (queued_ (term_act_ srv))|].
  assert (runs srv0 (es ++ [Signalled s]) (Running srv1)) as Hr1.
  { eapply runs_step; [done|]. rewrite <-Hd. apply step_signalled. }
  destruct (ok_running _ _ _ _ Hok1) as [Hw _]; [congruence|].
  eexists s', _. split; [|split].
  - replace (es ++ [_; _; _]) with (((es ++ [Signalled s]) ++ [Wait_finished s']) ++ [Run_returned]) by (by rewrite <-!app_assoc).
    eapply runs_step; [eapply runs_step; [done|apply step_wait; [congruence|done|done]]|].
    apply step_returned. unfold handle_term. simpl. by destruct (stopped_ srv1).
  - apply (close_sessions (acceptor_ srv1)).
  - intros e o Hstep. assert (stopped_ srv1 = false) as Hs2 by congruence.
    inversion Hstep; subst; simpl in *; rewrite ?Hs2 in *; naive_solver.
Qed.

(** [main] adds the fatal signals to a set that nothing waits on, which takes
    their default action away: in a running server SIGSEGV, SIGABRT, SIGBUS, SIGFPE,
    SIGILL, SIGALRM and SIGXCPU, whose default is to end the process, leave it
    running, and change nothing but a queue that is never read; SIGHUP, SIGPIPE,
    SIGURG and SIGIO change nothing at all. *)
Theorem fatal_signals_swallowed (st : Startup) (ds : dispositions) (srv0 srv : Server) (es : list event) (s : signal)
    (Hmain : main fac st ds = Ret (inr srv0)) (Hruns : runs srv0 es (Running srv))
    (Hin : s ∈ handled_signals) (Hs : s ∉ term_signals) :
  (s ∈ abnormal_signals → default_kills s = true ∧ waiting_ (abnormal_term_act_ srv) = false) ∧
  ∃ b, deliver s srv = Running (mkServer (startup_ srv) (acceptor_ srv) (term_act_ srv) b (dispositions_ srv) (stopped_ srv)) ∧
       waiting_ b = false ∧ (s ∉ abnormal_signals → b = abnormal_term_act_ srv).
Proof.
  pose proof (runs_ok _ _ _ _ _ Hmain Hruns) as Hok. destruct (ok_set_up _ _ _ _ Hok) as [Hd Ht Hb Hw].
  split; [intros Hab; split; [|done]; repeat (apply elem_of_cons in Hab as [-> |Hab]; [done|]); by apply elem_of_nil in Hab|].
  assert (effective_disposition s (dispositions_ srv) = if decide (s ∈ abnormal_signals) then To_asio else SIG_IGN) as He.
  { transitivity (main_disposition ds s); [rewrite <-Hd|];
      (unfold handled_signals in Hin; rewrite !elem_of_app in Hin; destruct Hin as [Hin|[Hin|Hin]]; [done|..];
       repeat (apply elem_of_cons in Hin as [-> |Hin]; [done|]); by apply elem_of_nil in Hin). }
  unfold deliver, note. rewrite He, Ht, Hb. rewrite (decide_False (P := s ∈ term_signals)) by done.
  destruct srv as [st' a t [ba bw bq] d sd]. simpl in *. subst. case_decide as Hab.
  - by eexists.
  - by exists (mkSet abnormal_signals false bq).
Qed.

(** C38: one connection takes the whole server down: whenever a session waits for a
    request and its peer is gone, the failed read ends the process, with every
    other session. *)
Theorem lost_peer_ends_server (st : Startup) (ds : dispositions) (srv0 srv : Server) (es : list event) (i : nat)
    (s : HTTP_Session) (ec : error_code)
    (Hmain : main fac st ds = Ret (inr srv0)) (Hruns : runs srv0 es (Running srv)) (Hrun : stopped_ srv = false)
    (Hi : sessions_ (acceptor_ srv) !! i = Some (Ret s)) (Hop : op_ s = Some Reading) (Hec : failed ec = true) :
  runs srv0 (es ++ [Completed i (Read_failed ec false)]) (Terminated (lit "remote_endpoint")).
Proof.
  eapply runs_step; [done|].
  replace (Terminated _) with (handler_result (put_session i
    (handle_request_received (D := router_dispatcher fac (router_ (startup_ srv))) ec false (finish_op (parser_ s) s)) srv)).
  - apply (step_completed _ _ s); [done..|]. by apply step_read_failed.
  - unfold handle_request_received. by rewrite Hec.
Qed.

(** After one failed accept (a passing shortage of descriptors is enough) the
    server never listens again, but does not exit either: it runs on without a
    listener until a signal stops it. *)
Theorem failed_accept_leaves_server_deaf (st : Startup) (ds : dispositions) (srv0 srv : Server) (es : list event) (ec : error_code)
    (Hmain : main fac st ds = Ret (inr srv0)) (Hruns : runs srv0 es (Running srv))
    (Hin : Accepted ec ∈ es) (Hec : failed ec = true) :
  is_open (acceptor_ srv) = false ∧
  (∀ ec' o, ¬ server_step srv (Accepted ec') o) ∧
  ((∀ s, s ∈ term_signals → Signalled s ∉ es) → ∀ code srv', ¬ server_step srv Run_returned (Exited code srv')).
Proof.
  destruct (refused_accept _ _ _ _ Hruns Hin Hec) as [Ha Ho]. split_and!; [done|..].
  - intros ec' o Hstep. inversion Hstep as [| |ec2 a Hs Hacc| |]; subst. inversion Hacc. congruence.
  - intros Hno code srv' Hstep. inversion Hstep; subst.
    destruct (ok_stopped _ _ _ _ (runs_ok _ _ _ _ _ Hmain Hruns)) as (_ & s & Hs & Hsig); [done|]. by destruct (Hno s).
Qed.

(** [main] before [ioc.run()].  It returns [EXIT_FAILURE], and nothing else,
    exactly when the start-up fails, or the configured host is no address, or the
    acceptor cannot be opened on it; when none of that happens and the signals can
    be set, the server runs. *)
Theorem main_exits (st : Startup) (ds : dispositions) :
  (∀ code, main fac st ds = Ret (inl code) ↔
    code = EXIT_FAILURE ∧ ∃ ok st', init fac st = Ret (ok, st') ∧
      (ok = false ∨
       let '(addr, ec) := make_address (host (settings_ st')) in
       failed ec = true ∨ ∃ what, tcp_listen addr (port (settings_ st')) = Throw what)) ∧
  (∀ st', init fac st = Ret (true, st') → (∀ s, sigaction s = Ret tt) →
    failed (make_address (host (settings_ st'))).2 = false →
    tcp_listen (make_address (host (settings_ st'))).1 (port (settings_ st')) = Ret tt →
    ∃ srv, main fac st ds = Ret (inr srv) ∧ startup_ srv = st').
Proof.
  assert (∀ l x, (∀ s, sigaction s = Ret tt) → ∃ y, add_all l x = Ret y) as Hadd.
  { intros l x Hsig. revert x. induction l as [|s l IH]; intros [set d]; [eauto|]. simpl. rewrite Hsig. apply IH. }
  unfold main. split.
  - clear Hadd. intros code. destruct (init fac st) as [[ok st']|what|]; cbn [obind]; [|naive_solver..].
    destruct ok; cbn [negb]; [|naive_solver].
    destruct (make_address (host (settings_ st'))) as [addr ec] eqn:Hm. destruct (failed ec) eqn:Hec.
    { split; [intros [= <-]|naive_solver]. split; [done|]. exists true, st'. rewrite Hm. auto. }
    unfold make_acceptor, new_acceptor. destruct (tcp_listen addr _) as [[]|what|] eqn:Ht; cbn [obind].
    + split.
      * intros H. apply obind_Ret_inv in H as ([t d1] & _ & H). apply obind_Ret_inv in H as ([b d2] & _ & H). done.
      * intros (_ & ok & st2 & [= <- <-] & [?|H]); [done|]. rewrite Hm in H. destruct H as [?|[? ?]]; congruence.
    + split; [intros [= <-]|naive_solver]. split; [done|]. exists true, st'. rewrite Hm. eauto.
    + split; [done|]. intros (_ & ok & st2 & [= <- <-] & [?|H]); [done|]. rewrite Hm in H. destruct H as [?|[? ?]]; congruence.
  - intros st' -> Hsig Hec Ht. cbn [obind negb]. destruct (make_address _) as [addr ec]. simpl in Hec, Ht. rewrite Hec.
    unfold make_acceptor, new_acceptor. rewrite Ht. cbn [obind].
    destruct (Hadd term_signals (empty_set, ds) Hsig) as [[t d1] ->]. cbn [obind].
    destruct (Hadd abnormal_signals (empty_set, d1) Hsig) as [[b d2] ->]. cbn [obind]. by eexists.
Qed.
End Server.

(** ** A server on the installed files *)

#[export] Instance local_asio : Asio := {
  address := str;
  make_address h := (h, if decide (h = []) then other_error 22 else success);
  tcp_listen _ p := if decide (p = 22)%Z then Throw (lit "bind: Address already in use") else Ret tt;
  sigaction _ := Ret tt
}.

#[local] Existing Instance record_beast.
#[local] Existing Instance tree_json.
#[local] Existing Instance disk_files.

Definition test_main : outcome (Z + Server) :=
  main static_factory (at_start installed_disk) [].

Definition test_server : Server :=
  match test_main with
  | Ret (inr srv) => srv
  | _ => mkServer (at_start installed_disk) (mkAcceptor false false []) empty_set empty_set [] true
  end.

Lemma test_main_eq : main static_factory (at_start installed_disk) [] = Ret (inr test_server).
Proof. vm_cast_no_check (eq_refl (Ret (A := Z + Server) (inr test_server))). Qed.

Definition echo_request : Request := get_request "/echo/it" true.

(** Two connections; the first sends two requests, the second none. *)
Definition test_events : list event :=
  [Accepted success; Completed 0 (Read_done echo_request true); Accepted success;
   Completed 0 (Write_finished success true); Signalled SIGSEGV; Completed 0 (Read_done echo_request true)].

(** The server after some events, when it runs. *)
Definition after (es : list event) : Server :=
  match exec_all static_factory es test_server with Some (Running srv) => srv | _ => test_server end.

Lemma after_runs es : exec_all static_factory es test_server = Some (Running (after es)) →
  runs static_factory test_server es (Running (after es)).
Proof. apply (exec_all_runs static_factory test_server [] test_server es), runs_start. Qed.

Lemma test_run : runs static_factory test_server test_events (Running (after test_events)).
Proof. apply after_runs. vm_cast_no_check (eq_refl (Some (Running (after test_events)))). Qed.

Lemma deaf_run :
  runs static_factory test_server [Accepted (other_error 24)] (Running (after [Accepted (other_error 24)])).
Proof. apply after_runs. vm_cast_no_check (eq_refl (Some (Running (after [Accepted (other_error 24)])))). Qed.

Definition first_session : HTTP_Session :=
  match sessions_ (acceptor_ (after test_events)) !! 0 with Some (Ret s) => s | _ => new_session end.

Lemma first_session_eq : sessions_ (acceptor_ (after test_events)) !! 0 = Some (Ret first_session).
Proof. vm_cast_no_check (eq_refl (Some (Ret first_session))). Qed.

Example whole_run :
  match exec_all static_factory (test_events ++ [Signalled SIGTERM; Wait_finished SIGTERM; Run_returned]) test_server with
  | Some (Exited code srv) =>
      code = 0%Z ∧ is_open (acceptor_ srv) = false ∧
      ((λ o : outcome HTTP_Session, match o with Ret s => Some (status_of <$> written_ s) | _ => None end)
         <$> sessions_ (acceptor_ srv)) = [Some [200%Z; 200%Z]; Some []]
  | _ => False
  end.
Proof. vm_compute. repeat split. Qed.

Lemma server_answers_as_configured_witness :
  ∃ l R s, config_routes static_factory l R ∧ sessions_ (acceptor_ (after test_events)) !! 0 = Some (Ret s) ∧
    Forall2 (answers static_factory R) [echo_request; echo_request] (written_ s).
Proof.
  destruct (server_answers_as_configured static_factory (at_start installed_disk) [] test_server
    (after test_events) test_events eq_refl test_main_eq test_run) as (l & R & _ & HR & H).
  destruct (H 0 _ first_session_eq) as (s & Hs & _ & Ha). exists l, R, s. rewrite <-Hs.
  exact (conj HR (conj first_session_eq Ha)).
Defined.


Lemma term_signal_shuts_down_witness :
  ∃ s' srv', runs static_factory test_server (test_events ++ [Signalled SIGINT; Wait_finished s'; Run_returned])
    (Exited EXIT_SUCCESS srv').
Proof.
  destruct (term_signal_shuts_down static_factory (at_start installed_disk) [] test_server
    (after test_events) test_events SIGINT test_main_eq test_run eq_refl) as (s' & srv' & H & _).
  - by apply (bool_decide_unpack _).
  - exists s', srv'. exact H.
Defined.

Lemma fatal_signals_swallowed_witness :
  ∃ b, deliver SIGSEGV (after test_events) =
    Running (mkServer (startup_ (after test_events)) (acceptor_ (after test_events)) (term_act_ (after test_events)) b
      (dispositions_ (after test_events)) false).
Proof.
  destruct (fatal_signals_swallowed static_factory (at_start installed_disk) [] test_server
    (after test_events) test_events SIGSEGV test_main_eq test_run) as (_ & b & H & _).
  - by apply (bool_decide_unpack _).
  - by apply (bool_decide_unpack _).
  - exists b. exact H.
Defined.

Lemma lost_peer_ends_server_witness :
  runs static_factory test_server (test_events ++ [Completed 1 (Read_failed (other_error 104) false)])
    (Terminated (lit "remote_endpoint")).
Proof.
  apply (lost_peer_ends_server static_factory (at_start installed_disk) [] test_server
    (after test_events) test_events 1 (mkSession true None Fresh (Some Reading) []) (other_error 104) test_main_eq
    test_run); reflexivity.
Defined.

Lemma failed_accept_leaves_server_deaf_witness :
  is_open (acceptor_ (after [Accepted (other_error 24)])) = false.
Proof.
  apply (failed_accept_leaves_server_deaf static_factory (at_start installed_disk) [] test_server
    (after [Accepted (other_error 24)]) [Accepted (other_error 24)] (other_error 24) test_main_eq
    deaf_run); [by constructor|reflexivity].
Defined.

Lemma main_exits_witness :
  ∃ srv, main static_factory (at_start installed_disk) [] = Ret (inr srv) ∧ host (settings_ (startup_ srv)) = lit "127.0.0.1".
Proof.
  destruct (main_exits static_factory (at_start installed_disk) []) as [_ H].
  destruct (H (startup_ test_server)) as (srv & Hs & Hst); [reflexivity..|].
  exists srv. split; [exact Hs|]. rewrite Hst. reflexivity.
Defined.
