(* ===== verification/CurlClient.v ===== *)
(** The HTTP client: [curl_client/curl_client.cpp] and its headers.

    libcurl is the class [Curl]: it takes or refuses the value of an option; a
    transfer sees the options that were set on the handle since it was reset, calls
    the two writers and returns a code.  A [char*] is what libcurl reads there, the
    bytes before the first NUL; a list of headers is what its nodes hold, the null
    list is empty. *)

From S2P Require Import Prelude Beast.

#[local] Open Scope Z_scope.

(** ** The options the client sets *)

Inductive curl_option :=
| HTTPGET | POST | URL | CONNECTTIMEOUT | TIMEOUT | FOLLOWLOCATION | SSL_VERIFYPEER | SSL_VERIFYHOST
| USERAGENT | HEADERFUNCTION | HEADERDATA | WRITEFUNCTION | WRITEDATA | HTTPHEADER | POSTFIELDS
| POSTFIELDSIZE | ERRORBUFFER.

#[export] Instance curl_option_eq_dec : EqDecision curl_option.
Proof. solve_decision. Defined.

Inductive pointer := header_writer_fn | body_writer_fn | resp_headers | resp_body | errbuf.

(** [Chars] is a string libcurl copies up to its NUL, [Bytes] memory that is not
    copied and whose length is another option. *)
Inductive option_value :=
| Long (z : Z)
| Chars (s : str)
| Bytes (s : str)
| Slist (l : list str)
| Pointer (p : pointer).

Abbreviation options := (list (curl_option * option_value)).

(** The handle: null, or the options set since the last reset. *)
Abbreviation CURL := (option options).

Class Curl (W : Type) := {
  (** whether [curl_easy_setopt] takes the value; it refuses negative timeouts, say,
      and what there is no memory for, and the option is then as it was *)
  curl_easy_setopt : W → curl_option → option_value → bool;
  (** the new list, or null when memory runs out *)
  curl_slist_append : list str → str → option (list str);
  (** the header lines and the pieces of the body that are written, the code *)
  curl_easy_perform : options → W → list str * list str * Z * W;
  (** [CURLINFO_RESPONSE_CODE]: the code, the status *)
  curl_easy_getinfo : W → Z * Z
}.

Definition CURLE_OK : Z := 0.

(** What is read through [s.c_str()] up to the NUL. *)
Fixpoint c_str (s : str) : str :=
  match s with
  | [] => []
  | c :: s => if decide (c = "000"%char) then [] else c :: c_str s
  end.

(** ** [curl_request.h], [curl_response.h] *)

Inductive CURL_HTTP_Method := GET | POST_method.

Record CURL_Request := mkCurlRequest {
  method : CURL_HTTP_Method;
  target : str;
  req_headers : list str;
  req_body : str;
  connect_timeout : Z;
  transfer_timeout : Z;
  follow_redirects : bool;
  verify_ssl_peer : bool;
  verify_ssl_host : bool;
  user_agent : str
}.

Definition default_request `{Config} (m : CURL_HTTP_Method) (tgt : str) : CURL_Request :=
  mkCurlRequest m tgt [] [] 10 30 true true true PROJECT_NAME.

Record CURL_Response := mkCurlResponse {
  status : Z;
  resp_headers_ : list str;
  resp_body_ : str
}.

Definition clear_response (r : CURL_Response) : CURL_Response := mkCurlResponse 0 [] [].

Section Curl_Client.
Context {W : Type} {CU : Curl W}.

(** ** The code *)

(** [curl_easy_setopt(curl_, o, v)], whose result the client ignores. *)
Definition setopt (w : W) (o : curl_option) (v : option_value) (opts : options) : options :=
  if curl_easy_setopt w o v then opts ++ [(o, v)] else opts.

Definition header_writer (buff : str) (r : CURL_Response) : CURL_Response :=
  mkCurlResponse (status r) (resp_headers_ r ++ [buff]) (resp_body_ r).

Definition body_writer (buff : str) (r : CURL_Response) : CURL_Response :=
  mkCurlResponse (status r) (resp_headers_ r) (resp_body_ r ++ buff).

Definition setup_common_options (w : W) (req : CURL_Request) (opts : options) : options :=
  let opts := setopt w URL (Chars (c_str (target req))) opts in
  let opts := setopt w CONNECTTIMEOUT (Long (connect_timeout req)) opts in
  let opts := setopt w TIMEOUT (Long (transfer_timeout req)) opts in
  let opts := if follow_redirects req then setopt w FOLLOWLOCATION (Long 1) opts else opts in
  let opts := if verify_ssl_peer req then setopt w SSL_VERIFYPEER (Long 1) opts else opts in
  let opts := if verify_ssl_host req then setopt w SSL_VERIFYHOST (Long 1) opts else opts in
  let opts := if bool_decide (user_agent req = []) then opts else setopt w USERAGENT (Chars (c_str (user_agent req))) opts in
  let opts := setopt w HEADERFUNCTION (Pointer header_writer_fn) opts in
  let opts := setopt w HEADERDATA (Pointer resp_headers) opts in
  let opts := setopt w WRITEFUNCTION (Pointer body_writer_fn) opts in
  setopt w WRITEDATA (Pointer resp_body) opts.

(** The list built so far is given up whether or not the append succeeds. *)
Definition append_header (l : list str) (h : str) : list str := default [] (curl_slist_append l (c_str h)).

Definition setup_headers (w : W) (req : CURL_Request) (opts : options) : options :=
  let ptr := foldl append_header [] (req_headers req) in
  setopt w HTTPHEADER (Slist ptr) opts.

Definition perform_request (opts : options) (r : CURL_Response) (w : W) : bool * options * CURL_Response * W :=
  let opts := setopt w ERRORBUFFER (Pointer errbuf) opts in
  let '(headers, chunks, rc, w) := curl_easy_perform opts w in
  let r := foldl (λ r h, header_writer h r) r headers in
  let r := foldl (λ r b, body_writer b r) r chunks in
  if negb (rc =? CURLE_OK) then (false, opts, r, w)
  else
    let '(rc, st) := curl_easy_getinfo w in
    if negb (rc =? CURLE_OK) then (false, opts, r, w)
    else (true, opts, mkCurlResponse st (resp_headers_ r) (resp_body_ r), w).

Definition send (curl : CURL) (req : CURL_Request) (r : CURL_Response) (w : W) : bool * CURL * CURL_Response * W :=
  match curl with
  | None => (false, None, r, w)
  | Some _ =>
      let opts : options := [] in
      let r := clear_response r in
      let opts := match method req with
                  | GET => setopt w HTTPGET (Long 1) opts
                  | POST_method => setopt w POST (Long 1) opts
                  end in
      let opts := setup_common_options w req opts in
      let opts := setup_headers w req opts in
      let opts := match method req with
                  | GET => opts
                  | POST_method =>
                      let opts := setopt w POSTFIELDS (Bytes (req_body req)) opts in
                      setopt w POSTFIELDSIZE (Long (Z.of_nat (length (req_body req)))) opts
                  end in
      let '(ok, opts, r, w) := perform_request opts r w in
      (ok, Some opts, r, w)
  end.

(** [curl_easy_init] gives a handle without options, or null when it fails. *)
Definition CURL_Client_new (init : bool) : CURL := if init then Some [] else None.

(** [~CURL_Client]: what [curl_easy_cleanup] is given, if it is called. *)
Definition CURL_Client_destroy (curl : CURL) : option options :=
  match curl with Some opts => Some opts | None => None end.

(** ** Reference definitions *)

Definition value_of (o : curl_option) (opts : options) : option option_value :=
  snd <$> last (filter (λ ov, ov.1 = o) opts).

(** A flag that is set to 1 or not set at all. *)
Definition flag (b : bool) : option option_value := if b then Some (Long 1) else None.

(** The options a request asks for. *)
Definition asked (req : CURL_Request) (headers : list str) (o : curl_option) : option option_value :=
  match o with
  | HTTPGET => match method req with GET => Some (Long 1) | POST_method => None end
  | POST => match method req with POST_method => Some (Long 1) | GET => None end
  | URL => Some (Chars (c_str (target req)))
  | CONNECTTIMEOUT => Some (Long (connect_timeout req))
  | TIMEOUT => Some (Long (transfer_timeout req))
  | FOLLOWLOCATION => flag (follow_redirects req)
  | SSL_VERIFYPEER => flag (verify_ssl_peer req)
  | SSL_VERIFYHOST => flag (verify_ssl_host req)
  | USERAGENT => if decide (user_agent req = []) then None else Some (Chars (c_str (user_agent req)))
  | HEADERFUNCTION => Some (Pointer header_writer_fn)
  | HEADERDATA => Some (Pointer resp_headers)
  | WRITEFUNCTION => Some (Pointer body_writer_fn)
  | WRITEDATA => Some (Pointer resp_body)
  | HTTPHEADER => Some (Slist headers)
  | POSTFIELDS => match method req with POST_method => Some (Bytes (req_body req)) | GET => None end
  | POSTFIELDSIZE => match method req with POST_method => Some (Long (Z.of_nat (length (req_body req)))) | GET => None end
  | ERRORBUFFER => Some (Pointer errbuf)
  end.

(** Those of them that libcurl takes. *)
Definition taken (w : W) (o : curl_option) (v : option option_value) : option option_value :=
  match v with Some v => if curl_easy_setopt w o v then Some v else None | None => None end.

(** ** Lemmas *)

Lemma write_headers l r :
  foldl (λ r h, header_writer h r) r l = mkCurlResponse (status r) (resp_headers_ r ++ l) (resp_body_ r).
Proof.
  revert r. induction l as [|h l IH]; intros r; simpl; [by rewrite app_nil_r; destruct r|].
  rewrite IH. simpl. by rewrite <-app_assoc.
Qed.

Lemma write_body l r :
  foldl (λ r b, body_writer b r) r l = mkCurlResponse (status r) (resp_headers_ r) (resp_body_ r ++ mjoin l).
Proof.
  revert r. induction l as [|b l IH]; intros r; csimpl; [by rewrite app_nil_r; destruct r|].
  rewrite IH. simpl. by rewrite <-app_assoc.
Qed.

Lemma append_headers l hs :
  (∀ l h, h ∈ hs → curl_slist_append l (c_str h) = Some (l ++ [c_str h])) → foldl append_header l hs = l ++ (c_str <$> hs).
Proof.
  revert l. induction hs as [|h hs IH]; intros l H; csimpl; [by rewrite app_nil_r|].
  rewrite IH by (intros; apply H; set_solver). unfold append_header. rewrite H by set_solver.
  simpl. by rewrite <-app_assoc.
Qed.

Lemma value_of_same w o v opts :
  value_of o opts = None → value_of o (setopt w o v opts) = taken w o (Some v).
Proof.
  intros Hn. unfold setopt, taken. destruct (curl_easy_setopt w o v); [|done].
  unfold value_of. by rewrite filter_app, last_app, filter_cons_True.
Qed.

Lemma value_of_other w o o' v opts : o' ≠ o → value_of o (setopt w o' v opts) = value_of o opts.
Proof.
  intros Ho. unfold setopt, value_of. destruct (curl_easy_setopt w o' v); [|done].
  rewrite filter_app, last_app. by rewrite filter_cons_False.
Qed.

Lemma value_of_other_if (b : bool) w o o' v opts :
  o' ≠ o → value_of o (if b then setopt w o' v opts else opts) = value_of o opts.
Proof. intros Ho. destruct b; [by apply value_of_other|done]. Qed.

(** The options that are not asked about. *)
Ltac skip_options :=
  repeat first [rewrite value_of_other by done|rewrite value_of_other_if by done].

(** ** Properties *)

(** C37: the transfer of a request.  It is made with exactly those of the options the
    request asks for that libcurl takes: one it refuses (a negative timeout, a
    string there is no memory for) is left unset, for the client ignores the result;
    the target, the user agent and the headers are cut at their first NUL, the body
    of a POST is not; every header is there when memory suffices; and nothing is
    left of an earlier request, whatever the handle was used for.  The response is
    what this transfer wrote, the old one is dropped; the result is true when the
    transfer and the query of its status succeeded, and only then the status is
    theirs.  A null handle fails without a transfer. *)
Theorem send_transfers_request (curl : CURL) (req : CURL_Request) (r : CURL_Response) (w : W) :
  (∀ l h, h ∈ req_headers req → curl_slist_append l (c_str h) = Some (l ++ [c_str h])) →
  match curl with
  | None => send curl req r w = (false, None, r, w)
  | Some _ =>
      ∃ opts, (∀ o, value_of o opts = taken w o (asked req (c_str <$> req_headers req) o)) ∧
        let '(headers, chunks, rc, w') := curl_easy_perform opts w in
        let '(rc', st) := curl_easy_getinfo w' in
        let ok := (rc =? CURLE_OK) && (rc' =? CURLE_OK) in
        send curl req r w =
          (ok, Some opts, mkCurlResponse (if ok then st else 0) headers (mjoin chunks), w')
  end.
Proof.
  intros Happ. destruct curl as [old|]; [|done]. unfold send, perform_request, setup_headers.
  rewrite (append_headers [] _ Happ). rewrite app_nil_l. set (opts := setopt w ERRORBUFFER _ _).
  exists opts. split.
  - unfold opts, setup_common_options, asked, flag. clear.
    intros o. destruct req as [m tgt hs body ct tt f vp vh ua]. cbn [method target req_headers req_body connect_timeout
      transfer_timeout follow_redirects verify_ssl_peer verify_ssl_host user_agent]. cbv zeta.
    case_decide as Hua; [rewrite (bool_decide_true (ua = [])) by done|rewrite (bool_decide_false (ua = [])) by done].
    all: destruct m, o; skip_options; try done; try (apply value_of_same; by skip_options).
    all: case_match; skip_options; try done; apply value_of_same; by skip_options.
  - destruct (curl_easy_perform opts w) as [[[headers chunks] rc] w'].
    destruct (curl_easy_getinfo w') as [rc' st]. rewrite write_headers, write_body. simpl.
    destruct (rc =? CURLE_OK); simpl; [|done]. by destruct (rc' =? CURLE_OK).
Qed.

(** The requests of a client's life, one after the other. *)
Fixpoint sends (reqs : list CURL_Request) (curl : CURL) (r : CURL_Response) (w : W) : list (bool * CURL_Response) * CURL * W :=
  match reqs with
  | [] => ([], curl, w)
  | req :: reqs =>
      let '(ok, curl, r, w) := send curl req r w in
      let '(rs, curl, w) := sends reqs curl r w in
      ((ok, r) :: rs, curl, w)
  end.

(** [CURLOPT_ERRORBUFFER] takes any pointer. *)
Definition takes_error_buffer : Prop := ∀ w, curl_easy_setopt w ERRORBUFFER (Pointer errbuf) = true.

Lemma send_error_buffer curl req r w ok curl' r' w' :
  takes_error_buffer → send curl req r w = (ok, curl', r', w') →
  match curl with None => curl' = None | Some _ => ∃ opts, curl' = Some opts ∧ value_of ERRORBUFFER opts = Some (Pointer errbuf) end.
Proof.
  intros Htake. destruct curl as [old|]; [|by simpl; intros [= _ <- _ _]]. unfold send, perform_request. set (opts := setopt w ERRORBUFFER _ _).
  assert (value_of ERRORBUFFER opts = Some (Pointer errbuf)) as Hv.
  { unfold opts, value_of, setopt. by rewrite Htake, filter_app, last_app. }
  destruct (curl_easy_perform opts w) as [[[headers chunks] rc] w1]. destruct (curl_easy_getinfo w1) as [rc' st].
  intros H. exists opts. split; [|done]. destruct (negb (rc =? CURLE_OK)); [|destruct (negb (rc' =? CURLE_OK))]; by injection H as _ <- _ _.
Qed.

(** After any request the handle is cleaned up with the error buffer of a
    [perform_request] that returned: an array that does not exist any more. *)
Theorem cleanup_sees_dead_buffer (reqs : list CURL_Request) (r : CURL_Response) (w : W) (rs : list (bool * CURL_Response)) curl w' :
  takes_error_buffer → sends reqs (CURL_Client_new true) r w = (rs, curl, w') →
  length rs = length reqs ∧
  ∃ opts, CURL_Client_destroy curl = Some opts ∧
    value_of ERRORBUFFER opts = if decide (reqs = []) then None else Some (Pointer errbuf).
Proof.
  intros Htake. assert (∀ reqs r w rs old curl w', sends reqs (Some old) r w = (rs, curl, w') →
    length rs = length reqs ∧ ∃ opts, curl = Some opts ∧ (reqs = [] → opts = old) ∧
      (reqs ≠ [] → value_of ERRORBUFFER opts = Some (Pointer errbuf))) as H.
  { clear -Htake. induction reqs as [|req reqs IH]; intros r w rs old curl w'; [intros [= <- <- <-]; split; [done|by exists old]|].
    cbn [sends]. destruct (send (Some old) req r w) as [[[ok c1] r1] w1] eqn:E.
    apply (send_error_buffer _ _ _ _ _ _ _ _ Htake) in E as (opts1 & -> & Hv). destruct (sends reqs (Some opts1) r1 w1) as [[rs2 c2] w2] eqn:E2.
    intros [= <- <- <-]. apply IH in E2 as (Hl & opts & -> & Hn & Hs). split; [simpl; lia|].
    exists opts. split_and!; [done..|]. intros _. destruct reqs; [by rewrite Hn|by apply Hs]. }
  intros (Hl & opts & -> & Hn & Hs)%H. split; [done|]. exists opts. split; [done|].
  case_decide as Hd; [by rewrite (Hn Hd)|by apply Hs].
Qed.
End Curl_Client.

(** ** A library to run with

    It refuses negative timeouts. *)

#[export] Instance echo_curl : Curl nat := {
  curl_easy_setopt _ o v :=
    match o, v with (CONNECTTIMEOUT | TIMEOUT), Long z => 0 <=? z | _, _ => true end;
  curl_slist_append l h := Some (l ++ [h]);
  curl_easy_perform opts w := ([lit "HTTP/1.1 200 OK"], [lit "o"; lit "k"], 0, S w);
  curl_easy_getinfo w := (0, 200)
}.

Definition insecure : CURL_Request :=
  mkCurlRequest POST_method (lit "https://host/") [lit "A: b"] (lit "body") 10 (-1) false false false [].

Lemma send_transfers_request_witness :
  ∃ opts, value_of POSTFIELDS opts = Some (Bytes (lit "body")) ∧ value_of HTTPGET opts = None ∧ value_of TIMEOUT opts = None ∧
    send (Some [(HTTPGET, Long 1)]) insecure (mkCurlResponse 500 [] (lit "old")) 0%nat
      = (true, Some opts, mkCurlResponse 200 [lit "HTTP/1.1 200 OK"] (lit "ok"), 1%nat).
Proof.
  destruct (send_transfers_request (Some [(HTTPGET, Long 1)]) insecure (mkCurlResponse 500 [] (lit "old")) 0%nat)
    as (opts & Ho & Hs); [reflexivity|].
  exists opts. exact (conj (Ho POSTFIELDS) (conj (Ho HTTPGET) (conj (Ho TIMEOUT) Hs))).
Defined.

(** Asking for no verification sets nothing: libcurl verifies by default. *)
Example verification_is_never_turned_off :
  asked insecure [] SSL_VERIFYPEER = None ∧ asked insecure [] SSL_VERIFYHOST = None.
Proof. done. Qed.

(** A NUL byte in a target or in a header cuts it off. *)
Example target_is_cut :
  asked (mkCurlRequest GET (lit "http://host/a" ++ "000"%char :: lit "b") [] [] 10 30 true true true []) [] URL =
  Some (Chars (lit "http://host/a")).
Proof. reflexivity. Qed.
