(* ===== verification/CurlMemory.v ===== *)
(** Who owns the header lists of [curl_client/]: [curl_slist_ptr.h] and
    [CURL_Client::setup_headers], on the heap of libcurl's lists.

    [CurlClient] passes lists by value; here a list is an object that
    [curl_slist_append] makes or extends and [curl_slist_free_all] destroys, and
    [CURL_Slist_Ptr] is the [unique_ptr] that owns one. *)

From S2P Require Import Prelude Beast CurlClient.

#[local] Open Scope Z_scope.

Section Curl_Memory.
Context {W : Type} {CU : Curl W}.

Abbreviation loc := nat.

(** The lists that were not freed, by their heads. *)
Record Slists := mkSlists { lists_ : gmap loc (list str); next_ : loc }.

(** A [curl_slist*], and a [CURL_Slist_Ptr]. *)
Abbreviation slist_ptr := (option loc).

Definition contents (p : slist_ptr) (m : Slists) : outcome (list str) :=
  match p with None => Ret [] | Some l => deref (lists_ m !! l) end.

(** [curl_slist_append(p, h)]: the list is extended in place, a null one is made; null
    when memory runs out, and the list stays. *)
Definition slist_append (p : slist_ptr) (h : str) (m : Slists) : outcome (slist_ptr * Slists) :=
  let! l := contents p m in
  match curl_slist_append l h, p with
  | None, _ => Ret (None, m)
  | Some l', Some a => Ret (Some a, mkSlists (<[a := l']> (lists_ m)) (next_ m))
  | Some l', None => Ret (Some (next_ m), mkSlists (<[next_ m := l']> (lists_ m)) (S (next_ m)))
  end.

(** ** The code *)

(** [CURL_Slist_Deleter]: freeing what is not there is undefined. *)
Definition CURL_Slist_Deleter (p : slist_ptr) (m : Slists) : outcome Slists :=
  match p with
  | None => Ret m
  | Some l => let! _ := deref (lists_ m !! l) in Ret (mkSlists (delete l (lists_ m)) (next_ m))
  end.

(** [ptr.reset(q)]: the list owned before is freed. *)
Definition reset (p q : slist_ptr) (m : Slists) : outcome (slist_ptr * Slists) :=
  let! m := CURL_Slist_Deleter p m in Ret (q, m).

(** One header: [release] gives the list up without freeing it. *)
Definition add_header (h : str) (pm : slist_ptr * Slists) : outcome (slist_ptr * Slists) :=
  let '(ptr, m) := pm in
  let! '(new_list, m) := slist_append ptr (c_str h) m in
  let ptr := None in
  reset ptr new_list m.

Fixpoint add_headers (hs : list str) (pm : slist_ptr * Slists) : outcome (slist_ptr * Slists) :=
  match hs with
  | [] => Ret pm
  | h :: hs => let! pm := add_header h pm in add_headers hs pm
  end.

Definition setup_headers (req : CURL_Request) (m : Slists) : outcome (slist_ptr * Slists) :=
  add_headers (req_headers req) (None, m).

(** The part of [send] from [setup_headers] on: what the transfer reads in the list
    that [CURLOPT_HTTPHEADER] points to, and the heap when [hdr] was destroyed. *)
Definition send_headers (req : CURL_Request) (m : Slists) : outcome (list str * Slists) :=
  let! '(hdr, m) := setup_headers req m in
  let! seen := contents hdr m in
  let! m := CURL_Slist_Deleter hdr m in
  Ret (seen, m).

(** ** Lemmas *)

(** The list under construction is there, the others are as before. *)
Definition building (m0 : Slists) (l : list str) (pm : slist_ptr * Slists) : Prop :=
  (next_ m0 ≤ next_ pm.2)%nat ∧
  (∀ a, (a < next_ m0)%nat → lists_ pm.2 !! a = lists_ m0 !! a) ∧
  (∀ a, lists_ pm.2 !! a ≠ None → (a < next_ pm.2)%nat) ∧
  match pm.1 with
  | None => l = []
  | Some a => (next_ m0 ≤ a)%nat ∧ lists_ pm.2 !! a = Some l
  end.

(** No list but the one under construction was added. *)
Definition tidy (m0 : Slists) (pm : slist_ptr * Slists) : Prop :=
  ∀ a, (next_ m0 ≤ a)%nat → Some a ≠ pm.1 → lists_ pm.2 !! a = None.

Definition fits (hs : list str) : Prop := ∀ l h, h ∈ hs → is_Some (curl_slist_append l (c_str h)).

Lemma add_header_ok m0 l pm h : building m0 l pm →
  ∃ pm', add_header h pm = Ret pm' ∧ building m0 (append_header l h) pm' ∧
    (is_Some (curl_slist_append l (c_str h)) → tidy m0 pm → tidy m0 pm').
Proof.
  destruct pm as [p m]. intros (Hn & Hold & Hnext & Hp). simpl in *. unfold add_header, slist_append, append_header.
  assert (contents p m = Ret l) as ->.
  { unfold contents. destruct p as [a|]; [by destruct Hp as [_ ->]|by subst]. }
  cbn [obind]. destruct (curl_slist_append l (c_str h)) as [l'|].
  2: { eexists. split; [done|]. split; [done|]. by intros []. }
  destruct p as [a|]; cbn [obind reset CURL_Slist_Deleter]; (eexists; split; [done|]); (split; [split_and!; simpl|]).
  - done.
  - intros b Hb. rewrite lookup_insert_ne by lia. by apply Hold.
  - intros b. destruct (decide (a = b)) as [<-|Hab]; [|rewrite lookup_insert_ne by done; apply Hnext].
    intros _. apply Hnext. destruct Hp as [_ ->]. done.
  - split; [apply Hp|by rewrite lookup_insert_eq].
  - intros _ Ht b Hb Hne. simpl in *. rewrite lookup_insert_ne by congruence. by apply Ht.
  - lia.
  - intros b Hb. rewrite lookup_insert_ne by lia. by apply Hold.
  - intros b. destruct (decide (next_ m = b)) as [<-|Hab]; [lia|]. rewrite lookup_insert_ne by done.
    intros Hb%Hnext. lia.
  - split; [done|by rewrite lookup_insert_eq].
  - intros _ Ht b Hb Hne. simpl in *. rewrite lookup_insert_ne by congruence. by apply Ht.
Qed.

Lemma add_headers_ok m0 hs l pm : building m0 l pm →
  ∃ pm', add_headers hs pm = Ret pm' ∧ building m0 (foldl append_header l hs) pm' ∧
    (fits hs → tidy m0 pm → tidy m0 pm').
Proof.
  revert l pm. induction hs as [|h hs IH]; intros l pm Hb; [by exists pm|].
  destruct (add_header_ok m0 l pm h Hb) as (pm1 & H1 & Hb1 & Ht1).
  destruct (IH _ _ Hb1) as (pm2 & H2 & Hb2 & Ht2). exists pm2. simpl. rewrite H1. split_and!; [done..|].
  intros Hf Ht. apply Ht2; [intros l2 h2 Hin; apply Hf; set_solver|]. apply Ht1; [|done]. apply Hf. set_solver.
Qed.

(** ** Properties *)

(** C36: the header list of a request is owned as it should be: it is never freed
    twice or used after it was freed, the transfer reads in it exactly the headers
    of [CurlClient], lists of others are left alone; and when memory suffices
    nothing leaks: after [send] the lists are those that were there before it. *)
Theorem header_list_freed_once (req : CURL_Request) (m : Slists)
    (Hm : ∀ a, lists_ m !! a ≠ None → (a < next_ m)%nat) :
  ∃ m', send_headers req m = Ret (foldl append_header [] (req_headers req), m') ∧
    (∀ a, (a < next_ m)%nat → lists_ m' !! a = lists_ m !! a) ∧
    (fits (req_headers req) → lists_ m' = lists_ m).
Proof.
  destruct (add_headers_ok m (req_headers req) [] (None, m)) as ([p m1] & H1 & Hb & Ht); [by split_and!|].
  destruct Hb as (Hn & Hold & Hnext & Hp). simpl in *. unfold send_headers, setup_headers. rewrite H1. cbn [obind].
  assert (∀ a, (next_ m ≤ a)%nat → lists_ m !! a = None) as Hnew.
  { intros a Ha. destruct (lists_ m !! a) eqn:E; [|done]. assert (a < next_ m)%nat; [apply Hm; by rewrite E|lia]. }
  assert (tidy m (None, m)) as Ht0 by (intros a Ha _; by apply Hnew).
  destruct p as [a|]; simpl in *.
  - destruct Hp as [Ha Hl]. rewrite Hl. simpl. eexists. split; [done|]. simpl. split.
    + intros b Hb. rewrite lookup_delete_ne by lia. by apply Hold.
    + intros Hf. apply map_eq. intros b. destruct (decide (a = b)) as [<-|Hab]; [by rewrite lookup_delete_eq, Hnew|].
      rewrite lookup_delete_ne by done. destruct (decide (b < next_ m)%nat); [by apply Hold|].
      rewrite Hnew by lia. apply (Ht Hf Ht0 b); simpl; [lia|congruence].
  - rewrite Hp. eexists. split; [done|]. split; [done|]. intros Hf. apply map_eq. intros b.
    destruct (decide (b < next_ m)%nat); [by apply Hold|].
    rewrite Hnew by lia. by apply (Ht Hf Ht0 b); simpl; [lia|].
Qed.
End Curl_Memory.

(** ** When memory runs out *)

(** Lists of at most one header. *)
Definition small_curl : Curl nat := {|
  curl_easy_setopt _ _ _ := true;
  curl_slist_append l h := if decide (l = []) then Some [h] else None;
  curl_easy_perform opts w := ([], [], 0, w);
  curl_easy_getinfo w := (0, 200)
|}.

Definition two_headers : CURL_Request :=
  mkCurlRequest GET (lit "http://host/") [lit "A: b"; lit "C: d"] [] 10 30 true true true [].

(** [release] comes before [reset] also when the append failed: the list is lost, and
    the request goes out without headers. *)
Example failed_append_leaks :
  send_headers (CU := small_curl) two_headers (mkSlists ∅ 0) = Ret ([], mkSlists {[0%nat := [lit "A: b"]]} 1).
Proof. vm_compute. reflexivity. Qed.

Lemma header_list_freed_once_witness :
  ∃ m', send_headers (CU := echo_curl) two_headers (mkSlists ∅ 0) = Ret ([lit "A: b"; lit "C: d"], m') ∧ lists_ m' = ∅.
Proof.
  destruct (header_list_freed_once (CU := echo_curl) two_headers (mkSlists ∅ 0)) as (m' & Hs & _ & Hf).
  - intros a Ha. by destruct Ha.
  - exists m'. split; [exact Hs|]. apply Hf. intros l h _. by eexists.
Defined.
