(* ===== verification/Double.v ===== *)
(** The binary64 arithmetic of [Scheduler::compute_timeout]
    ([process/aps_scheduler.cpp]): conversion of an [int64_t], a product,
    [std::ceil] and the conversion back, on the standard library's
    specification of IEEE 754. *)

From S2P Require Import Prelude.
From Stdlib Require Import SpecFloat.

#[local] Open Scope Z_scope.

Definition prec64 : Z := 53.
Definition emax64 : Z := 1024.

(** The conversion of an integer to [double]. *)
Definition double_of_Z (z : Z) : spec_float := binary_normalize prec64 emax64 z 0 false.

Definition double_mul (x y : spec_float) : spec_float := SFmul prec64 emax64 x y.

(** The double [1.5]. *)
Definition double_1_5 : spec_float := S754_finite false 6755399441055744 (-52).

(** [std::ceil], as the integer it denotes; [None] for infinities and NaN. *)
Definition double_ceil (x : spec_float) : option Z :=
  match x with
  | S754_zero _ => Some 0
  | S754_finite s m e =>
      let z := if s then Zneg m else Zpos m in
      Some (if 0 <=? e then z * 2 ^ e else - ((- z) / 2 ^ (- e)))
  | _ => None
  end.

(** [static_cast<int64_t>] of an integral double: undefined out of range. *)
Definition int64_of (z : option Z) : outcome Z :=
  match z with
  | Some z => if (- 2 ^ 63 <=? z) && (z <? 2 ^ 63) then Ret z else UB
  | None => UB
  end.

(** ** Rounding what needs no rounding *)

Lemma digits2_pos_log2 p : Zpos (digits2_pos p) = Z.log2 (Zpos p) + 1.
Proof. induction p as [p IH|p IH|]; simpl; [| |done]; rewrite Pos2Z.inj_succ, IH; destruct p; simpl; lia. Qed.

Lemma Zdigits2_log2 m : 0 < m → Zdigits2 m = Z.log2 m + 1.
Proof. destruct m; [lia| |lia]. intros _. apply digits2_pos_log2. Qed.

Lemma iter_pos_nat {A} (f : A → A) p x : iter_pos f p x = Nat.iter (Pos.to_nat p) f x.
Proof.
  revert x. induction p as [p IH|p IH|]; intros x; cbn [iter_pos]; [| |done]; rewrite !IH.
  - rewrite Pos2Nat.inj_xI, Nat.iter_succ_r, <-Nat.iter_add. f_equal. lia.
  - rewrite Pos2Nat.inj_xO, <-Nat.iter_add. f_equal. lia.
Qed.

Lemma shr_1_exact m : 0 < m → shr_1 (Build_shr_record (2 * m) false false) = Build_shr_record m false false.
Proof. destruct m; [lia|done|lia]. Qed.

Lemma shr_exact n m : 0 < m →
  Nat.iter n shr_1 (Build_shr_record (m * 2 ^ Z.of_nat n) false false) = Build_shr_record m false false.
Proof.
  intros Hm. induction n as [|n IH]; [by rewrite Z.mul_1_r|].
  rewrite Nat.iter_succ_r, Nat2Z.inj_succ, Z.pow_succ_r by lia.
  replace (m * (2 * 2 ^ Z.of_nat n)) with (2 * (m * 2 ^ Z.of_nat n)) by ring.
  rewrite shr_1_exact by (apply Z.mul_pos_pos; lia). exact IH.
Qed.

Lemma log2_mul_pow2 m k : 0 < m → 0 <= k → Z.log2 (m * 2 ^ k) = Z.log2 m + k.
Proof. intros. rewrite <-Z.shiftl_mul_pow2 by lia. by apply Z.log2_shiftl. Qed.

(** A mantissa whose excess low bits are zero is only shifted. *)
Lemma round_exact q e k :
  0 < q → 0 <= k → Z.log2 q + 1 <= 53 → (k = 0 ∨ Z.log2 q + 1 = 53) →
  -1074 <= e + k <= 971 →
  binary_round_aux prec64 emax64 false (q * 2 ^ k) e loc_Exact = S754_finite false (Z.to_pos q) (e + k).
Proof.
  intros Hq Hk Hlog Hcase He. unfold binary_round_aux, shr_fexp.
  assert (0 < q * 2 ^ k) as Hpos by (apply Z.mul_pos_pos; lia).
  rewrite Zdigits2_log2, log2_mul_pow2 by done.
  assert (shr (Build_shr_record (q * 2 ^ k) false false) e
            (fexp prec64 emax64 (Z.log2 q + k + 1 + e) - e) =
          (Build_shr_record q false false, e + k)) as Hshr.
  { unfold fexp, emin, prec64, emax64. destruct Hcase as [->|Hcase].
    - rewrite Z.mul_1_r, !Z.add_0_r.
      destruct (Z.max (Z.log2 q + 1 + e - 53) (3 - 1024 - 53) - e) eqn:E; simpl; [done|lia|done].
    - replace (Z.max (Z.log2 q + k + 1 + e - 53) (3 - 1024 - 53) - e) with k by lia.
      destruct k as [|p|p]; [by rewrite Z.mul_1_r, Z.add_0_r| |lia].
      simpl. rewrite iter_pos_nat. f_equal.
      rewrite <-(positive_nat_Z p). by apply shr_exact. }
  simpl (shr_record_of_loc _ _). rewrite Hshr. cbn [shr_m loc_of_shr_record round_nearest_even].
  rewrite Zdigits2_log2 by done. cbn [shr_record_of_loc].
  assert (shr (Build_shr_record q false false) (e + k)
            (fexp prec64 emax64 (Z.log2 q + 1 + (e + k)) - (e + k)) =
          (Build_shr_record q false false, e + k)) as ->.
  { unfold fexp, emin, prec64, emax64.
    destruct (Z.max (Z.log2 q + 1 + (e + k) - 53) (3 - 1024 - 53) - (e + k)) eqn:E; simpl; [done|lia|done]. }
  cbn [shr_m]. destruct q as [|p|p]; [lia| |lia].
  unfold emax64, prec64. destruct (Z.leb_spec (e + k) (1024 - 53)); [done|lia].
Qed.

Lemma iter_xO p d : Zpos (Pos.iter xO p d) = Zpos p * 2 ^ Zpos d.
Proof.
  induction d as [|d IH] using Pos.peano_ind; [simpl; lia|].
  rewrite Pos.iter_succ, Pos2Z.inj_succ, Z.pow_succ_r, Pos2Z.inj_xO, IH by lia. ring.
Qed.

Lemma shl_align_pow2 p ex ex' :
  ex' <= ex → ∃ m, shl_align p ex ex' = (m, ex') ∧ Zpos m = Zpos p * 2 ^ (ex - ex').
Proof.
  intros Hle. unfold shl_align. destruct (ex' - ex) as [|d|d] eqn:E; [|lia|].
  - replace ex' with ex by lia. exists p. by rewrite Z.sub_diag, Z.mul_1_r.
  - replace (ex - ex') with (Zpos d) by lia. eexists. split; [done|]. apply iter_xO.
Qed.

(** ** A small integer times 1.5 *)

(** Integers below [2^53] convert exactly, to a mantissa of 53 bits. *)
Lemma double_of_Z_exact z :
  0 < z < 2 ^ 53 →
  ∃ m, double_of_Z z = S754_finite false m (Z.log2 z - 52) ∧ Zpos m = z * 2 ^ (52 - Z.log2 z).
Proof.
  intros Hz. destruct z as [|p|p]; [lia| |lia].
  assert (0 <= Z.log2 (Zpos p) < 53) as Hlog by (split; [apply Z.log2_nonneg|apply Z.log2_lt_pow2; lia]).
  unfold double_of_Z, binary_normalize, binary_round. rewrite digits2_pos_log2, Z.add_0_r.
  replace (fexp prec64 emax64 (Z.log2 (Zpos p) + 1)) with (Z.log2 (Zpos p) - 52)
    by (unfold fexp, emin, prec64, emax64; lia).
  destruct (shl_align_pow2 p 0 (Z.log2 (Zpos p) - 52)) as (m & -> & Hm); [lia|].
  replace (0 - (Z.log2 (Zpos p) - 52)) with (52 - Z.log2 (Zpos p)) in Hm by lia.
  exists m. split; [|done].
  rewrite <-(Z.mul_1_r (Zpos m)). change 1 with (2 ^ 0).
  rewrite round_exact; [by rewrite Z.add_0_r|lia|lia| |by left|lia].
  rewrite Hm, log2_mul_pow2 by lia. lia.
Qed.

Lemma log2_triple z : 0 < z → Z.log2 z + 1 <= Z.log2 (3 * z) <= Z.log2 z + 2.
Proof.
  intros Hz. rewrite <-(log2_mul_pow2 z 1), <-(log2_mul_pow2 z 2) by lia.
  split; apply Z.log2_le_mono; lia.
Qed.

(** The product with 1.5 is exact below [2^51]. *)
Lemma double_mul_1_5_exact z :
  0 < z < 2 ^ 51 →
  ∃ m e, double_mul (double_of_Z z) double_1_5 = S754_finite false m e ∧ e <= -1 ∧
         Zpos m = 3 * z * 2 ^ (- e - 1).
Proof.
  intros Hz. destruct (double_of_Z_exact z) as (m & -> & Hm); [lia|].
  assert (0 <= Z.log2 z < 51) as Hlog by (split; [apply Z.log2_nonneg|apply Z.log2_lt_pow2; lia]).
  pose proof (log2_triple z) as H3. simpl double_mul. unfold double_mul, double_1_5, SFmul.
  set (k := Z.log2 (3 * z) - Z.log2 z + 51).
  assert (51 < k <= 53) as Hk by (unfold k; lia).
  set (q := 3 * z * 2 ^ (103 - Z.log2 z - k)).
  assert (0 < q) as Hq by (apply Z.mul_pos_pos; lia).
  assert (Zpos (m * 6755399441055744) = q * 2 ^ k) as ->.
  { assert (2 ^ (103 - Z.log2 z - k) * 2 ^ k = 2 ^ (52 - Z.log2 z) * 2 ^ 51) as Hpow
      by (rewrite <-!Z.pow_add_r by lia; f_equal; lia).
    unfold q. rewrite <-(Z.mul_assoc (3 * z)), Hpow, Pos2Z.inj_mul, Hm.
    change (Zpos 6755399441055744) with (3 * 2 ^ 51). ring. }
  assert (Z.log2 q + 1 = 53) as Hlq by (unfold q; rewrite log2_mul_pow2; lia).
  rewrite round_exact by (try lia; by right || lia).
  eexists _, _. split; [done|]. split; [lia|].
  rewrite Z2Pos.id by lia. unfold q. do 2 f_equal. lia.
Qed.

(** So rounding up the product rounds up the real number. *)
Lemma ceil_mul_1_5 z :
  0 < z < 2 ^ 51 → double_ceil (double_mul (double_of_Z z) double_1_5) = Some ((3 * z + 1) / 2).
Proof.
  intros Hz. destruct (double_mul_1_5_exact z Hz) as (m & e & -> & He & Hm). unfold double_ceil.
  destruct (Z.leb_spec 0 e); [lia|]. f_equal. rewrite Hm.
  replace (- e) with ((- e - 1) + 1) at 2 by lia.
  rewrite Z.pow_add_r, Z.mul_comm, <-Z.mul_opp_r by lia.
  rewrite Z.div_mul_cancel_l by lia.
  change (2 ^ 1) with 2. Z.to_euclidean_division_equations. lia.
Qed.
