(* ===== verification/P90.v ===== *)
(** The run time estimator: [process/aps_p90_estimator.cpp].

    Durations are whole seconds; [size_t] is 64 bits where the code computes
    with it.  [std::nth_element] is what the standard says of it: the element
    that sorting would put at the position. *)

From S2P Require Import Prelude.
From stdpp Require Import sorting.

#[local] Open Scope Z_scope.

(** ** The code *)

Record P90_Estimator := mkEstimator {
  capacity_ : nat;
  samples_ : list Z
}.

Definition P90_new (capacity : nat) : P90_Estimator := mkEstimator capacity [].

(** [samples_.pop_front()]: undefined on an empty deque. *)
Definition pop_front {A} (q : list A) : outcome (list A) :=
  match q with [] => UB | _ :: q => Ret q end.

Definition add (duration : Z) (e : P90_Estimator) : outcome P90_Estimator :=
  if duration <=? 0 then Ret e
  else
    let! samples :=
      if decide (capacity_ e ≤ length (samples_ e))%nat then pop_front (samples_ e)
      else Ret (samples_ e) in
    Ret (mkEstimator (capacity_ e) (samples ++ [duration])).

(** The index: [static_cast<size_t>((n * 9 + 9) / 10) - 1], capped. *)
Definition p90_index (n : Z) : Z :=
  let idx := u64 (u64 (u64 (n * 9) + 9) / 10 - 1) in
  Z.min idx (u64 (n - 1)).

Definition nth_element (v : list Z) (idx : Z) : outcome Z :=
  deref (merge_sort Z.le v !! Z.to_nat idx).

Definition compute (e : P90_Estimator) : outcome Z :=
  let n := Z.of_nat (length (samples_ e)) in
  if n =? 0 then Ret 0
  else nth_element (samples_ e) (p90_index n).

Definition size (e : P90_Estimator) : nat := length (samples_ e).

(** A sequence of [add]s. *)
Fixpoint add_all (ds : list Z) (e : P90_Estimator) : outcome P90_Estimator :=
  match ds with
  | [] => Ret e
  | d :: ds => let! e := add d e in add_all ds e
  end.

(** ** Reference definitions *)

(** How many samples satisfy a test. *)
Definition count (P : Z → bool) (l : list Z) : nat := length (List.filter P l).

(** The last [n] elements. *)
Definition lastn {A} (n : nat) (l : list A) : list A := drop (length l - n) l.

(** The durations [add] keeps. *)
Definition positives (ds : list Z) : list Z := filter (λ d, 0 < d) ds.

(** [p] is a 90th percentile: at least nine in ten samples are at most [p],
    fewer than nine in ten are below it. *)
Definition is_p90 (p : Z) (l : list Z) : Prop :=
  p ∈ l ∧
  9 * Z.of_nat (length l) <= 10 * Z.of_nat (count (λ x, x <=? p) l) ∧
  10 * Z.of_nat (count (λ x, x <? p) l) < 9 * Z.of_nat (length l).

(** The estimator after [ds], started empty. *)
Definition estimator_ok (e : P90_Estimator) : Prop :=
  Forall (λ d, 0 < d) (samples_ e) ∧ (length (samples_ e) ≤ capacity_ e)%nat.

(** ** Lemmas *)

Lemma count_perm P l l' : l ≡ₚ l' → count P l = count P l'.
Proof.
  unfold count. induction 1 as [|x l l' _ IH|x y l|l l' l'' _ IH1 _ IH2]; simpl; [done| | |congruence].
  - destruct (P x); simpl; congruence.
  - by destruct (P x), (P y).
Qed.

Lemma count_app P l l' : count P (l ++ l') = (count P l + count P l')%nat.
Proof. unfold count. by rewrite List.filter_app, length_app. Qed.

Lemma count_all P l : (∀ x, x ∈ l → P x = true) → count P l = length l.
Proof.
  intros H. unfold count. induction l as [|x l IH]; [done|]. simpl. rewrite H by set_solver. simpl.
  rewrite IH; [done|set_solver].
Qed.

Lemma count_none P l : (∀ x, x ∈ l → P x = false) → count P l = 0%nat.
Proof.
  intros H. unfold count. induction l as [|x l IH]; [done|]. simpl. rewrite H by set_solver.
  apply IH. set_solver.
Qed.

Lemma count_le P l : (count P l ≤ length l)%nat.
Proof. unfold count. induction l as [|x l IH]; simpl; [done|]. destruct (P x); simpl; lia. Qed.

#[local] Instance Zle_trans : Transitive Z.le := Z.le_trans.
#[local] Instance Zle_total : Total Z.le.
Proof. intros x y. lia. Qed.

Lemma sorted_le l i j x y :
  StronglySorted Z.le l → l !! i = Some x → l !! j = Some y → (i ≤ j)%nat → x <= y.
Proof.
  intros Hs. revert i j. induction Hs as [|z l Hs IH Hz]; intros i j Hi Hj Hle; [done|].
  destruct i as [|i], j as [|j]; simplify_eq/=; [lia| |lia|eapply IH; [done|done|lia]].
  rewrite Forall_forall in Hz. apply Hz. by eapply list_elem_of_lookup_2.
Qed.

Lemma p90_index_eq n :
  1 <= n < 2 ^ 60 →
  p90_index n = (9 * n + 9) / 10 - 1 ∧ 0 <= p90_index n < n ∧
  9 * n <= 10 * (p90_index n + 1) ∧ 10 * p90_index n < 9 * n.
Proof.
  intros Hn. unfold p90_index.
  rewrite (wrap_small 64 (n * 9)), (wrap_small 64 (n * 9 + 9)), (wrap_small 64 (n - 1)) by lia.
  rewrite wrap_small by (Z.to_euclidean_division_equations; lia).
  Z.to_euclidean_division_equations. lia.
Qed.

(** An element of a sorted list by its rank. *)
Lemma sorted_rank (l : list Z) i p :
  StronglySorted Z.le l → l !! i = Some p →
  (S i ≤ count (λ x, x <=? p)%Z l)%nat ∧ (count (λ x, x <? p)%Z l ≤ i)%nat.
Proof.
  intros Hs Hi. apply lookup_lt_Some in Hi as Hlt. split.
  - rewrite <-(take_drop (S i) l), count_app, (count_all _ (take (S i) l)).
    + rewrite length_take. lia.
    + intros x [j Hj]%list_elem_of_lookup. apply lookup_take_Some in Hj as [Hj Hji].
      apply Z.leb_le. eapply sorted_le; [done|done|done|lia].
  - rewrite <-(take_drop i l), count_app, (count_none _ (drop i l)).
    + pose proof (count_le (λ x, x <? p) (take i l)). rewrite length_take in *. lia.
    + intros x [j Hj]%list_elem_of_lookup. rewrite lookup_drop in Hj.
      apply Z.ltb_ge. eapply sorted_le; [done|done|done|lia].
Qed.

Lemma compute_p90 e :
  samples_ e ≠ [] → Z.of_nat (length (samples_ e)) < 2 ^ 60 →
  ∃ p, compute e = Ret p ∧ is_p90 p (samples_ e).
Proof.
  intros Hne Hlen. assert (1 <= Z.of_nat (length (samples_ e))) as H1.
  { destruct (samples_ e); [done|simpl; lia]. }
  destruct (p90_index_eq _ (conj H1 Hlen)) as (_ & Hidx & Hup & Hlow).
  unfold compute, nth_element. destruct (Z.eqb_spec (Z.of_nat (length (samples_ e))) 0); [lia|].
  set (i := Z.to_nat (p90_index _)).
  pose proof (merge_sort_Permutation Z.le (samples_ e)) as Hperm.
  pose proof (StronglySorted_merge_sort Z.le (samples_ e)) as Hs.
  assert (i < length (merge_sort Z.le (samples_ e)))%nat as Hi by (rewrite Hperm; unfold i; lia).
  apply lookup_lt_is_Some in Hi as [p Hp]. exists p. rewrite Hp. split; [done|].
  destruct (sorted_rank _ _ _ Hs Hp) as [Hle Hlt]. rewrite !(count_perm _ _ _ Hperm) in *.
  split_and!; [|unfold i in *; lia..].
  rewrite <-Hperm. by eapply list_elem_of_lookup_2.
Qed.

Lemma add_ok d e :
  (1 ≤ capacity_ e)%nat → estimator_ok e →
  ∃ e', add d e = Ret e' ∧ capacity_ e' = capacity_ e ∧ estimator_ok e' ∧
        samples_ e' = (if d <=? 0 then samples_ e
                       else drop (S (length (samples_ e)) - capacity_ e) (samples_ e) ++ [d]).
Proof.
  intros Hcap [Hpos Hlen]. unfold add. destruct (Z.leb_spec d 0) as [Hd|Hd]; [by exists e|].
  case_decide as Hfull.
  - destruct (samples_ e) as [|x l] eqn:E; [simpl in *; lia|]. simpl in *.
    eexists. split; [done|]. apply Forall_cons in Hpos as [? ?].
    replace (S (S (length l)) - capacity_ e)%nat with 1%nat by lia.
    split_and!; [done| |done]. split; simpl; [apply Forall_app; auto|rewrite length_app; simpl; lia].
  - simpl. eexists. split; [done|].
    replace (S (length (samples_ e)) - capacity_ e)%nat with 0%nat by lia.
    split_and!; [done| |done]. split; simpl; [apply Forall_app; auto|rewrite length_app; simpl; lia].
Qed.

Lemma add_all_app ds ds' e : add_all (ds ++ ds') e = obind (add_all ds e) (add_all ds').
Proof.
  revert e. induction ds as [|d ds IH]; intros e; [done|]. simpl. rewrite obind_assoc.
  by destruct (add d e); simpl.
Qed.

Lemma add_all_ok ds e :
  (1 ≤ capacity_ e)%nat → estimator_ok e →
  ∃ e', add_all ds e = Ret e' ∧ capacity_ e' = capacity_ e ∧ estimator_ok e' ∧
        samples_ e' = lastn (capacity_ e) (samples_ e ++ positives ds).
Proof.
  revert e. induction ds as [|d ds IH]; intros e Hcap Hok.
  { exists e. split_and!; [done..|]. destruct Hok as [_ Hl].
    unfold lastn. rewrite app_nil_r. by replace (_ - _)%nat with 0%nat by lia. }
  destruct (add_ok d e Hcap Hok) as (e1 & Ha & Hc1 & Hok1 & Hs1). simpl. rewrite Ha. simpl.
  rewrite <-Hc1 in Hcap. destruct (IH e1 Hcap Hok1) as (e2 & -> & Hc2 & Hok2 & Hs2).
  exists e2. rewrite Hc1 in *. split_and!; [done..|]. rewrite Hs2, Hs1.
  unfold positives. destruct (Z.leb_spec d 0); [by rewrite filter_cons_False by lia|].
  rewrite filter_cons_True by lia. unfold lastn. destruct Hok as [_ Hl].
  rewrite !length_app, length_drop. simpl.
  rewrite <-app_assoc. simpl.
  set (l := samples_ e) in *. set (r := d :: filter _ ds).
  rewrite <-(drop_app_le l r (S (length l) - capacity_ e)) by lia.
  rewrite drop_drop. f_equal. lia.
Qed.

(** What a new estimator holds and answers after some durations. *)
Lemma p90_window cap ds :
  (1 ≤ cap)%nat → Z.of_nat cap < 2 ^ 60 →
  let window := lastn cap (positives ds) in
  ∃ e p, add_all ds (P90_new cap) = Ret e ∧ estimator_ok e ∧ capacity_ e = cap ∧ samples_ e = window ∧
    compute e = Ret p ∧ if decide (window = []) then p = 0 else is_p90 p window.
Proof.
  intros H1 H2 window.
  destruct (add_all_ok ds (P90_new cap) H1) as (e & Ha & Hcap & Hok & Hs).
  { split; [constructor|simpl; lia]. }
  change (samples_ e = window) in Hs. simpl in Hcap. exists e. case_decide as Hw.
  - exists 0. assert (compute e = Ret 0) by (unfold compute; by rewrite Hs, Hw). by split_and!.
  - destruct Hok as [Hpos Hlen]. destruct (compute_p90 e) as (p & Hp & Hp90); [by rewrite Hs|rewrite Hcap in Hlen; lia|].
    exists p. rewrite Hs in Hp90. by split_and!.
Qed.

(** ** Properties *)

(** C21: an estimator of positive capacity that is fed any durations holds, in
    order, the last [capacity] of the positive ones, and [compute] answers 0
    when there are none and a 90th percentile of exactly those otherwise: at
    least nine in ten of them are at most the answer, fewer than nine in ten
    are below it.  No step of it is undefined: the deque popped is never empty
    and the index is in range. *)
Theorem p90_of_last_samples cap ds :
  (1 ≤ cap)%nat → Z.of_nat cap < 2 ^ 60 →
  let window := lastn cap (positives ds) in
  ∃ e p, add_all ds (P90_new cap) = Ret e ∧ samples_ e = window ∧
    size e = (cap `min` length (positives ds))%nat ∧
    compute e = Ret p ∧
    (if decide (window = []) then p = 0 else is_p90 p window).
Proof.
  intros H1 H2 window. destruct (p90_window cap ds H1 H2) as (e & p & Ha & _ & _ & Hs & Hp & Hw).
  exists e, p. split_and!; [done..| |done|done]. unfold size. rewrite Hs. unfold window, lastn. rewrite length_drop. lia.
Qed.

Definition twelve : list Z := [5; -3; 40; 7; 0; 9; 8; 6; 12; 11; 10; 20; 3].

Lemma p90_of_last_samples_witness :
  ∃ e, add_all twelve (P90_new 10) = Ret e ∧ compute e = Ret 20.
Proof.
  destruct (p90_of_last_samples 10 twelve) as (e & p & He & _ & _ & Hp & _); [lia|lia|].
  exists e. split; [done|]. rewrite Hp. f_equal.
  assert (add_all twelve (P90_new 10) = Ret (mkEstimator 10 [40; 7; 9; 8; 6; 12; 11; 10; 20; 3])) as E
    by (vm_compute; reflexivity).
  rewrite E in He. injection He as <-. vm_compute in Hp. congruence.
Defined.

(** With capacity 0 the first positive duration pops an empty deque, which
    is undefined behaviour; a duration that is not positive is dropped before. *)
Theorem p90_capacity_zero_undefined d :
  add d (P90_new 0) = if d <=? 0 then Ret (P90_new 0) else UB.
Proof. unfold add. simpl. by destruct (d <=? 0). Qed.
