(* ===== verification/Aps.v ===== *)
(** The data of the process scheduler and its two containers:
    [process/process_options.h], [process/aps_job_specification.h],
    [process/aps_pending_job.h], [process/aps_running_job.h],
    [process/aps_finished_job.h], [process/aps_pending_queue.*],
    [process/aps_finished_istorage.h] and [process/aps_finished_storage.*].

    A [time_point] is a count of the clock's ticks since its epoch; an
    [unordered_map<string, _>] is a finite map, a deque a list. *)

From S2P Require Import Prelude.

(** ** The data *)

Record Process_Options := mkOptions {
  exe : str;
  args : list str;
  envs : gmap str str;
  interactive : bool
}.

Definition default_options : Process_Options := mkOptions [] [] ∅ false.

Record Job_Specification := mkSpec { id : str; opts : Process_Options }.

Definition default_spec : Job_Specification := mkSpec [] default_options.

Inductive Lane := FAST | SLOW.

#[export] Instance Lane_eq_dec : EqDecision Lane.
Proof. solve_decision. Defined.

Record Pending_Job := mkPending { pj_spec : Job_Specification; pj_lane : Lane }.

Record Running_Job := mkRunning {
  rj_spec : Job_Specification;
  rj_lane : Lane;
  rj_pid : Z;
  rj_start_time : Z;
  rj_timer : option Z           (** the timer's [expires_after], in seconds *)
}.

Record Finished_Job := mkFinished {
  fj_spec : Job_Specification;
  fj_start_time : Z;
  fj_end_time : Z;
  fj_exit_code : Z
}.

(** [Finished_Job()]. *)
Definition default_finished : Finished_Job := mkFinished default_spec 0 0 (-1).

(** ** [Pending_Q] *)

Module Pending_Q.

Definition empty (q : list Pending_Job) : bool := bool_decide (q = []).

Definition size (q : list Pending_Job) : nat := length q.

Definition push (pj : Pending_Job) (q : list Pending_Job) : list Pending_Job := q ++ [pj].

Definition front (q : list Pending_Job) : outcome Pending_Job := deref (head q).

Definition pop (q : list Pending_Job) : outcome (Pending_Job * list Pending_Job) :=
  let! res := front q in
  Ret (res, tail q).

(** The calls the queue's users make, in the order the mutex gives them. *)
Inductive op := Push (pj : Pending_Job) | Pop.

(** What a sequence of calls pops, and the queue it leaves. *)
Fixpoint run (ops : list op) (q : list Pending_Job) : outcome (list Pending_Job * list Pending_Job) :=
  match ops with
  | [] => Ret ([], q)
  | Push pj :: ops => run ops (push pj q)
  | Pop :: ops =>
      let! '(pj, q) := pop q in
      let! '(popped, q) := run ops q in
      Ret (pj :: popped, q)
  end.

Definition pushed (ops : list op) : list Pending_Job :=
  omap (λ o, match o with Push pj => Some pj | Pop => None end) ops.

Definition pops (ops : list op) : nat := length ops - length (pushed ops).

End Pending_Q.

(** ** The storage: the interface and its implementation *)

Class Finished_IStorage (S : Type) := {
  store : Finished_Job → S → S;
  find : str → S → Finished_Job
}.

Definition store_all {S} `{Finished_IStorage S} (l : list Finished_Job) (s : S) : S :=
  foldl (λ s fj, store fj s) s l.

(** What the interface promises: a new storage answers for an id with the
    first job that was stored under it, or with a default job. *)
Definition first_finished (i : str) (l : list Finished_Job) : Finished_Job :=
  default default_finished (snd <$> list_find (λ fj, id (fj_spec fj) = i) l).

Class Finished_IStorage_Laws (S : Type) `{Finished_IStorage S} := {
  new_storage : S;
  find_stored l i : find i (store_all l new_storage) = first_finished i l
}.

Module Finished_Storage.

Abbreviation sink := (gmap str Finished_Job).

(** [sink_.emplace(fj.spec.id, fj)]: no effect when the key is present. *)
Definition store (fj : Finished_Job) (s : sink) : sink :=
  match s !! id (fj_spec fj) with
  | Some _ => s
  | None => <[id (fj_spec fj) := fj]> s
  end.

Definition find (i : str) (s : sink) : Finished_Job :=
  match s !! i with
  | None => default_finished
  | Some fj => fj
  end.

End Finished_Storage.

#[export] Instance finished_storage : Finished_IStorage Finished_Storage.sink :=
  { store := Finished_Storage.store; find := Finished_Storage.find }.

(** ** Lemmas *)

Lemma pushed_length ops : (length (Pending_Q.pushed ops) ≤ length ops)%nat.
Proof. induction ops as [|[pj|] ops IH]; csimpl; lia. Qed.

Lemma store_all_lookup (l : list Finished_Job) (s : Finished_Storage.sink) (i : str) :
  store_all l s !! i =
  match s !! i with
  | Some fj => Some fj
  | None => snd <$> list_find (λ fj, id (fj_spec fj) = i) l
  end.
Proof.
  revert s. induction l as [|fj l IH]; intros s; simpl; [by destruct (s !! i)|].
  rewrite IH. unfold Finished_Storage.store.
  destruct (s !! id (fj_spec fj)) as [fj'|] eqn:E.
  - destruct (s !! i) eqn:Ei; [done|]. rewrite decide_False by congruence.
    by destruct (list_find _ l) as [[]|].
  - case_decide as Hi; [by subst i; rewrite lookup_insert_eq, E|].
    rewrite lookup_insert_ne by done. destruct (s !! i); [done|].
    by destruct (list_find _ l) as [[]|].
Qed.

Lemma find_store_all (l : list Finished_Job) (i : str) :
  Finished_Storage.find i (store_all l (∅ : Finished_Storage.sink)) = first_finished i l.
Proof.
  unfold Finished_Storage.find, first_finished. rewrite store_all_lookup, lookup_empty.
  by destruct (list_find _ l) as [[]|].
Qed.

#[export] Instance finished_storage_laws : Finished_IStorage_Laws Finished_Storage.sink :=
  { new_storage := ∅; find_stored := find_store_all }.

Lemma run_fifo ops q popped q' :
  Pending_Q.run ops q = Ret (popped, q') → q ++ Pending_Q.pushed ops = popped ++ q'.
Proof.
  revert q popped q'. induction ops as [|[pj|] ops IH]; intros q popped q'; csimpl.
  - intros [= <- <-]. by rewrite app_nil_r.
  - intros H. rewrite <-(IH _ _ _ H). unfold Pending_Q.push. by rewrite <-app_assoc.
  - destruct q as [|x q]; [done|]. simpl. intros H. apply obind_Ret_inv in H as ([pop1 q1] & Hr & H).
    injection H as <- <-. simpl. f_equal. by apply IH.
Qed.

Lemma run_defined ops q :
  (∀ k, Pending_Q.pops (take k ops) ≤ length q + length (Pending_Q.pushed (take k ops)))%nat →
  ∃ popped q', Pending_Q.run ops q = Ret (popped, q') ∧ length popped = Pending_Q.pops ops.
Proof.
  unfold Pending_Q.pops. revert q. induction ops as [|[pj|] ops IH]; intros q H; csimpl; [by eauto| |].
  - destruct (IH (Pending_Q.push pj q)) as (p & q' & -> & ?); [|eexists _, _; split; [done|lia]].
    intros k. specialize (H (S k)). unfold Pending_Q.push. rewrite length_app. csimpl in H. simpl in *. lia.
  - destruct q as [|x q].
    { specialize (H 1%nat). cbv in H. lia. }
    destruct (IH q) as (p & q' & Hr & Hl).
    + intros k. specialize (H (S k)). csimpl in H. simpl in *.
      pose proof (pushed_length (take k ops)). lia.
    + unfold Pending_Q.pop. simpl. rewrite Hr. simpl. eexists _, _. split; [done|].
      simpl. pose proof (pushed_length ops). lia.
Qed.

(** ** Properties *)

(** The pending queue is first in, first out, for every interleaving of
    the calls that never pops more than was pushed: the calls are all defined,
    as many jobs come out as were popped, and what came out followed by what is
    left is what was there followed by what was pushed, in order. *)
Theorem pending_queue_is_fifo ops q :
  (∀ k, Pending_Q.pops (take k ops) ≤ length q + length (Pending_Q.pushed (take k ops)))%nat →
  ∃ popped q', Pending_Q.run ops q = Ret (popped, q') ∧
    length popped = Pending_Q.pops ops ∧ q ++ Pending_Q.pushed ops = popped ++ q'.
Proof.
  intros H. destruct (run_defined ops q H) as (popped & q' & Hr & Hl).
  exists popped, q'. split_and!; [done..|by apply run_fifo].
Qed.

Definition job (c : string) : Pending_Job := mkPending (mkSpec (lit c) default_options) FAST.

Lemma pending_queue_is_fifo_witness :
  Pending_Q.run [Pending_Q.Push (job "a"); Pending_Q.Push (job "b"); Pending_Q.Pop] [job "z"]
    = Ret ([job "z"], [job "a"; job "b"]) ∧
  ∃ popped q',
    Pending_Q.run [Pending_Q.Push (job "a"); Pending_Q.Push (job "b"); Pending_Q.Pop] [job "z"]
      = Ret (popped, q') ∧ length popped = 1%nat ∧ [job "z"; job "a"; job "b"] = popped ++ q'.
Proof.
  split; [reflexivity|].
  apply (pending_queue_is_fifo [Pending_Q.Push (job "a"); Pending_Q.Push (job "b"); Pending_Q.Pop] [job "z"]).
  intros [|[|[|[|k]]]]; simpl; rewrite ?take_nil; cbv; lia.
Defined.

(** [Finished_Storage] keeps what its interface promises: whatever is
    stored, and in whatever order, [find] answers with the first job stored
    under the id, and with the default job (exit code -1) when there is none. *)
Theorem storage_keeps_first (l : list Finished_Job) (i : str) :
  Finished_Storage.find i (store_all l (∅ : Finished_Storage.sink)) = first_finished i l.
Proof. apply find_store_all. Qed.
