(* ===== verification/LockedClasses.v ===== *)
(** The scheduler's locked classes between threads: [process/aps_pending_queue.cpp],
    [process/aps_finished_storage.cpp] and [process/aps_p90_estimator.cpp].

    Each call is written as its accesses to the members ([Mutex]) and proved to be the
    function of the class's own file.  Where every call locks the mutex, threads get
    what the calls would give one after the other; [Pending_Q::size] and
    [Pending_Q::front] do not lock it. *)

From S2P Require Import Prelude P90 Aps Mutex.

(** The member functions, as the classes' own files have them. *)
Module Queue_Calls.

(** ** [Pending_Q] *)

Inductive call := Empty | Size | Push (pj : Pending_Job) | Front | Pop.

Inductive result := Bool (b : bool) | Count (n : nat) | Unit | Job (pj : Pending_Job).

Abbreviation members := (list Pending_Job).

Definition locks (c : call) : bool := match c with Empty | Push _ | Pop => true | Size | Front => false end.

Definition accesses (c : call) : body members result :=
  match c with
  | Empty => Access Read (λ q, Some (q, Done (Bool (bool_decide (q = [])))))
  | Size => Access Read (λ q, Some (q, Done (Count (length q))))
  | Push pj => Access Write (λ q, Some (q ++ [pj], Done Unit))
  | Front => Access Read (λ q, res ← head q; Some (q, Done (Job res)))
  | Pop =>
      Access Read (λ q, res ← head q;
        Some (q, Access Write (λ q, match q with [] => None | _ :: q => Some (q, Done (Job res)) end)))
  end.

(** The function of [Aps] that a call is. *)
Definition atomically (c : call) (q : members) : outcome (result * members) :=
  match c with
  | Empty => Ret (Bool (Pending_Q.empty q), q)
  | Size => Ret (Count (Pending_Q.size q), q)
  | Push pj => Ret (Unit, Pending_Q.push pj q)
  | Front => let! pj := Pending_Q.front q in Ret (Job pj, q)
  | Pop => let! '(pj, q) := Pending_Q.pop q in Ret (Job pj, q)
  end.

Definition writes (c : call) : bool := match c with Push _ | Pop => true | _ => false end.

#[global] Instance monitor : Monitor members call result := { locked := locks; code := accesses }.

Lemma queue_call_atomic c q : run_body (code c) q = atomically c q.
Proof. destruct c, q; reflexivity. Qed.

Lemma reads_only_writes c : reads_only (accesses c) ↔ writes c = false.
Proof.
  split.
  { destruct c; try done; [by inversion 1|]. intros H. inversion H as [|f Hf]; subst.
    destruct (Hf [mkPending default_spec FAST] _ _ eq_refl) as [_ Hr]. inversion Hr. }
  destruct c; try done; intros _; constructor; intros q q' b H.
  - injection H as <- <-. split; [done|constructor].
  - injection H as <- <-. split; [done|constructor].
  - apply bind_Some in H as (pj & _ & [= <- <-]). split; [done|constructor].
Qed.

(** The calls as operations of [Aps]. *)
Definition op_of (c : call) : option Pending_Q.op :=
  match c with Push pj => Some (Pending_Q.Push pj) | Pop => Some Pending_Q.Pop | _ => None end.

Definition job_of (r : result) : option Pending_Job := match r with Job pj => Some pj | _ => None end.

Lemma queue_atomic_run cs q rs q' :
  Forall (λ c, locks c = true) cs → atomic cs q = Ret (rs, q') →
  Pending_Q.run (omap op_of cs) q = Ret (omap job_of rs, q').
Proof.
  revert q rs. induction cs as [|c cs IH]; intros q rs Hl; [by intros [= <- <-]|].
  apply Forall_cons in Hl as [Hc Hl]. cbn [atomic]. rewrite queue_call_atomic. intros H.
  apply obind_Ret_inv in H as ([r q1] & H1 & H). apply obind_Ret_inv in H as ([rs1 q2] & H2 & [= <- <-]).
  specialize (IH q1 rs1 Hl H2). destruct c; try done; csimpl.
  - by injection H1 as <- <-.
  - by injection H1 as <- <-.
  - cbn [atomically] in H1. destruct (Pending_Q.pop q) as [[pj q3]| |]; [|done..]. injection H1 as <- <-. simpl. by rewrite IH.
Qed.
End Queue_Calls.

(** ** [Finished_Storage] *)

Module Storage_Calls.

Inductive call := Store (fj : Finished_Job) | Find (i : str).

Abbreviation members := Finished_Storage.sink.

(** [find] keeps the iterator, an element's key, between its two accesses. *)
Definition accesses (c : call) : body members (option Finished_Job) :=
  match c with
  | Store fj =>
      Access Write (λ s, Some (match s !! id (fj_spec fj) with Some _ => s | None => <[id (fj_spec fj) := fj]> s end, Done None))
  | Find i =>
      Access Read (λ s, Some (s,
        if decide (s !! i = None) then Done (Some default_finished)
        else Access Read (λ s, fj ← s !! i; Some (s, Done (Some fj)))))
  end.

Definition atomically (c : call) (s : members) : outcome (option Finished_Job * members) :=
  match c with
  | Store fj => Ret (None, Finished_Storage.store fj s)
  | Find i => Ret (Some (Finished_Storage.find i s), s)
  end.

#[global] Instance monitor : Monitor members call (option Finished_Job) := { locked _ := true; code := accesses }.

Lemma storage_call_atomic c s : run_body (code c) s = atomically c s.
Proof.
  destruct c as [fj|i]; [done|]. simpl. unfold Finished_Storage.find.
  case_decide as Hi; [by rewrite Hi|]. simpl. by destruct (s !! i).
Qed.
End Storage_Calls.

(** ** [P90_Estimator] *)

Module Estimator_Calls.

Inductive call := Add (duration : Z) | Compute | Size.

Abbreviation members := P90_Estimator.

Definition set_samples (l : list Z) (e : members) : members := mkEstimator (capacity_ e) l.

Definition push_back (duration : Z) : body members (option Z) :=
  Access Write (λ e, Some (set_samples (samples_ e ++ [duration]) e, Done None)).

(** [compute] works on a copy after its second access. *)
Definition accesses (c : call) : body members (option Z) :=
  match c with
  | Add duration =>
      if (duration <=? 0)%Z then Done None
      else Access Read (λ e, Some (e,
        if decide (capacity_ e ≤ length (samples_ e)) then
          Access Write (λ e, l ← returned (pop_front (samples_ e)); Some (set_samples l e, push_back duration))
        else push_back duration))
  | Compute =>
      Access Read (λ e, Some (e,
        let n := Z.of_nat (length (samples_ e)) in
        if (n =? 0)%Z then Done (Some 0%Z)
        else Access Read (λ e, r ← returned (nth_element (samples_ e) (p90_index n)); Some (e, Done (Some r)))))
  | Size => Access Read (λ e, Some (e, Done (Some (Z.of_nat (length (samples_ e))))))
  end.

Definition atomically (c : call) (e : members) : outcome (option Z * members) :=
  match c with
  | Add duration => let! e := add duration e in Ret (None, e)
  | Compute => let! r := compute e in Ret (Some r, e)
  | Size => Ret (Some (Z.of_nat (size e)), e)
  end.

#[global] Instance monitor : Monitor members call (option Z) := { locked _ := true; code := accesses }.

Lemma estimator_call_atomic c e : run_body (code c) e = atomically c e.
Proof.
  destruct c as [d| |]; simpl; [unfold add|unfold compute|done].
  - case_match; [done|]. simpl. case_decide; [|done]. simpl. by destruct (samples_ e).
  - case_match; [done|]. simpl. unfold nth_element. by destruct (_ !! _).
Qed.

(** The durations that the calls added. *)
Definition added (cs : list call) : list Z := omap (λ c, match c with Add d => Some d | _ => None end) cs.
End Estimator_Calls.

(** ** Properties *)

Section Queue.
Import Queue_Calls.
Implicit Types (q : list Pending_Job) (may : nat → call → Prop).

Abbreviation queue_state := (state (O := members) (C := call) (R := result)).

(** C27: exactly the two functions of the pending queue that do not lock its mutex are
    unsafe.  On a queue that holds a job, threads that make the calls [may] allows can
    reach a data race if and only if one of them calls [size] or [front] and another
    one calls [push] or [pop]: [empty], [push] and [pop] may be called by any number of
    threads. *)
Theorem queue_race_iff q may (Hq : q ≠ []) :
  (∃ hs (s : queue_state), runs may q hs s ∧ racy s) ↔
  (∃ i j c c', i ≠ j ∧ may i c ∧ may j c' ∧ (c = Size ∨ c = Front) ∧ writes c' = true).
Proof.
  split.
  - intros (hs & s & Hr & Hs). destruct (race_needs_unlocked _ _ _ _ Hr Hs) as (i & j & c & c' & Hne & H1 & H2 & H3 & H4).
    exists i, j, c, c'. split_and!; [done..| |].
    + destruct c; first [done | auto].
    + destruct H4 as [H4|H4]; [destruct H4; apply reads_only_writes; by destruct c|].
      apply not_false_is_true. intros Hw. by apply H4, reads_only_writes.
  - intros (i & j & c & c' & Hne & H1 & H2 & Hc & Hw). destruct q as [|pj q]; [done|].
    assert (∃ f, accesses c = Access Read f) as [f Hf] by (destruct Hc as [-> | ->]; by eexists).
    set (s1 := mkState (pj :: q) None (<[i := (c, accesses c)]> ∅) : queue_state).
    assert (runs may (pj :: q) ([] ++ option_list None) s1) as Hr1.
    { eapply runs_step; [constructor|]. refine (enter_unlocked may i c (idle (pj :: q)) H1 _ _); [done|]. by destruct Hc as [-> | ->]. }
    set (s2 := mkState (pj :: q) (Some j) (<[j := (c', accesses c')]> (running s1)) : queue_state).
    assert (runs may (pj :: q) (([] ++ option_list None) ++ option_list None) s2) as Hr2.
    { eapply runs_step; [done|]. refine (enter_locked may j c' s1 H2 _ _ _); [|by destruct c'|done].
      simpl. by rewrite lookup_insert_ne. }
    destruct c' as [| |pj'| |]; try done.
    + eexists _, s2. split; [done|]. exists i, j, c, (Push pj'), Read, Write, f. eexists.
      split_and!; [done|..|by right]; simpl; [by rewrite lookup_insert_ne, lookup_insert_eq, Hf|by rewrite lookup_insert_eq].
    + set (rest := Access Write (λ q, match q with [] => None | _ :: q => Some (q, Done (Job pj)) end) : body members result).
      set (s3 := mkState (pj :: q) (Some j) (<[j := (Pop, rest)]> (running s2)) : queue_state).
      assert (step may s2 None s3) as Hr3 by (eapply (step_access may j Pop); [apply lookup_insert_eq|done]).
      exists ((([] ++ option_list None) ++ option_list None) ++ option_list None), s3. split; [by eapply runs_step|].
      exists i, j, c, Pop, Read, Write, f. eexists. split_and!; [done|..|by right].
      * unfold s3, s2, s1. cbn [running]. by rewrite 2!lookup_insert_ne, lookup_insert_eq, Hf.
      * apply lookup_insert_eq.
Qed.

Definition pushed_by (hs : list (nat * call * result)) : list Pending_Job := Pending_Q.pushed (omap op_of (calls hs)).

Definition popped_by (hs : list (nat * call * result)) : list Pending_Job := omap job_of (results hs).

(** Threads that only make the calls that lock the mutex do not race, and nothing is
    lost, duplicated or reordered between them: the jobs that were there and the jobs
    pushed, in the order in which the calls returned, are the jobs popped and those
    left.  The only undefined access is that of a [pop] that finds the queue empty. *)
Theorem queue_threads_fifo q may hs (s : queue_state) (Hmay : ∀ i c, may i c → locked c = true) (Hrun : runs may q hs s) :
  ¬ racy s ∧
  (running s = ∅ → q ++ pushed_by hs = popped_by hs ++ obj s) ∧
  (undefined s → q ++ pushed_by hs = popped_by hs ∧ ∃ i, may i Pop).
Proof.
  assert (∀ o, atomic (calls hs) q = Ret (results hs, o) → q ++ pushed_by hs = popped_by hs ++ o) as Hfifo.
  { intros o Ha. apply queue_atomic_run in Ha; [by apply run_fifo in Ha|]. apply runs_may in Hrun.
    apply Forall_fmap. eapply Forall_impl; [done|]. intros h. apply Hmay. }
  split_and!; [by eapply locked_calls_never_race|intros Hidle|intros Hu].
  - by eapply Hfifo, locked_calls_idle.
  - destruct (locked_calls_undefined _ Hmay _ _ _ Hrun Hu) as (o1 & i & c & Ha & Hm & Hub).
    rewrite queue_call_atomic in Hub. apply Hmay in Hm as Hl. destruct c; try done. destruct o1; [|done].
    split; [by rewrite (Hfifo _ Ha), app_nil_r|by exists i].
Qed.
End Queue.

(** The scheduler's thread looks at the queue, another thread pushes. *)
Definition queue_users (i : nat) (c : Queue_Calls.call) : Prop :=
  match c with
  | Queue_Calls.Push _ => i = 1
  | Queue_Calls.Size => False
  | _ => i = 0
  end.

Definition some_job : Pending_Job := mkPending default_spec FAST.

Lemma queue_race_iff_witness :
  ∃ hs (s : state (O := list Pending_Job) (C := Queue_Calls.call) (R := Queue_Calls.result)),
    runs queue_users [some_job] hs s ∧ racy s.
Proof.
  apply (queue_race_iff [some_job] queue_users); [discriminate|].
  exists 0, 1, Queue_Calls.Front, (Queue_Calls.Push some_job). repeat split; [discriminate|right; reflexivity].
Defined.

Section Storage.
Import Storage_Calls.

Definition stored (cs : list call) : list Finished_Job := omap (λ c, match c with Store fj => Some fj | _ => None end) cs.

Lemma storage_atomic cs s rs s' : atomic cs s = Ret (rs, s') → s' = store_all (stored cs) s.
Proof.
  revert s rs. induction cs as [|c cs IH]; intros s rs; [by intros [= _ <-]|]. cbn [atomic]. rewrite storage_call_atomic. intros H.
  apply obind_Ret_inv in H as ([r s1] & H1 & H). apply obind_Ret_inv in H as ([rs1 s2] & H2 & [= _ <-]).
  apply IH in H2 as ->. destruct c; simpl in H1; by injection H1 as _ <-.
Qed.

(** Threads on a new storage: no race, nothing undefined, and each [find] answers with
    the first job that a [store] before it put under the id, or with a default job. *)
Theorem storage_threads_answer_first (hs : list (nat * call * option Finished_Job))
    (s : state (O := members) (C := call) (R := option Finished_Job)) (Hrun : runs (λ _ _, True) (∅ : members) hs s) :
  ¬ racy s ∧ ¬ undefined s ∧
  ∀ hs1 t i r hs2, hs = hs1 ++ (t, Find i, r) :: hs2 → r = Some (first_finished i (stored (calls hs1))).
Proof.
  assert (∀ (i : nat) (c : call), True → locked c = true) as Hl by done.
  split_and!; [by eapply locked_calls_never_race|intros Hu|].
  - destruct (locked_calls_undefined _ Hl _ _ _ Hrun Hu) as (o1 & i & c & _ & _ & Hub). rewrite storage_call_atomic in Hub. by destruct c.
  - intros hs1 t i r hs2 ->. destruct (locked_calls_serialize _ Hl _ _ _ Hrun) as (o & Ha & _).
    apply atomic_at in Ha as (o1 & o2 & Ha & Hr). apply storage_atomic in Ha as ->.
    rewrite storage_call_atomic in Hr. simpl in Hr. injection Hr as <- _. f_equal. apply find_store_all.
Qed.
End Storage.

Section Estimator.
Import Estimator_Calls.
#[local] Open Scope Z_scope.

Lemma estimator_atomic cs e rs e' : atomic cs e = Ret (rs, e') → add_all (added cs) e = Ret e'.
Proof.
  revert e rs. induction cs as [|c cs IH]; intros e rs; [by intros [= _ <-]|]. cbn [atomic]. rewrite estimator_call_atomic. intros H.
  apply obind_Ret_inv in H as ([r e1] & H1 & H). apply obind_Ret_inv in H as ([rs1 e2] & H2 & [= _ <-]).
  apply IH in H2. destruct c; simpl in H1; apply obind_Ret_inv in H1 as (x & Hx & [= _ <-]) || injection H1 as _ <-; [|done..].
  csimpl. by rewrite Hx.
Qed.

(** Threads on a new estimator of positive capacity: no race, nothing undefined, and
    each [compute] answers with a 90th percentile of the last [cap] positive durations
    that were added before it, or with 0 when there are none. *)
Theorem estimator_threads cap hs (s : state (O := members) (C := call) (R := option Z))
    (Hcap : (1 ≤ cap)%nat) (Hmax : Z.of_nat cap < 2 ^ 60) (Hrun : runs (λ _ _, True) (P90_new cap) hs s) :
  ¬ racy s ∧ ¬ undefined s ∧
  ∀ hs1 t r hs2, hs = hs1 ++ (t, Compute, r) :: hs2 →
    let window := lastn cap (positives (added (calls hs1))) in
    ∃ p, r = Some p ∧ if decide (window = []) then p = 0 else is_p90 p window.
Proof.
  assert (∀ (i : nat) (c : call), True → locked c = true) as Hl by done.
  assert (∀ cs rs e, atomic cs (P90_new cap) = Ret (rs, e) →
    (1 ≤ capacity_ e)%nat ∧ estimator_ok e ∧ ∃ p, compute e = Ret p ∧
    if decide (lastn cap (positives (added cs)) = []) then p = 0 else is_p90 p (lastn cap (positives (added cs)))) as Hat.
  { intros cs rs e Ha%estimator_atomic. pose proof (p90_window cap (added cs) Hcap Hmax) as (e' & p & He & Hok & Hc & _ & Hp & Hw).
    rewrite He in Ha. injection Ha as ->. rewrite Hc. split_and!; [done..|]. by exists p. }
  split_and!; [by eapply locked_calls_never_race|intros Hu|].
  - destruct (locked_calls_undefined _ Hl _ _ _ Hrun Hu) as (e & i & c & Ha & _ & Hub). rewrite estimator_call_atomic in Hub.
    destruct (Hat _ _ _ Ha) as (Hc & Hok & p & Hp & _). destruct c as [d| |]; simpl in Hub; [|by rewrite Hp in Hub|done].
    destruct (add_ok d e Hc Hok) as (e' & He & _). by rewrite He in Hub.
  - intros hs1 t r hs2 ->. destruct (locked_calls_serialize _ Hl _ _ _ Hrun) as (o & Ha & _).
    apply atomic_at in Ha as (e & e2 & Ha & Hr). destruct (Hat _ _ _ Ha) as (_ & _ & p & Hp & Hw).
    rewrite estimator_call_atomic in Hr. simpl in Hr. rewrite Hp in Hr. injection Hr as <- _. by exists p.
Qed.
End Estimator.
