(* ===== verification/Scheduler.v ===== *)
(** The process scheduler: [process/aps_scheduler.cpp].

    Everything the scheduler does happens in a callback of one [io_context]:
    a turn of [run_loop], the exit of a process, a timer.  [step] runs one of
    them, in any order the environment chooses; the order in which callbacks of
    the same id arrive is not restricted, since a callback that is already
    queued runs after the job it was meant for is gone.  Logging is left out.
    [size_t] is 64 bits, [steady_clock] counts nanoseconds. *)

From S2P Require Import Prelude Double P90 Aps.

#[local] Open Scope Z_scope.

(** What the scheduler uses of [Process_Manager::instance()]: an exit callback
    is the id it captures. *)
Class Process_Manager_I (W : Type) := {
  pm_spawn : Process_Options → str → W → outcome (Z * W);
  pm_terminate : Z → W → outcome W
}.

(** Its well-formed states. *)
Class Process_Manager_Ok (W : Type) := pm_ok : W → Prop.

(** What it promises: from a well-formed state its calls return and leave one. *)
Class Process_Manager_Laws (W : Type) `{Process_Manager_I W} := {
  #[global] pm_laws_ok :: Process_Manager_Ok W;
  spawn_returns o i w : pm_ok w → ∃ pid w', pm_spawn o i w = Ret (pid, w') ∧ pm_ok w';
  terminate_returns pid w : pm_ok w → ∃ w', pm_terminate pid w = Ret w' ∧ pm_ok w'
}.

(** [WIFEXITED] of [<sys/wait.h>]. *)
Definition WIFEXITED (status : Z) : bool := Z.land status 127 =? 0.

Definition default_timeout_ : Z := 30.
Definition p90_min_samples_ : nat := 15.
Definition p90_multiplier_ := double_1_5.

(** [duration_cast<seconds>]. *)
Definition seconds_between (start_time end_time : Z) : Z := Z.quot (end_time - start_time) 1000000000.

(** ** Job transitions *)

Definition start (pj : Pending_Job) (actual_lane : Lane) (pid : Z) (now : Z) (timer : option Z) : Running_Job :=
  mkRunning (pj_spec pj) actual_lane pid now timer.

Definition requeue (rj : Running_Job) : Pending_Job := mkPending (rj_spec rj) SLOW.

Definition finish (rj : Running_Job) (end_time exit_code : Z) : Finished_Job :=
  mkFinished (rj_spec rj) (rj_start_time rj) end_time exit_code.

Section Scheduler.
Context {St W : Type} `{!Finished_IStorage St} `{!Process_Manager_I W}.

(** The members, with what the scheduler shares with the rest of the program:
    the process manager, and the turns of [run_loop] that are posted or whose
    timer is running. *)
Record Scheduler := mkScheduler {
  stop_ : bool;
  pq_ : list Pending_Job;
  storage_ : St;
  total_lane_ : Z;
  fast_lane_ : Z;
  slow_lane_ : Z;
  running_fast_ : Z;
  running_slow_ : Z;
  p90_estimator_ : P90_Estimator;
  running_ : gmap str Running_Job;
  pm_ : W;
  loops_ : nat
}.

Definition set_queue q s := mkScheduler (stop_ s) q (storage_ s) (total_lane_ s) (fast_lane_ s)
  (slow_lane_ s) (running_fast_ s) (running_slow_ s) (p90_estimator_ s) (running_ s) (pm_ s) (loops_ s).
Definition set_counters f w s := mkScheduler (stop_ s) (pq_ s) (storage_ s) (total_lane_ s) (fast_lane_ s)
  (slow_lane_ s) f w (p90_estimator_ s) (running_ s) (pm_ s) (loops_ s).
Definition set_results st e s := mkScheduler (stop_ s) (pq_ s) st (total_lane_ s) (fast_lane_ s)
  (slow_lane_ s) (running_fast_ s) (running_slow_ s) e (running_ s) (pm_ s) (loops_ s).
Definition set_running r s := mkScheduler (stop_ s) (pq_ s) (storage_ s) (total_lane_ s) (fast_lane_ s)
  (slow_lane_ s) (running_fast_ s) (running_slow_ s) (p90_estimator_ s) r (pm_ s) (loops_ s).
Definition set_pm w s := mkScheduler (stop_ s) (pq_ s) (storage_ s) (total_lane_ s) (fast_lane_ s)
  (slow_lane_ s) (running_fast_ s) (running_slow_ s) (p90_estimator_ s) (running_ s) w (loops_ s).
Definition set_loops n s := mkScheduler (stop_ s) (pq_ s) (storage_ s) (total_lane_ s) (fast_lane_ s)
  (slow_lane_ s) (running_fast_ s) (running_slow_ s) (p90_estimator_ s) (running_ s) (pm_ s) n.

(** The constructor; a null pointer is [None], or [false] for [ioc]. *)
Definition Scheduler_new (ioc : bool) (pq : option (list Pending_Job)) (storage : option St)
    (lane : Z) (pm : W) : outcome Scheduler :=
  if negb ioc then Throw []
  else
    match pq, storage with
    | Some pq, Some storage =>
        if lane <? 4 then Throw []
        else
          let fast := lane / 4 in
          Ret (mkScheduler false pq storage lane fast (u64 (lane - fast)) 0 0 (P90_new 1000) ∅ pm 0)
    | _, _ => Throw []
    end.

Definition run (s : Scheduler) : Scheduler := set_loops (S (loops_ s)) s.

Definition stop (s : Scheduler) : Scheduler :=
  mkScheduler true (pq_ s) (storage_ s) (total_lane_ s) (fast_lane_ s) (slow_lane_ s) (running_fast_ s)
    (running_slow_ s) (p90_estimator_ s) (running_ s) (pm_ s) (loops_ s).

Definition schedulable (pj : Pending_Job) (s : Scheduler) : bool :=
  if total_lane_ s <=? u64 (running_fast_ s + running_slow_ s) then false
  else
    match pj_lane pj with
    | FAST => true
    | SLOW =>
        if running_slow_ s <? slow_lane_ s then true
        else if running_fast_ s <? fast_lane_ s / 2 then true
        else true
    end.

(** [++running_fast_] or [++running_slow_], [--] likewise. *)
Definition bump (l : Lane) (d : Z) (s : Scheduler) : Scheduler :=
  match l with
  | FAST => set_counters (u64 (running_fast_ s + d)) (running_slow_ s) s
  | SLOW => set_counters (running_fast_ s) (u64 (running_slow_ s + d)) s
  end.

(** The lane a job is given: its own, or the other one when its own is full. *)
Definition actual_lane (l : Lane) (s : Scheduler) : Lane :=
  match l with
  | FAST => if running_fast_ s <? fast_lane_ s then FAST else SLOW
  | SLOW => if running_slow_ s <? slow_lane_ s then SLOW else FAST
  end.

Definition compute_timeout (s : Scheduler) : outcome Z :=
  if (size (p90_estimator_ s) <? p90_min_samples_)%nat then Ret default_timeout_
  else
    let! p90 := compute (p90_estimator_ s) in
    if p90 =? 0 then Ret default_timeout_
    else int64_of (double_ceil (double_mul (double_of_Z p90) p90_multiplier_)).

(** [running_.emplace(id, rj)]: no effect when the key is present. *)
Definition emplace (i : str) (rj : Running_Job) (r : gmap str Running_Job) : gmap str Running_Job :=
  match r !! i with Some _ => r | None => <[i := rj]> r end.

Definition schedule (now : Z) (pj : Pending_Job) (s : Scheduler) : outcome Scheduler :=
  let l := actual_lane (pj_lane pj) s in
  let s := bump l 1 s in
  let! '(pid, w) := pm_spawn (opts (pj_spec pj)) (id (pj_spec pj)) (pm_ s) in
  let s := set_pm w s in
  let! timer :=
    match l with
    | FAST => let! tmo := compute_timeout s in Ret (Some tmo)
    | SLOW => Ret None
    end in
  Ret (set_running (emplace (id (pj_spec pj)) (start pj l pid now timer) (running_ s)) s).

Definition run_loop (now : Z) (s : Scheduler) : outcome Scheduler :=
  if stop_ s then Ret s
  else
    let! s :=
      if Pending_Q.empty (pq_ s) then Ret s
      else
        let! pj := Pending_Q.front (pq_ s) in
        if schedulable pj s then
          let! '(pj, q) := Pending_Q.pop (pq_ s) in
          schedule now pj (set_queue q s)
        else Ret s in
    Ret (set_loops (S (loops_ s)) s).

Definition handle_exit (i : str) (exit_code : Z) (now : Z) (s : Scheduler) : outcome Scheduler :=
  match running_ s !! i with
  | None => Ret s
  | Some rj =>
      let! s :=
        if WIFEXITED exit_code then
          let storage := store (finish rj now exit_code) (storage_ s) in
          let! e := add (seconds_between (rj_start_time rj) now) (p90_estimator_ s) in
          Ret (set_results storage e s)
        else Ret s in
      let s := bump (rj_lane rj) (-1) s in
      Ret (set_running (delete i (running_ s)) s)
  end.

Definition handle_timeout (i : str) (s : Scheduler) : outcome Scheduler :=
  match running_ s !! i with
  | None => Ret s
  | Some rj =>
      let! w := pm_terminate (rj_pid rj) (pm_ s) in
      let s := bump (rj_lane rj) (-1) (set_pm w s) in
      let s := set_queue (Pending_Q.push (requeue rj) (pq_ s)) s in
      Ret (set_running (delete i (running_ s)) s)
  end.

(** The timer's completion handler. *)
Inductive wait_result := expired | operation_aborted | wait_failed.

Definition timer_expired (i : str) (ec : wait_result) (s : Scheduler) : outcome Scheduler :=
  match ec with
  | expired => handle_timeout i s
  | operation_aborted | wait_failed => Ret s
  end.

(** ** What can happen *)

Inductive event :=
| Run
| Stop
| Submit (pj : Pending_Job)
| Tick (now : Z)
| Exit (i : str) (exit_code : Z) (now : Z)
| Timer (i : str) (ec : wait_result).

(** A tick is one posted turn of [run_loop]; without one it does not happen. *)
Definition step (e : event) (s : Scheduler) : outcome Scheduler :=
  match e with
  | Run => Ret (run s)
  | Stop => Ret (stop s)
  | Submit pj => Ret (set_queue (Pending_Q.push pj (pq_ s)) s)
  | Tick now =>
      match loops_ s with
      | O => Ret s
      | S n => run_loop now (set_loops n s)
      end
  | Exit i exit_code now => handle_exit i exit_code now s
  | Timer i ec => timer_expired i ec s
  end.

Fixpoint steps (es : list event) (s : Scheduler) : outcome Scheduler :=
  match es with
  | [] => Ret s
  | e :: es => let! s := step e s in steps es s
  end.
End Scheduler.

Arguments Scheduler : clear implicits.
Arguments event : clear implicits.
