(* ===== verification/SlotPool.v ===== *)
(** What the scheduler promises: it is a pool of slots.

    [Pool] is the abstract scheduler: a queue, the jobs that hold a slot with
    the lane of the slot, no counters, no processes, no clock.  The scheduler of
    [process/aps_scheduler.cpp] refines it for every order of its callbacks, as
    long as a job is not submitted while a job with its id is pending or
    running; its counters are then the number of slots held. *)

From S2P Require Import Prelude Double P90 Aps Scheduler.

#[local] Open Scope Z_scope.

(** ** The pool *)

Definition other (l : Lane) : Lane := match l with FAST => SLOW | SLOW => FAST end.

(** How many entries of a table are in a lane. *)
Definition in_lane {A} (f : A → Lane) (l : Lane) (m : gmap str A) : Z :=
  Z.of_nat (base.size (filter (λ kv, f kv.2 = l) m)).

Record Pool := mkPool {
  width : Z;
  fast_width : Z;
  waiting : list Pending_Job;
  active : gmap str (Job_Specification * Lane);
  turns : nat;
  stopped : bool
}.

Definition lane_width (l : Lane) (p : Pool) : Z :=
  match l with FAST => fast_width p | SLOW => width p - fast_width p end.

(** A job gets a slot of its lane when there is one, else one of the other. *)
Definition assign_lane (l : Lane) (p : Pool) : Lane :=
  if in_lane snd l (active p) <? lane_width l p then l else other l.

Definition with_jobs q a p := mkPool (width p) (fast_width p) q a (turns p) (stopped p).
Definition with_turns n p := mkPool (width p) (fast_width p) (waiting p) (active p) n (stopped p).

(** The head of the queue starts when a slot is free. *)
Definition pool_start (p : Pool) : Pool :=
  match waiting p with
  | pj :: q =>
      if Z.of_nat (base.size (active p)) <? width p then
        with_jobs q (<[id (pj_spec pj) := (pj_spec pj, assign_lane (pj_lane pj) p)]> (active p)) p
      else p
  | [] => p
  end.

Definition pool_step (e : event) (p : Pool) : Pool :=
  match e with
  | Run => with_turns (S (turns p)) p
  | Stop => mkPool (width p) (fast_width p) (waiting p) (active p) (turns p) true
  | Submit pj => with_jobs (waiting p ++ [pj]) (active p) p
  | Tick _ =>
      match turns p with
      | O => p
      | S n => if stopped p then with_turns n p else pool_start p
      end
  | Exit i _ _ => with_jobs (waiting p) (delete i (active p)) p
  | Timer i expired =>
      match active p !! i with
      | Some (spec, _) => with_jobs (waiting p ++ [mkPending spec SLOW]) (delete i (active p)) p
      | None => p
      end
  | Timer _ _ => p
  end.

Definition pool_steps (es : list event) (p : Pool) : Pool := foldl (λ p e, pool_step e p) p es.

(** A submission is fresh when no job with its id is pending or running. *)
Definition pj_id (pj : Pending_Job) : str := id (pj_spec pj).

Definition fresh (e : event) (p : Pool) : Prop :=
  match e with
  | Submit pj => (pj_id pj ∉ pj_id <$> waiting p) ∧ active p !! pj_id pj = None
  | _ => True
  end.

Fixpoint all_fresh (es : list event) (p : Pool) : Prop :=
  match es with
  | [] => True
  | e :: es => fresh e p ∧ all_fresh es (pool_step e p)
  end.

#[export] Instance fresh_dec e p : Decision (fresh e p).
Proof. destruct e; simpl; apply _. Defined.

#[export] Instance all_fresh_dec es p : Decision (all_fresh es p).
Proof. revert p. induction es as [|e es IH]; intros p; simpl; apply _. Defined.

(** The jobs an event takes out of the pool for good, and the job it brings. *)
Definition ends (e : event) (p : Pool) : list str :=
  match e with
  | Exit i _ _ => match active p !! i with Some _ => [i] | None => [] end
  | _ => []
  end.

Definition brings (e : event) : list str :=
  match e with Submit pj => [pj_id pj] | _ => [] end.

Fixpoint all_ends (es : list event) (p : Pool) : list str :=
  match es with
  | [] => []
  | e :: es => ends e p ++ all_ends es (pool_step e p)
  end.

(** The ids a pool holds. *)
Definition held (p : Pool) : list str :=
  (pj_id <$> waiting p) ++ (map_to_list (active p)).*1.

(** Readings of the clock: [steady_clock] counts up from its epoch. *)
Definition clock_ok (e : event) : Prop :=
  match e with
  | Tick now | Exit _ _ now => 0 <= now < 2 ^ 63
  | _ => True
  end.

(** ** Counting *)

Section Counting.
Context {A : Type} (f : A → Lane).
Implicit Types m : gmap str A.

Lemma in_lane_nonneg l m : 0 <= in_lane f l m.
Proof. unfold in_lane. lia. Qed.

Lemma in_lane_empty l : in_lane f l ∅ = 0.
Proof. unfold in_lane. by rewrite map_filter_empty, map_size_empty. Qed.

Lemma in_lane_insert l m i x :
  m !! i = None → in_lane f l (<[i := x]> m) = in_lane f l m + (if decide (f x = l) then 1 else 0).
Proof.
  intros Hi. unfold in_lane. case_decide as Hx.
  - rewrite map_filter_insert_True by done.
    rewrite map_size_insert_None by (apply map_lookup_filter_None; auto). lia.
  - rewrite map_filter_insert_False by done. rewrite delete_id by done. lia.
Qed.

Lemma in_lane_delete l m i x :
  m !! i = Some x → in_lane f l (delete i m) = in_lane f l m - (if decide (f x = l) then 1 else 0).
Proof.
  intros Hi. rewrite <-(insert_delete_id m i x Hi) at 2.
  rewrite in_lane_insert by apply lookup_delete_eq. lia.
Qed.

Lemma in_lane_size m : in_lane f FAST m + in_lane f SLOW m = Z.of_nat (base.size m).
Proof.
  induction m as [|i x m Hi IH] using map_ind; [by rewrite !in_lane_empty, map_size_empty|].
  rewrite !in_lane_insert, map_size_insert_None by done.
  destruct (f x); simpl; lia.
Qed.
End Counting.

Lemma in_lane_fmap {A B} (g : A → B) (f : B → Lane) (l : Lane) (m : gmap str A) :
  in_lane f l (g <$> m) = in_lane (f ∘ g) l m.
Proof.
  unfold in_lane. rewrite map_filter_fmap, map_size_fmap. done.
Qed.

(** ** The scheduler's invariant *)

Section State.
Context {St W : Type} `{!Finished_IStorage St} `{!Process_Manager_Ok W}.
Implicit Types s : Scheduler St W.

Definition slot (rj : Running_Job) : Job_Specification * Lane := (rj_spec rj, rj_lane rj).

(** The pool a scheduler stands for. *)
Definition abs (s : Scheduler St W) : Pool :=
  mkPool (total_lane_ s) (fast_lane_ s) (pq_ s) (slot <$> running_ s) (loops_ s) (stop_ s).

Definition counter (l : Lane) (s : Scheduler St W) : Z :=
  match l with FAST => running_fast_ s | SLOW => running_slow_ s end.

Definition lane_size (l : Lane) (s : Scheduler St W) : Z :=
  match l with FAST => fast_lane_ s | SLOW => slow_lane_ s end.

(** An entry of the table: under its id, with a timer exactly in a fast slot. *)
Definition running_ok (i : str) (rj : Running_Job) : Prop :=
  id (rj_spec rj) = i ∧ 0 <= rj_start_time rj < 2 ^ 63 ∧
  (is_Some (rj_timer rj) ↔ rj_lane rj = FAST).

Definition estimates (e : P90_Estimator) : Prop :=
  capacity_ e = 1000%nat ∧ estimator_ok e ∧ Forall (λ d, d < 2 ^ 51) (samples_ e).

Record safe (s : Scheduler St W) : Prop := mkSafe {
  safe_total : 4 <= total_lane_ s < 2 ^ 64;
  safe_fast : fast_lane_ s = total_lane_ s / 4;
  safe_slow : slow_lane_ s = total_lane_ s - fast_lane_ s;
  safe_counter l : in_lane rj_lane l (running_ s) <= counter l s <= lane_size l s;
  safe_running : map_Forall running_ok (running_ s);
  safe_estimates : estimates (p90_estimator_ s);
  safe_pm : pm_ok (pm_ s)
}.

(** The counters are exact and no id is held twice. *)
Record exact (s : Scheduler St W) : Prop := mkExact {
  exact_counter l : counter l s = in_lane rj_lane l (running_ s);
  exact_pending : NoDup (pj_id <$> pq_ s);
  exact_disjoint pj : pj ∈ pq_ s → running_ s !! pj_id pj = None
}.

(** *** Counters *)

Lemma bump_counter l d s l' :
  0 <= counter l s + d < 2 ^ 64 →
  counter l' (bump l d s) = counter l' s + (if decide (l = l') then d else 0).
Proof. intros H. destruct l, l'; simpl in *; rewrite ?wrap_small by lia; lia. Qed.

Lemma lane_size_bound l s : safe s → 1 <= lane_size l s < 2 ^ 64.
Proof.
  intros [? Hf Hs _ _ _ _]. destruct l; simpl; rewrite ?Hs, Hf; Z.to_euclidean_division_equations; lia.
Qed.

Lemma counter_nonneg l s : safe s → 0 <= counter l s.
Proof. intros Hs. pose proof (safe_counter s Hs l). pose proof (in_lane_nonneg rj_lane l (running_ s)). lia. Qed.

(** A free slot is found by [actual_lane]. *)
Lemma actual_lane_free l s :
  safe s → running_fast_ s + running_slow_ s < total_lane_ s →
  counter (actual_lane l s) s < lane_size (actual_lane l s) s.
Proof.
  intros Hs Hlt. pose proof (safe_slow s Hs).
  destruct l; unfold actual_lane; case_match eqn:E; simpl; lia.
Qed.

(** [schedulable] is only the test that a slot is free. *)
Lemma schedulable_eq pj s :
  safe s → schedulable pj s = (running_fast_ s + running_slow_ s <? total_lane_ s).
Proof.
  intros Hs. unfold schedulable.
  pose proof (safe_counter s Hs FAST). pose proof (safe_counter s Hs SLOW). simpl in *.
  pose proof (counter_nonneg FAST s Hs). pose proof (counter_nonneg SLOW s Hs). simpl in *.
  pose proof (safe_slow s Hs). pose proof (safe_total s Hs).
  rewrite wrap_small by lia.
  destruct (Z.ltb_spec (running_fast_ s + running_slow_ s) (total_lane_ s)).
  - rewrite (proj2 (Z.leb_gt _ _)) by lia. by repeat case_match.
  - by rewrite (proj2 (Z.leb_le _ _)) by lia.
Qed.

(** *** The time limit *)

Lemma compute_timeout_eq s :
  estimates (p90_estimator_ s) →
  if decide (length (samples_ (p90_estimator_ s)) < 15)%nat then compute_timeout s = Ret 30
  else ∃ p, is_p90 p (samples_ (p90_estimator_ s)) ∧ 0 < p ∧ compute_timeout s = Ret ((3 * p + 1) / 2).
Proof.
  intros (Hcap & [Hpos Hlen] & Hsmall). unfold compute_timeout, size, p90_min_samples_.
  case_decide as Hn; [by rewrite (proj2 (Nat.ltb_lt _ _) Hn)|].
  rewrite (proj2 (Nat.ltb_ge _ _)) by lia.
  destruct (compute_p90 (p90_estimator_ s)) as (p & -> & Hp); [by intros E; rewrite E in Hn; simpl in Hn; lia|lia|].
  exists p. destruct Hp as (Hin & Hp2). rewrite Forall_forall in Hpos, Hsmall.
  specialize (Hpos _ Hin). specialize (Hsmall _ Hin). split; [done|]. split; [done|]. simpl.
  destruct (Z.eqb_spec p 0); [lia|]. unfold p90_multiplier_. rewrite ceil_mul_1_5 by done.
  simpl. rewrite (proj2 (Z.leb_le _ _)), (proj2 (Z.ltb_lt _ _)); [done|..];
    Z.to_euclidean_division_equations; lia.
Qed.

Lemma compute_timeout_returns s :
  estimates (p90_estimator_ s) → ∃ t, compute_timeout s = Ret t.
Proof. intros He. pose proof (compute_timeout_eq s He) as H. case_decide; naive_solver. Qed.

Lemma add_estimates d e :
  estimates e → d < 2 ^ 51 → ∃ e', add d e = Ret e' ∧ estimates e'.
Proof.
  intros (Hcap & Hok & Hsmall) Hd.
  destruct (add_ok d e) as (e' & Ha & Hc & Hok' & Hs); [rewrite Hcap; lia|done|].
  exists e'. split; [done|]. split_and!; [congruence|done|]. rewrite Hs. case_match; [done|].
  apply Forall_app. split; [by apply Forall_drop|by constructor].
Qed.

(** *** Every callback *)

Lemma bump_fields l d s :
  total_lane_ (bump l d s) = total_lane_ s ∧ fast_lane_ (bump l d s) = fast_lane_ s ∧
  slow_lane_ (bump l d s) = slow_lane_ s ∧ running_ (bump l d s) = running_ s ∧
  p90_estimator_ (bump l d s) = p90_estimator_ s ∧ pq_ (bump l d s) = pq_ s ∧
  loops_ (bump l d s) = loops_ s ∧ stop_ (bump l d s) = stop_ s ∧ pm_ (bump l d s) = pm_ s.
Proof. by destruct l. Qed.

Lemma lane_size_bump l l' d s : lane_size l (bump l' d s) = lane_size l s.
Proof. by destruct l, l'. Qed.

Lemma emplace_in_lane (l : Lane) (i : str) (rj : Running_Job) (r : gmap str Running_Job) :
  in_lane rj_lane l r <= in_lane rj_lane l (emplace i rj r)
    <= in_lane rj_lane l r + (if decide (rj_lane rj = l) then 1 else 0).
Proof.
  unfold emplace. case_match eqn:E; [|rewrite in_lane_insert by done]; case_decide; lia.
Qed.

Lemma emplace_running_ok (i : str) (rj : Running_Job) (r : gmap str Running_Job) :
  map_Forall running_ok r → running_ok i rj → map_Forall running_ok (emplace i rj r).
Proof. intros. unfold emplace. case_match; [done|]. by apply map_Forall_insert_2. Qed.

(** The new scheduler after a job was given a slot, or gave one back. *)
Lemma safe_take s l now pj pid w timer :
  safe s → counter l s < lane_size l s → 0 <= now < 2 ^ 63 → (is_Some timer ↔ l = FAST) → pm_ok w →
  safe (set_running (emplace (pj_id pj) (start pj l pid now timer) (running_ s)) (set_pm w (bump l 1 s))).
Proof.
  intros Hs Hfree Hnow Htimer Hpm. pose proof (lane_size_bound l s Hs). pose proof (counter_nonneg l s Hs).
  pose proof (bump_fields l 1 s) as (Ht & Hf & Hw & Hr & He & _ & _ & _ & Hp).
  assert (∀ l', counter l' (bump l 1 s) = counter l' s + (if decide (l = l') then 1 else 0)) as Hc.
  { intros l'. apply bump_counter. lia. }
  constructor; simpl; rewrite ?Ht, ?Hf, ?Hw, ?Hr, ?He, ?Hp; try done; try apply Hs.
  - intros l'. change (counter l' _) with (counter l' (bump l 1 s)).
    change (lane_size l' _) with (lane_size l' (bump l 1 s)). rewrite Hc, lane_size_bump.
    pose proof (emplace_in_lane l' (pj_id pj) (start pj l pid now timer) (running_ s)).
    pose proof (safe_counter s Hs l'). simpl in *. case_decide; subst; lia.
  - apply emplace_running_ok; [apply Hs|exact (conj eq_refl (conj Hnow Htimer))].
Qed.

Lemma safe_give s i rj q w :
  safe s → running_ s !! i = Some rj → pm_ok w →
  safe (set_running (delete i (running_ s)) (set_queue q (bump (rj_lane rj) (-1) (set_pm w s)))).
Proof.
  intros Hs Hi Hpm. set (l := rj_lane rj).
  pose proof (lane_size_bound l s Hs). pose proof (safe_counter s Hs l).
  pose proof (in_lane_nonneg rj_lane l (delete i (running_ s))) as Hn.
  rewrite (in_lane_delete _ _ _ _ _ Hi), decide_True in Hn by done.
  pose proof (bump_fields l (-1) (set_pm w s)) as (Ht & Hf & Hw & Hr & He & _ & _ & _ & Hp).
  assert (∀ l', counter l' (bump l (-1) (set_pm w s)) = counter l' s + (if decide (l = l') then -1 else 0)) as Hc.
  { intros l'. apply (bump_counter l (-1) (set_pm w s)). destruct l; simpl in *; lia. }
  constructor; simpl; rewrite ?Ht, ?Hf, ?Hw, ?Hr, ?He, ?Hp; try done; try apply Hs.
  - intros l'. change (counter l' _) with (counter l' (bump l (-1) (set_pm w s))).
    change (lane_size l' _) with (lane_size l' (bump l (-1) (set_pm w s))). rewrite Hc, lane_size_bump.
    rewrite (in_lane_delete _ _ _ _ _ Hi). fold l.
    pose proof (safe_counter s Hs l'). change (lane_size l' (set_pm w s)) with (lane_size l' s).
    case_decide; subst; lia.
  - apply map_Forall_delete, Hs.
Qed.

(** The timer of a job put in lane [l]. *)
Definition timer_for (l : Lane) (timer : option Z) s : Prop :=
  match l, timer with
  | FAST, Some t => compute_timeout s = Ret t
  | SLOW, None => True
  | _, _ => False
  end.

Lemma timer_for_lane l timer s : timer_for l timer s → (is_Some timer ↔ l = FAST).
Proof. destruct l, timer; simpl; intros; split; try done. all: by intros []. Qed.

Lemma safe_set_queue q s : safe s → safe (set_queue q s).
Proof. intros [? ? ? Hc ? ? ?]. by constructor. Qed.

Lemma safe_set_loops n s : safe s → safe (set_loops n s).
Proof. intros [? ? ? Hc ? ? ?]. by constructor. Qed.

Lemma safe_set_results st e s : safe s → estimates e → safe (set_results st e s).
Proof. intros [? ? ? Hc ? ? ?] He. by constructor. Qed.

Lemma safe_stop s : safe s → safe (stop s).
Proof. intros [? ? ? Hc ? ? ?]. by constructor. Qed.

(** What [handle_exit] does for a running job. *)
Lemma handle_exit_eq i code now rj s :
  safe s → 0 <= now < 2 ^ 63 → running_ s !! i = Some rj →
  ∃ e, estimates e ∧
    (if WIFEXITED code then add (seconds_between (rj_start_time rj) now) (p90_estimator_ s) = Ret e
     else e = p90_estimator_ s) ∧
    let st := if WIFEXITED code then store (finish rj now code) (storage_ s) else storage_ s in
    handle_exit i code now s =
      Ret (set_running (delete i (running_ s)) (bump (rj_lane rj) (-1) (set_results st e s))).
Proof.
  intros Hs Hnow Hi. destruct (safe_running s Hs i rj Hi) as (_ & Hst & _).
  destruct (add_estimates (seconds_between (rj_start_time rj) now) (p90_estimator_ s)) as (e & He & Hok);
    [apply Hs|unfold seconds_between; Z.to_euclidean_division_equations; lia|].
  exists (if WIFEXITED code then e else p90_estimator_ s). unfold handle_exit. rewrite Hi.
  destruct (WIFEXITED code).
  - rewrite He. split_and!; [done|done|]. simpl. by destruct (rj_lane rj).
  - split_and!; [apply Hs|done|]. simpl. by destruct (rj_lane rj).
Qed.

(** A slot given back leaves the table and the queue as [safe_give] says. *)
Lemma give_eq s i rj :
  set_running (delete i (running_ s)) (bump (rj_lane rj) (-1) s) =
  set_running (delete i (running_ s)) (set_queue (pq_ s) (bump (rj_lane rj) (-1) (set_pm (pm_ s) s))).
Proof. by destruct (rj_lane rj), s. Qed.

(** *** No submission doubles an id: the counters are exact *)

Lemma in_lane_abs l s : in_lane snd l (active (abs s)) = in_lane rj_lane l (running_ s).
Proof. apply in_lane_fmap. Qed.

Lemma abs_active_none i s : active (abs s) !! i = None ↔ running_ s !! i = None.
Proof. simpl. rewrite lookup_fmap. apply fmap_None. Qed.

Lemma assign_lane_abs l s : safe s → exact s → assign_lane l (abs s) = actual_lane l s.
Proof.
  intros Hs He. pose proof (exact_counter s He FAST). pose proof (exact_counter s He SLOW).
  unfold assign_lane, actual_lane. rewrite in_lane_abs. pose proof (safe_slow s Hs).
  destruct l; simpl in *; repeat case_match; try done; lia.
Qed.

Lemma active_size s : exact s → Z.of_nat (base.size (active (abs s))) = running_fast_ s + running_slow_ s.
Proof.
  intros He. rewrite <-(in_lane_size snd), !in_lane_abs.
  by rewrite <-(exact_counter s He FAST), <-(exact_counter s He SLOW).
Qed.

Lemma exact_take s pj q pid now timer w :
  let l := actual_lane (pj_lane pj) s in
  let s' := set_running (emplace (pj_id pj) (start pj l pid now timer) (running_ s))
              (set_pm w (bump l 1 (set_queue q s))) in
  safe s → exact s → counter l s < lane_size l s → pq_ s = pj :: q →
  exact s' ∧ abs s' = with_jobs q (<[pj_id pj := (pj_spec pj, l)]> (active (abs s))) (abs s).
Proof.
  intros l s' Hs He Hfree Hq. pose proof (lane_size_bound l s Hs). pose proof (counter_nonneg l s Hs).
  assert (running_ s !! pj_id pj = None) as Hi by (apply (exact_disjoint s He); rewrite Hq; set_solver).
  assert (running_ s' = <[pj_id pj := start pj l pid now timer]> (running_ s)) as Hr.
  { unfold s', emplace. simpl. by rewrite Hi. }
  pose proof (exact_pending s He) as Hnd. rewrite Hq in Hnd. apply NoDup_cons in Hnd as [Hnin Hnd].
  split.
  - constructor.
    + intros l'. rewrite Hr, in_lane_insert, <-(exact_counter s He) by done. simpl.
      change (counter l' s') with (counter l' (bump l 1 (set_queue q s))).
      rewrite bump_counter; [by destruct l'|]. change (counter l (set_queue q s)) with (counter l s). lia.
    + unfold s'. simpl. by destruct l.
    + intros pj' Hin. unfold s' in Hin. replace (pq_ _) with q in Hin by (simpl; by destruct l).
      rewrite Hr, lookup_insert_ne; [apply (exact_disjoint s He); rewrite Hq; set_solver|].
      intros Heq. apply Hnin. rewrite Heq. by apply list_elem_of_fmap_2.
  - unfold abs at 1. rewrite Hr, fmap_insert. unfold s'. by destruct l.
Qed.

Lemma exact_give s i rj q w :
  let s' := set_running (delete i (running_ s)) (set_queue q (bump (rj_lane rj) (-1) (set_pm w s))) in
  safe s → exact s → running_ s !! i = Some rj → q = pq_ s ∨ q = pq_ s ++ [requeue rj] →
  exact s' ∧ abs s' = with_jobs q (delete i (active (abs s))) (abs s).
Proof.
  intros s' Hs He Hi Hq. destruct (safe_running s Hs i rj Hi) as (Hid & _).
  assert (∀ pj, pj ∈ q → delete i (running_ s) !! pj_id pj = None) as Hdis.
  { intros pj Hin. assert (pj ∈ pq_ s ∨ pj = requeue rj) as [Hin'| ->] by (destruct Hq; set_solver).
    - rewrite lookup_delete_None. right. by apply (exact_disjoint s He).
    - unfold pj_id. simpl. rewrite Hid. apply lookup_delete_eq. }
  split.
  - constructor.
    + intros l'. change (running_ s') with (delete i (running_ s)).
      rewrite (in_lane_delete _ _ _ _ _ Hi), <-(exact_counter s He). simpl.
      change (counter l' s') with (counter l' (bump (rj_lane rj) (-1) (set_pm w s))).
      pose proof (lane_size_bound (rj_lane rj) s Hs). pose proof (safe_counter s Hs (rj_lane rj)).
      pose proof (in_lane_nonneg rj_lane (rj_lane rj) (delete i (running_ s))) as Hn.
      rewrite (in_lane_delete _ _ _ _ _ Hi), decide_True in Hn by done.
      rewrite bump_counter; change (counter ?l (set_pm w s)) with (counter l s); [case_decide; lia|lia].
    + change (pq_ s') with q. destruct Hq as [-> | ->]; [apply He|]. rewrite fmap_app. simpl.
      apply NoDup_app. split_and!; [apply He| |apply NoDup_singleton].
      intros x (pj & -> & Hin)%list_elem_of_fmap Hx%list_elem_of_singleton.
      apply (exact_disjoint s He) in Hin. unfold pj_id in *. simpl in Hx. congruence.
    + apply Hdis.
  - unfold abs at 1. change (running_ s') with (delete i (running_ s)). rewrite fmap_delete.
    unfold s'. by destruct (rj_lane rj).
Qed.

Lemma exact_set_loops n s : exact s → exact (set_loops n s).
Proof. intros [Hc ? ?]. by constructor. Qed.

Lemma new_ok q st lane w :
  4 <= lane < 2 ^ 64 → pm_ok w →
  ∃ s, Scheduler_new true (Some q) (Some st) lane w = Ret s ∧ safe s ∧
    (NoDup (pj_id <$> q) → exact s) ∧ abs s = mkPool lane (lane / 4) q ∅ 0 false ∧
    p90_estimator_ s = P90_new 1000 ∧ storage_ s = st ∧ pm_ s = w.
Proof.
  intros Hl Hpm. unfold Scheduler_new. simpl. rewrite (proj2 (Z.ltb_ge _ _)) by lia.
  assert (u64 (lane - lane / 4) = lane - lane / 4) as Hw.
  { apply wrap_small. Z.to_euclidean_division_equations; lia. }
  eexists. split; [done|]. split_and!; try done.
  - constructor; simpl; try done.
    + intros l. rewrite in_lane_empty. destruct l; simpl; rewrite ?Hw; Z.to_euclidean_division_equations; lia.
    + split_and!; [done| |by constructor]. split; [by constructor|simpl; lia].
  - intros Hnd. constructor; simpl; [|done|done]. intros l. rewrite in_lane_empty. by destruct l.
Qed.
End State.

(** ** The refinement *)

Section Refinement.
Context {St W : Type} `{!Finished_IStorage St} `{!Process_Manager_I W} `{!Process_Manager_Laws W}.
Implicit Types s : Scheduler St W.

Lemma schedule_eq now pj s :
  safe s → let l := actual_lane (pj_lane pj) s in
  ∃ pid w timer, timer_for l timer s ∧ pm_ok w ∧
    schedule now pj s =
      Ret (set_running (emplace (pj_id pj) (start pj l pid now timer) (running_ s)) (set_pm w (bump l 1 s))).
Proof.
  intros Hs l. destruct (spawn_returns (opts (pj_spec pj)) (pj_id pj) (pm_ s) (safe_pm s Hs)) as (pid & w & Hsp & Hpm).
  pose proof (bump_fields l 1 s) as (_ & _ & _ & Hr & He & _ & _ & _ & Hp).
  destruct (compute_timeout_returns s) as [t Ht]; [apply Hs|].
  assert (compute_timeout (set_pm w (bump l 1 s)) = Ret t) as Ht' by (rewrite <-Ht; by destruct l).
  exists pid, w, (match l with FAST => Some t | SLOW => None end). split; [by destruct l|]. split; [done|].
  unfold schedule. fold l. rewrite Hp. unfold pj_id in Hsp. rewrite Hsp. simpl.
  destruct l; simpl in *; [rewrite Ht'|]; reflexivity.
Qed.

Lemma handle_timeout_eq i rj s :
  safe s → running_ s !! i = Some rj →
  ∃ w, pm_terminate (rj_pid rj) (pm_ s) = Ret w ∧ pm_ok w ∧
    handle_timeout i s =
      Ret (set_running (delete i (running_ s))
            (set_queue (pq_ s ++ [requeue rj]) (bump (rj_lane rj) (-1) (set_pm w s)))).
Proof.
  intros Hs Hi. destruct (terminate_returns (rj_pid rj) (pm_ s) (safe_pm s Hs)) as (w & Hw & Hpm).
  exists w. split; [done|]. split; [done|].
  unfold handle_timeout. rewrite Hi, Hw. simpl. by destruct (rj_lane rj).
Qed.

(** One callback: it returns, keeps the invariant and, on exact states, is a
    step of the pool. *)
Definition step_good (e : event) (s s' : Scheduler St W) : Prop :=
  safe s' ∧ (exact s → fresh e (abs s) → exact s' ∧ abs s' = pool_step e (abs s)).

Lemma run_loop_good now s :
  safe s → 0 <= now < 2 ^ 63 →
  ∃ s', run_loop now s = Ret s' ∧ safe s' ∧
    (exact s → exact s' ∧
      abs s' = if stop_ s then abs s else pool_start (with_turns (S (loops_ s)) (abs s))).
Proof.
  intros Hs Hnow. unfold run_loop. destruct (stop_ s) eqn:Hstop; [by exists s|].
  unfold Pending_Q.empty, pool_start. simpl.
  case_bool_decide as Hq; [|destruct (pq_ s) as [|pj q] eqn:Eq; [done|]]; simpl.
  { rewrite Hq. eexists. split_and!; [done|by apply safe_set_loops|]. intros He.
    split; [by apply exact_set_loops|]. unfold abs, with_turns. simpl. by rewrite Hq, Hstop. }
  rewrite schedulable_eq by done. destruct (Z.ltb_spec (running_fast_ s + running_slow_ s) (total_lane_ s)) as [Hlt|Hge].
  - destruct (schedule_eq now pj (set_queue q s)) as (pid & w & timer & Htm%timer_for_lane & Hpm & ->); [by apply safe_set_queue|].
    simpl. change (actual_lane (pj_lane pj) (set_queue q s)) with (actual_lane (pj_lane pj) s) in *.
    pose proof (actual_lane_free (pj_lane pj) s Hs Hlt) as Hfree.
    eexists. split; [done|]. split; [apply safe_set_loops, (safe_take (set_queue q s)); [by apply safe_set_queue|done..]|].
    intros He. destruct (exact_take s pj q pid now timer w Hs He Hfree Eq) as [He' Ha].
    split; [by apply exact_set_loops|]. pose proof (active_size s He) as Hsz. simpl in Hsz. rewrite Hsz, (proj2 (Z.ltb_lt _ _) Hlt).
    transitivity (with_turns (S (loops_ s)) (abs (set_running (emplace (pj_id pj) (start pj
      (actual_lane (pj_lane pj) s) pid now timer) (running_ s)) (set_pm w (bump (actual_lane (pj_lane pj) s) 1 (set_queue q s)))))).
    + unfold abs, with_turns. simpl. by destruct (actual_lane _ _).
    + rewrite Ha, <-(assign_lane_abs _ s Hs He). done.
  - eexists. split; [done|]. split; [by apply safe_set_loops|]. intros He.
    split; [by apply exact_set_loops|]. pose proof (active_size s He) as Hsz. simpl in Hsz. rewrite Hsz, (proj2 (Z.ltb_ge _ _) Hge). done.
Qed.

Lemma handle_exit_good i code now s :
  safe s → 0 <= now < 2 ^ 63 → ∃ s', handle_exit i code now s = Ret s' ∧ step_good (Exit i code now) s s'.
Proof.
  intros Hs Hnow. destruct (running_ s !! i) as [rj|] eqn:Hi.
  - destruct (handle_exit_eq i code now rj s Hs Hnow Hi) as (e & He & _ & Heq).
    eexists. split; [exact Heq|]. set (s1 := set_results _ e s).
    change (running_ s) with (running_ s1). rewrite give_eq.
    pose proof (safe_set_results (if WIFEXITED code then store (finish rj now code) (storage_ s) else storage_ s) e s Hs He) as Hs1.
    split; [apply safe_give; by try apply Hs1|]. intros [Hc Hp Hd] _.
    destruct (exact_give s1 i rj (pq_ s1) (pm_ s1) Hs1) as [He' Ha]; [by constructor|done|by left|].
    by split.
  - exists s. unfold handle_exit. rewrite Hi. split; [done|]. split; [done|]. intros Hex _. split; [done|].
    unfold pool_step, with_jobs. rewrite delete_id by by apply abs_active_none. done.
Qed.

Lemma handle_timeout_good i s :
  safe s → ∃ s', handle_timeout i s = Ret s' ∧ step_good (Timer i expired) s s'.
Proof.
  intros Hs. destruct (running_ s !! i) as [rj|] eqn:Hi.
  - destruct (handle_timeout_eq i rj s Hs Hi) as (w & _ & Hpm & Heq). eexists. split; [exact Heq|].
    split; [by apply safe_give|]. intros He _.
    destruct (exact_give s i rj (pq_ s ++ [requeue rj]) w Hs He Hi) as [He' Ha]; [by right|].
    split; [done|]. rewrite Ha. unfold pool_step. simpl. by rewrite lookup_fmap, Hi.
  - exists s. unfold handle_timeout. rewrite Hi. split; [done|]. split; [done|]. intros Hex _. split; [done|].
    simpl. by rewrite lookup_fmap, Hi.
Qed.

Lemma step_ok e s :
  safe s → clock_ok e → ∃ s', step e s = Ret s' ∧ step_good e s s'.
Proof.
  intros Hs Hck. destruct e as [| |pj|now|i code now|i [| |]]; simpl in *.
  - eexists. split; [done|]. split; [by apply safe_set_loops|]. intros He _. by split; [apply exact_set_loops|].
  - eexists. split; [done|]. split; [by apply safe_stop|]. intros [] _. by split; [constructor|].
  - eexists. split; [done|]. split; [by apply safe_set_queue|]. intros He [Hnin Hnone]. split; [|done].
    apply abs_active_none in Hnone. constructor; simpl.
    + intros l. apply (exact_counter s He l).
    + unfold Pending_Q.push. rewrite fmap_app. apply NoDup_app.
      split_and!; [apply He| |apply NoDup_singleton]. simpl. set_solver.
    + intros pj' [Hin | ->%list_elem_of_singleton]%elem_of_app; [by apply He|done].
  - destruct (loops_ s) as [|n] eqn:Hn; [exists s; split; [done|]; split; [done|]; simpl; by rewrite Hn|].
    destruct (run_loop_good now (set_loops n s)) as (s' & Hr & Hs' & Hex); [by apply safe_set_loops|done|].
    exists s'. split; [done|]. split; [done|]. intros He _.
    destruct Hex as [He' Ha]; [by apply exact_set_loops|]. split; [done|]. rewrite Ha. simpl. rewrite Hn.
    destruct (stop_ s); [done|]. f_equal. by rewrite <-Hn.
  - by apply handle_exit_good.
  - by apply handle_timeout_good.
  - by exists s.
  - by exists s.
Qed.

Lemma steps_ok es s :
  safe s → Forall clock_ok es →
  ∃ s', steps es s = Ret s' ∧ safe s' ∧
    (exact s → all_fresh es (abs s) → exact s' ∧ abs s' = pool_steps es (abs s)).
Proof.
  revert s. induction es as [|e es IH]; intros s Hs Hck; [by exists s|].
  apply Forall_cons in Hck as [He Hck]. destruct (step_ok e s Hs He) as (s1 & Hst & Hs1 & Hex1).
  destruct (IH s1 Hs1 Hck) as (s2 & Hsts & Hs2 & Hex2). exists s2. simpl. rewrite Hst. split_and!; [done..|].
  intros Hex [Hf Hfs]. destruct (Hex1 Hex Hf) as [Hex' Ha]. rewrite Ha in Hex2. by apply Hex2.
Qed.

End Refinement.
