(* ===== verification/SchedulerTheorems.v ===== *)
(** The properties of the process scheduler ([process/aps_scheduler.cpp]) over
    whole runs: any sequence of its callbacks, from its constructor on.  The
    process manager keeps [Process_Manager_Laws], as [ProcessManager] shows of the
    program's own when signalling and waiting for a child do not throw. *)

From S2P Require Import Prelude Double P90 Aps Scheduler SlotPool.

#[local] Open Scope Z_scope.

(** ** Jobs are conserved by the pool *)

Record pool_ok (p : Pool) : Prop := mkPoolOk {
  pool_disjoint pj : pj ∈ waiting p → active p !! pj_id pj = None;
  pool_pending : NoDup (pj_id <$> waiting p);
  pool_ids : map_Forall (λ i sl, id (fst sl) = i) (active p)
}.

Lemma keys_insert {A} (m : gmap str A) (i : str) (x : A) :
  m !! i = None → (map_to_list (<[i := x]> m)).*1 ≡ₚ i :: (map_to_list m).*1.
Proof. intros Hi. change (i :: (map_to_list m).*1) with (((i, x) :: map_to_list m).*1). by rewrite map_to_list_insert. Qed.

Lemma keys_delete {A} (m : gmap str A) (i : str) (x : A) :
  m !! i = Some x → (map_to_list m).*1 ≡ₚ i :: (map_to_list (delete i m)).*1.
Proof. intros Hi. rewrite <-(insert_delete_id m i x Hi) at 1. apply keys_insert, lookup_delete_eq. Qed.

Lemma pool_start_held p : pool_ok p → held (pool_start p) ≡ₚ held p.
Proof.
  intros Hok. unfold pool_start. destruct (waiting p) as [|pj q] eqn:Hq; [done|].
  case_match; [|done]. unfold held. simpl.
  assert (active p !! pj_id pj = None) as Hn by (apply (pool_disjoint p Hok); rewrite Hq; set_solver).
  rewrite Hq. unfold pj_id in *. rewrite keys_insert by done. simpl. solve_Permutation.
Qed.

Lemma pool_step_held e p :
  pool_ok p → fresh e p → held (pool_step e p) ++ ends e p ≡ₚ held p ++ brings e.
Proof.
  intros Hok Hf. destruct e as [| |pj|now|i code now|i [| |]]; simpl; rewrite ?app_nil_r; try done.
  - unfold held. simpl. rewrite fmap_app. simpl. solve_Permutation.
  - destruct (turns p); [done|]. case_match; [done|]. by apply pool_start_held.
  - unfold held. simpl. destruct (active p !! i) as [sl|] eqn:Hi.
    + rewrite (keys_delete _ _ _ Hi). solve_Permutation.
    + by rewrite delete_id, app_nil_r.
  - destruct (active p !! i) as [[spec l]|] eqn:Hi; [|done].
    unfold held. simpl. rewrite (keys_delete _ _ _ Hi), fmap_app. simpl.
    pose proof (pool_ids p Hok _ _ Hi) as Hid. simpl in Hid. unfold pj_id at 2. simpl. rewrite Hid. solve_Permutation.
Qed.

(** ** Turns of an idle pool *)

Lemma ticks_fresh n now p : all_fresh (replicate n (Tick now)) p.
Proof. revert p. induction n as [|n IH]; intros p; [done|]. split; [done|apply IH]. Qed.

Lemma pool_drains now q p :
  pool_ok p → waiting p = q → stopped p = false → turns p ≠ 0%nat →
  Z.of_nat (base.size (active p) + length q) <= width p →
  let p' := pool_steps (replicate (length q) (Tick now)) p in
  waiting p' = [] ∧
  (∀ i sl, active p !! i = Some sl → active p' !! i = Some sl) ∧
  (∀ pj, pj ∈ q → ∃ l, active p' !! pj_id pj = Some (pj_spec pj, l)).
Proof.
  revert p. induction q as [|pj q IH]; intros p Hok Hq Hst Ht Hfit; [by split_and!; [done..|set_solver]|].
  assert (active p !! pj_id pj = None) as Hn by (apply (pool_disjoint p Hok); rewrite Hq; set_solver).
  set (p1 := with_jobs q (<[pj_id pj := (pj_spec pj, assign_lane (pj_lane pj) p)]> (active p)) p).
  assert (pool_step (Tick now) p = p1) as Hp1.
  { simpl. destruct (turns p); [done|]. rewrite Hst. unfold pool_start. rewrite Hq.
    simpl in Hfit. by rewrite (proj2 (Z.ltb_lt _ _)) by lia. }
  pose proof (pool_pending p Hok) as Hnd. rewrite Hq in Hnd. apply NoDup_cons in Hnd as [Hnin Hnd].
  destruct (IH p1) as (Hw & Hkeep & Hall); try done.
  { constructor; simpl; [|done|].
    - intros pj' Hin. rewrite lookup_insert_ne; [apply (pool_disjoint p Hok); rewrite Hq; set_solver|].
      intros E. apply Hnin. rewrite E. by apply list_elem_of_fmap_2.
    - apply map_Forall_insert_2; [done|apply Hok]. }
  { simpl. rewrite map_size_insert_None by done. simpl in Hfit. lia. }
  change (pool_steps (replicate (length (pj :: q)) (Tick now)) p)
    with (pool_steps (replicate (length q) (Tick now)) (pool_step (Tick now) p)).
  rewrite Hp1. split_and!; [done| |].
  - intros i sl Hi. apply Hkeep. simpl. rewrite lookup_insert_ne; [done|congruence].
  - intros pj' [-> |Hin]%elem_of_cons; [|by apply Hall]. eexists. apply Hkeep. apply lookup_insert_eq.
Qed.

(** ** Every run *)

Section Runs.
Context {St W : Type} `{!Finished_IStorage St} `{!Process_Manager_I W} `{!Process_Manager_Laws W}.
Implicit Types s : Scheduler St W.

(** A run: a scheduler built with [lane] slots on a queue and a storage, and
    the callbacks [es]. *)
Definition started (lane : Z) (q : list Pending_Job) (st : St) (w : W) (es : list event) (s : Scheduler St W) : Prop :=
  ∃ s0, Scheduler_new true (Some q) (Some st) lane w = Ret s0 ∧ steps es s0 = Ret s.

Definition pool0 (lane : Z) (q : list Pending_Job) : Pool := mkPool lane (lane / 4) q ∅ 0 false.

(** The jobs a callback gives to the storage. *)
Definition finished_by (e : event) s : list Finished_Job :=
  match e with
  | Exit i code now =>
      match running_ s !! i with
      | Some rj => if WIFEXITED code then [finish rj now code] else []
      | None => []
      end
  | _ => []
  end.

(** How long a finished job ran, in whole seconds. *)
Definition run_time (fj : Finished_Job) : Z := seconds_between (fj_start_time fj) (fj_end_time fj).

Fixpoint finished_log (es : list event) s : list Finished_Job :=
  match es with
  | [] => []
  | e :: es => finished_by e s ++ match step e s with Ret s' => finished_log es s' | _ => [] end
  end.

Lemma exact_pool_ok s : safe s → exact s → pool_ok (abs s).
Proof.
  intros Hs He. constructor.
  - intros pj Hin. apply abs_active_none. by apply (exact_disjoint s He).
  - apply He.
  - intros i sl Hi. simpl in Hi. apply lookup_fmap_Some in Hi as (rj & <- & Hi).
    apply (safe_running s Hs i rj Hi).
Qed.

Lemma schedule_frame now pj s s' :
  schedule now pj s = Ret s' →
  total_lane_ s' = total_lane_ s ∧ storage_ s' = storage_ s ∧ p90_estimator_ s' = p90_estimator_ s.
Proof.
  unfold schedule. intros H. apply obind_Ret_inv in H as ([pid w] & _ & H).
  apply obind_Ret_inv in H as (timer & _ & [= <-]). by destruct (actual_lane _ _).
Qed.

Lemma step_frame e s s' :
  step e s = Ret s' →
  total_lane_ s' = total_lane_ s ∧ storage_ s' = store_all (finished_by e s) (storage_ s) ∧
  add_all (run_time <$> finished_by e s) (p90_estimator_ s) = Ret (p90_estimator_ s').
Proof.
  destruct e as [| |pj|now|i code now|i [| |]]; simpl; try by intros [= <-].
  - destruct (loops_ s) as [|n]; [by intros [= <-]|]. unfold run_loop.
    change (stop_ (set_loops n s)) with (stop_ s). destruct (stop_ s); [by intros [= <-]|].
    intros H. apply obind_Ret_inv in H as (s1 & H & [= <-]). simpl.
    case_match; [by injection H as <-|]. apply obind_Ret_inv in H as (pj & _ & H).
    case_match; [|by injection H as <-]. apply obind_Ret_inv in H as ([pj' q] & _ & H).
    apply schedule_frame in H as (-> & -> & ->). done.
  - unfold handle_exit. destruct (running_ s !! i) as [rj|]; [|by intros [= <-]]. intros H.
    apply obind_Ret_inv in H as (s1 & H & [= <-]). destruct (WIFEXITED code).
    + apply obind_Ret_inv in H as (e & He & [= <-]). csimpl.
      unfold run_time. simpl. rewrite He. by destruct (rj_lane rj).
    + injection H as <-. by destruct (rj_lane rj).
  - unfold handle_timeout. destruct (running_ s !! i) as [rj|]; [|by intros [= <-]]. intros H.
    apply obind_Ret_inv in H as (w & _ & [= <-]). by destruct (rj_lane rj).
Qed.

(** The estimator has been given the run times of the finished jobs. *)
Lemma steps_samples es s s' :
  steps es s = Ret s' → add_all (run_time <$> finished_log es s) (p90_estimator_ s) = Ret (p90_estimator_ s').
Proof.
  revert s. induction es as [|e es IH]; intros s H; simpl in H; [by injection H as <-|].
  apply obind_Ret_inv in H as (s1 & Hs1 & H). destruct (step_frame e s s1 Hs1) as (_ & _ & He).
  simpl. rewrite Hs1, fmap_app, add_all_app, He. by apply IH.
Qed.

Lemma steps_storage es s s' :
  steps es s = Ret s' → storage_ s' = store_all (finished_log es s) (storage_ s).
Proof.
  revert s. induction es as [|e es IH]; intros s H; simpl in H; [by injection H as <-|].
  apply obind_Ret_inv in H as (s1 & Hs1 & H). rewrite (IH s1 H), (proj1 (proj2 (step_frame e s s1 Hs1))).
  simpl. rewrite Hs1. unfold store_all. by rewrite foldl_app.
Qed.

Lemma steps_total es s s' : steps es s = Ret s' → total_lane_ s' = total_lane_ s.
Proof.
  revert s. induction es as [|e es IH]; intros s H; simpl in H; [by injection H as <-|].
  apply obind_Ret_inv in H as (s1 & Hs1 & H). by rewrite (IH s1 H), (proj1 (step_frame e s s1 Hs1)).
Qed.

Lemma running_keys s : (map_to_list (active (abs s))).*1 = (map_to_list (running_ s)).*1.
Proof. simpl. rewrite map_to_list_fmap, <-list_fmap_compose. done. Qed.

(** The ids along a run. *)
Lemma steps_held es s s' :
  safe s → exact s → Forall clock_ok es → all_fresh es (abs s) → steps es s = Ret s' →
  held (abs s') ++ all_ends es (abs s) ≡ₚ held (abs s) ++ mjoin (brings <$> es).
Proof.
  revert s. induction es as [|e es IH]; intros s Hs He Hck Hf H; simpl in H; [by injection H as <-|].
  apply Forall_cons in Hck as [Hck Hcks]. destruct Hf as [Hf Hfs].
  destruct (step_ok e s Hs Hck) as (s1 & Hst & Hs1 & Hex).
  rewrite Hst in H. simpl in H. destruct (Hex He Hf) as [He1 Ha1].
  pose proof (pool_step_held e (abs s) (exact_pool_ok s Hs He) Hf) as Hp.
  rewrite <-Ha1 in Hp, Hfs. specialize (IH s1 Hs1 He1 Hcks Hfs H). csimpl. rewrite <-Ha1.
  rewrite (Permutation_app_comm (ends e (abs s))), app_assoc, IH, <-app_assoc.
  rewrite (Permutation_app_comm (mjoin _)), app_assoc, Hp. by rewrite <-app_assoc.
Qed.

(** Every finished job comes from an exit of its id, with that exit's status. *)
Lemma finished_log_exits es s fj :
  safe s → Forall clock_ok es → fj ∈ finished_log es s →
  WIFEXITED (fj_exit_code fj) = true ∧
  Exit (id (fj_spec fj)) (fj_exit_code fj) (fj_end_time fj) ∈ es.
Proof.
  revert s. induction es as [|e es IH]; intros s Hs Hck Hin; [by apply elem_of_nil in Hin|].
  apply Forall_cons in Hck as [Hck Hcks].
  destruct (step_ok e s Hs Hck) as (s1 & Hst & Hs1 & _).
  simpl in Hin. rewrite Hst in Hin. apply elem_of_app in Hin as [Hin|Hin].
  - destruct e; simpl in Hin; try by apply elem_of_nil in Hin.
    destruct (running_ s !! i) as [rj|] eqn:Hi; [|by apply elem_of_nil in Hin].
    destruct (WIFEXITED exit_code) eqn:Hw; [|by apply elem_of_nil in Hin].
    apply list_elem_of_singleton in Hin as ->. split; [done|]. simpl.
    destruct (safe_running s Hs i rj Hi) as [-> _]. by left.
  - destruct (IH s1 Hs1 Hcks Hin) as [Hw Hex]. split; [done|]. by right.
Qed.
End Runs.

(** ** A process manager to run with

    It numbers the processes from 100 on and logs what it is asked. *)

Inductive pm_call := Spawned (pid : Z) (i : str) | Terminated (pid : Z).

#[export] Instance log_pm : Process_Manager_I (list pm_call) := {
  pm_spawn _ i w := Ret (100 + Z.of_nat (length w), w ++ [Spawned (100 + Z.of_nat (length w)) i]);
  pm_terminate pid w := Ret (w ++ [Terminated pid])
}.

Abbreviation Demo := (Scheduler Finished_Storage.sink (list pm_call)).

Definition demo (lane : Z) (q : list Pending_Job) (es : list event) : outcome Demo :=
  let! s := Scheduler_new true (Some q) (Some ∅) lane [] in steps es s.

Definition job_of (c : string) (l : Lane) : Pending_Job := mkPending (mkSpec (lit c) default_options) l.

Lemma demo_started lane q es s : demo lane q es = Ret s → started lane q ∅ [] es s.
Proof. intros H. by apply obind_Ret_inv in H. Qed.

#[export] Instance log_pm_laws : Process_Manager_Laws (list pm_call).
Proof. refine {| pm_laws_ok _ := True |}; by eauto. Defined.

(** Two submissions, a timeout, a restart and an exit. *)
Definition day : list event :=
  [Run; Submit (job_of "a" FAST); Submit (job_of "b" SLOW); Tick 1000000000; Tick 2000000000;
   Timer (lit "a") expired; Tick 33000000000; Exit (lit "b") 0 40000000000].

Lemma day_fresh : all_fresh day (pool0 4 []).
Proof. refine (bool_decide_unpack (all_fresh day (pool0 4 [])) _). vm_compute. exact I. Qed.

Lemma day_clock : Forall clock_ok day.
Proof. repeat constructor; simpl; lia. Qed.

(** ** Properties *)

(** C2: with at least four slots, and whatever callbacks run in whatever order
    (timers and exits of jobs that are gone, ids submitted twice, [stop] and
    [run] at any time), every callback returns: nothing is undefined, no
    counter wraps.  The counters stay within their lanes, there are never more
    jobs than slots are counted, and a job has a timer exactly when it is in a
    fast slot. *)
Theorem scheduler_never_overcommits {St W} `{!Finished_IStorage St} `{!Process_Manager_I W} `{!Process_Manager_Laws W}
    lane q (st : St) (w : W) es :
  4 <= lane < 2 ^ 64 → pm_ok w → Forall clock_ok es →
  ∃ s, started lane q st w es s ∧
    0 <= running_fast_ s <= lane / 4 ∧ 0 <= running_slow_ s <= lane - lane / 4 ∧
    Z.of_nat (base.size (running_ s)) <= running_fast_ s + running_slow_ s <= lane ∧
    ∀ i rj, running_ s !! i = Some rj → (is_Some (rj_timer rj) ↔ rj_lane rj = FAST).
Proof.
  intros Hl Hpm Hck. destruct (new_ok q st lane w Hl Hpm) as (s0 & Hnew & Hs0 & _ & Ha & _).
  destruct (steps_ok es s0 Hs0 Hck) as (s & Hsts & Hs & _).
  exists s. split; [by exists s0|].
  assert (total_lane_ s = lane) as Hlane.
  { rewrite (steps_total es s0 s Hsts). change (total_lane_ s0) with (width (abs s0)). by rewrite Ha. }
  pose proof (safe_counter s Hs FAST). pose proof (safe_counter s Hs SLOW).
  pose proof (in_lane_size rj_lane (running_ s)).
  pose proof (in_lane_nonneg rj_lane FAST (running_ s)). pose proof (in_lane_nonneg rj_lane SLOW (running_ s)).
  pose proof (safe_fast s Hs). pose proof (safe_slow s Hs). rewrite Hlane in *. simpl in *.
  do 3 (split; [lia|]). intros i rj Hi. apply (safe_running s Hs i rj Hi).
Qed.

Lemma scheduler_never_overcommits_witness :
  ∃ s : Demo, started 4 [] ∅ [] day s ∧
    0 <= running_fast_ s <= 1 ∧ 0 <= running_slow_ s <= 3.
Proof.
  destruct (scheduler_never_overcommits 4 [] (∅ : Finished_Storage.sink) [] day)
    as (s & H1 & H2 & H3 & _); [lia|exact I|exact day_clock|].
  exists s. exact (conj H1 (conj H2 H3)).
Defined.

(** C1: the scheduler is the pool of slots it promises to be.  As long as no
    job is submitted while its id is pending or running, after any callbacks
    its queue, its running jobs with their lanes and its state are those of
    [pool_steps]: a head of the queue starts when a slot is free, in its lane
    if that has one, jobs leave on their exit or go back to the queue's end as
    slow jobs when their time is up; and the two counters are exactly the
    numbers of running jobs in each lane. *)
Theorem scheduler_refines_pool {St W} `{!Finished_IStorage St} `{!Process_Manager_I W} `{!Process_Manager_Laws W}
    lane q (st : St) (w : W) es :
  4 <= lane < 2 ^ 64 → pm_ok w → Forall clock_ok es → NoDup (pj_id <$> q) → all_fresh es (pool0 lane q) →
  ∃ s, started lane q st w es s ∧ abs s = pool_steps es (pool0 lane q) ∧
    running_fast_ s = in_lane rj_lane FAST (running_ s) ∧
    running_slow_ s = in_lane rj_lane SLOW (running_ s).
Proof.
  intros Hl Hpm Hck Hnd Hf. destruct (new_ok q st lane w Hl Hpm) as (s0 & Hnew & Hs0 & He0 & Ha & _).
  destruct (steps_ok es s0 Hs0 Hck) as (s & Hsts & Hs & Hex).
  rewrite Ha in Hex. destruct (Hex (He0 Hnd) Hf) as [He Habs].
  exists s. split; [by exists s0|]. split; [done|].
  split; [apply (exact_counter s He FAST)|apply (exact_counter s He SLOW)].
Qed.

Lemma scheduler_refines_pool_witness :
  ∃ s : Demo, started 4 [] ∅ [] day s ∧ abs s = pool_steps day (pool0 4 []).
Proof.
  destruct (scheduler_refines_pool 4 [] (∅ : Finished_Storage.sink) [] day)
    as (s & H1 & H2 & _); [lia|exact I|exact day_clock|constructor|exact day_fresh|].
  exists s. exact (conj H1 H2).
Defined.

(** C3: no job is lost or doubled.  Let the ids of the queue at the start be
    distinct, and let no job be submitted while a job with its id is pending or
    running ([all_fresh]; without this [emplace] ignores the second job of an id,
    see [duplicate_id_leaks_slot]).  Then after any callbacks, the ids that are
    pending or running, with those that have exited, are a permutation of the ids
    the queue held at first and those submitted since; and no id is both pending
    and running, or twice in the queue. *)
Theorem jobs_are_conserved {St W} `{!Finished_IStorage St} `{!Process_Manager_I W} `{!Process_Manager_Laws W}
    lane q (st : St) (w : W) es :
  4 <= lane < 2 ^ 64 → pm_ok w → Forall clock_ok es → NoDup (pj_id <$> q) → all_fresh es (pool0 lane q) →
  ∃ s, started lane q st w es s ∧
    (pj_id <$> pq_ s) ++ (map_to_list (running_ s)).*1 ++ all_ends es (pool0 lane q)
      ≡ₚ (pj_id <$> q) ++ mjoin (brings <$> es) ∧
    NoDup (pj_id <$> pq_ s) ∧ (∀ pj, pj ∈ pq_ s → running_ s !! pj_id pj = None).
Proof.
  intros Hl Hpm Hck Hnd Hf. destruct (new_ok q st lane w Hl Hpm) as (s0 & Hnew & Hs0 & He0 & Ha & _).
  destruct (steps_ok es s0 Hs0 Hck) as (s & Hsts & Hs & Hex).
  rewrite Ha in Hex. destruct (Hex (He0 Hnd) Hf) as [He _].
  exists s. split; [by exists s0|]. split; [|split; [apply He|intros pj; apply He]].
  rewrite <-running_keys, app_assoc.
  pose proof (steps_held es s0 s Hs0 (He0 Hnd) Hck) as Hp.
  rewrite Ha in Hp. unfold held at 2 in Hp. simpl in Hp. rewrite app_nil_r in Hp. by apply Hp.
Qed.

Lemma jobs_are_conserved_witness :
  ∃ s : Demo, started 4 [] ∅ [] day s ∧
    (pj_id <$> pq_ s) ++ (map_to_list (running_ s)).*1 ++ all_ends day (pool0 4 []) ≡ₚ [lit "a"; lit "b"].
Proof.
  destruct (jobs_are_conserved 4 [] (∅ : Finished_Storage.sink) [] day)
    as (s & H1 & H2 & _); [lia|exact I|exact day_clock|constructor|exact day_fresh|].
  exists s. exact (conj H1 H2).
Defined.

(** A run that has a turn of [run_loop] pending and was not stopped drains
    its queue when slots allow: if the jobs pending and running (with distinct
    ids) fit the slots, then after as many turns as there are pending jobs all
    of them are running, each with the specification it was submitted with. *)
Theorem pending_jobs_all_start {St W} `{!Finished_IStorage St} `{!Process_Manager_I W} `{!Process_Manager_Laws W}
    lane q (st : St) (w : W) es s now :
  4 <= lane < 2 ^ 64 → pm_ok w → Forall clock_ok es → NoDup (pj_id <$> q) → all_fresh es (pool0 lane q) →
  started lane q st w es s → 0 <= now < 2 ^ 63 →
  stop_ s = false → loops_ s ≠ 0%nat →
  Z.of_nat (base.size (running_ s) + length (pq_ s)) <= lane →
  ∃ s', steps (replicate (length (pq_ s)) (Tick now)) s = Ret s' ∧ pq_ s' = [] ∧
    ∀ pj, pj ∈ pq_ s → ∃ rj, running_ s' !! pj_id pj = Some rj ∧ rj_spec rj = pj_spec pj.
Proof.
  intros Hl Hpm Hck Hnd Hf (s0' & Hnew' & Hsts') Hnow Hstop Hloops Hfit.
  destruct (new_ok q st lane w Hl Hpm) as (s0 & Hnew & Hs0 & He0 & Ha & _). rewrite Hnew in Hnew'. injection Hnew' as <-.
  destruct (steps_ok es s0 Hs0 Hck) as (s1 & Hsts & Hs & Hex).
  rewrite Hsts in Hsts'. injection Hsts' as ->.
  rewrite Ha in Hex. destruct (Hex (He0 Hnd) Hf) as [He _].
  assert (total_lane_ s = lane) as Hlane.
  { rewrite (steps_total es s0 s Hsts). change (total_lane_ s0) with (width (abs s0)). by rewrite Ha. }
  destruct (steps_ok (replicate (length (pq_ s)) (Tick now)) s Hs)
    as (s' & Hr & Hs' & Hex'); [by apply Forall_replicate|].
  destruct (Hex' He) as [He' Ha']; [apply ticks_fresh|].
  exists s'. split; [done|].
  destruct (pool_drains now (pq_ s) (abs s)) as (Hw & _ & Hact); try done.
  { by apply exact_pool_ok. }
  { simpl. rewrite map_size_fmap, Hlane. done. }
  rewrite <-Ha' in Hw, Hact. split; [exact Hw|]. intros pj Hin. destruct (Hact pj Hin) as [l Hpj].
  simpl in Hpj. apply lookup_fmap_Some in Hpj as (rj & [= Hspec _] & Hrj). by exists rj.
Qed.

Definition two_queued : list event := [Run; Submit (job_of "a" FAST); Submit (job_of "b" SLOW)].

Lemma two_queued_state :
  ∃ s, demo 4 [] two_queued = Ret s ∧ stop_ s = false ∧ loops_ s = 1%nat ∧
    pq_ s = [job_of "a" FAST; job_of "b" SLOW] ∧ running_ s = ∅.
Proof. eexists. split; [vm_compute; reflexivity|]. vm_compute. repeat split. Qed.

Lemma pending_jobs_all_start_witness :
  ∃ s s' : Demo, demo 4 [] two_queued = Ret s ∧
    steps [Tick 1; Tick 1] s = Ret s' ∧ pq_ s' = [].
Proof.
  destruct two_queued_state as (s & Hs & Hstop & Hloops & Hq & Hr). exists s.
  destruct (pending_jobs_all_start 4 [] (∅ : Finished_Storage.sink) []
              two_queued s 1) as (s' & H1 & H2 & _).
  - lia.
  - exact I.
  - repeat constructor.
  - constructor.
  - refine (bool_decide_unpack (all_fresh two_queued (pool0 4 [])) _). vm_compute. exact I.
  - apply demo_started, Hs.
  - lia.
  - exact Hstop.
  - rewrite Hloops. discriminate.
  - rewrite Hq, Hr. vm_compute. discriminate.
  - exists s'. rewrite Hq in H1. exact (conj Hs (conj H1 H2)).
Defined.


Lemma first_finished_in (i : str) (l : list Finished_Job) :
  first_finished i l = default_finished ∨ (first_finished i l ∈ l ∧ id (fj_spec (first_finished i l)) = i).
Proof.
  unfold first_finished. destruct (list_find _ l) as [[k fj]|] eqn:E; [|by left]. right.
  apply list_find_Some in E as (Hk & Hid & _). split; [|done]. by eapply list_elem_of_lookup_2.
Qed.

(** C30: the storage answers with what ran: after any callbacks [find i] is the
    first of the finished jobs of id [i] in the order of their exits.  Such a
    job carries the status and the time of an exit callback of [i] whose status
    satisfies [WIFEXITED]; without one, [find] answers as for an unknown id. *)
Theorem storage_answers_with_first_exit {St W}
    `{!Finished_IStorage St} `{!Finished_IStorage_Laws St} `{!Process_Manager_I W} `{!Process_Manager_Laws W}
    lane q (w : W) es i :
  4 <= lane < 2 ^ 64 → pm_ok w → Forall clock_ok es →
  ∃ (s0 s : Scheduler St W), Scheduler_new true (Some q) (Some new_storage) lane w = Ret s0 ∧
    steps es s0 = Ret s ∧
    let fj := find i (storage_ s) in
    fj = first_finished i (finished_log es s0) ∧
    (fj = default_finished ∨
     id (fj_spec fj) = i ∧ WIFEXITED (fj_exit_code fj) = true ∧ Exit i (fj_exit_code fj) (fj_end_time fj) ∈ es).
Proof.
  intros Hl Hpm Hck. destruct (new_ok q new_storage lane w Hl Hpm) as (s0 & Hnew & Hs0 & _ & _ & _ & Hst & _).
  destruct (steps_ok es s0 Hs0 Hck) as (s & Hsts & _).
  exists s0, s. split; [done|]. split; [done|]. intros fj.
  assert (fj = first_finished i (finished_log es s0)) as Hfj.
  { unfold fj. by rewrite (steps_storage es s0 s Hsts), Hst, find_stored. }
  split; [done|]. rewrite Hfj.
  destruct (first_finished_in i (finished_log es s0)) as [?|[Hin Hid]]; [by left|right].
  destruct (finished_log_exits es s0 _ Hs0 Hck Hin) as [Hw Hex].
  rewrite Hid in Hex. done.
Qed.

Lemma storage_answers_with_first_exit_witness :
  ∃ s0 s : Demo, steps day s0 = Ret s ∧
    find (lit "b") (storage_ s) = first_finished (lit "b") (finished_log day s0).
Proof.
  destruct (storage_answers_with_first_exit (St := Finished_Storage.sink) 4 [] [] day (lit "b")) as (s0 & s & _ & H1 & H2 & _); [lia|exact I|exact day_clock|].
  exists s0, s. exact (conj H1 H2).
Defined.

(** An exit code that is not 0 is lost when it comes decoded.  [handle_exit]
    applies [WIFEXITED], a test on a wait status, to its argument; if every exit
    of [i] is reported with an exit code from 1 to 127 (or a signal number), the
    job is taken off the table and its slot is freed, but nothing is stored:
    [find i] answers as if the job had never run. *)
Theorem nonzero_exit_code_is_lost {St W}
    `{!Finished_IStorage St} `{!Finished_IStorage_Laws St} `{!Process_Manager_I W} `{!Process_Manager_Laws W}
    lane q (w : W) es i :
  4 <= lane < 2 ^ 64 → pm_ok w → Forall clock_ok es →
  (∀ code now, Exit i code now ∈ es → 1 <= code <= 127) →
  ∃ s : Scheduler St W, started lane q new_storage w es s ∧ find i (storage_ s) = default_finished.
Proof.
  intros Hl Hpm Hck Hcodes. destruct (new_ok q new_storage lane w Hl Hpm) as (s0 & Hnew & Hs0 & _ & _ & _ & Hst & _).
  destruct (steps_ok es s0 Hs0 Hck) as (s & Hsts & _).
  exists s. split; [by exists s0|]. rewrite (steps_storage es s0 s Hsts), Hst, find_stored.
  destruct (first_finished_in i (finished_log es s0)) as [?|[Hin Hid]]; [done|].
  destruct (finished_log_exits es s0 _ Hs0 Hck Hin) as [Hw Hex].
  rewrite Hid in Hex. apply Hcodes in Hex. unfold WIFEXITED in Hw. apply Z.eqb_eq in Hw.
  change 127 with (Z.ones 7) in Hw. rewrite Z.land_ones, Z.mod_small in Hw by lia. lia.
Qed.

Definition failing_day : list event :=
  [Run; Submit (job_of "a" FAST); Tick 1000000000; Exit (lit "a") 1 40000000000].

Lemma nonzero_exit_code_is_lost_witness :
  ∃ s : Demo, started 4 [] ∅ [] failing_day s ∧ Finished_Storage.find (lit "a") (storage_ s) = default_finished.
Proof.
  destruct (nonzero_exit_code_is_lost (St := Finished_Storage.sink)
              4 [] [] failing_day (lit "a")) as (s & H1 & H2);
    [lia|exact I|repeat constructor; simpl; lia| |exists s; exact (conj H1 H2)].
  intros code now Hin. unfold failing_day in Hin. rewrite !elem_of_cons in Hin.
  destruct Hin as [[=]|[[=]|[[=]|[[= -> ->]|Hin]]]]; [lia|by apply elem_of_nil in Hin].
Defined.

(** C14: the time limit of a fast job is one and a half times the 90th percentile
    of what has run.  After any callbacks, a job that is started, and whose id is
    not running already, gets a timer when its slot is fast and none otherwise; the
    timer is 30 s while fewer than 15 run times are known and else the ceiling of
    [1.5 p], computed in binary64 without error, for a 90th percentile [p] of the
    last 1000 positive run times of the finished jobs. *)
Theorem fast_job_time_limit {St W} `{!Finished_IStorage St} `{!Process_Manager_I W} `{!Process_Manager_Laws W}
    lane q (st : St) (w : W) es pj now :
  4 <= lane < 2 ^ 64 → pm_ok w → Forall clock_ok es →
  ∃ (s0 s : Scheduler St W), Scheduler_new true (Some q) (Some st) lane w = Ret s0 ∧ steps es s0 = Ret s ∧
    let times := lastn 1000 (positives (run_time <$> finished_log es s0)) in
    (running_ s !! pj_id pj = None →
     ∃ s' rj, schedule now pj s = Ret s' ∧ running_ s' !! pj_id pj = Some rj ∧
       match rj_lane rj, rj_timer rj with
       | SLOW, None => True
       | FAST, Some t =>
           if decide (length times < 15)%nat then t = 30
           else ∃ p, is_p90 p times ∧ 3 * p <= 2 * t < 3 * p + 2
       | _, _ => False
       end).
Proof.
  intros Hl Hpm Hck. destruct (new_ok q st lane w Hl Hpm) as (s0 & Hnew & Hs0 & _ & _ & Hest & _).
  destruct (steps_ok es s0 Hs0 Hck) as (s & Hsts & Hs & _).
  exists s0, s. split; [done|]. split; [done|]. intros times Hnone.
  destruct (schedule_eq now pj s Hs) as (pid & w' & timer & Htimer & _ & Hsch).
  pose proof (steps_samples es s0 s Hsts) as Hadd. rewrite Hest in Hadd.
  destruct (add_all_ok (run_time <$> finished_log es s0) (P90_new 1000)) as (e & He & _ & _ & Hsam).
  { simpl. lia. } { split; [constructor|simpl; lia]. }
  rewrite Hadd in He. injection He as <-. change (samples_ (p90_estimator_ s) = times) in Hsam.
  pose proof (compute_timeout_eq s (safe_estimates s Hs)) as Hto. rewrite Hsam in Hto.
  eexists _, _. split; [exact Hsch|]. split.
  { simpl. unfold emplace. rewrite Hnone. apply lookup_insert_eq. }
  simpl. destruct (actual_lane (pj_lane pj) s), timer as [t|]; try done. simpl in Htimer.
  rewrite Htimer in Hto. case_decide; [by injection Hto as ->|].
  destruct Hto as (p & Hp & Hpos & [= ->]). exists p. split; [done|]. Z.to_euclidean_division_equations; lia.
Qed.

Lemma day_state :
  ∃ s0 s : Demo, Scheduler_new true (Some []) (Some ∅) 4 [] = Ret s0 ∧ steps day s0 = Ret s ∧
    running_ s !! lit "c" = None.
Proof. eexists _, _. split; [reflexivity|]. split; [vm_compute; reflexivity|]. vm_compute. reflexivity. Qed.

Lemma fast_job_time_limit_witness :
  ∃ s0 s : Demo, steps day s0 = Ret s ∧
    ∃ s' rj, schedule 50000000000 (job_of "c" FAST) s = Ret s' ∧ running_ s' !! lit "c" = Some rj.
Proof.
  destruct day_state as (s0 & s & Hnew & Hs & Hc).
  destruct (fast_job_time_limit 4 [] (∅ : Finished_Storage.sink) []
              day (job_of "c" FAST) 50000000000) as (s0' & s1 & Hnew' & Hs' & Htimer); [lia|exact I|exact day_clock|].
  rewrite Hnew in Hnew'. injection Hnew' as <-. rewrite Hs in Hs'. injection Hs' as <-.
  destruct (Htimer Hc) as (s' & rj & H1 & H2 & _).
  exists s0, s. split; [exact Hs|]. exists s', rj. exact (conj H1 H2).
Defined.

(** A job whose id is already running takes a slot for good.  [schedule]
    counts the slot and spawns the process, but [emplace] keeps the entry of the
    first job: the table is unchanged, so no exit and no timer of this id can
    free the second slot. *)
Theorem duplicate_id_leaks_slot {St W} `{!Finished_IStorage St} `{!Process_Manager_I W} `{!Process_Manager_Laws W}
    lane q (st : St) (w : W) es
    (s : Scheduler St W) pj now :
  4 <= lane < 2 ^ 64 → pm_ok w → Forall clock_ok es → started lane q st w es s →
  is_Some (running_ s !! pj_id pj) → schedulable pj s = true →
  ∃ s', schedule now pj s = Ret s' ∧ running_ s' = running_ s ∧
    running_fast_ s' + running_slow_ s' = running_fast_ s + running_slow_ s + 1.
Proof.
  intros Hl Hpm Hck (s0' & Hnew' & Hsts') [rj Hrj] Hfree.
  destruct (new_ok q st lane w Hl Hpm) as (s0 & Hnew & Hs0 & _). rewrite Hnew in Hnew'. injection Hnew' as <-.
  destruct (steps_ok es s0 Hs0 Hck) as (s1 & Hsts & Hs & _).
  rewrite Hsts in Hsts'. injection Hsts' as ->. rewrite schedulable_eq in Hfree by done. apply Z.ltb_lt in Hfree.
  destruct (schedule_eq now pj s Hs) as (pid & w' & timer & _ & _ & Hsch).
  pose proof (actual_lane_free (pj_lane pj) s Hs Hfree) as Hlt. set (l := actual_lane _ s) in *.
  eexists. split; [exact Hsch|]. split; [simpl; unfold emplace; by rewrite Hrj|].
  pose proof (lane_size_bound l s Hs). pose proof (counter_nonneg l s Hs).
  change (counter FAST (bump l 1 s) + counter SLOW (bump l 1 s) = counter FAST s + counter SLOW s + 1).
  rewrite !bump_counter by lia. destruct l; simpl; lia.
Qed.

Definition twice : list event := [Run; Submit (job_of "a" SLOW); Tick 1].

Lemma twice_state :
  ∃ s, demo 4 [] twice = Ret s ∧ is_Some (running_ s !! lit "a") ∧ schedulable (job_of "a" SLOW) s = true.
Proof. eexists. split; [vm_compute; reflexivity|]. split; [eexists|]; vm_compute; reflexivity. Qed.

Lemma duplicate_id_leaks_slot_witness :
  ∃ s s' : Demo, demo 4 [] twice = Ret s ∧ schedule 2 (job_of "a" SLOW) s = Ret s' ∧ running_ s' = running_ s.
Proof.
  destruct twice_state as (s & Hs & Hr & Hfree). exists s.
  destruct (duplicate_id_leaks_slot 4 [] (∅ : Finished_Storage.sink) []
              twice s (job_of "a" SLOW) 2) as (s' & H1 & H2 & _).
  - lia.
  - exact I.
  - repeat constructor; simpl; lia.
  - apply demo_started, Hs.
  - exact Hr.
  - exact Hfree.
  - exists s'. exact (conj Hs (conj H1 H2)).
Defined.

(** ** Concrete runs *)

(** The exit callback holds the id only: the late exit of the process that was
    killed by the timeout takes the restarted job off the table, and process 101
    runs on without a slot. *)
Example stale_exit_retires_restarted_job :
  ∃ s, demo 4 [] [Run; Submit (job_of "a" FAST); Tick 1; Timer (lit "a") expired; Tick 2; Exit (lit "a") 9 3] = Ret s ∧
    running_ s = ∅ ∧ running_slow_ s = 0 ∧
    pm_ s = [Spawned 100 (lit "a"); Terminated 100; Spawned 102 (lit "a")].
Proof. eexists. split; [vm_compute; reflexivity|]. vm_compute. repeat split. Qed.

(** A slow job is started although its lane is full and the limit on borrowing,
    half of the fast lane, is reached: the cases of [schedulable] fall through to
    [return true]. *)
Example slow_job_borrows_last_slot :
  ∃ s, demo 4 [job_of "a" SLOW; job_of "b" SLOW; job_of "c" SLOW; job_of "d" SLOW]
    [Run; Tick 1; Tick 2; Tick 3; Tick 4] = Ret s ∧
    running_slow_ s = 3 ∧ running_fast_ s = 1 ∧ pq_ s = [].
Proof. eexists. split; [vm_compute; reflexivity|]. vm_compute. repeat split. Qed.

(** The constructor's checks. *)
Example constructor_throws :
  Scheduler_new (W := list pm_call) true (Some []) (Some (∅ : Finished_Storage.sink)) 3 [] = Throw [] ∧
  Scheduler_new (W := list pm_call) false (Some []) (Some (∅ : Finished_Storage.sink)) 8 [] = Throw [] ∧
  Scheduler_new (St := Finished_Storage.sink) (W := list pm_call) true None (Some ∅) 8 [] = Throw [] ∧
  Scheduler_new (St := Finished_Storage.sink) (W := list pm_call) true (Some []) None 8 [] = Throw [].
Proof. repeat split. Qed.
