(* ===== verification/SchedulerLiveness.v ===== *)
(** Every job ends: the liveness of the scheduler ([process/aps_scheduler.cpp]).

    An execution is an infinite sequence of callbacks.  It is fair when turns of
    [run_loop] keep coming, a running job that has a process sees its exit or its
    timer, no job times out for ever, and failed spawns do not take every slot: a
    spawn that fails answers [-1], the job stays on the table and no exit comes for
    it.  In a fair execution every job that was ever submitted leaves the queue
    and then the table for good, unless its last spawn failed. *)

From S2P Require Import Prelude Double P90 Aps Scheduler SlotPool SchedulerTheorems.

#[local] Open Scope Z_scope.

(** The jobs a callback brings. *)
Definition submits (e : event) : list Pending_Job :=
  match e with Submit pj => [pj] | _ => [] end.

Definition submitted (es : list event) : list Pending_Job := mjoin (submits <$> es).

(** ** The pool, one callback at a time *)

(** A callback starts the head of the queue. *)
Definition starts (e : event) (p : Pool) : bool :=
  match e with
  | Tick _ =>
      negb (stopped p) && bool_decide (turns p ≠ 0%nat) && bool_decide (waiting p ≠ []) &&
      (Z.of_nat (base.size (active p)) <? width p)
  | _ => false
  end.

(** A callback takes job [i] off the table. *)
Definition takes_off (i : str) (e : event) : Prop :=
  (∃ code now, e = Exit i code now) ∨ e = Timer i expired.

#[export] Instance takes_off_dec i e : Decision (takes_off i e).
Proof.
  destruct e as [| |pj|now|j code now|j [| |]]; try (right; by intros [(? & ? & ?)|?]);
    (destruct (decide (j = i)) as [-> |]; [left|right; intros [(? & ? & ?)|?]; congruence]).
  - left. eauto.
  - by right.
Defined.

Lemma size_delete {A} (m : gmap str A) (i : str) (x : A) :
  m !! i = Some x → base.size m = S (base.size (delete i m)).
Proof. intros Hi. rewrite <-(insert_delete_id m i x Hi) at 1. apply map_size_insert_None, lookup_delete_eq. Qed.

Lemma starts_head e p :
  starts e p = true →
  ∃ pj q l, waiting p = pj :: q ∧ waiting (pool_step e p) = q ∧
    active (pool_step e p) !! pj_id pj = Some (pj_spec pj, l).
Proof.
  destruct e; try done. simpl. rewrite !andb_true_iff, !bool_decide_eq_true. intros [[[Hst Ht] Hq] Hlt].
  destruct (turns p); [done|]. destruct (stopped p); [done|]. unfold pool_start.
  destruct (waiting p) as [|pj q]; [done|]. rewrite Hlt. eexists pj, q, _. split_and!; [done..|]. apply lookup_insert_eq.
Qed.

Lemma starts_not e p :
  starts e p = false → waiting p `prefix_of` waiting (pool_step e p) ∧ active (pool_step e p) ⊆ active p.
Proof.
  destruct e as [| |pj|now|i code now|i [| |]]; simpl; try done.
  - intros _. split; [by apply prefix_app_r|done].
  - unfold pool_start. destruct (turns p); [done|]. destruct (stopped p); [done|]. simpl.
    destruct (waiting p) as [|pj q] eqn:Hq; [by rewrite Hq|]. simpl. intros ->. by rewrite Hq.
  - intros _. split; [done|apply delete_subseteq].
  - intros _. destruct (active p !! i) as [[spec l]|]; [|done]. split; [by apply prefix_app_r|apply delete_subseteq].
Qed.

Lemma takes_off_gone i e p : takes_off i e → active (pool_step e p) !! i = None.
Proof.
  intros [(code & now & ->)| ->]; simpl; [apply lookup_delete_eq|].
  destruct (active p !! i) as [[]|] eqn:Hi; [apply lookup_delete_eq|done].
Qed.

Lemma pool_step_frame e p :
  e ≠ Stop → stopped p = false →
  width (pool_step e p) = width p ∧ stopped (pool_step e p) = false ∧
  (e = Run ∨ turns p ≠ 0%nat → turns (pool_step e p) ≠ 0%nat).
Proof.
  intros Hu Hst. unfold pool_step, pool_start.
  destruct e as [| |pj|now|i code now|i [| |]]; repeat case_match; simpl in *; naive_solver lia.
Qed.

(** ** The jobs of the pool, by their specifications *)

Definition specs (p : Pool) : list Job_Specification :=
  (pj_spec <$> waiting p) ++ (map_to_list (active p)).*2.*1.

Definition leaves (e : event) (p : Pool) : list Job_Specification :=
  match e with
  | Exit i _ _ => match active p !! i with Some (spec, _) => [spec] | None => [] end
  | _ => []
  end.

Lemma values_delete {A} (m : gmap str A) (i : str) (x : A) :
  m !! i = Some x → (map_to_list m).*2 ≡ₚ x :: (map_to_list (delete i m)).*2.
Proof.
  intros Hi. rewrite <-(insert_delete_id m i x Hi) at 1.
  by rewrite map_to_list_insert by apply lookup_delete_eq.
Qed.

Lemma pool_step_specs e p :
  pool_ok p → specs (pool_step e p) ++ leaves e p ≡ₚ specs p ++ (pj_spec <$> submits e).
Proof.
  intros Hok. unfold specs.
  destruct e as [| |pj|now|i code now|i [| |]]; simpl; rewrite ?app_nil_r; try done.
  - rewrite fmap_app. simpl. solve_Permutation.
  - destruct (turns p); [done|]. destruct (stopped p); [done|]. unfold pool_start.
    destruct (waiting p) as [|pj q] eqn:Hq; [by rewrite Hq|]. case_match; [|by rewrite Hq]. simpl.
    assert (active p !! pj_id pj = None) as Hn by (apply (pool_disjoint p Hok); rewrite Hq; left).
    rewrite map_to_list_insert by done. csimpl. solve_Permutation.
  - destruct (active p !! i) as [[spec l]|] eqn:Hi.
    + rewrite (values_delete _ _ _ Hi). csimpl. solve_Permutation.
    + by rewrite delete_id, app_nil_r.
  - destruct (active p !! i) as [[spec l]|] eqn:Hi; [|done]. simpl.
    rewrite (values_delete _ _ _ Hi), fmap_app. csimpl. solve_Permutation.
Qed.

(** ** Distinct jobs are fresh *)

Definition ids (p : Pool) : list str := id <$> specs p.

Lemma new_id_fresh pj p : pool_ok p → pj_id pj ∉ ids p → fresh (Submit pj) p.
Proof.
  intros Hok Hn. unfold ids, specs in Hn. rewrite fmap_app, not_elem_of_app in Hn. destruct Hn as [Hw Ha]. split.
  - intros Hin. apply Hw. by rewrite <-list_fmap_compose.
  - apply eq_None_not_Some. intros [sl Hi]. apply Ha. rewrite <-(pool_ids p Hok _ _ Hi).
    do 2 apply list_elem_of_fmap_2. apply list_elem_of_fmap. exists (pj_id pj, sl). split; [done|].
    by apply elem_of_map_to_list.
Qed.

Lemma ids_step e p js :
  pool_ok p → NoDup (ids p ++ (pj_id <$> submits e ++ js)) → NoDup (ids (pool_step e p) ++ (pj_id <$> js)).
Proof.
  intros Hok. pose proof (fmap_Permutation id _ _ (pool_step_specs e p Hok)) as Hp.
  rewrite !fmap_app, <-list_fmap_compose in Hp. change (id ∘ pj_spec) with pj_id in Hp.
  unfold ids. rewrite fmap_app, app_assoc, <-Hp. intros Hnd.
  eapply sublist_NoDup; [exact Hnd|]. apply sublist_app; [by apply sublist_inserts_r|done].
Qed.

(** ** Runs of the scheduler *)

Section Runs.
Context {St W : Type} `{!Finished_IStorage St} `{!Process_Manager_I W} `{!Process_Manager_Laws W}.
Implicit Types s : Scheduler St W.

(** The invariant of a run whose jobs have distinct ids. *)
Record distinct (js : list Pending_Job) s : Prop := mkDistinct {
  distinct_safe : safe s;
  distinct_exact : exact s;
  distinct_ids : NoDup (ids (abs s) ++ (pj_id <$> js))
}.

Lemma distinct_step e es s :
  distinct (submitted (e :: es)) s → clock_ok e →
  ∃ s', step e s = Ret s' ∧ abs s' = pool_step e (abs s) ∧ distinct (submitted es) s'.
Proof.
  intros [Hs He Hnd] Hck. pose proof (exact_pool_ok s Hs He) as Hok.
  change (submitted (e :: es)) with (submits e ++ submitted es) in Hnd.
  assert (fresh e (abs s)) as Hf.
  { destruct e; try done. apply new_id_fresh; [done|].
    apply NoDup_app in Hnd as (_ & Hn & _). simpl in Hn. set_solver. }
  destruct (step_ok e s Hs Hck) as (s' & Hst & Hs' & Hex). destruct (Hex He Hf) as [He' Ha].
  exists s'. split_and!; [done..|]. constructor; [done..|]. rewrite Ha.
  apply (ids_step e (abs s)); done.
Qed.

End Runs.

(** ** Executions *)

(** The first [n] callbacks of an infinite sequence. *)
Definition prefix (ev : nat → event) (n : nat) : list event := ev <$> seq 0 n.

Section Execution.
Context {St W : Type} `{!Finished_IStorage St} `{!Process_Manager_I W}.

(** The scheduler after [n] callbacks; none of them throws ([steps_state]). *)
Fixpoint state (ev : nat → event) (s0 : Scheduler St W) (n : nat) : Scheduler St W :=
  match n with
  | O => s0
  | S n => match step (ev n) (state ev s0 n) with Ret s => s | _ => state ev s0 n end
  end.

(** A job on the table without a process: its spawn answered [-1]. *)
Definition spawn_failed (rj : Running_Job) : bool := rj_pid rj =? -1.

Definition without_process (s : Scheduler St W) : Z :=
  Z.of_nat (base.size (filter (λ kv, spawn_failed kv.2 = true) (running_ s))).

(** What the environment of the scheduler owes it. *)
Record fair (ev : nat → event) (s0 : Scheduler St W) : Prop := mkFair {
  fair_clock n : clock_ok (ev n);
  fair_going n : ev n ≠ Stop;
  fair_run : ∃ n, ev n = Run;
  fair_ticks n : ∃ m now, (n <= m)%nat ∧ ev m = Tick now;
  fair_exits n i rj :
    running_ (state ev s0 n) !! i = Some rj → spawn_failed rj = false → ∃ m, (n <= m)%nat ∧ takes_off i (ev m);
  fair_timers i : ∃ n, ∀ m, (n <= m)%nat → ev m ≠ Timer i expired;
  fair_spawns n : without_process (state ev s0 n) < total_lane_ s0
}.

(** Where a job that was submitted is in the end: on the table without a process,
    or in neither of the scheduler's tables after an exit, which the storage
    answers with when its status satisfies [WIFEXITED]. *)
Definition stuck (pj : Pending_Job) (s : Scheduler St W) : Prop :=
  ∃ rj, running_ s !! pj_id pj = Some rj ∧ rj_spec rj = pj_spec pj ∧ spawn_failed rj = true.

Definition ended (pj : Pending_Job) (es : list event) (s : Scheduler St W) : Prop :=
  (pj_id pj ∉ pj_id <$> pq_ s) ∧ running_ s !! pj_id pj = None ∧
  ∃ code now, Exit (pj_id pj) code now ∈ es ∧
    let fj := find (pj_id pj) (storage_ s) in
    if WIFEXITED code then fj_spec fj = pj_spec pj ∧ fj_exit_code fj = code ∧ fj_end_time fj = now
    else fj = default_finished.
End Execution.

(** A job stays on the table until a callback takes it off. *)
Lemma step_keeps_running {St W} `{!Finished_IStorage St} `{!Process_Manager_I W} e (s s' : Scheduler St W) i rj :
  step e s = Ret s' → running_ s !! i = Some rj → ¬ takes_off i e → running_ s' !! i = Some rj.
Proof.
  intros H Hi Hn. destruct e as [| |pj|now|j code now|j [| |]]; simpl in H; try by injection H as <-.
  - destruct (loops_ s) as [|k]; [by injection H as <-|]. unfold run_loop in H.
    change (stop_ (set_loops k s)) with (stop_ s) in H. destruct (stop_ s); [by injection H as <-|].
    apply obind_Ret_inv in H as (s1 & H & [= <-]). simpl. case_match; [by injection H as <-|].
    apply obind_Ret_inv in H as (pj & _ & H). case_match; [|by injection H as <-].
    apply obind_Ret_inv in H as ([pj' q] & _ & H). unfold schedule in H.
    apply obind_Ret_inv in H as ([pid w] & _ & H). apply obind_Ret_inv in H as (timer & _ & [= <-]).
    simpl. assert (∀ l : Lane, running_ (bump l 1 (set_queue q (set_loops k s))) = running_ s) as Hr by by intros [].
    rewrite Hr. unfold emplace. destruct (running_ s !! id (pj_spec pj')) eqn:Hj; [done|].
    rewrite lookup_insert_ne; [done|congruence].
  - assert (j ≠ i) as Hne by (intros ->; apply Hn; left; eauto). unfold handle_exit in H.
    destruct (running_ s !! j) as [rj'|]; [|by injection H as <-]. apply obind_Ret_inv in H as (s1 & H & [= <-]).
    assert (running_ s1 = running_ s) as Hr.
    { case_match; [|by injection H as <-]. by apply obind_Ret_inv in H as (e & _ & [= <-]). }
    destruct (rj_lane rj'); simpl; by rewrite lookup_delete_ne, Hr.
  - assert (j ≠ i) as Hne by (intros ->; apply Hn; by right). unfold handle_timeout in H.
    destruct (running_ s !! j) as [rj'|]; [|by injection H as <-]. apply obind_Ret_inv in H as (w & _ & [= <-]).
    destruct (rj_lane rj'); simpl; by rewrite lookup_delete_ne.
Qed.

Lemma state_stays {St W} `{!Finished_IStorage St} `{!Process_Manager_I W} ev (s0 s : Scheduler St W) n :
  state ev s0 n = s → step (ev n) s = Ret s → state ev s0 (S n) = s.
Proof. intros <- H. simpl. by rewrite H. Qed.

Lemma first_finished_app_other i l1 l2 :
  Forall (λ fj, id (fj_spec fj) ≠ i) l2 → first_finished i (l1 ++ l2) = first_finished i l1.
Proof.
  intros Hl. unfold first_finished. destruct (list_find _ l1) as [[k fj]|] eqn:H1.
  - by rewrite (list_find_app_l _ _ l2 _ _ H1).
  - rewrite list_find_app_r by done. assert (list_find (λ fj, id (fj_spec fj) = i) l2 = None) as -> by by apply list_find_None. done.
Qed.

Lemma first_finished_app_new i l1 fj l2 :
  Forall (λ fj, id (fj_spec fj) ≠ i) l1 → id (fj_spec fj) = i → first_finished i (l1 ++ fj :: l2) = fj.
Proof.
  intros Hl Hid. unfold first_finished.
  rewrite list_find_app_r by (apply list_find_None; exact Hl). simpl.
  rewrite decide_True by done. done.
Qed.

Lemma steps_app {St W} `{!Finished_IStorage St} `{!Process_Manager_I W} es1 es2 (s : Scheduler St W) :
  steps (es1 ++ es2) s = obind (steps es1 s) (steps es2).
Proof. revert s. induction es1 as [|e es1 IH]; intros s; simpl; [done|]. destruct (step e s); simpl; [apply IH|done|done]. Qed.

Section Fair.
Context {St W : Type} `{!Finished_IStorage St} `{!Finished_IStorage_Laws St} `{!Process_Manager_I W} `{!Process_Manager_Laws W}.
Context (lane : Z) (q : list Pending_Job) (w : W) (ev : nat → event) (s0 : Scheduler St W).
Hypothesis Hlane : 4 <= lane < 2 ^ 64.
Hypothesis Hpm : pm_ok w.
Hypothesis Hnew : Scheduler_new true (Some q) (Some new_storage) lane w = Ret s0.
Hypothesis Hfair : fair ev s0.
Hypothesis Hnd : ∀ n, NoDup (pj_id <$> q ++ submitted (prefix ev n)).

#[local] Abbreviation at_ n := (state ev s0 n).
#[local] Abbreviation P n := (abs (state ev s0 n)).

Lemma prefix_S n : prefix ev (S n) = prefix ev n ++ [ev n].
Proof. unfold prefix. by rewrite seq_S, fmap_app. Qed.

Lemma submitted_app es1 es2 : submitted (es1 ++ es2) = submitted es1 ++ submitted es2.
Proof. unfold submitted. by rewrite fmap_app, join_app. Qed.

Lemma submitted_S n : submitted (prefix ev (S n)) = submitted (prefix ev n) ++ submits (ev n).
Proof. rewrite prefix_S, submitted_app. unfold submitted at 2. simpl. by rewrite app_nil_r. Qed.

Lemma prefix_seq n k : prefix ev (n + k) = prefix ev n ++ (ev <$> seq n k).
Proof. unfold prefix. by rewrite seq_app, fmap_app. Qed.

(** *** The invariant of the execution *)

Lemma state_0 : abs s0 = mkPool lane (lane / 4) q ∅ 0 false ∧ storage_ s0 = new_storage.
Proof. destruct (new_ok q new_storage lane w Hlane Hpm) as (s & Hs & _ & _ & Ha & _ & Hst & _). rewrite Hnew in Hs. by injection Hs as <-. Qed.

Lemma distinct_state n k : distinct (submitted (ev <$> seq n k)) (at_ n).
Proof.
  revert k. induction n as [|n IH]; intros k.
  - destruct (new_ok q new_storage lane w Hlane Hpm) as (s & Hs & Hsafe & Hex & Ha & _). rewrite Hnew in Hs. injection Hs as <-.
    pose proof (Hnd k) as Hk. rewrite fmap_app in Hk. constructor; simpl; [done| |].
    + apply Hex. by apply NoDup_app in Hk as [? _].
    + rewrite Ha. unfold ids, specs. simpl. rewrite app_nil_r, <-list_fmap_compose. done.
  - pose proof (IH (S k)) as Hd. simpl in Hd.
    destruct (distinct_step _ _ _ Hd (fair_clock _ _ Hfair n)) as (s' & Hst & _ & Hd'). simpl. by rewrite Hst.
Qed.

Lemma step_state n : step (ev n) (at_ n) = Ret (at_ (S n)) ∧ P (S n) = pool_step (ev n) (P n).
Proof.
  destruct (distinct_step _ _ _ (distinct_state n 1) (fair_clock _ _ Hfair n)) as (s' & Hst & Ha & _).
  simpl. rewrite Hst. done.
Qed.

Lemma steps_state n : steps (prefix ev n) s0 = Ret (at_ n).
Proof.
  induction n as [|n IH]; [done|]. rewrite prefix_S, steps_app, IH. simpl. pose proof (proj1 (step_state n)) as Hs.
  simpl in Hs. by rewrite Hs.
Qed.

Lemma pool_ok_state n : pool_ok (P n).
Proof. destruct (distinct_state n 0). by apply exact_pool_ok. Qed.

Lemma pool_state n : width (P n) = lane ∧ stopped (P n) = false.
Proof.
  induction n as [|n [IHw IHs]]; [cbn [state]; rewrite (proj1 state_0); done|]. rewrite (proj2 (step_state n)).
  destruct (pool_step_frame (ev n) (P n) (fair_going _ _ Hfair n) IHs) as (-> & -> & _). done.
Qed.

Lemma turns_state : ∃ n, ∀ m, (n <= m)%nat → turns (P m) ≠ 0%nat.
Proof.
  destruct (fair_run _ _ Hfair) as [n Hn]. exists (S n). induction 1 as [|m _ IH]; rewrite (proj2 (step_state _));
    (apply pool_step_frame; [apply (fair_going _ _ Hfair)|apply pool_state|by auto]).
Qed.

(** *** Every job is pending, running or has exited *)

Fixpoint exited (n : nat) : list str :=
  match n with O => [] | S n => exited n ++ ends (ev n) (P n) end.

Fixpoint log (n : nat) : list Finished_Job :=
  match n with O => [] | S n => log n ++ finished_by (ev n) (at_ n) end.

Lemma held_state n : held (P n) ++ exited n ≡ₚ pj_id <$> q ++ submitted (prefix ev n).
Proof.
  induction n as [|n IH]; [cbn [state]; rewrite (proj1 state_0); unfold held; simpl; by rewrite map_to_list_empty, !app_nil_r|].
  assert (fresh (ev n) (P n)) as Hf.
  { destruct (distinct_state n 1) as [_ _ Hi]. simpl in Hi. unfold submitted in Hi. simpl in Hi. rewrite app_nil_r in Hi.
    destruct (ev n) eqn:He; try done. apply new_id_fresh; [apply pool_ok_state|].
    apply NoDup_app in Hi as (_ & Hn & _). simpl in Hn. set_solver. }
  rewrite submitted_S, app_assoc, fmap_app, <-IH. pose proof (pool_step_held (ev n) (P n) (pool_ok_state n) Hf) as Hh.
  rewrite <-(proj2 (step_state n)) in Hh.
  assert (pj_id <$> submits (ev n) = brings (ev n)) as -> by by destruct (ev n).
  cbn [exited]. trans ((held (P (S n)) ++ ends (ev n) (P n)) ++ exited n); [solve_Permutation|]. rewrite Hh. solve_Permutation.
Qed.

Lemma held_or_exited n i : i ∈ pj_id <$> q ++ submitted (prefix ev n) ↔ i ∈ held (P n) ∨ i ∈ exited n.
Proof. by rewrite <-held_state, elem_of_app. Qed.

Lemma exited_not_held n i : i ∈ exited n → i ∉ held (P n).
Proof.
  intros Hi Hh. pose proof (Hnd n) as Hk. rewrite <-held_state in Hk. apply NoDup_app in Hk as (_ & Hk & _). by apply (Hk i).
Qed.

Lemma elem_of_held n i : i ∈ held (P n) ↔ (i ∈ pj_id <$> pq_ (at_ n)) ∨ is_Some (running_ (at_ n) !! i).
Proof.
  assert (i ∈ (map_to_list (running_ (at_ n))).*1 ↔ is_Some (running_ (at_ n) !! i)) as Hk.
  { rewrite list_elem_of_fmap. split.
    - intros ([j rj] & -> & Hin). apply elem_of_map_to_list in Hin. by exists rj.
    - intros [rj Hi]. exists (i, rj). split; [done|]. by apply elem_of_map_to_list. }
  unfold held. by rewrite elem_of_app, running_keys, Hk.
Qed.

Lemma exited_mono n m i : (n <= m)%nat → i ∈ exited n → i ∈ exited m.
Proof. induction 1; simpl; set_solver. Qed.

Lemma prefix_mono n m e : (n < m)%nat → e = ev n → e ∈ prefix ev m.
Proof. intros Hlt ->. unfold prefix. apply list_elem_of_fmap_2, elem_of_seq. lia. Qed.

Lemma exit_takes n i code now :
  ev n = Exit i code now → is_Some (running_ (at_ n) !! i) → i ∈ exited (S n).
Proof.
  intros He [rj Hi]. simpl. rewrite He. simpl. rewrite lookup_fmap, Hi. simpl. set_solver.
Qed.

Lemma exited_by n i :
  i ∈ exited n → ∃ m code now rj, (m < n)%nat ∧ ev m = Exit i code now ∧ running_ (at_ m) !! i = Some rj.
Proof.
  induction n as [|n IH]; simpl; [by intros ?%elem_of_nil|]. intros [Hi|Hi]%elem_of_app.
  - destruct (IH Hi) as (m & code & now & rj & ? & ? & ?). exists m, code, now, rj. split_and!; [lia|done..].
  - destruct (ev n) eqn:He; simpl in Hi; try by apply elem_of_nil in Hi.
    rewrite lookup_fmap in Hi. destruct (running_ (at_ n) !! i0) as [rj|] eqn:Hr; simpl in Hi; [|by apply elem_of_nil in Hi].
    apply list_elem_of_singleton in Hi as ->. exists n, exit_code, now, rj. split_and!; [lia|done..].
Qed.

Lemma running_spec n i rj :
  running_ (at_ n) !! i = Some rj → ∃ pj, pj ∈ q ++ submitted (prefix ev n) ∧ rj_spec rj = pj_spec pj ∧ i = pj_id pj.
Proof.
  assert (∀ spec, spec ∈ specs (P n) → spec ∈ pj_spec <$> q ++ submitted (prefix ev n)) as Hspecs.
  { induction n as [|n IH].
    - cbn [state]. rewrite (proj1 state_0). unfold specs. simpl. by rewrite map_to_list_empty, !app_nil_r.
    - intros spec Hin. rewrite submitted_S, app_assoc, fmap_app. apply elem_of_app.
      pose proof (pool_step_specs (ev n) (P n) (pool_ok_state n)) as Hp. rewrite <-(proj2 (step_state n)) in Hp.
      assert (spec ∈ specs (P n) ++ (pj_spec <$> submits (ev n))) as [?|?]%elem_of_app; [|auto..].
      rewrite <-Hp. set_solver. }
  intros Hi. destruct (safe_running _ (distinct_safe _ _ (distinct_state n 0)) i rj Hi) as [Hid _].
  assert (rj_spec rj ∈ specs (P n)) as (pj & Hspec & Hin)%Hspecs%list_elem_of_fmap.
  { unfold specs. apply elem_of_app. right. apply list_elem_of_fmap. exists (slot rj). split; [done|].
    apply list_elem_of_fmap. exists (i, slot rj). split; [done|]. apply elem_of_map_to_list. simpl. by rewrite lookup_fmap, Hi. }
  exists pj. split_and!; [done..|]. unfold pj_id. by rewrite <-Hspec.
Qed.

(** *** The head of the queue starts *)

Lemma quiet n m :
  (n <= m)%nat → (∀ j, (n <= j < m)%nat → starts (ev j) (P j) = false) →
  waiting (P n) `prefix_of` waiting (P m) ∧ active (P m) ⊆ active (P n).
Proof.
  intros Hle. induction Hle as [|m Hle IH]; intros Hq; [done|].
  destruct IH as [Hw Ha]; [intros; apply Hq; lia|]. destruct (starts_not _ _ (Hq m ltac:(lia))) as [Hw' Ha'].
  rewrite (proj2 (step_state m)). split; by etrans.
Qed.

Lemma earliest_start n m :
  (∃ j, (n <= j < m)%nat ∧ starts (ev j) (P j) = true ∧ ∀ k, (n <= k < j)%nat → starts (ev k) (P k) = false) ∨
  (∀ j, (n <= j < m)%nat → starts (ev j) (P j) = false).
Proof.
  induction m as [|m [(j & Hj & Hs & Hq)|IH]]; [right; lia|left; exists j; split_and!; [lia|lia|done..]|].
  destruct (starts (ev m) (P m)) eqn:Hs.
  - destruct (decide (n <= m)%nat); [|right; lia]. left. exists m. split_and!; [lia|lia|done|exact IH].
  - right. intros j Hj. destruct (decide (j = m)) as [-> |]; [done|]. apply IH. lia.
Qed.

Lemma active_le_width n : Z.of_nat (base.size (active (P n))) <= width (P n).
Proof.
  destruct (distinct_state n 0) as [Hs He _]. rewrite active_size by done.
  pose proof (safe_counter _ Hs FAST). pose proof (safe_counter _ Hs SLOW).
  pose proof (safe_slow _ Hs). pose proof (safe_fast _ Hs). simpl in *. lia.
Qed.

(** Not every slot is taken by a job without a process. *)
Lemma full_has_process n :
  width (P n) <= Z.of_nat (base.size (active (P n))) → ∃ i rj, running_ (at_ n) !! i = Some rj ∧ spawn_failed rj = false.
Proof.
  intros Hfull. destruct (decide (map_Forall (λ _ rj, spawn_failed rj = true) (running_ (at_ n)))) as [Hall|Hnot].
  - exfalso. pose proof (fair_spawns _ _ Hfair n) as Hsp. unfold without_process in Hsp.
    rewrite map_filter_id in Hsp by apply Hall. simpl active in Hfull. rewrite map_size_fmap in Hfull.
    pose proof (proj1 (pool_state n)). change (total_lane_ s0) with (width (P 0)) in Hsp. pose proof (proj1 (pool_state 0)). lia.
  - apply map_not_Forall in Hnot as (i & rj & Hi & Hn); [|apply _]. exists i, rj. split; [done|]. by apply not_true_is_false.
Qed.

(** While nothing starts, a slot gets free. *)
Lemma room_comes n :
  ∃ b, (n <= b)%nat ∧ ∀ m, (b <= m)%nat → (∀ j, (n <= j < m)%nat → starts (ev j) (P j) = false) →
    Z.of_nat (base.size (active (P m))) < width (P m).
Proof.
  destruct (Z.lt_ge_cases (Z.of_nat (base.size (active (P n)))) (width (P n))) as [Hlt|Hge].
  - exists n. split; [done|]. intros m Hm Hq. destruct (quiet n m Hm Hq) as [_ Hsub].
    apply map_subseteq_size in Hsub. rewrite !(proj1 (pool_state _)) in *. lia.
  - destruct (full_has_process n Hge) as (i & rj & Hi & Hp).
    destruct (fair_exits _ _ Hfair n i rj Hi Hp) as (k & Hk & Hoff). exists (S k). split; [lia|]. intros m Hm Hq.
    destruct (quiet (S k) m Hm) as [_ Hsub]; [intros; apply Hq; lia|].
    destruct (quiet n (S k)) as [_ Hsub']; [lia|intros; apply Hq; lia|].
    pose proof (takes_off_gone i (ev k) (P k) Hoff) as Hgone. rewrite <-(proj2 (step_state k)) in Hgone.
    assert (active (P m) ⊆ delete i (active (P n))) as Hdel.
    { apply map_subseteq_spec. intros j x Hj. pose proof (lookup_weaken _ _ _ _ Hj Hsub) as Hj'.
      rewrite lookup_delete_ne by congruence. by eapply lookup_weaken. }
    apply map_subseteq_size in Hdel. pose proof (active_le_width n) as Hw. rewrite !(proj1 (pool_state _)) in *.
    assert (active (P n) !! i = Some (slot rj)) as Ha by (simpl; by rewrite lookup_fmap, Hi).
    rewrite (size_delete _ _ _ Ha) in Hw. lia.
Qed.

Lemma next_start n :
  (∀ m, (n <= m)%nat → turns (P m) ≠ 0%nat) → waiting (P n) ≠ [] →
  ∃ m, (n <= m)%nat ∧ starts (ev m) (P m) = true ∧ waiting (P n) `prefix_of` waiting (P m).
Proof.
  intros Ht Hne. destruct (room_comes n) as (b & Hb & Hroom). destruct (fair_ticks _ _ Hfair b) as (t & now & Hbt & Htick).
  destruct (earliest_start n t) as [(j & Hj & Hs & Hq)|Hq].
  - exists j. split_and!; [lia|done|]. apply quiet; [lia|done].
  - destruct (quiet n t) as [Hw _]; [lia|done|]. exists t. split_and!; [lia| |done].
    rewrite Htick. unfold starts. rewrite (proj2 (pool_state t)), !bool_decide_true by
      (first [apply Ht; lia|intros Hnil; rewrite Hnil in Hw; by apply prefix_nil_inv in Hw]).
    by apply Z.ltb_lt, Hroom.
Qed.

Lemma queue_advances l1 pj l2 n :
  (∀ m, (n <= m)%nat → turns (P m) ≠ 0%nat) → waiting (P n) = l1 ++ pj :: l2 →
  ∃ m, (n <= m)%nat ∧ is_Some (running_ (at_ m) !! pj_id pj).
Proof.
  revert n l2. induction l1 as [|pj' l1 IH]; intros n l2 Ht Hw.
  all: destruct (next_start n Ht) as (m & Hm & Hs & [l3 Hl3]); [by rewrite Hw|].
  all: destruct (starts_head _ _ Hs) as (pj0 & l & ln & Hq & Hq' & Hr).
  all: rewrite <-(proj2 (step_state m)) in Hq', Hr; rewrite Hq, Hw in Hl3; injection Hl3 as -> Hl.
  - exists (S m). split; [lia|]. simpl in Hr. apply lookup_fmap_Some in Hr as (rj & _ & Hr). by exists rj.
  - destruct (IH (S m) (l2 ++ l3)) as (m' & Hm' & Hrun).
    + intros. apply Ht. lia.
    + by rewrite Hq', Hl, <-app_assoc.
    + exists m'. split; [lia|done].
Qed.

(** *** A job on the table exits *)

Lemma stays n i rj :
  running_ (at_ n) !! i = Some rj → ev n ≠ Timer i expired →
  running_ (at_ (S n)) !! i = Some rj ∨ i ∈ exited (S n).
Proof.
  intros Hi Ht. destruct (decide (takes_off i (ev n))) as [[(code & now & He)|He]|Hn]; [|done|].
  - right. eapply exit_takes; [done|by exists rj].
  - left. eapply step_keeps_running; [apply step_state|done..].
Qed.

Lemma stays_long n m i rj :
  (n <= m)%nat → (∀ k, (n <= k)%nat → ev k ≠ Timer i expired) → running_ (at_ n) !! i = Some rj →
  running_ (at_ m) !! i = Some rj ∨ i ∈ exited m.
Proof.
  intros Hle Ht Hi. induction Hle as [|m Hle [IH|IH]]; [by left|by apply stays; [|apply Ht]|].
  right. eapply exited_mono; [|done]. lia.
Qed.

Lemma job_resolved n i :
  i ∈ pj_id <$> q ++ submitted (prefix ev n) →
  ∃ N, ∀ m, (N <= m)%nat → (∃ rj, running_ (at_ m) !! i = Some rj ∧ spawn_failed rj = true) ∨ i ∈ exited m.
Proof.
  intros Hin. destruct turns_state as [R HR]. destruct (fair_timers _ _ Hfair i) as [T HT].
  set (b := (n + R + T)%nat).
  assert (i ∈ pj_id <$> q ++ submitted (prefix ev b)) as [Hh|Hx]%held_or_exited.
  { unfold b. rewrite <-Nat.add_assoc, prefix_seq, submitted_app, app_assoc, fmap_app. set_solver. }
  2: { exists b. intros m Hm. right. by eapply exited_mono. }
  assert (∃ m rj, (b <= m)%nat ∧ running_ (at_ m) !! i = Some rj) as (m & rj & Hm & Hi).
  { apply elem_of_held in Hh as [(pj & -> & (l1 & l2 & Hl)%list_elem_of_split)%list_elem_of_fmap|[rj Hi]]; [|by exists b, rj].
    destruct (queue_advances l1 pj l2 b) as (m & Hm & rj & Hi); [intros; apply HR; unfold b in *; lia|exact Hl|by exists m, rj]. }
  assert (∀ k, (m <= k)%nat → ev k ≠ Timer i expired) as Ht by (intros; apply HT; unfold b in *; lia).
  destruct (spawn_failed rj) eqn:Hp.
  - exists m. intros k Hk. destruct (stays_long m k i rj Hk Ht Hi); [left; by exists rj|by right].
  - destruct (fair_exits _ _ Hfair m i rj Hi Hp) as (k & Hk & [(code & now & He)|He]); [|by destruct (Ht k Hk)].
    exists (S k). intros k' Hk'. right. destruct (stays_long m k i rj Hk Ht Hi) as [Hi'|Hx].
    + eapply exited_mono; [exact Hk'|]. eapply exit_takes; [done|by exists rj].
    + eapply exited_mono; [|exact Hx]. lia.
Qed.

(** *** What the storage answers *)

Lemma storage_state n : storage_ (at_ n) = store_all (log n) new_storage.
Proof.
  induction n as [|n IH]; [apply state_0|]. destruct (step_frame _ _ _ (proj1 (step_state n))) as (_ & -> & _).
  rewrite IH. simpl. unfold store_all. by rewrite foldl_app.
Qed.

Lemma finished_by_running n fj :
  fj ∈ finished_by (ev n) (at_ n) → is_Some (running_ (at_ n) !! id (fj_spec fj)) ∧ id (fj_spec fj) ∈ exited (S n).
Proof.
  intros Hin. destruct (ev n) eqn:He; simpl in Hin; try by apply elem_of_nil in Hin.
  destruct (running_ (at_ n) !! i) as [rj|] eqn:Hi; [|by apply elem_of_nil in Hin].
  case_match; [|by apply elem_of_nil in Hin]. apply list_elem_of_singleton in Hin as ->. simpl.
  destruct (safe_running _ (distinct_safe _ _ (distinct_state n 0)) i rj Hi) as [-> _].
  split; [by exists rj|]. eapply (exit_takes n); [done|by exists rj].
Qed.

Lemma log_exited n i : i ∉ exited n → Forall (λ fj, id (fj_spec fj) ≠ i) (log n).
Proof.
  induction n as [|n IH]; intros Hn; [constructor|]. simpl. apply Forall_app. split.
  - apply IH. intros Hx. apply Hn. eapply exited_mono; [|done]. lia.
  - apply Forall_forall. intros fj [_ Hx]%finished_by_running <-. done.
Qed.

Lemma log_after n m i :
  (n <= m)%nat → i ∈ exited n → ∃ l, log m = log n ++ l ∧ Forall (λ fj, id (fj_spec fj) ≠ i) l.
Proof.
  intros Hle Hx. induction Hle as [|m Hle (l & Hl & Hf)]; [exists []; by rewrite app_nil_r|].
  exists (l ++ finished_by (ev m) (at_ m)). split; [simpl; by rewrite Hl, app_assoc|]. apply Forall_app. split; [done|].
  apply Forall_forall. intros fj [Hr _]%finished_by_running <-.
  apply (exited_not_held m _ (exited_mono _ _ _ Hle Hx)). apply elem_of_held. by right.
Qed.

Lemma exited_ended n pj : pj ∈ q ++ submitted (prefix ev n) → pj_id pj ∈ exited n → ended pj (prefix ev n) (at_ n).
Proof.
  intros Hpj Hx. pose proof (exited_not_held n _ Hx) as Hh. rewrite elem_of_held in Hh.
  destruct (exited_by n _ Hx) as (m & code & now & rj & Hm & He & Hi). split_and!; [tauto| |].
  { apply eq_None_not_Some. tauto. }
  exists code, now. split; [by apply (prefix_mono m)|]. rewrite storage_state, find_stored.
  destruct (running_spec m _ rj Hi) as (pj' & Hin' & Hspec & Hid).
  assert (pj' = pj) as ->.
  { apply (keyed_inj pj_id (q ++ submitted (prefix ev n))); [apply Hnd| |done..].
    replace n with (m + (n - m))%nat by lia. rewrite prefix_seq, submitted_app. set_solver. }
  destruct (log_after (S m) n (pj_id pj)) as (l & -> & Hl); [lia|by eapply exit_takes|].
  rewrite first_finished_app_other by done. cbn [log]. rewrite He. simpl. rewrite Hi.
  assert (Forall (λ fj, id (fj_spec fj) ≠ pj_id pj) (log m)) as Hlog.
  { apply log_exited. intros Hxm. apply (exited_not_held m _ Hxm), elem_of_held. right. by exists rj. }
  destruct (WIFEXITED code).
  - rewrite first_finished_app_new; [done|done|]. simpl. by rewrite Hspec.
  - rewrite app_nil_r. unfold first_finished. by rewrite (proj2 (list_find_None _ _) Hlog).
Qed.
End Fair.

(** ** Properties *)

(** C4: every job ends.  Take any infinite sequence of callbacks that is fair:
    [run] is called, [stop] is not, turns of [run_loop] keep coming, each running
    job that has a process sees its exit or its timer, no job times out for ever,
    and the jobs whose spawn answered [-1], whose exit may never come, do not take all
    the slots at once.  Jobs have distinct ids and may be submitted at any time; late
    exits and timers of jobs that are gone may come too.  Then no callback throws,
    and for each job there is a time from which on it is neither pending nor
    running, one of its exits has come, and the storage answers for it with its
    own specification and the status and time of that exit (with the default job
    if the status fails [WIFEXITED]); except that it may be stuck on the table
    without a process, when its last spawn failed. *)
Theorem all_jobs_finish {St W}
    `{!Finished_IStorage St} `{!Finished_IStorage_Laws St} `{!Process_Manager_I W} `{!Process_Manager_Laws W}
    lane q (w : W) ev (s0 : Scheduler St W) :
  4 <= lane < 2 ^ 64 → pm_ok w → Scheduler_new true (Some q) (Some new_storage) lane w = Ret s0 →
  (∀ n, NoDup (pj_id <$> q ++ submitted (prefix ev n))) → fair ev s0 →
  (∀ n, steps (prefix ev n) s0 = Ret (state ev s0 n)) ∧
  ∀ n pj, pj ∈ q ++ submitted (prefix ev n) →
    ∃ N, ∀ m, (N <= m)%nat → stuck pj (state ev s0 m) ∨ ended pj (prefix ev m) (state ev s0 m).
Proof.
  intros Hl Hpm Hnew Hnd Hfair. split; [intros n; by apply (steps_state lane q w)|]. intros n pj Hpj.
  destruct (job_resolved lane q w ev s0 Hl Hpm Hnew Hfair Hnd n (pj_id pj)) as [N HN]; [by apply list_elem_of_fmap_2|].
  exists (n + N)%nat. intros m Hm.
  assert (pj ∈ q ++ submitted (prefix ev m)) as Hpjm.
  { replace m with (n + (m - n))%nat by lia. rewrite prefix_seq, submitted_app. set_solver. }
  destruct (HN m ltac:(lia)) as [(rj & Hi & Hp)|Hx].
  - left. exists rj. split_and!; [done| |done].
    destruct (running_spec lane q w ev s0 Hl Hpm Hnew Hfair Hnd m _ rj Hi) as (pj' & Hin' & Hspec & Hid).
    by rewrite (keyed_inj pj_id _ pj pj' (Hnd m) Hpjm Hin' Hid).
  - right. by apply (exited_ended lane q w ev s0 Hl Hpm Hnew Hfair Hnd).
Qed.

(** *** A fair execution

    The spawn of [c] fails.  Job [a] is pending from the start and runs out of
    time once, [b] and [c] are submitted; then turns come for ever. *)

#[local] Instance flaky_pm : Process_Manager_I Z := {
  pm_spawn _ i n := Ret (if bool_decide (i = lit "c") then -1 else 100 + n, n + 1);
  pm_terminate _ n := Ret n
}.

#[local] Instance flaky_pm_laws : Process_Manager_Laws Z.
Proof. refine {| pm_laws_ok _ := True |}; by eauto. Defined.

Abbreviation Flaky := (Scheduler Finished_Storage.sink Z).

Definition whole_day : list event :=
  [Run; Tick 1000000000; Submit (job_of "b" SLOW); Timer (lit "a") expired; Tick 32000000000; Submit (job_of "c" SLOW);
   Tick 33000000000; Tick 34000000000; Exit (lit "a") 0 40000000000; Exit (lit "b") 256 41000000000].

Definition for_ever (n : nat) : event := nth n whole_day (Tick 42000000000).

Definition morning : Flaky := mkScheduler false [job_of "a" FAST] ∅ 4 1 3 0 0 (P90_new 1000) ∅ 0 0.

Lemma for_ever_later k : for_ever (10 + k) = Tick 42000000000.
Proof. by destruct k. Qed.

Lemma evening_turn : step (Tick 42000000000) (state for_ever morning 10) = Ret (state for_ever morning 10).
Proof. vm_compute. reflexivity. Qed.

Lemma evening k : state for_ever morning (10 + k) = state for_ever morning 10.
Proof.
  induction k as [|k IH]; [done|]. rewrite Nat.add_succ_r. apply state_stays; [exact IH|].
  rewrite for_ever_later. exact evening_turn.
Qed.

(** What holds in each of the first states and in the last one holds always. *)
Lemma always (Q : nat → Prop) : (∀ n, (n < 10)%nat → Q n) → (∀ k, Q (10 + k)%nat) → ∀ n, Q n.
Proof.
  intros H1 H2 n. destruct (decide (n < 10)%nat); [by apply H1|].
  replace n with (10 + (n - 10))%nat by lia. apply H2.
Qed.

Lemma day_submitted n : NoDup (pj_id <$> [job_of "a" FAST] ++ submitted (prefix for_ever n)).
Proof.
  assert (∀ k, submitted (prefix for_ever (10 + k)) = [job_of "b" SLOW; job_of "c" SLOW]) as Hlate.
  { induction k as [|k IH]; [vm_compute; reflexivity|]. rewrite Nat.add_succ_r, submitted_S, IH, for_ever_later. done. }
  revert n. apply always; [|intros k; rewrite Hlate; refine (bool_decide_unpack (NoDup _) _); vm_compute; exact I].
  intros n Hn. assert (Forall (λ n, NoDup (pj_id <$> [job_of "a" FAST] ++ submitted (prefix for_ever n))) (seq 0 10)) as Hall.
  { refine (bool_decide_unpack _ _). vm_compute. exact I. }
  rewrite Forall_forall in Hall. apply Hall, elem_of_seq. lia.
Qed.

Lemma day_exits n i rj :
  running_ (state for_ever morning n) !! i = Some rj → spawn_failed rj = false → ∃ m, (n <= m)%nat ∧ takes_off i (for_ever m).
Proof.
  revert n i rj.
  assert (Forall (λ n, map_Forall (λ i rj, spawn_failed rj = false → Exists (λ m, takes_off i (for_ever m)) (seq n (10 - n)))
    (running_ (state for_ever morning n))) (seq 0 11)) as Hall.
  { refine (bool_decide_unpack _ _). vm_compute. exact I. }
  rewrite Forall_forall in Hall.
  assert (∀ n i rj, (n <= 10)%nat → running_ (state for_ever morning n) !! i = Some rj → spawn_failed rj = false →
    ∃ m, (n <= m)%nat ∧ takes_off i (for_ever m)) as Hday.
  { intros n i rj Hn Hi Hp. pose proof (Hall n) as Hf. rewrite elem_of_seq in Hf. specialize (Hf ltac:(lia) i rj Hi Hp).
    apply Exists_exists in Hf as (m & [Hm _]%elem_of_seq & Hoff). by exists m. }
  apply (always (λ n, ∀ i rj, _ → _ → _)); [intros n Hn i rj; apply Hday; lia|].
  intros k i rj Hi Hp. rewrite evening in Hi. destruct (Hday 10%nat i rj ltac:(done) Hi Hp) as (m & Hm & Hoff).
  exfalso. revert m Hm Hoff. intros m Hm Hoff. replace m with (10 + (m - 10))%nat in Hoff by lia. rewrite for_ever_later in Hoff.
  by destruct Hoff as [(? & ? & ?)|?].
Qed.

Lemma for_ever_fair : fair for_ever morning.
Proof.
  assert (Forall (λ e, clock_ok e ∧ e ≠ Stop) whole_day) as Hday.
  { repeat constructor; simpl; (lia || done). }
  assert (∀ n, clock_ok (for_ever n) ∧ for_ever n ≠ Stop) as Hev.
  { apply always; [|intros k; rewrite for_ever_later; split; [simpl; lia|done]]. intros n Hn.
    rewrite Forall_forall in Hday. apply Hday. unfold for_ever. rewrite nth_lookup.
    destruct (lookup_lt_is_Some_2 whole_day n Hn) as [e He]. rewrite He. by eapply list_elem_of_lookup_2. }
  constructor.
  - apply Hev.
  - apply Hev.
  - by exists 0%nat.
  - intros n. exists (10 + n)%nat, 42000000000. split; [lia|apply for_ever_later].
  - apply day_exits.
  - intros i. exists 10%nat. intros m Hm. replace m with (10 + (m - 10))%nat by lia. by rewrite for_ever_later.
  - assert (Forall (λ n, without_process (state for_ever morning n) < 4) (seq 0 11)) as Hall.
    { refine (bool_decide_unpack _ _). vm_compute. exact I. }
    rewrite Forall_forall in Hall. apply always; [|intros k; rewrite evening]; intros; apply Hall, elem_of_seq; lia.
Qed.

Lemma all_jobs_finish_witness :
  Scheduler_new true (Some [job_of "a" FAST]) (Some ∅) 4 0 = Ret morning ∧
  ∃ N, ∀ m, (N <= m)%nat →
    stuck (job_of "c" SLOW) (state for_ever morning m) ∨ ended (job_of "c" SLOW) (prefix for_ever m) (state for_ever morning m).
Proof.
  split; [reflexivity|].
  destruct (all_jobs_finish (St := Finished_Storage.sink) 4 [job_of "a" FAST] 0 for_ever morning) as [_ Hall].
  - lia.
  - exact I.
  - reflexivity.
  - exact day_submitted.
  - exact for_ever_fair.
  - apply (Hall 10%nat). vm_compute. right. right. left.
Defined.

(** In the evening [a] and [b] have exited and [c] is stuck. *)
Example evening_jobs :
  let s := state for_ever morning 10 in
  pq_ s = [] ∧ (map_to_list (running_ s)).*1 = [lit "c"] ∧
  fj_exit_code (find (lit "a") (storage_ s)) = 0 ∧ fj_exit_code (find (lit "b") (storage_ s)) = 256.
Proof. vm_compute. repeat split. Qed.
