(* ===== verification/SchedulerExceptions.v ===== *)
(** The scheduler ([process/aps_scheduler.cpp]) when a call of the process manager
    throws in the middle of a callback.

    [Scheduler] says which callbacks throw; here they are taken again with the
    state that an exception leaves, which is what a program finds that catches it
    around [io_context::run] and runs the context again.  The manager's own state
    after it threw is the environment's choice.  An exception in the destructor of a
    handler cannot be caught ([ProcessManager.noexcept]) and is not one of these. *)

From S2P Require Import Prelude Double P90 Aps Scheduler SlotPool SchedulerTheorems SchedulerLiveness.

#[local] Open Scope Z_scope.

(** ** Computations that leave a state when they throw *)

Definition X (S A : Type) : Type := S → S * outcome A.

Section X.
Context {S : Type}.

Definition xret {A} (a : A) : X S A := λ s, (s, Ret a).

Definition xbind {A B} (m : X S A) (k : A → X S B) : X S B := λ s,
  match m s with
  | (s, Ret a) => k a s
  | (s, Throw e) => (s, Throw e)
  | (s, UB) => (s, UB)
  end.

Definition get : X S S := λ s, (s, Ret s).

Definition modify (f : S → S) : X S unit := λ s, (f s, Ret tt).

(** A call that changes nothing. *)
Definition lift {A} (o : outcome A) : X S A := λ s, (s, o).
End X.

Notation "'do!' x := m 'in' k" := (xbind m (λ x, k))
  (at level 10, x name, k at level 200) : inks_scope.
Notation "'do!' ' p := m 'in' k" := (xbind m (λ x, match x with p => k end))
  (at level 10, p pattern, k at level 200) : inks_scope.

(** ** The callbacks *)

Section Exceptions.
Context {St W : Type} `{!Finished_IStorage St} `{!Process_Manager_I W}.

Abbreviation Sched := (Scheduler St W).

(** A call of the manager, which is left in [w] if it throws. *)
Definition pm_call {A} (w : W) (f : W → outcome (A * W)) : X Sched A := λ s,
  match f (pm_ s) with
  | Ret (a, w') => (set_pm w' s, Ret a)
  | Throw e => (set_pm w s, Throw e)
  | UB => (s, UB)
  end.

Definition schedule_x (w : W) (now : Z) (pj : Pending_Job) : X Sched unit :=
  do! s := get in
  let l := actual_lane (pj_lane pj) s in
  do! _ := modify (bump l 1) in
  do! pid := pm_call w (pm_spawn (opts (pj_spec pj)) (id (pj_spec pj))) in
  do! timer :=
    match l with
    | FAST => do! s := get in do! tmo := lift (compute_timeout s) in xret (Some tmo)
    | SLOW => xret None
    end in
  modify (λ s, set_running (emplace (id (pj_spec pj)) (start pj l pid now timer) (running_ s)) s).

Definition run_loop_x (w : W) (now : Z) : X Sched unit :=
  do! s := get in
  if stop_ s then xret tt
  else
    do! _ :=
      (if Pending_Q.empty (pq_ s) then xret tt
       else
         do! pj := lift (Pending_Q.front (pq_ s)) in
         if schedulable pj s then
           do! '(pj, q) := lift (Pending_Q.pop (pq_ s)) in
           do! _ := modify (set_queue q) in
           schedule_x w now pj
         else xret tt) in
    modify (λ s, set_loops (S (loops_ s)) s).

Definition handle_exit_x (i : str) (exit_code : Z) (now : Z) : X Sched unit :=
  do! s := get in
  match running_ s !! i with
  | None => xret tt
  | Some rj =>
      do! _ :=
        (if WIFEXITED exit_code then
           do! _ := modify (λ s, set_results (store (finish rj now exit_code) (storage_ s)) (p90_estimator_ s) s) in
           do! e := lift (add (seconds_between (rj_start_time rj) now) (p90_estimator_ s)) in
           modify (λ s, set_results (storage_ s) e s)
         else xret tt) in
      do! _ := modify (bump (rj_lane rj) (-1)) in
      modify (λ s, set_running (delete i (running_ s)) s)
  end.

Definition handle_timeout_x (w : W) (i : str) : X Sched unit :=
  do! s := get in
  match running_ s !! i with
  | None => xret tt
  | Some rj =>
      do! _ := pm_call w (λ p, let! p := pm_terminate (rj_pid rj) p in Ret (tt, p)) in
      do! _ := modify (bump (rj_lane rj) (-1)) in
      do! _ := modify (λ s, set_queue (Pending_Q.push (requeue rj) (pq_ s)) s) in
      modify (λ s, set_running (delete i (running_ s)) s)
  end.

Definition step_x (w : W) (e : event) : X Sched unit :=
  match e with
  | Run => modify run
  | Stop => modify stop
  | Submit pj => modify (λ s, set_queue (Pending_Q.push pj (pq_ s)) s)
  | Tick now =>
      do! s := get in
      match loops_ s with
      | O => xret tt
      | S n => do! _ := modify (set_loops n) in run_loop_x w now
      end
  | Exit i exit_code now => handle_exit_x i exit_code now
  | Timer i expired => handle_timeout_x w i
  | Timer _ _ => xret tt
  end.

(** A run whose exceptions are caught: each callback comes with the state it
    leaves the manager in if the manager throws. *)
Fixpoint resume (es : list (event * W)) (s : Sched) : outcome Sched :=
  match es with
  | [] => Ret s
  | (e, w) :: es =>
      match step_x w e s with
      | (s, Ret _) | (s, Throw _) => resume es s
      | (_, UB) => UB
      end
  end.

(** The number of slots never changes. *)
Definition keeps_lanes {A} (m : X Sched A) : Prop := ∀ s, total_lane_ (m s).1 = total_lane_ s.

Lemma xbind_lanes {A B} (m : X Sched A) (k : A → X Sched B) :
  keeps_lanes m → (∀ a, keeps_lanes (k a)) → keeps_lanes (xbind m k).
Proof.
  intros Hm Hk s. unfold xbind. specialize (Hm s). destruct (m s) as [s1 [a| |]]; [|done..].
  simpl in Hm. by rewrite Hk.
Qed.

Lemma pm_call_lanes {A} w (f : W → outcome (A * W)) : keeps_lanes (pm_call w f).
Proof. intros s. unfold pm_call. by destruct (f (pm_ s)) as [[]| |]. Qed.

Lemma bump_lanes l d : keeps_lanes (modify (bump l d)).
Proof. by destruct l. Qed.

Lemma step_x_lanes w e : keeps_lanes (step_x w e).
Proof.
  destruct e as [| |pj|now|i code now|i [| |]]; try done;
    unfold step_x, run_loop_x, schedule_x, handle_exit_x, handle_timeout_x;
    repeat (apply pm_call_lanes || apply bump_lanes || apply xbind_lanes || intros ? || case_match || done).
Qed.

Lemma resume_lanes es s s' : resume es s = Ret s' → total_lane_ s' = total_lane_ s.
Proof.
  revert s. induction es as [|[e w] es IH]; intros s; simpl; [by intros [= ->]|].
  pose proof (step_x_lanes w e s) as Hl. destruct (step_x w e s) as [s1 [a| |]]; [..|done]; intros H; by rewrite (IH s1 H).
Qed.

(** ** The same callbacks *)

(** With the state forgotten when it throws, a callback is [Scheduler]'s. *)
Definition agrees (r : Sched * outcome unit) (o : outcome Sched) : Prop :=
  match o with
  | Ret s' => r = (s', Ret tt)
  | Throw e => r.2 = Throw e
  | UB => r.2 = UB
  end.

Lemma schedule_x_agrees w now pj s : agrees (schedule_x w now pj s) (schedule now pj s).
Proof.
  unfold schedule, schedule_x, xbind, get, modify, pm_call, lift, xret.
  destruct (pm_spawn _ _ _) as [[pid w']| |]; simpl; [|done..].
  destruct (actual_lane _ s); simpl; [|done]. by destruct (compute_timeout _).
Qed.

Lemma step_x_agrees w e s : agrees (step_x w e s) (step e s).
Proof.
  destruct e as [| |pj|now|i code now|i [| |]]; try done; unfold step_x, step.
  - unfold xbind at 1. simpl. destruct (loops_ s) as [|n]; [done|].
    unfold run_loop_x, run_loop, xbind at 1 2 3, get, modify at 1.
    change (stop_ (set_loops n s)) with (stop_ s). change (pq_ (set_loops n s)) with (pq_ s).
    destruct (stop_ s); [done|]. destruct (Pending_Q.empty (pq_ s)); [done|].
    unfold xbind, lift, modify, xret. destruct (Pending_Q.front (pq_ s)) as [pj| |]; [|done..]. simpl.
    destruct (schedulable pj _); [|done]. destruct (Pending_Q.pop (pq_ s)) as [[pj' q]| |]; [|done..]. simpl.
    pose proof (schedule_x_agrees w now pj' (set_queue q (set_loops n s))) as H.
    destruct (schedule now pj' _) as [s'| |]; simpl in *; [by rewrite H|..];
      destruct (schedule_x w now pj' _) as [? []]; simplify_eq/=; done.
  - unfold handle_exit_x, handle_exit, xbind, get, modify, lift, xret. destruct (running_ s !! i) as [rj|]; [|done].
    destruct (WIFEXITED code); [|by destruct (rj_lane rj)]. destruct (add _ _); simpl; [|done..]. by destruct (rj_lane rj).
  - unfold timer_expired, handle_timeout_x, handle_timeout, xbind, get, modify, pm_call, xret.
    destruct (running_ s !! i) as [rj|]; [|done]. destruct (pm_terminate _ _); simpl; [|done..]. by destruct (rj_lane rj).
Qed.
End Exceptions.

(** ** What the manager promises when it may throw *)

Class Process_Manager_Keeps (W : Type) `{!Process_Manager_I W} `{!Process_Manager_Ok W} : Prop := {
  spawn_keeps o i w : pm_ok w → defined (λ r, pm_ok r.2) (pm_spawn o i w);
  terminate_keeps pid w : pm_ok w → defined pm_ok (pm_terminate pid w)
}.

Section Accounts.
Context {St W : Type} `{!Finished_IStorage St} `{!Process_Manager_I W} `{!Process_Manager_Ok W} `{!Process_Manager_Keeps W}.
Implicit Types s : Scheduler St W.

(** The job that a callback loses: it was popped, and its spawn threw. *)
Definition lost (w : W) (e : event) s : list str :=
  match e, (step_x w e s).2 with
  | Tick _, Throw _ => pj_id <$> take 1 (pq_ s)
  | _, _ => []
  end.

Fixpoint lost_log (es : list (event * W)) s : list str :=
  match es with
  | [] => []
  | (e, w) :: es => lost w e s ++ lost_log es (step_x w e s).1
  end.

(** The jobs that exited. *)
Fixpoint exit_log (es : list (event * W)) s : list str :=
  match es with
  | [] => []
  | (e, w) :: es => ends e (abs s) ++ exit_log es (step_x w e s).1
  end.

(** The slots that are counted are those of the running jobs and [n] more. *)
Record accounted (n : nat) s : Prop := mkAccounted {
  acc_safe : safe s;
  acc_sum : running_fast_ s + running_slow_ s = Z.of_nat (base.size (running_ s) + n)
}.

Lemma bump_sum l d s :
  0 <= counter l s + d < 2 ^ 64 →
  running_fast_ (bump l d s) + running_slow_ (bump l d s) = running_fast_ s + running_slow_ s + d.
Proof.
  intros H. change (counter FAST (bump l d s) + counter SLOW (bump l d s) = counter FAST s + counter SLOW s + d).
  rewrite !bump_counter by done. destruct l; simpl; lia.
Qed.

Lemma held_eq s : held (abs s) = (pj_id <$> pq_ s) ++ (map_to_list (running_ s)).*1.
Proof. unfold held. by rewrite running_keys. Qed.

(** A slot that is counted and not used. *)
Lemma lose_ok n s pj q w :
  let s' := set_pm w (bump (actual_lane (pj_lane pj) s) 1 (set_queue q s)) in
  accounted n s → pq_ s = pj :: q → running_fast_ s + running_slow_ s < total_lane_ s → pm_ok w →
  accounted (S n) s' ∧ held (abs s') ++ [pj_id pj] ≡ₚ held (abs s) ∧ loops_ s' = loops_ s ∧ stop_ s' = stop_ s.
Proof.
  intros s' [Hs Hsum] Hq Hlt Hpm. pose proof (actual_lane_free (pj_lane pj) s Hs Hlt) as Hfree.
  unfold s'. change (actual_lane (pj_lane pj) (set_queue q s)) with (actual_lane (pj_lane pj) s).
  set (l := actual_lane _ s) in *. clearbody l. pose proof (lane_size_bound l s Hs). pose proof (counter_nonneg l s Hs).
  pose proof (bump_fields l 1 (set_queue q s)) as (Ht & Hf & Hw & Hr & He & Hpq & Hl & Hst & _).
  split; [split|split_and!; [|done..]].
  - constructor; simpl; rewrite ?Ht, ?Hf, ?Hw, ?Hr, ?He; try done; try apply Hs. intros l'.
    change (counter l' (set_pm w (bump l 1 (set_queue q s)))) with (counter l' (bump l 1 (set_queue q s))).
    change (lane_size l' (set_pm w (bump l 1 (set_queue q s)))) with (lane_size l' (bump l 1 (set_queue q s))).
    rewrite lane_size_bump, bump_counter; change (counter ?x (set_queue q s)) with (counter x s); [|lia].
    change (lane_size l' (set_queue q s)) with (lane_size l' s).
    change (running_ (set_queue q s)) with (running_ s).
    pose proof (safe_counter s Hs l'). case_decide; subst; lia.
  - change (running_fast_ (bump l 1 (set_queue q s)) + running_slow_ (bump l 1 (set_queue q s)) =
            Z.of_nat (base.size (running_ (bump l 1 (set_queue q s))) + S n)).
    rewrite bump_sum, Hr by (change (counter l (set_queue q s)) with (counter l s); lia). simpl. lia.
  - rewrite !held_eq. simpl. rewrite Hpq, Hr, Hq. csimpl. solve_Permutation.
Qed.

(** A job that gets a slot. *)
Lemma take_ok n s pj q pid now timer w :
  let l := actual_lane (pj_lane pj) s in
  let s' := set_running (emplace (pj_id pj) (start pj l pid now timer) (running_ s))
              (set_pm w (bump l 1 (set_queue q s))) in
  accounted n s → pq_ s = pj :: q → running_fast_ s + running_slow_ s < total_lane_ s → NoDup (held (abs s)) →
  0 <= now < 2 ^ 63 → (is_Some timer ↔ l = FAST) → pm_ok w →
  accounted n s' ∧ held (abs s') ≡ₚ held (abs s) ∧ loops_ s' = loops_ s ∧ stop_ s' = stop_ s.
Proof.
  intros l s' [Hs Hsum] Hq Hlt Hnd Hnow Htm Hpm. pose proof (actual_lane_free (pj_lane pj) s Hs Hlt) as Hfree. fold l in Hfree.
  assert (running_ s !! pj_id pj = None) as Hi.
  { rewrite held_eq, Hq in Hnd. apply NoDup_app in Hnd as (_ & Hnd & _). apply eq_None_not_Some. intros [rj Hrj].
    apply (Hnd (pj_id pj)); [by left|]. apply list_elem_of_fmap. exists (pj_id pj, rj).
    split; [done|]. by apply elem_of_map_to_list. }
  pose proof (lane_size_bound l s Hs). pose proof (counter_nonneg l s Hs).
  pose proof (bump_fields l 1 (set_queue q s)) as (_ & _ & _ & _ & _ & Hpq & Hl & Hst & _).
  split; [split|split_and!; [|done..]].
  - apply (safe_take (set_queue q s)); try done. by apply safe_set_queue.
  - change (running_fast_ (bump l 1 (set_queue q s)) + running_slow_ (bump l 1 (set_queue q s)) =
            Z.of_nat (base.size (emplace (pj_id pj) (start pj l pid now timer) (running_ s)) + n)).
    unfold emplace. rewrite bump_sum, Hi, map_size_insert_None
      by (done || change (counter l (set_queue q s)) with (counter l s); lia). simpl. lia.
  - rewrite !held_eq. simpl. unfold emplace. rewrite Hpq, Hi, Hq, keys_insert by done. csimpl. solve_Permutation.
Qed.

(** A slot that is given back. *)
Lemma give_ok n s i rj q w :
  let s' := set_running (delete i (running_ s)) (set_queue q (bump (rj_lane rj) (-1) (set_pm w s))) in
  accounted n s → running_ s !! i = Some rj → pm_ok w →
  accounted n s' ∧ loops_ s' = loops_ s ∧ stop_ s' = stop_ s ∧
  held (abs s') ++ i :: (pj_id <$> pq_ s) ≡ₚ held (abs s) ++ (pj_id <$> q).
Proof.
  intros s' [Hs Hsum] Hi Hpm. set (l := rj_lane rj) in *.
  pose proof (lane_size_bound l s Hs). pose proof (safe_counter s Hs l).
  pose proof (in_lane_nonneg rj_lane l (delete i (running_ s))) as Hn.
  rewrite (in_lane_delete _ _ _ _ _ Hi), decide_True in Hn by done.
  pose proof (bump_fields l (-1) (set_pm w s)) as (_ & _ & _ & _ & _ & _ & Hl & Hst & _).
  split; [split|split_and!; [done..|]].
  - by apply safe_give.
  - change (running_fast_ (bump l (-1) (set_pm w s)) + running_slow_ (bump l (-1) (set_pm w s)) =
            Z.of_nat (base.size (delete i (running_ s)) + n)).
    rewrite bump_sum by (change (counter l (set_pm w s)) with (counter l s); lia).
    rewrite (size_delete _ _ _ Hi) in Hsum. simpl. lia.
  - rewrite !held_eq. simpl. rewrite (keys_delete _ _ _ Hi). solve_Permutation.
Qed.

(** *** A turn of [run_loop] *)

Lemma schedule_x_cases w now pj s :
  safe s → let l := actual_lane (pj_lane pj) s in
  (∃ pid w' timer, (is_Some timer ↔ l = FAST) ∧ pm_ok w' ∧
    schedule_x w now pj s =
      (set_running (emplace (pj_id pj) (start pj l pid now timer) (running_ s)) (set_pm w' (bump l 1 s)), Ret tt)) ∨
  ∃ x, schedule_x w now pj s = (set_pm w (bump l 1 s), Throw x).
Proof.
  intros Hs l. pose proof (spawn_keeps (opts (pj_spec pj)) (pj_id pj) (pm_ s) (safe_pm s Hs)) as Hk.
  pose proof (bump_fields l 1 s) as (_ & _ & _ & Hr & He & _ & _ & _ & Hp).
  unfold schedule_x, xbind, get, modify, pm_call. fold l. rewrite Hp. unfold pj_id in *.
  destruct (pm_spawn _ _ _) as [[pid w']|x|]; [left|right; by exists x|done].
  destruct (compute_timeout_returns s) as [t Ht]; [apply Hs|].
  assert (compute_timeout (set_pm w' (bump l 1 s)) = Ret t) as Ht' by (rewrite <-Ht; by destruct l).
  exists pid, w', (match l with FAST => Some t | SLOW => None end).
  split; [destruct l; split; naive_solver|]. split; [done|]. clearbody l.
  destruct l; unfold lift, xret; simpl in *; [rewrite Ht'|]; done.
Qed.

(** A turn that finds a job. *)
Lemma run_loop_x_eq w now pj q s :
  stop_ s = false → pq_ s = pj :: q →
  run_loop_x w now s =
    match (if schedulable pj s then schedule_x w now pj (set_queue q s) else (s, Ret tt)) with
    | (s', Ret _) => (set_loops (S (loops_ s')) s', Ret tt)
    | r => r
    end.
Proof.
  intros Hstop Hq. unfold run_loop_x, xbind, get, modify, lift, xret, Pending_Q.empty, Pending_Q.pop, Pending_Q.front.
  rewrite Hstop, Hq. simpl. destruct (schedulable pj s); simpl; [|done].
  by destruct (schedule_x _ _ _ _) as [? []].
Qed.

Lemma run_loop_x_cases w now s :
  safe s → stop_ s = false →
  run_loop_x w now s = (set_loops (S (loops_ s)) s, Ret tt) ∨
  ∃ pj q, pq_ s = pj :: q ∧ running_fast_ s + running_slow_ s < total_lane_ s ∧
    let l := actual_lane (pj_lane pj) s in
    (∃ pid w' timer, (is_Some timer ↔ l = FAST) ∧ pm_ok w' ∧
      let s' := set_running (emplace (pj_id pj) (start pj l pid now timer) (running_ s))
                  (set_pm w' (bump l 1 (set_queue q s))) in
      run_loop_x w now s = (set_loops (S (loops_ s')) s', Ret tt)) ∨
    ∃ x, run_loop_x w now s = (set_pm w (bump l 1 (set_queue q s)), Throw x).
Proof.
  intros Hs Hstop. destruct (pq_ s) as [|pj q] eqn:Hq.
  { left. unfold run_loop_x, xbind, get, modify, xret, Pending_Q.empty. by rewrite Hstop, Hq. }
  rewrite (run_loop_x_eq w now pj q s Hstop Hq), schedulable_eq by done.
  destruct (Z.ltb_spec (running_fast_ s + running_slow_ s) (total_lane_ s)) as [Hlt|]; [right|by left].
  exists pj, q. split; [done|]. split; [done|]. intros l.
  destruct (schedule_x_cases w now pj (set_queue q s)) as [(pid & w' & timer & Htm & Hpm & ->)|(x & ->)];
    [by apply safe_set_queue|left; by exists pid, w', timer|right; by exists x].
Qed.

(** *** Every callback *)

Definition posted (e : event) : nat := match e with Run => 1 | _ => 0 end.

(** The books after a callback that left [s'] by [o]. *)
Definition booked (w : W) (e : event) (n : nat) s (r : Scheduler St W * outcome unit) : Prop :=
  r.2 ≠ UB ∧ accounted (length (lost w e s) + n) r.1 ∧
  held (abs r.1) ++ ends e (abs s) ++ lost w e s ≡ₚ held (abs s) ++ (pj_id <$> submits e) ∧
  (e ≠ Stop → stop_ s = false →
    stop_ r.1 = false ∧ (loops_ r.1 + length (lost w e s) = loops_ s + posted e)%nat).

Lemma accounted_set_loops n k s : accounted n s → accounted n (set_loops k s).
Proof. intros [Hs Hsum]. split; [by apply safe_set_loops|done]. Qed.

Lemma tick_booked w now n s :
  accounted n s → 0 <= now < 2 ^ 63 → pm_ok w → NoDup (held (abs s)) →
  booked w (Tick now) n s (step_x w (Tick now) s).
Proof.
  intros Ha Hnow Hpm Hnd. unfold booked, lost. simpl ends. simpl submits. rewrite !app_nil_r.
  assert (step_x w (Tick now) s = match loops_ s with O => (s, Ret tt) | S k => run_loop_x w now (set_loops k s) end) as ->.
  { unfold step_x, xbind, get, modify, xret. by destruct (loops_ s). }
  destruct (loops_ s) as [|k] eqn:Hk; [simpl; rewrite app_nil_r; split_and!; [done..|intros _ ?; split; [done|lia]]|].
  set (s1 := set_loops k s).
  assert (accounted n s1) as Ha1 by by apply accounted_set_loops.
  destruct (stop_ s) eqn:Hstop.
  { assert (run_loop_x w now s1 = (s1, Ret tt)) as -> by (unfold run_loop_x, xbind, get; by rewrite (Hstop : stop_ s1 = true)).
    simpl. by rewrite app_nil_r. }
  destruct (run_loop_x_cases w now s1 (acc_safe _ _ Ha1) Hstop)
    as [->|(pj & q & Hq & Hlt & [(pid & w' & timer & Htm & Hpm' & ->)|(x & ->)])].
  - simpl. rewrite app_nil_r. split_and!; [done|by apply accounted_set_loops, accounted_set_loops|done|].
    intros _ _. split; [done|lia].
  - destruct (take_ok n s1 pj q pid now timer w' Ha1 Hq Hlt Hnd Hnow Htm Hpm') as (Ha' & Hh & Hl & Hst).
    cbn [fst snd length]. rewrite app_nil_r, Nat.add_0_r. split_and!; [done|by apply accounted_set_loops|done|].
    intros _ _. split; [by rewrite <-Hstop|]. unfold posted. simpl in Hl |- *. lia.
  - destruct (lose_ok n s1 pj q w Ha1 Hq Hlt Hpm) as (Ha' & Hh & Hl & Hst).
    change (pq_ s) with (pq_ s1). rewrite Hq. cbn [fst snd]. split_and!; [done|done|done|].
    intros _ _. split; [by rewrite Hst|]. rewrite Hl. simpl. lia.
Qed.

(** A callback that leaves the books as they are. *)
Lemma idle_booked w e n s s' (o : outcome unit) :
  accounted n s → accounted n s' → o ≠ UB → lost w e s = [] → held (abs s') = held (abs s) → ends e (abs s) = [] →
  submits e = [] → stop_ s' = stop_ s → loops_ s' = loops_ s → posted e = 0%nat → booked w e n s (s', o).
Proof.
  intros Ha Ha' Ho Hlost Hh Hends Hsub Hstop Hloops Hpost. unfold booked. rewrite Hlost, Hends, Hsub, Hpost. simpl.
  rewrite Hh, Hstop, Hloops. split_and!; [done..|]. intros _ ?. split; [done|lia].
Qed.

Lemma exit_booked w i code now n s :
  accounted n s → 0 <= now < 2 ^ 63 → booked w (Exit i code now) n s (step_x w (Exit i code now) s).
Proof.
  intros Ha Hnow. pose proof (step_x_agrees w (Exit i code now) s) as Hag. simpl in Hag.
  destruct (running_ s !! i) as [rj|] eqn:Hi.
  - destruct (handle_exit_eq i code now rj s (acc_safe _ _ Ha) Hnow Hi) as (e & He & _ & Heq). rewrite Heq in Hag.
    simpl in Hag |- *. rewrite Hag. set (s1 := set_results _ e s).
    assert (accounted n s1) as Ha1 by (destruct Ha; split; [by apply safe_set_results|done]).
    change (running_ s) with (running_ s1). rewrite give_eq.
    destruct (give_ok n s1 i rj (pq_ s1) (pm_ s1) Ha1 Hi (safe_pm _ (acc_safe _ _ Ha))) as (Ha' & Hl & Hst & Hh).
    unfold booked, lost. cbn [fst snd length Nat.add posted submits]. rewrite Hst, Hl. split_and!; [done|done| |].
    + simpl ends. rewrite lookup_fmap, Hi. simpl. apply (Permutation_app_inv_r (pj_id <$> pq_ s1)).
      rewrite !app_nil_r. change (held (abs s)) with (held (abs s1)). rewrite <-Hh. solve_Permutation.
    + intros _ ?. split; [done|simpl; lia].
  - unfold handle_exit in Hag. rewrite Hi in Hag. simpl in Hag |- *. rewrite Hag.
    apply idle_booked; try done. simpl. by rewrite lookup_fmap, Hi.
Qed.

Lemma timeout_booked w i n s :
  accounted n s → pm_ok w → booked w (Timer i expired) n s (step_x w (Timer i expired) s).
Proof.
  intros Ha Hpm. unfold step_x, handle_timeout_x, xbind, get, modify, pm_call, xret.
  destruct (running_ s !! i) as [rj|] eqn:Hi; [|by apply idle_booked].
  pose proof (terminate_keeps (rj_pid rj) (pm_ s) (safe_pm s (acc_safe _ _ Ha))) as Hk.
  destruct (pm_terminate _ _) as [w'|x|]; [|apply idle_booked; try done; by destruct Ha as [[]]|done]. simpl in Hk |- *.
  destruct (give_ok n s i rj (pq_ s ++ [requeue rj]) w' Ha Hi Hk) as (Ha' & Hl & Hst & Hh).
  assert (∀ s1 : Scheduler St W, s1 = set_running (delete i (running_ s)) (set_queue (pq_ s ++ [requeue rj])
            (bump (rj_lane rj) (-1) (set_pm w' s))) → booked w (Timer i expired) n s (s1, Ret tt)) as Hb;
    [|apply Hb; by destruct (rj_lane rj)].
  intros s1 ->. unfold booked, lost. cbn [fst snd length Nat.add posted submits ends]. rewrite Hst, Hl.
  split_and!; [done|done| |intros _ ?; split; [done|lia]].
  destruct (safe_running s (acc_safe _ _ Ha) i rj Hi) as [Hid _].
  apply (Permutation_app_inv_r (i :: (pj_id <$> pq_ s))). rewrite fmap_app in Hh. simpl in Hh.
  rewrite (Hid : pj_id (requeue rj) = i) in Hh. simpl. rewrite !app_nil_r, Hh. solve_Permutation.
Qed.

Lemma step_booked w e n s :
  accounted n s → clock_ok e → pm_ok w → NoDup (held (abs s)) → booked w e n s (step_x w e s).
Proof.
  intros Ha Hck Hpm Hnd. destruct e as [| |pj|now|i code now|i [| |]].
  - unfold booked, lost. simpl. rewrite !app_nil_r. split_and!; [done|by apply accounted_set_loops|done|].
    intros _ ?. split; [done|lia].
  - unfold booked, lost. simpl. rewrite !app_nil_r. split_and!; [done| |done|done].
    destruct Ha as [Hs Hsum]. split; [by apply safe_stop|done].
  - unfold booked, lost. simpl. rewrite !app_nil_r. split_and!; [done| | |intros _ ?; split; [done|lia]].
    + destruct Ha as [Hs Hsum]. split; [by apply safe_set_queue|done].
    + rewrite !held_eq. simpl. unfold Pending_Q.push. rewrite fmap_app. simpl. solve_Permutation.
  - by apply tick_booked.
  - by apply exit_booked.
  - by apply timeout_booked.
  - by apply idle_booked.
  - by apply idle_booked.
Qed.

(** *** Every run *)

Lemma resume_booked es n s :
  accounted n s → Forall (λ ew, clock_ok ew.1 ∧ pm_ok ew.2) es → NoDup (held (abs s) ++ (pj_id <$> submitted es.*1)) →
  ∃ s', resume es s = Ret s' ∧ accounted (length (lost_log es s) + n) s' ∧
    held (abs s') ++ exit_log es s ++ lost_log es s ≡ₚ held (abs s) ++ (pj_id <$> submitted es.*1) ∧
    (Stop ∉ es.*1 → stop_ s = false →
      (loops_ s' + length (lost_log es s) = loops_ s + sum_list (posted <$> es.*1))%nat).
Proof.
  revert n s. induction es as [|[e w] es IH]; intros n s Ha Hall Hnd.
  { exists s. simpl. split_and!; [done..|intros _ _; lia]. }
  apply Forall_cons in Hall as [[Hck Hpm] Hall].
  change (submitted ((e, w) :: es).*1) with (submits e ++ submitted es.*1) in *. rewrite fmap_app in Hnd |- *.
  pose proof Hnd as Hnd'. apply NoDup_app in Hnd' as (Hnd0 & _ & _).
  pose proof (step_booked w e n s Ha Hck Hpm Hnd0) as (Ho & Ha1 & Hh1 & Hl1). rewrite app_assoc, <-Hh1 in Hnd.
  simpl resume. simpl lost_log. simpl exit_log. destruct (step_x w e s) as [s1 o]. cbn [fst snd] in Ho, Ha1, Hh1, Hl1, Hnd |- *.
  destruct (IH _ s1 Ha1 Hall) as (s' & Hr & Ha' & Hh & Hl).
  { eapply sublist_NoDup; [exact Hnd|]. apply sublist_app; [by apply sublist_inserts_r|done]. }
  exists s'. split_and!.
  - by destruct o.
  - rewrite length_app, <-Nat.add_assoc, (Nat.add_comm _ n), Nat.add_assoc, Nat.add_comm. done.
  - rewrite (app_assoc (held (abs s))), <-Hh1. trans ((held (abs s') ++ exit_log es s1 ++ lost_log es s1) ++ ends e (abs s) ++ lost w e s);
      [solve_Permutation|]. rewrite Hh. solve_Permutation.
  - intros Hin Hstop. rewrite fmap_cons, not_elem_of_cons in Hin. destruct Hin as [Hne Hin].
    destruct (Hl1 (not_eq_sym Hne) Hstop) as [Hst1 Heq]. specialize (Hl Hin Hst1). rewrite length_app.
    change (sum_list (posted <$> ((e, w) :: es).*1)) with (posted e + sum_list (posted <$> es.*1))%nat. lia.
Qed.
End Accounts.

(** ** A manager to run with

    So many spawns succeed, the next ones throw. *)

#[local] Instance scarce_pm : Process_Manager_I nat := {
  pm_spawn _ _ n := match n with O => Throw (lit "pipe(2) failed") | S n => Ret (100 + Z.of_nat n, n) end;
  pm_terminate _ n := Ret n
}.

#[local] Instance scarce_ok : Process_Manager_Ok nat := λ _, True.

#[local] Instance scarce_keeps : Process_Manager_Keeps nat.
Proof. split; [by intros o i []|by intros]. Qed.

(** ** Properties *)

(** C15: what an exception costs.  The manager may throw in any callback, the
    program catches it and runs the context again: still nothing is undefined, no
    counter wraps, and the counters stay within their lanes.  But each spawn that
    threw keeps its slot for good (the counted slots are the running jobs and
    those), loses its job (every id submitted is pending, running, exited or lost,
    once), and, as the exception leaves [run_loop] before its timer is started
    again, ends one chain of turns: of as many as there were calls of [run], all
    but the lost ones are left, so after the first exception a scheduler that was
    run once starts no job any more. *)
Theorem exceptions_cost_slots {St W}
    `{!Finished_IStorage St} `{!Process_Manager_I W} `{!Process_Manager_Ok W} `{!Process_Manager_Keeps W}
    lane q (st : St) (w : W) es :
  4 <= lane < 2 ^ 64 → pm_ok w → Forall (λ ew, clock_ok ew.1 ∧ pm_ok ew.2) es → NoDup (pj_id <$> q ++ submitted es.*1) →
  ∃ s0 s, Scheduler_new true (Some q) (Some st) lane w = Ret s0 ∧ resume es s0 = Ret s ∧
    let lost := lost_log es s0 in
    0 <= running_fast_ s <= lane / 4 ∧ 0 <= running_slow_ s <= lane - lane / 4 ∧
    running_fast_ s + running_slow_ s = Z.of_nat (base.size (running_ s) + length lost) ∧
    (pj_id <$> pq_ s) ++ (map_to_list (running_ s)).*1 ++ exit_log es s0 ++ lost ≡ₚ pj_id <$> q ++ submitted es.*1 ∧
    (Stop ∉ es.*1 →
      (loops_ s + length lost = sum_list (posted <$> es.*1))%nat ∧
      (length lost = sum_list (posted <$> es.*1) → ∀ w' now, step_x w' (Tick now) s = (s, Ret tt))).
Proof.
  intros Hl Hpm Hall Hnd. destruct (new_ok q st lane w Hl Hpm) as (s0 & Hnew & Hs0 & He0 & Ha & _).
  rewrite fmap_app in Hnd |- *.
  assert (held (abs s0) = pj_id <$> q) as Hq by (rewrite Ha; unfold held; simpl; by rewrite app_nil_r).
  assert (accounted 0 s0) as Hacc.
  { split; [done|]. apply NoDup_app in Hnd as [Hnd _]. specialize (He0 Hnd).
    assert (running_ s0 = ∅) as -> by (eapply fmap_empty_inv; exact (f_equal active Ha)).
    by rewrite <-(active_size s0 He0), Ha. }
  destruct (resume_booked es 0 s0 Hacc Hall) as (s & Hr & [Hs Hsum] & Hh & Hloops); [by rewrite Hq|].
  exists s0, s. split; [done|]. split; [done|].
  assert (total_lane_ s = lane) as Hlane by by rewrite (resume_lanes es s0 s Hr), (f_equal width Ha : total_lane_ s0 = lane).
  pose proof (safe_counter s Hs FAST). pose proof (safe_counter s Hs SLOW).
  pose proof (counter_nonneg FAST s Hs). pose proof (counter_nonneg SLOW s Hs).
  pose proof (safe_fast s Hs). pose proof (safe_slow s Hs). rewrite Hlane in *. simpl in *.
  split_and!; [lia..| |].
  - rewrite <-Hq, <-Hh, held_eq. by rewrite <-app_assoc.
  - intros Hin. rewrite (f_equal turns Ha : loops_ s0 = 0%nat) in Hloops.
    specialize (Hloops Hin (f_equal stopped Ha)). split; [done|]. intros Hlost w' now.
    assert (loops_ s = 0%nat) as Hz by lia. unfold step_x, xbind, get. by rewrite Hz.
Qed.

(** Job [a] is lost; [b] starts when descriptors are there again and the program
    calls [run] again. *)
Definition scarce_day : list (event * nat) :=
  (λ e, (e, 3%nat)) <$> [Run; Submit (job_of "a" FAST); Submit (job_of "b" FAST); Tick 1; Tick 2; Run; Tick 3].

Lemma exceptions_cost_slots_witness :
  ∃ s0 s, Scheduler_new true (Some []) (Some (∅ : Finished_Storage.sink)) 4 0%nat = Ret s0 ∧
    resume scarce_day s0 = Ret s ∧ lost_log scarce_day s0 = [lit "a"] ∧
    running_fast_ s + running_slow_ s = Z.of_nat (base.size (running_ s) + 1).
Proof.
  destruct (exceptions_cost_slots 4 [] (∅ : Finished_Storage.sink) 0%nat scarce_day)
    as (s0 & s & Hnew & Hr & Hrest).
  - lia.
  - exact I.
  - repeat constructor; simpl; lia.
  - refine (bool_decide_unpack (NoDup _) _). vm_compute. exact I.
  - destruct Hrest as (_ & _ & Hsum & _).
    assert (lost_log scarce_day s0 = [lit "a"]) as Hlost by (injection Hnew as <-; vm_compute; reflexivity).
    rewrite Hlost in Hsum. exists s0, s. exact (conj Hnew (conj Hr (conj Hlost Hsum))).
Defined.
