(* ===== verification/QueueThreads.v ===== *)
(** [process/aps_pending_queue.cpp] between threads: jobs are pushed while the
    scheduler's thread is in [Scheduler::run_loop].

    A turn of [run_loop] calls the queue up to three times: [empty] and [pop] lock
    its mutex, each for itself, and [front] between them does not.  Here a turn is
    taken in those steps and pushes come between them.  A push is ordered with the
    unlocked read of [front] only by a lock of the mutex that the scheduler's thread
    takes between the two; without one it is a data race, which is undefined. *)

From S2P Require Import Prelude Double P90 Aps Scheduler SlotPool SchedulerTheorems.

#[local] Open Scope Z_scope.

Section Queue_Threads.
Context {St W : Type} `{!Finished_IStorage St} `{!Process_Manager_I W}.
Implicit Types (s : Scheduler St W) (ps : list Pending_Job).

(** ** The steps of a turn *)

(** Where the turn is: before [empty], before [front], before [pop], before
    [schedule] with the job that was popped, before the timer is started again, at
    its end.  The flag says that [front] was called and the mutex was not locked by
    this thread since (in this turn, or in the turn before). *)
Inductive point :=
| At_empty (read : bool) | At_front | At_pop | At_schedule (pj : Pending_Job) | At_timer (read : bool) | At_end (read : bool).

Definition turn (now : Z) (pt : point) s : outcome (point * Scheduler St W) :=
  match pt with
  | At_empty read =>
      if stop_ s then Ret (At_end read, s)
      else if Pending_Q.empty (pq_ s) then Ret (At_timer false, s)
      else Ret (At_front, s)
  | At_front =>
      let! pj := Pending_Q.front (pq_ s) in
      if schedulable pj s then Ret (At_pop, s) else Ret (At_timer true, s)
  | At_pop =>
      let! '(pj, q) := Pending_Q.pop (pq_ s) in
      Ret (At_schedule pj, set_queue q s)
  | At_schedule pj =>
      let! s := schedule now pj s in
      Ret (At_timer false, s)
  | At_timer read => Ret (At_end read, set_loops (S (loops_ s)) s)
  | At_end read => Ret (At_end read, s)
  end.

Definition is_over (pt : point) : bool := match pt with At_end _ => true | _ => false end.

(** The points where the scheduler's thread has no lock of the mutex between its
    call of [front], past or to come, and a push of another thread. *)
Definition exposed (pt : point) : bool :=
  match pt with
  | At_front | At_pop => true
  | At_empty read | At_timer read | At_end read => read
  | At_schedule _ => false
  end.

Definition push (pj : Pending_Job) s : Scheduler St W := set_queue (Pending_Q.push pj (pq_ s)) s.

(** A push by another thread. *)
Definition push_at (pt : point) (pj : Pending_Job) s : outcome (point * Scheduler St W) :=
  if exposed pt then UB else Ret (pt, push pj s).

(** A turn that starts in [s0], with the jobs other threads have pushed so far. *)
Inductive turns (now : Z) (read : bool) s0 : list Pending_Job → outcome (point * Scheduler St W) → Prop :=
| turns_start : turns now read s0 [] (Ret (At_empty read, s0))
| turns_push ps pt s pj :
    turns now read s0 ps (Ret (pt, s)) → turns now read s0 (ps ++ [pj]) (push_at pt pj s)
| turns_step ps pt s :
    turns now read s0 ps (Ret (pt, s)) → is_over pt = false → turns now read s0 ps (turn now pt s).

(** A schedule of a turn: [None] is a step of the loop, [Some pj] a push. *)
Fixpoint mixed (now : Z) (l : list (option Pending_Job)) (o : outcome (point * Scheduler St W)) : outcome (point * Scheduler St W) :=
  match l with
  | [] => o
  | Some pj :: l => mixed now l (let! '(pt, s) := o in push_at pt pj s)
  | None :: l => mixed now l (let! '(pt, s) := o in turn now pt s)
  end.

(** ** Reference definitions *)

Definition push_all ps s : Scheduler St W := set_queue (pq_ s ++ ps) s.

(** The turn in one piece, with [ps1] pushed before and [ps2] after it. *)
Definition whole_turn (now : Z) ps1 ps2 s : outcome (Scheduler St W) :=
  let! s := run_loop now (push_all ps1 s) in Ret (push_all ps2 s).

(** [run_loop] down to the timer, of a scheduler that was not stopped. *)
Definition head_turn (now : Z) s : outcome (Scheduler St W) :=
  if Pending_Q.empty (pq_ s) then Ret s
  else
    let! pj := Pending_Q.front (pq_ s) in
    if schedulable pj s then
      let! '(pj, q) := Pending_Q.pop (pq_ s) in
      schedule now pj (set_queue q s)
    else Ret s.

(** ** Lemmas *)

Lemma push_all_nil s : push_all [] s = s.
Proof. destruct s. unfold push_all, set_queue. simpl. by rewrite app_nil_r. Qed.

Lemma push_all_snoc ps pj s : push pj (push_all ps s) = push_all (ps ++ [pj]) s.
Proof. unfold push, push_all, set_queue, Pending_Q.push. simpl. by rewrite <-app_assoc. Qed.

Lemma schedulable_push ps pj s : schedulable pj (push_all ps s) = schedulable pj s.
Proof. done. Qed.

(** Starting a job does not look at the queue. *)
Lemma schedule_push now pj ps s :
  schedule now pj (push_all ps s) = (let! s := schedule now pj s in Ret (push_all ps s)).
Proof.
  unfold schedule. cbv zeta. change (actual_lane (pj_lane pj) (push_all ps s)) with (actual_lane (pj_lane pj) s).
  destruct (actual_lane (pj_lane pj) s); simpl;
    (destruct (pm_spawn _ _ _) as [[p w]| |]; [|done..]); simpl; [|done].
  unfold compute_timeout. simpl. destruct (size _ <? _)%nat; [done|].
  destruct (compute _) as [p90| |]; [|done..]. simpl. destruct (p90 =? 0); [done|]. by destruct (int64_of _).
Qed.

Lemma run_loop_head now s : stop_ s = false →
  run_loop now s = (let! s := head_turn now s in Ret (set_loops (S (loops_ s)) s)).
Proof. intros Hs. unfold run_loop. by rewrite Hs. Qed.

Lemma mixed_turns now read s0 l ps pt s pt' s' :
  turns now read s0 ps (Ret (pt, s)) → mixed now l (Ret (pt, s)) = Ret (pt', s') →
  ∃ ps', turns now read s0 (ps ++ ps') (Ret (pt', s')).
Proof.
  assert (∀ l o, mixed now l o = Ret (pt', s') → ∃ x, o = Ret x) as Hret.
  { intros l'. induction l' as [|[pj|] l' IHl]; intros o Ho; [by eexists|..];
      apply IHl in Ho as [x Hx]; destruct o; try done; by eexists. }
  revert ps pt s. induction l as [|[pj|] l IH]; intros ps pt s Hr Ho; simpl in Ho.
  - exists []. rewrite app_nil_r. by rewrite <-Ho.
  - destruct (Hret _ _ Ho) as [[pt1 s1] E]. rewrite E in Ho.
    destruct (IH (ps ++ [pj]) pt1 s1) as [ps' H]; [rewrite <-E; by apply turns_push|done|].
    exists (pj :: ps'). by rewrite <-app_assoc in H.
  - destruct (is_over pt) eqn:He; [destruct pt; try done; by eapply IH|].
    destruct (Hret _ _ Ho) as [[pt1 s1] E]. rewrite E in Ho.
    apply (IH ps pt1 s1); [|done]. rewrite <-E. by apply turns_step.
Qed.

(** What is known at each point, when [ps] was pushed so far: what came before the
    test of [empty], and what came after it. *)
Definition progress now s0 ps (pt : point) s : Prop :=
  match pt with
  | At_empty _ => s = push_all ps s0
  | _ =>
      ∃ ps1 ps2, ps = ps1 ++ ps2 ∧
      let s1 := push_all ps1 s0 in
      match pt with
      | At_front => stop_ s1 = false ∧ Pending_Q.empty (pq_ s1) = false ∧ s = push_all ps2 s1
      | At_pop => stop_ s1 = false ∧ Pending_Q.empty (pq_ s1) = false ∧ s = push_all ps2 s1 ∧
          ∃ pj, Pending_Q.front (pq_ s1) = Ret pj ∧ schedulable pj s1 = true
      | At_schedule pj => stop_ s1 = false ∧
          ∃ q, head_turn now s1 = schedule now pj (set_queue q s1) ∧ s = push_all ps2 (set_queue q s1)
      | At_timer _ => stop_ s1 = false ∧ ∃ s2, head_turn now s1 = Ret s2 ∧ s = push_all ps2 s2
      | _ => ∃ s2, run_loop now s1 = Ret s2 ∧ s = push_all ps2 s2
      end
  end.

Lemma progress_push now s0 ps pt s pj :
  progress now s0 ps pt s → progress now s0 (ps ++ [pj]) pt (push pj s).
Proof.
  destruct pt; [intros ->; apply push_all_snoc|intros (ps1 & ps2 & -> & H); exists ps1, (ps2 ++ [pj]);
    (split; [by rewrite app_assoc|]); cbv zeta in *..].
  - destruct H as (H1 & H2 & ->). split_and!; [done..|apply push_all_snoc].
  - destruct H as (H1 & H2 & -> & H3). split_and!; [done..|apply push_all_snoc|done].
  - destruct H as (H1 & q & H2 & ->). split; [done|]. exists q. split; [done|apply push_all_snoc].
  - destruct H as (H1 & s2 & H2 & ->). split; [done|]. exists s2. split; [done|apply push_all_snoc].
  - destruct H as (s2 & H2 & ->). exists s2. split; [done|apply push_all_snoc].
Qed.

(** A step goes on, or the whole turn fails the same way. *)
Lemma progress_turn now s0 ps pt s : is_over pt = false → progress now s0 ps pt s →
  match turn now pt s with
  | Ret (pt', s') => progress now s0 ps pt' s'
  | Throw w => ∃ ps1 ps2, ps = ps1 ++ ps2 ∧ run_loop now (push_all ps1 s0) = Throw w
  | UB => ∃ ps1 ps2, ps = ps1 ++ ps2 ∧ run_loop now (push_all ps1 s0) = UB
  end.
Proof.
  intros Hne. destruct pt as [rd| | |pj|rd|rd]; [intros ->|intros (ps1 & ps2 & -> & H); cbv zeta in H..|done]; unfold turn.
  - destruct (stop_ (push_all ps s0)) eqn:Hs.
    { exists ps, []. rewrite app_nil_r. split; [done|]. cbv zeta. exists (push_all ps s0). rewrite push_all_nil.
      split; [unfold run_loop; by rewrite Hs|done]. }
    destruct (Pending_Q.empty (pq_ (push_all ps s0))) eqn:He; exists ps, []; rewrite app_nil_r; (split; [done|]); cbv zeta.
    + split; [done|]. exists (push_all ps s0). rewrite push_all_nil. unfold head_turn. by rewrite He.
    + by rewrite push_all_nil.
  - destruct H as (Hs & He & ->). remember (push_all ps1 s0) as s1 eqn:Es1.
    destruct (pq_ s1) as [|pj q] eqn:Hq; [done|].
    assert (Pending_Q.front (pq_ (push_all ps2 s1)) = Ret pj) as -> by (simpl; by rewrite Hq).
    cbn [obind]. rewrite schedulable_push. destruct (schedulable pj s1) eqn:Hsch; exists ps1, ps2; (split; [done|]); cbv zeta; rewrite <-Es1.
    + rewrite Hq. split_and!; [done..|]. by exists pj.
    + split; [done|]. exists s1. split; [|done]. unfold head_turn. rewrite Hq. simpl. by rewrite Hsch.
  - destruct H as (Hs & He & -> & pj & Hf & Hsch). remember (push_all ps1 s0) as s1 eqn:Es1.
    destruct (pq_ s1) as [|pj' q] eqn:Hq; [done|]. injection Hf as ->.
    assert (Pending_Q.pop (pq_ (push_all ps2 s1)) = Ret (pj, q ++ ps2)) as -> by (simpl; by rewrite Hq).
    cbn [obind]. exists ps1, ps2. split; [done|]. cbv zeta. rewrite <-Es1. split; [done|]. exists q. split; [|done].
    unfold head_turn. rewrite Hq. simpl. by rewrite Hsch.
  - destruct H as (Hs & q & Hh & ->). remember (push_all ps1 s0) as s1 eqn:Es1. rewrite schedule_push.
    destruct (schedule now pj (set_queue q s1)) as [s2|w|] eqn:Hsch; cbn [obind]; exists ps1, ps2; (split; [done|]).
    + cbv zeta. rewrite <-Es1. split; [done|]. by exists s2.
    + rewrite <-Es1. rewrite run_loop_head by done. by rewrite Hh.
    + rewrite <-Es1. rewrite run_loop_head by done. by rewrite Hh.
  - destruct H as (Hs & s2 & Hh & ->). exists ps1, ps2. split; [done|]. cbv zeta.
    exists (set_loops (S (loops_ s2)) s2). rewrite run_loop_head by done. by rewrite Hh.
Qed.

(** ** Properties *)

(** C28: pushes and a turn of [run_loop].  The turn locks the queue's mutex twice at
    most, for [empty] and for [pop], and reads [front] without it.  A push of another
    thread that falls between the test of [empty] and [pop], or after a [front] that
    no [pop] followed and before the next lock, races with [front]: the program is
    undefined.  Wherever else pushes come (before the test, while the job is being
    started, after it), the turn does what it would do in one piece, after the jobs
    that were pushed first and before the others; in particular [front] and [pop]
    find the job that the test of [empty] promised, and see the same one. *)
Theorem pushes_linearize (now : Z) (read : bool) (s0 : Scheduler St W) ps (o : outcome (point * Scheduler St W))
    (Hrun : turns now read s0 ps o) :
  match o with
  | Ret (At_end _, s) => ∃ ps1 ps2, ps = ps1 ++ ps2 ∧ whole_turn now ps1 ps2 s0 = Ret s
  | Ret _ => True
  | Throw w => ∃ ps1 ps2, ps = ps1 ++ ps2 ∧ whole_turn now ps1 ps2 s0 = Throw w
  | UB =>
      (∃ ps1 ps2, ps = ps1 ++ ps2 ∧ whole_turn now ps1 ps2 s0 = UB) ∨
      (∃ ps' pj pt s, ps = ps' ++ [pj] ∧ turns now read s0 ps' (Ret (pt, s)) ∧ exposed pt = true)
  end.
Proof.
  assert (match o with
          | Ret (pt, s) => progress now s0 ps pt s
          | Throw w => ∃ ps1 ps2, ps = ps1 ++ ps2 ∧ run_loop now (push_all ps1 s0) = Throw w
          | UB => (∃ ps1 ps2, ps = ps1 ++ ps2 ∧ run_loop now (push_all ps1 s0) = UB) ∨
              (∃ ps' pj pt s, ps = ps' ++ [pj] ∧ turns now read s0 ps' (Ret (pt, s)) ∧ exposed pt = true)
          end) as H.
  { induction Hrun as [|ps pt s pj Hr IH|ps pt s Hr IH Hne].
    - by rewrite <-(push_all_nil s0) at 2.
    - unfold push_at. destruct (exposed pt) eqn:He; [right; by exists ps, pj, pt, s|]. by apply progress_push.
    - pose proof (progress_turn now s0 ps pt s Hne IH) as Hp. destruct (turn now pt s) as [[]| |]; [done|done|by left]. }
  unfold whole_turn. destruct o as [[pt s]|w|].
  - destruct pt; try done. destruct H as (ps1 & ps2 & -> & s2 & H & ->). exists ps1, ps2. by rewrite H.
  - destruct H as (ps1 & ps2 & -> & H). exists ps1, ps2. by rewrite H.
  - destruct H as [(ps1 & ps2 & -> & H)|H]; [left|by right]. exists ps1, ps2. by rewrite H.
Qed.
End Queue_Threads.

(** A turn that finds the job [a], while another thread pushes [b] once [a] was
    popped. *)
Definition before_turn : Demo := mkScheduler false [job_of "a" FAST] ∅ 4 1 3 0 0 (P90_new 1000) ∅ [] 0.

Definition one_turn : list (option Pending_Job) := [None; None; None; Some (job_of "b" SLOW); None; None].

Definition after_turn : Demo :=
  match mixed 7 one_turn (Ret (At_empty false, before_turn)) with Ret (_, s) => s | _ => before_turn end.

Lemma after_turn_eq : mixed 7 one_turn (Ret (At_empty false, before_turn)) = Ret (At_end false, after_turn).
Proof. vm_compute. reflexivity. Qed.

(** The same push one or two steps earlier, between [empty] and [pop]. *)
Example early_push_races :
  mixed 7 [None; Some (job_of "b" SLOW)] (Ret (At_empty false, before_turn)) = UB ∧
  mixed 7 [None; None; Some (job_of "b" SLOW)] (Ret (At_empty false, before_turn)) = UB.
Proof. split; vm_compute; reflexivity. Qed.

Lemma pushes_linearize_witness :
  ∃ ps ps1 ps2, ps = ps1 ++ ps2 ∧ whole_turn 7 ps1 ps2 before_turn = Ret after_turn.
Proof.
  destruct (mixed_turns 7 false before_turn _ [] (At_empty false) before_turn _ _ (turns_start 7 false before_turn) after_turn_eq)
    as [ps H].
  exists ([] ++ ps). exact (pushes_linearize 7 false before_turn ([] ++ ps) (Ret (At_end false, after_turn)) H).
Defined.
