(* ===== verification/ProcessManager.v ===== *)
(** Processes: [process/process_handler.cpp] and [process/process_manager.cpp].

    [boost::process] and the system calls are the parameters [OS]: a child is
    what [bp::child] is, its operations may throw.  An [async_read_until] that
    was started is an entry of [reads_], which keeps the callback it captured;
    its completion is a step of the environment.  What a line callback does is
    left out; a call to it is the line and the length it was given. *)

From S2P Require Import Prelude Aps Scheduler.

#[local] Open Scope Z_scope.

Definition SIGSTOP : Z := 19.
Definition SIGCONT : Z := 18.
Definition WUNTRACED : Z := 2.

(** [WIFSTOPPED] of [<sys/wait.h>]. *)
Definition WIFSTOPPED (status : Z) : bool := Z.land status 255 =? 127.

Class OS (Exit_Callback W : Type) := {
  child : Type;
  child_id : child → Z;
  (** the pipes for the standard streams of a child *)
  os_pipes : W → outcome W;
  (** [new bp::child(...)] with the [on_exit] callback *)
  os_spawn : Process_Options → option Exit_Callback → W → outcome (child * W);
  os_running : child → W → outcome (bool * W);
  os_terminate : child → W → outcome W;
  os_wait : child → W → outcome W;
  os_exit_code : child → W → Z;
  os_kill : Z → Z → W → Z * W;
  (** the status [waitpid] wrote, if any *)
  os_waitpid : Z → Z → W → option Z * W;
  os_write : str → W → W;
  (** whether [map::emplace] builds (and then destroys) its element when the key
      is present: the standard leaves it open *)
  emplace_builds : bool
}.

(** What an exception that nothing may catch ends in. *)
Definition std_terminate : str := lit "std::terminate".

Section Process.
Context {Line_Callback Exit_Callback W : Type} {os : OS Exit_Callback W}.

(** ** One output stream of a handler: the pipe, the buffer, the callback *)

Record Stream := mkStream {
  pipe_ : bool;
  buf_ : str;
  cb_ : option Line_Callback;
  reads_ : list Line_Callback
}.

Definition new_stream : Stream := mkStream false [] None [].

(** A call of a line callback: the bytes its pointer refers to, the length. *)
Definition line_call : Type := Line_Callback * str * Z.

(** [handle_stdout] and [handle_stderr] down to [async_read_until]. *)
Definition handle_stream (st : Stream) : Stream :=
  match pipe_ st, cb_ st with
  | true, Some cb => mkStream (pipe_ st) (buf_ st) (cb_ st) (reads_ st ++ [cb])
  | _, _ => st
  end.

(** The completion of the oldest read with [len]; the error code is ignored.
    Taking the address of the first byte needs a byte. *)
Definition read_done (len : Z) (st : Stream) : outcome (line_call * Stream) :=
  match reads_ st, buf_ st with
  | each_line :: rest, _ :: _ =>
      let st' := mkStream (pipe_ st) (drop (Z.to_nat len) (buf_ st)) (cb_ st) rest in
      Ret ((each_line, buf_ st, u64 (len - 1)), handle_stream st')
  | _, _ => UB
  end.

(** ** [Process_Handler] *)

Record Process_Handler := mkHandler {
  proc_ : option child;
  stdin_ : bool;
  stdout_ : Stream;
  stderr_ : Stream;
  exit_cb_ : option Exit_Callback
}.

Definition new_handler : Process_Handler := mkHandler None false new_stream new_stream None.

Definition set_cb (cb : option Line_Callback) (st : Stream) : Stream :=
  mkStream (pipe_ st) (buf_ st) cb (reads_ st).

Definition set_pipe (p : bool) (st : Stream) : Stream :=
  mkStream p (buf_ st) (cb_ st) (reads_ st).

Definition stdout_callback cb (h : Process_Handler) : Process_Handler :=
  mkHandler (proc_ h) (stdin_ h) (set_cb cb (stdout_ h)) (stderr_ h) (exit_cb_ h).
Definition stderr_callback cb (h : Process_Handler) : Process_Handler :=
  mkHandler (proc_ h) (stdin_ h) (stdout_ h) (set_cb cb (stderr_ h)) (exit_cb_ h).
Definition exit_callback cb (h : Process_Handler) : Process_Handler :=
  mkHandler (proc_ h) (stdin_ h) (stdout_ h) (stderr_ h) cb.

Definition pid (h : Process_Handler) : Z :=
  match proc_ h with Some c => child_id c | None => -1 end.

(** The pipes are made first; [new bp::child] is in a [try] block that catches
    every exception. *)
Definition handler_spawn (opts : Process_Options) (h : Process_Handler) (w : W) :
    outcome (Z * Process_Handler * W) :=
  let out := set_pipe true (stdout_ h) in
  let err := set_pipe true (stderr_ h) in
  let! w := os_pipes w in
  match os_spawn opts (exit_cb_ h) w with
  | Throw _ => Ret (-1, mkHandler None true out err (exit_cb_ h), w)
  | UB => UB
  | Ret (c, w) =>
      Ret (child_id c, mkHandler (Some c) true (handle_stream out) (handle_stream err) (exit_cb_ h), w)
  end.

Definition suspend (h : Process_Handler) (w : W) : outcome (bool * W) :=
  match proc_ h with
  | None => Ret (false, w)
  | Some c =>
      let! '(r, w) := os_running c w in
      if negb r then Ret (false, w)
      else
        let '(rc, w) := os_kill (child_id c) SIGSTOP w in
        if negb (rc =? 0) then Ret (false, w) else Ret (true, w)
  end.

Definition suspended (h : Process_Handler) (w : W) : outcome (bool * W) :=
  let! c := deref (proc_ h) in
  let '(status, w) := os_waitpid (child_id c) WUNTRACED w in
  Ret (WIFSTOPPED (default 0 status), w).

Definition resume (h : Process_Handler) (w : W) : outcome (bool * W) :=
  match proc_ h with
  | None => Ret (false, w)
  | Some c =>
      let! '(r, w) := os_running c w in
      if negb r then Ret (false, w)
      else
        let! '(s, w) := suspended h w in
        if negb s then Ret (false, w)
        else
          let '(rc, w) := os_kill (child_id c) SIGCONT w in
          if negb (rc =? 0) then Ret (false, w) else Ret (true, w)
  end.

Definition handler_wait (h : Process_Handler) (w : W) : outcome W :=
  match proc_ h with
  | Some c => os_wait c w
  | None => Ret w
  end.

Definition handler_terminate (h : Process_Handler) (w : W) : outcome (Process_Handler * W) :=
  let out := set_pipe false (set_cb None (stdout_ h)) in
  let err := set_pipe false (set_cb None (stderr_ h)) in
  let h := mkHandler (proc_ h) false out err (exit_cb_ h) in
  let! c := deref (proc_ h) in
  let! '(r, w) := os_running c w in
  let! w := if r : bool then os_terminate c w else Ret w in
  let! w := os_wait c w in
  Ret (h, w).

(** A destructor is [noexcept]: whatever is thrown in it, the program ends by
    [std::terminate], and nothing can catch that. *)
Definition noexcept {A} (o : outcome A) : outcome A :=
  match o with Throw _ => Throw std_terminate | _ => o end.

(** [~Process_Handler]. *)
Definition destroy (h : Process_Handler) (w : W) : outcome W :=
  noexcept
    match proc_ h with
    | None => Ret w
    | Some c =>
        let! '(r, w) := os_running c w in
        if r : bool then let! '(_, w) := handler_terminate h w in Ret w else Ret w
    end.

Definition exit_code (h : Process_Handler) (w : W) : Z :=
  match proc_ h with None => -1 | Some c => os_exit_code c w end.

Definition write_stdin (data : str) (h : Process_Handler) (w : W) : Z * W :=
  if negb (stdin_ h) then (-1, w) else (Z.of_nat (length data), os_write data w).

Definition close_stdin (h : Process_Handler) : Process_Handler :=
  if stdin_ h then mkHandler (proc_ h) false (stdout_ h) (stderr_ h) (exit_cb_ h) else h.

(** ** [Process_Manager] *)

(** The map of handlers, and the world they run in. *)
Record Process_Manager := mkManager {
  handlers_ : gmap Z Process_Handler;
  world_ : W
}.

Definition find_handler (p : Z) (m : Process_Manager) : option Process_Handler := handlers_ m !! p.

(** [handlers_.erase(pid)] destroys the handler. *)
Definition remove_handler (p : Z) (m : Process_Manager) : outcome Process_Manager :=
  match handlers_ m !! p with
  | None => Ret m
  | Some h =>
      let! w := destroy h (world_ m) in
      Ret (mkManager (delete p (handlers_ m)) w)
  end.

Definition spawn (opts : Process_Options) (stdout_cb stderr_cb : option Line_Callback)
    (exit_cb : option Exit_Callback) (m : Process_Manager) : outcome (Z * Process_Manager) :=
  let h := new_handler in
  let h := match stdout_cb with Some _ => stdout_callback stdout_cb h | None => h end in
  let h := match stderr_cb with Some _ => stderr_callback stderr_cb h | None => h end in
  let h := match exit_cb with Some _ => exit_callback exit_cb h | None => h end in
  let! '(p, h, w) := handler_spawn opts h (world_ m) in
  if p =? -1 then
    let! w := destroy h w in
    Ret (p, mkManager (handlers_ m) w)
  else
    match handlers_ m !! p with
    | None => Ret (p, mkManager (<[p := h]> (handlers_ m)) w)
    | Some _ =>
        let! w := if emplace_builds then destroy h w else Ret w in
        Ret (p, mkManager (handlers_ m) w)
    end.

Definition wait (p : Z) (m : Process_Manager) : outcome (Z * Process_Manager) :=
  match find_handler p m with
  | None => Ret (-1, m)
  | Some h =>
      let! w := handler_wait h (world_ m) in
      let ec := exit_code h w in
      let! m := remove_handler p (mkManager (handlers_ m) w) in
      Ret (ec, m)
  end.

Definition terminate (p : Z) (m : Process_Manager) : outcome Process_Manager :=
  let! m :=
    match find_handler p m with
    | Some h =>
        let! '(h, w) := handler_terminate h (world_ m) in
        Ret (mkManager (<[p := h]> (handlers_ m)) w)
    | None => Ret m
    end in
  remove_handler p m.

(** [Process_Killer::terminate_with_children] has an empty body. *)
Definition terminate_with_children (p : Z) (m : Process_Manager) : outcome Process_Manager :=
  remove_handler p m.

(** The manager with its [io_context], which is null before [open]. *)
Record Manager_Instance := mkInstance { ioc_ : option nat; manager_ : Process_Manager }.

Definition instance (w : W) : Manager_Instance := mkInstance None (mkManager ∅ w).

Definition open (ioc : option nat) (pm : Manager_Instance) : bool * Manager_Instance :=
  (true, mkInstance ioc (manager_ pm)).

(** The pipes of a new process are made with [*ioc_]. *)
Definition instance_spawn (opts : Process_Options) (stdout_cb stderr_cb : option Line_Callback)
    (exit_cb : option Exit_Callback) (pm : Manager_Instance) : outcome (Z * Manager_Instance) :=
  let! _ := deref (ioc_ pm) in
  let! '(p, m) := spawn opts stdout_cb stderr_cb exit_cb (manager_ pm) in
  Ret (p, mkInstance (ioc_ pm) m).
End Process.

Arguments Stream : clear implicits.
Arguments Process_Handler _ _ _ {os}.
Arguments Process_Manager _ _ _ {os}.

(** The manager is what the scheduler uses: its exit callbacks hold an id. *)
#[export] Instance process_manager_pm {Line_Callback W} {os : OS str W} :
    Process_Manager_I (Process_Manager Line_Callback str W) := {
  pm_spawn opts i m := spawn opts None None (Some i) m;
  pm_terminate p m := terminate p m
}.

(** ** Reference definitions *)

Definition newline : ascii := ascii_of_nat 10.

(** The complete lines of a text, and what follows the last newline. *)
Fixpoint split_lines (s : str) : list str * str :=
  match s with
  | [] => ([], [])
  | c :: s =>
      let '(ls, rest) := split_lines s in
      if decide (c = newline) then ([] :: ls, rest)
      else match ls with
           | [] => ([], c :: rest)
           | l :: ls => ((c :: l) :: ls, rest)
           end
  end.

Section Spec.
Context {Line_Callback Exit_Callback W : Type} {os : OS Exit_Callback W}.
Implicit Types (st : Stream Line_Callback) (h : Process_Handler Line_Callback Exit_Callback W)
  (m : Process_Manager Line_Callback Exit_Callback W).

(** What [async_read_until(..., '\n')] promises: it completes when there is a
    newline, with the length up to and with it; asio keeps reading meanwhile. *)
Fixpoint pump (fuel : nat) st : outcome (list (@line_call Line_Callback) * Stream Line_Callback) :=
  match fuel, reads_ st, str_find newline (buf_ st) with
  | S fuel, _ :: _, Some i =>
      let! '(call, st) := read_done (Z.of_nat (S i)) st in
      let! '(calls, st) := pump fuel st in
      Ret (call :: calls, st)
  | _, _, _ => Ret ([], st)
  end.

Definition arrive (data : str) st : Stream Line_Callback :=
  mkStream (pipe_ st) (buf_ st ++ data) (cb_ st) (reads_ st).

Fixpoint feed (chunks : list str) st : outcome (list (@line_call Line_Callback) * Stream Line_Callback) :=
  match chunks with
  | [] => Ret ([], st)
  | data :: chunks =>
      let st := arrive data st in
      let! '(calls, st) := pump (S (length (buf_ st))) st in
      let! '(calls', st) := feed chunks st in
      Ret (calls ++ calls', st)
  end.

(** What a callback that is called with a pointer and a length sees. *)
Definition seen (c : @line_call Line_Callback) : Line_Callback * str :=
  let '(cb, bytes, len) := c in (cb, take (Z.to_nat len) bytes).

(** A stream whose callback is set and whose read is outstanding. *)
Definition armed (cb : Line_Callback) st : Prop :=
  pipe_ st = true ∧ cb_ st = Some cb ∧ reads_ st = [cb].

(** The handlers of a manager are those of running children, under their pid. *)
Definition managed m : Prop :=
  map_Forall (λ p h, ∃ c, proc_ h = Some c ∧ child_id c = p) (handlers_ m).

Inductive call :=
| Spawn (opts : Process_Options) (out err : option Line_Callback) (ex : option Exit_Callback)
| Wait (p : Z)
| Terminate (p : Z)
| Terminate_With_Children (p : Z).

Definition do_call (c : call) m : outcome (Z * Process_Manager Line_Callback Exit_Callback W) :=
  match c with
  | Spawn opts out err ex => spawn opts out err ex m
  | Wait p => wait p m
  | Terminate p => let! m := terminate p m in Ret (0, m)
  | Terminate_With_Children p => let! m := terminate_with_children p m in Ret (0, m)
  end.

Fixpoint calls (cs : list call) m : outcome (list Z * Process_Manager Line_Callback Exit_Callback W) :=
  match cs with
  | [] => Ret ([], m)
  | c :: cs =>
      let! '(r, m) := do_call c m in
      let! '(rs, m) := calls cs m in
      Ret (r :: rs, m)
  end.

(** The pids managed after a call that returned [r]. *)
Definition pids_after (ps : gset Z) (c : call) (r : Z) : gset Z :=
  match c with
  | Spawn _ _ _ _ => if r =? -1 then ps else {[r]} ∪ ps
  | Wait p | Terminate p | Terminate_With_Children p => ps ∖ {[p]}
  end.

Definition pids (ps : gset Z) (crs : list (call * Z)) : gset Z :=
  foldl (λ ps cr, pids_after ps cr.1 cr.2) ps crs.

(** The library's operations return or throw. *)
Record os_defined : Prop := mkDefined {
  pipes_defined w : os_pipes w ≠ UB;
  spawn_defined o x w : os_spawn o x w ≠ UB;
  running_defined c w : os_running c w ≠ UB;
  terminate_defined c w : os_terminate c w ≠ UB;
  wait_defined c w : os_wait c w ≠ UB
}.

(** ** Lemmas *)

Context (OSD : os_defined).

Lemma handler_terminate_defined h w :
  is_Some (proc_ h) → defined (λ r, proc_ r.1 = proc_ h) (handler_terminate h w).
Proof.
  intros [c Hc]. unfold handler_terminate. simpl. rewrite Hc. simpl.
  eapply defined_bind; [apply defined_not_UB, running_defined, OSD|]. intros [[] w1] _.
  - eapply defined_bind; [apply defined_not_UB, terminate_defined, OSD|]. intros w2 _.
    by eapply defined_bind; [apply defined_not_UB, wait_defined, OSD|].
  - simpl. by eapply defined_bind; [apply defined_not_UB, wait_defined, OSD|].
Qed.

Lemma noexcept_defined {A} (Q : A → Prop) o : defined Q o → defined Q (noexcept o).
Proof. by destruct o. Qed.

Lemma destroy_defined h w : defined (λ _, True) (destroy h w).
Proof.
  apply noexcept_defined. destruct (proc_ h) eqn:Hc; [|done].
  eapply defined_bind; [apply defined_not_UB, running_defined, OSD|]. intros [[] w1] _; [|done].
  eapply defined_bind; [apply handler_terminate_defined; by rewrite Hc|]. by intros [].
Qed.

Definition after (ps : gset Z) m : Prop := managed m ∧ dom (handlers_ m) = ps.

Lemma remove_handler_defined p m ps :
  managed m → dom (handlers_ m) = ps → defined (after (ps ∖ {[p]})) (remove_handler p m).
Proof.
  intros Hm <-. unfold remove_handler. destruct (handlers_ m !! p) as [h|] eqn:Hp.
  - eapply defined_bind; [apply destroy_defined|]. intros w _. split; [by apply map_Forall_delete|].
    simpl. by rewrite dom_delete_L.
  - split; [done|]. apply not_elem_of_dom in Hp. set_solver.
Qed.

Lemma spawn_ok opts out err ex m :
  managed m → defined (λ r, after (pids_after (dom (handlers_ m)) (Spawn opts out err ex) r.1) r.2)
                (spawn opts out err ex m).
Proof.
  intros Hm. unfold spawn, handler_spawn. set (h := match ex with Some _ => _ | None => _ end).
  rewrite obind_assoc. eapply defined_bind; [apply defined_not_UB, pipes_defined, OSD|]. intros w0 _.
  pose proof (spawn_defined OSD opts (exit_cb_ h) w0).
  destruct (os_spawn opts (exit_cb_ h) w0) as [[c w]| |]; [|by split|done]. simpl.
  destruct (Z.eqb_spec (child_id c) (-1)) as [E|E].
  - eapply defined_bind; [apply destroy_defined|]. intros w1 _. simpl. rewrite E. by split.
  - destruct (handlers_ m !! child_id c) as [h'|] eqn:Hp.
    + eapply (defined_bind (λ _, True)); [destruct emplace_builds; [apply destroy_defined|done]|].
      intros w1 _. simpl. rewrite (proj2 (Z.eqb_neq _ _)) by done. split; [done|]. simpl.
      apply elem_of_dom_2 in Hp. set_solver.
    + simpl. rewrite (proj2 (Z.eqb_neq _ _)) by done. split; [|apply dom_insert_L].
      apply map_Forall_insert_2; [by exists c|done].
Qed.

Lemma call_ok c m :
  managed m → defined (λ r, after (pids_after (dom (handlers_ m)) c r.1) r.2) (do_call c m).
Proof.
  intros Hm. destruct c as [opts out err ex|p|p|p]; simpl.
  - by apply spawn_ok.
  - unfold wait, find_handler. destruct (handlers_ m !! p) as [h|] eqn:Hp.
    + destruct (Hm p h Hp) as (c & Hc & _).
      eapply (defined_bind (λ _, True)).
      { unfold handler_wait. rewrite Hc. apply defined_not_UB, wait_defined, OSD. }
      intros w _. eapply defined_bind; [by apply remove_handler_defined|]. by intros m' [].
    + split; [done|]. simpl. apply not_elem_of_dom in Hp. set_solver.
  - eapply defined_bind; [|by intros m' Hm'; exact Hm'].
    unfold terminate, find_handler. destruct (handlers_ m !! p) as [h|] eqn:Hp.
    + destruct (Hm p h Hp) as (c & Hc & Hid).
      rewrite obind_assoc. eapply defined_bind; [apply handler_terminate_defined; by rewrite Hc|].
      intros [h' w] Hh'. simpl in *. apply remove_handler_defined.
      * apply map_Forall_insert_2; [exists c; by rewrite Hh'|done].
      * simpl. rewrite dom_insert_L. apply elem_of_dom_2 in Hp. set_solver.
    + simpl. by apply remove_handler_defined.
  - eapply defined_bind; [by apply remove_handler_defined|]. by intros m' Hm'.
Qed.

Lemma calls_ok cs m :
  managed m →
  defined (λ r, length r.1 = length cs ∧ after (pids (dom (handlers_ m)) (zip cs r.1)) r.2) (calls cs m).
Proof.
  revert m. induction cs as [|c cs IH]; intros m Hm; [done|]. simpl.
  eapply defined_bind; [by apply call_ok|]. intros [r m1] [Hm1 Hd1]. simpl in *.
  eapply defined_bind; [by apply IH|]. intros [rs m2] [Hl Ha]. simpl in *.
  rewrite Hd1 in Ha. split; [lia|exact Ha].
Qed.
End Spec.

(** ** What the scheduler relies on

    When making pipes, signalling and waiting for a child do not throw, the manager
    keeps the promise [Process_Manager_Laws]; [new bp::child] may throw, which it
    catches. *)

Class OS_Total {Exit_Callback W : Type} (os : OS Exit_Callback W) : Prop := {
  total_pipes w : ∃ w', os_pipes w = Ret w';
  total_spawn o x w : os_spawn o x w ≠ UB;
  total_running c w : ∃ r, os_running c w = Ret r;
  total_terminate c w : ∃ w', os_terminate c w = Ret w';
  total_wait c w : ∃ w', os_wait c w = Ret w'
}.

Section Total.
Context {Line_Callback W : Type} {os : OS str W} {OT : OS_Total os}.
Implicit Types (h : Process_Handler Line_Callback str W) (m : Process_Manager Line_Callback str W).

Lemma handler_terminate_returns h w :
  is_Some (proc_ h) → ∃ h' w', handler_terminate h w = Ret (h', w') ∧ proc_ h' = proc_ h.
Proof.
  intros [c Hc]. unfold handler_terminate. simpl. rewrite Hc. simpl.
  destruct (total_running c w) as [[[] w1] ->]; simpl.
  - destruct (total_terminate c w1) as [w2 ->]. simpl. destruct (total_wait c w2) as [w3 ->]. by eexists _, _.
  - destruct (total_wait c w1) as [w2 ->]. by eexists _, _.
Qed.

Lemma destroy_returns h w : ∃ w', destroy h w = Ret w'.
Proof.
  unfold destroy. destruct (proc_ h) as [c|] eqn:Hc; [|by eexists].
  destruct (total_running c w) as [[[] w1] ->]; simpl; [|by eexists].
  destruct (handler_terminate_returns h w1) as (h' & w2 & -> & _); [by rewrite Hc|]. by eexists.
Qed.

Lemma remove_handler_returns p m : managed m → ∃ m', remove_handler p m = Ret m' ∧ managed m'.
Proof.
  intros Hm. unfold remove_handler. destruct (handlers_ m !! p) as [h|]; [|by exists m].
  destruct (destroy_returns h (world_ m)) as [w ->]. eexists. split; [done|]. by apply map_Forall_delete.
Qed.

Lemma manager_spawn_returns opts i m :
  managed m → ∃ p m', spawn opts None None (Some i) m = Ret (p, m') ∧ managed m'.
Proof.
  intros Hm. unfold spawn, handler_spawn. simpl. destruct (total_pipes (world_ m)) as [w0 ->]. simpl.
  pose proof (total_spawn opts (Some i) w0). destruct (os_spawn opts (Some i) w0) as [[c w]| |]; [|by eexists _, _|done]. simpl.
  set (h := mkHandler (Some c) _ _ _ _). destruct (destroy_returns h w) as [w1 Hw1].
  case_match; [rewrite Hw1; by eexists _, _|]. destruct (handlers_ m !! child_id c) as [h'|].
  - destruct emplace_builds; [rewrite Hw1|]; by eexists _, _.
  - eexists _, _. split; [done|]. apply map_Forall_insert_2; [by exists c|done].
Qed.

Lemma manager_terminate_returns p m : managed m → ∃ m', terminate p m = Ret m' ∧ managed m'.
Proof.
  intros Hm. unfold terminate, find_handler. destruct (handlers_ m !! p) as [h|] eqn:Hp.
  - destruct (Hm p h Hp) as (c & Hc & Hid).
    destruct (handler_terminate_returns h (world_ m)) as (h' & w & -> & Hh'); [by rewrite Hc|]. simpl.
    apply remove_handler_returns. apply map_Forall_insert_2; [exists c; by rewrite Hh'|done].
  - simpl. by apply remove_handler_returns.
Qed.

(** The process manager is the one the scheduler's theorems ask for. *)
#[export] Instance process_manager_laws : Process_Manager_Laws (Process_Manager Line_Callback str W) := {
  pm_laws_ok := managed;
  spawn_returns := manager_spawn_returns;
  terminate_returns := manager_terminate_returns
}.
End Total.

(** ** Streams: lines *)

Lemma split_lines_none s : str_find newline s = None → split_lines s = ([], s).
Proof.
  unfold str_find. intros H. apply fmap_None, list_find_None in H.
  induction s as [|c s IH]; [done|]. apply Forall_cons in H as [Hc Hs]. simpl. rewrite IH by done.
  by rewrite decide_False.
Qed.

Lemma split_lines_some s i :
  str_find newline s = Some i →
  (i < length s)%nat ∧
  split_lines s = (take i s :: (split_lines (drop (S i) s)).1, (split_lines (drop (S i) s)).2).
Proof.
  unfold str_find. intros H. apply fmap_Some in H as ([j c] & H & ->). simpl.
  apply list_find_Some in H as (Hj & <- & Hbefore). revert j Hj Hbefore.
  induction s as [|c s IH]; intros j Hj Hb; [done|]. destruct j as [|j]; simplify_eq/=.
  - split; [lia|]. rewrite drop_0. by destruct (split_lines s).
  - destruct (IH j Hj) as [Hlt ->]; [intros k y Hk Hkj; apply (Hb (S k) y Hk); lia|].
    split; [lia|]. rewrite decide_False; [done|]. intros ->. exact (Hb 0%nat newline eq_refl (Nat.lt_0_succ j) eq_refl).
Qed.

(** The rest of a text is where the lines of what follows start. *)
Lemma split_lines_app a b :
  split_lines (a ++ b) =
  ((split_lines a).1 ++ (split_lines ((split_lines a).2 ++ b)).1, (split_lines ((split_lines a).2 ++ b)).2).
Proof.
  induction a as [|c a IH]; [simpl; by destruct (split_lines b)|]. simpl. rewrite IH.
  destruct (split_lines a) as [ls rest]. simpl. case_decide as Hc; [done|].
  destruct ls as [|l ls]; [|done]. simpl.
  destruct (split_lines (rest ++ b)) as [[|l ls] r]; simpl; by rewrite decide_False.
Qed.

Lemma split_lines_rest s : (length (split_lines s).2 ≤ length s)%nat.
Proof.
  induction s as [|c s IH]; [done|]. simpl. destruct (split_lines s) as [[|l ls] rest]; simpl in *;
    case_decide; simpl; lia.
Qed.

Section Lines.
Context {Line_Callback : Type}.
Implicit Types (st : Stream Line_Callback) (cb : Line_Callback).

Lemma read_line cb st i :
  armed cb st → str_find newline (buf_ st) = Some i → Z.of_nat (length (buf_ st)) < 2 ^ 64 →
  ∃ call st', read_done (Z.of_nat (S i)) st = Ret (call, st') ∧ seen call = (cb, take i (buf_ st)) ∧
    armed cb st' ∧ buf_ st' = drop (S i) (buf_ st).
Proof.
  intros (Hp & Hcb & Hr) Hf Hlen. destruct (split_lines_some _ _ Hf) as [Hi _].
  unfold read_done. rewrite Hr. destruct (buf_ st) as [|c s] eqn:Hb; [simpl in Hi; lia|]. rewrite <-Hb in *.
  eexists _, _. split; [done|]. unfold handle_stream. simpl. rewrite Hp, Hcb. simpl.
  replace (Z.of_nat (S i) - 1) with (Z.of_nat i) by lia. rewrite wrap_small by lia.
  by rewrite !Nat2Z.id.
Qed.

Lemma pump_lines n cb st :
  armed cb st → Z.of_nat (length (buf_ st)) < 2 ^ 64 → (length (buf_ st) < n)%nat →
  ∃ cs st', pump n st = Ret (cs, st') ∧ armed cb st' ∧
    seen <$> cs = (λ l, (cb, l)) <$> (split_lines (buf_ st)).1 ∧ buf_ st' = (split_lines (buf_ st)).2 ∧
    str_find newline (buf_ st') = None.
Proof.
  revert st. induction n as [|n IH]; intros st Ha Hlen Hn; [lia|]. simpl.
  destruct Ha as (Hp & Hcb & Hr). rewrite Hr. destruct (str_find newline (buf_ st)) as [i|] eqn:Hf.
  - destruct (split_lines_some _ _ Hf) as [Hi ->].
    destruct (read_line cb st i) as (c & st1 & -> & Hc & Ha1 & Hb1); [by repeat split|done|done|]. simpl.
    destruct (IH st1) as (cs & st2 & -> & Ha2 & Hcs & Hb2 & Hn2); [done|rewrite Hb1, length_drop; lia..|].
    simpl. eexists _, _. split; [done|]. csimpl. rewrite Hc, Hcs, Hb2, Hb1. rewrite Hb2, Hb1 in Hn2. done.
  - exists [], st. rewrite (split_lines_none _ Hf). by repeat split.
Qed.

Lemma feed_lines cb chunks st :
  armed cb st → Z.of_nat (length (buf_ st ++ mjoin chunks)) < 2 ^ 64 → str_find newline (buf_ st) = None →
  ∃ cs st', feed chunks st = Ret (cs, st') ∧ armed cb st' ∧
    seen <$> cs = (λ l, (cb, l)) <$> (split_lines (buf_ st ++ mjoin chunks)).1 ∧
    buf_ st' = (split_lines (buf_ st ++ mjoin chunks)).2.
Proof.
  revert st. induction chunks as [|d chunks IH]; intros st Ha Hlen Hnone.
  { csimpl. exists [], st. rewrite app_nil_r, (split_lines_none _ Hnone). done. }
  change (mjoin (d :: chunks)) with (d ++ mjoin chunks) in *. rewrite !length_app in Hlen. cbn [feed].
  destruct (pump_lines (S (length (buf_ (arrive d st)))) cb (arrive d st))
    as (cs & st1 & -> & Ha1 & Hcs & Hb1 & Hn1); [done|simpl; rewrite length_app; lia|lia|].
  simpl in *. assert (length (buf_ st1) ≤ length (buf_ st ++ d))%nat as Hle.
  { rewrite Hb1. apply split_lines_rest. }
  rewrite length_app in Hle.
  destruct (IH st1) as (cs' & st2 & -> & Ha2 & Hcs' & Hb2); [done|rewrite length_app; lia|done|].
  eexists _, _. split; [done|]. split; [done|]. simpl.
  rewrite fmap_app, Hcs, Hcs', Hb2, Hb1, app_assoc, (split_lines_app (buf_ st ++ d)). simpl.
  by rewrite fmap_app.
Qed.
End Lines.

(** ** A system to run with

    Children are numbered; an entry says whether the child still runs. *)

Record toy := mkToy { toy_children : list bool; toy_killed : list nat }.

#[export] Instance toy_os : OS str toy := {
  child := nat;
  child_id c := 100 + Z.of_nat c;
  os_pipes := Ret;
  os_spawn _ _ w := Ret (length (toy_children w), mkToy (toy_children w ++ [true]) (toy_killed w));
  os_running c w := Ret (default false (toy_children w !! c), w);
  os_terminate c w := Ret (mkToy (<[c := false]> (toy_children w)) (toy_killed w ++ [c]));
  os_wait c w := Ret (mkToy (<[c := false]> (toy_children w)) (toy_killed w));
  os_exit_code c w := 0;
  os_kill p g w := (0, w);
  os_waitpid p o w := (None, w);
  os_write s w := w;
  emplace_builds := false
}.

#[export] Instance toy_total : OS_Total toy_os.
Proof. split; by eauto. Qed.

Definition toy_manager : Process_Manager string str toy := mkManager ∅ (mkToy [] []).

Lemma toy_defined : os_defined (os := toy_os).
Proof. by constructor. Qed.

(** ** Properties *)

(** No call of the process manager is undefined.  Starting empty, after any
    calls of [spawn], [wait], [terminate] and [terminate_with_children], on any
    pids, in which the process library returned or threw, the handlers are those
    of the children that were spawned under their pid and not waited for or
    terminated since: a null [proc_] is never dereferenced. *)
Theorem manager_calls_defined {Line_Callback Exit_Callback W} {os : OS Exit_Callback W}
    (OSD : os_defined) (cs : list (@call Line_Callback Exit_Callback)) (w : W) :
  match calls cs (mkManager ∅ w) with
  | Ret (rs, m) =>
      length rs = length cs ∧ dom (handlers_ m) = pids ∅ (zip cs rs) ∧
      ∀ p h, find_handler p m = Some h → ∃ c, proc_ h = Some c ∧ child_id c = p
  | Throw _ => True
  | UB => False
  end.
Proof.
  pose proof (calls_ok OSD cs (mkManager ∅ w)) as H. unfold defined in H.
  destruct (calls cs _) as [[rs m]| |]; [|done|by apply H].
  destruct H as (Hl & Hm & Hd); [done|]. simpl in *. rewrite dom_empty_L in Hd. by split_and!.
Qed.

Lemma manager_calls_defined_witness :
  ∃ m, calls [Spawn default_options (Some "out"%string) None (Some (lit "a")); Wait 7; Terminate 100] toy_manager
         = Ret ([100; -1; 0], m) ∧
    dom (handlers_ m) = pids ∅ (zip [Spawn default_options (Some "out"%string) None (Some (lit "a")); Wait 7; Terminate 100]
      [100; -1; 0]).
Proof.
  pose proof (manager_calls_defined toy_defined
    [Spawn default_options (Some "out"%string) None (Some (lit "a")); Wait 7; Terminate 100] (mkToy [] [])) as H.
  destruct (calls _ _) as [[rs m]| |] eqn:E; [|done|done]. exists m.
  assert (rs = [100; -1; 0]) as ->.
  { assert (fst <$> Some (rs, m) = Some [100; -1; 0]) as Hf; [|by injection Hf].
    change (Some (rs, m)) with (match Ret (rs, m) with Ret x => Some x | _ => None end).
    rewrite <-E. vm_compute. reflexivity. }
  destruct H as (_ & Hd & _). exact (conj eq_refl Hd).
Defined.

(** C29: however a child's output arrives in pieces, the line callback is called
    exactly once for each line that is complete, in order, with a pointer and a
    length that give the line without its newline; what follows the last newline
    stays in the buffer, and the next read is outstanding. *)
Theorem output_lines_are_delivered {Line_Callback} (cb : Line_Callback) chunks st :
  armed cb st → buf_ st = [] → Z.of_nat (length (mjoin chunks)) < 2 ^ 64 →
  ∃ cs st', feed chunks st = Ret (cs, st') ∧ armed cb st' ∧
    seen <$> cs = (λ l, (cb, l)) <$> (split_lines (mjoin chunks)).1 ∧
    buf_ st' = (split_lines (mjoin chunks)).2.
Proof.
  intros Ha Hb Hlen. destruct (feed_lines cb chunks st Ha) as (cs & st' & H); rewrite ?Hb in *; [done|done|].
  by exists cs, st'.
Qed.

Definition lf (s : string) : str := lit s ++ [newline].

Lemma output_lines_are_delivered_witness :
  ∃ cs st', feed [lit "o"; lf "ne" ++ lf "" ++ lit "tw"; lf "o" ++ lit "rest"] (mkStream true [] (Some 7) [7]) = Ret (cs, st') ∧
    seen <$> cs = [(7, lit "one"); (7, []); (7, lit "two")] ∧ buf_ st' = lit "rest".
Proof.
  destruct (output_lines_are_delivered 7 [lit "o"; lf "ne" ++ lf "" ++ lit "tw"; lf "o" ++ lit "rest"]
              (mkStream true [] (Some 7) [7])) as (cs & st' & H1 & _ & H2 & H3).
  - repeat split.
  - reflexivity.
  - vm_compute. reflexivity.
  - exists cs, st'. exact (conj H1 (conj H2 H3)).
Defined.

(** Completions with length 0, as an error or the end of the output gives. *)
Fixpoint failing_reads {Line_Callback} (n : nat) (st : Stream Line_Callback) :
    outcome (list Z * Stream Line_Callback) :=
  match n with
  | O => Ret ([], st)
  | S n =>
      let! '(c, st) := read_done 0 st in
      let! '(ls, st) := failing_reads n st in
      Ret (c.2 :: ls, st)
  end.

(** The end of the output is not handled.  [handle_stream] ignores its error
    code: a read that fails with nothing read takes the address of the first
    byte of an empty buffer, which is undefined; with a partial line in the
    buffer it calls the callback with the length [0 - 1 = 2^64 - 1], consumes
    nothing and starts the next read, which fails the same way, for ever. *)
Theorem end_of_output_mishandled {Line_Callback} (cb : Line_Callback) st n :
  armed cb st →
  (buf_ st = [] → read_done 0 st = UB) ∧
  (buf_ st ≠ [] → failing_reads n st = Ret (replicate n (2 ^ 64 - 1), st)).
Proof.
  intros (Hp & Hc & Hr). split; [intros Hb; unfold read_done; by rewrite Hr, Hb|]. intros Hb.
  induction n as [|n IH]; [done|]. simpl. unfold read_done. rewrite Hr. simpl.
  destruct (buf_ st) as [|c s] eqn:E; [done|]. unfold handle_stream. simpl. rewrite Hp, Hc. simpl.
  assert (mkStream true (c :: s) (Some cb) [cb] = st) as -> by (destruct st; naive_solver).
  by rewrite IH.
Qed.

Lemma end_of_output_mishandled_witness :
  failing_reads 3 (mkStream true (lit "partial") (Some 7) [7])
    = Ret ([2 ^ 64 - 1; 2 ^ 64 - 1; 2 ^ 64 - 1], mkStream true (lit "partial") (Some 7) [7]).
Proof.
  apply (end_of_output_mishandled 7 (mkStream true (lit "partial") (Some 7) [7]) 3); [repeat split|discriminate].
Defined.

(** A pid that is used again keeps its old handler.  The scheduler never
    removes the handler of a job that exits; when the system gives a new child
    the pid of a handler that is still there, [spawn] returns the pid, but the
    map keeps the handler of the dead child, and [terminate] of the pid is about
    that one. *)
Theorem reused_pid_keeps_old_handler {Line_Callback Exit_Callback W} {os : OS Exit_Callback W}
    (m m' : Process_Manager Line_Callback Exit_Callback W) opts out err ex p h :
  spawn opts out err ex m = Ret (p, m') → handlers_ m !! p = Some h → handlers_ m' = handlers_ m.
Proof.
  unfold spawn. intros H Hp. apply obind_Ret_inv in H as ([[p' h'] w] & _ & H). case_match.
  - apply obind_Ret_inv in H as (w' & _ & [= <- <-]). done.
  - destruct (handlers_ m !! p') as [h2|] eqn:E.
    + apply obind_Ret_inv in H as (w' & _ & [= <- <-]). done.
    + injection H as -> <-. congruence.
Qed.

(** A handler of a child that is gone, and the next child is given its pid. *)
Definition stale_handler : Process_Handler string str toy :=
  mkHandler (Some 0%nat : option (child (OS := toy_os))) false new_stream new_stream None.

Lemma reused_pid_keeps_old_handler_witness :
  ∃ m', spawn default_options None None (Some (lit "b")) (mkManager {[100 := stale_handler]} (mkToy [] [])) = Ret (100, m') ∧
    handlers_ m' = {[100 := stale_handler]}.
Proof.
  exists (mkManager {[100 := stale_handler]} (mkToy [true] [])). split; [reflexivity|].
  assert (∀ m' : Process_Manager string str toy,
    spawn default_options None None (Some (lit "b")) (mkManager {[100 := stale_handler]} (mkToy [] [])) = Ret (100, m') →
    handlers_ m' = {[100 := stale_handler]}) as H.
  { intros m' Hm. exact (reused_pid_keeps_old_handler _ _ _ _ _ _ _ stale_handler Hm eq_refl). }
  apply H. reflexivity.
Defined.

(** The scheduler on the process manager: two jobs, a timeout, an exit. *)
Example scheduler_on_manager :
  ∃ s, (let! s := Scheduler_new (W := Process_Manager string str toy) true
                    (Some [mkPending (mkSpec (lit "a") default_options) FAST;
                           mkPending (mkSpec (lit "b") default_options) SLOW])
                    (Some (∅ : Finished_Storage.sink)) 4 toy_manager in
        steps [Run; Tick 1; Tick 2; Timer (lit "a") expired; Exit (lit "b") 0 3] s) = Ret s ∧
    map_to_list (running_ s) = [] ∧ pj_spec <$> pq_ s = [mkSpec (lit "a") default_options] ∧
    (map_to_list (handlers_ (pm_ s))).*1 = [101] ∧ toy_killed (world_ (pm_ s)) = [0%nat].
Proof. eexists. split; [vm_compute; reflexivity|]. vm_compute. repeat split. Qed.

(** Using a handler that was never spawned: [pid], [exit_code], [suspend],
    [resume] and [wait] check, [suspended] and [terminate] dereference null. *)
Example unspawned_handler (w : toy) :
  let h : Process_Handler string str toy := new_handler in
  pid h = -1 ∧ exit_code h w = -1 ∧ suspend h w = Ret (false, w) ∧ resume h w = Ret (false, w) ∧
  handler_wait h w = Ret w ∧ suspended h w = UB ∧ handler_terminate h w = UB.
Proof. repeat split. Qed.
