(* ===== verification/ManagerThreads.v ===== *)
(** [process/process_manager.cpp] used by several threads.

    The calls of [ProcessManager] here take the steps that the mutex leaves: a
    critical section, or what a call does outside of one, is a step, and the steps
    of the threads interleave in any order.  Handlers are objects with an identity,
    which [wait] holds a pointer to between its two critical sections. *)

From S2P Require Import Prelude Aps Scheduler ProcessManager.

#[local] Open Scope Z_scope.

Section Threads.
Context {Line_Callback Exit_Callback W : Type} {os : OS Exit_Callback W}.

Abbreviation Handler := (Process_Handler Line_Callback Exit_Callback W).
Abbreviation Manager := (Process_Manager Line_Callback Exit_Callback W).
Abbreviation Call := (@call Line_Callback Exit_Callback).

(** An object, by the order of their creation. *)
Abbreviation loc := nat.

(** The objects that were not destroyed, the map of the manager, the system. *)
Record Shared := mkShared {
  heap_ : gmap loc Handler;
  table_ : gmap Z loc;
  next_ : loc;
  sys_ : W
}.

(** Where a thread is: outside of the manager, in the call [c] of [spawn] before its
    critical section, in [wait] with its pointer before [h->wait()], before
    [h->exit_code()], before its second critical section; or a call returned. *)
Inductive pc :=
| Idle
| Spawned (c : Call) (p : Z) (l : loc)
| Found (p : Z) (l : loc)
| Waited (p : Z) (l : loc)
| Coded (p : Z) (ec : Z)
| Returned (r : Z).

(** ** The steps *)

(** [handlers_.erase(pid)], inside of a critical section. *)
Definition erase (p : Z) (s : Shared) : outcome Shared :=
  match table_ s !! p with
  | None => Ret s
  | Some l =>
      let! h := deref (heap_ s !! l) in
      let! w := destroy h (sys_ s) in
      Ret (mkShared (delete l (heap_ s)) (delete p (table_ s)) (next_ s) w)
  end.

Definition begin (c : Call) (s : Shared) : outcome (pc * Shared) :=
  match c with
  | Spawn opts out err ex =>
      let h := new_handler in
      let h := match out with Some _ => stdout_callback out h | None => h end in
      let h := match err with Some _ => stderr_callback err h | None => h end in
      let h := match ex with Some _ => exit_callback ex h | None => h end in
      let! '(p, h, w) := handler_spawn opts h (sys_ s) in
      if p =? -1 then
        let! w := destroy h w in
        Ret (Returned p, mkShared (heap_ s) (table_ s) (next_ s) w)
      else Ret (Spawned c p (next_ s), mkShared (<[next_ s := h]> (heap_ s)) (table_ s) (S (next_ s)) w)
  | Wait p =>
      match table_ s !! p with
      | None => Ret (Returned (-1), s)
      | Some l => Ret (Found p l, s)
      end
  | Terminate p =>
      let! s :=
        match table_ s !! p with
        | Some l =>
            let! h := deref (heap_ s !! l) in
            let! '(h, w) := handler_terminate h (sys_ s) in
            Ret (mkShared (<[l := h]> (heap_ s)) (table_ s) (next_ s) w)
        | None => Ret s
        end in
      let! s := erase p s in
      Ret (Returned 0, s)
  | Terminate_With_Children p =>
      let! s := erase p s in
      Ret (Returned 0, s)
  end.

(** The next step of a call that is under way.  A handler that [emplace] refuses is
    destroyed when [emplace] built its element, and leaks when it did not. *)
Definition continue (k : pc) (s : Shared) : outcome (pc * Shared) :=
  match k with
  | Spawned _ p l =>
      match table_ s !! p with
      | None => Ret (Returned p, mkShared (heap_ s) (<[p := l]> (table_ s)) (next_ s) (sys_ s))
      | Some _ =>
          if emplace_builds then
            let! h := deref (heap_ s !! l) in
            let! w := destroy h (sys_ s) in
            Ret (Returned p, mkShared (delete l (heap_ s)) (table_ s) (next_ s) w)
          else Ret (Returned p, s)
      end
  | Found p l =>
      let! h := deref (heap_ s !! l) in
      let! w := handler_wait h (sys_ s) in
      Ret (Waited p l, mkShared (heap_ s) (table_ s) (next_ s) w)
  | Waited p l =>
      let! h := deref (heap_ s !! l) in
      Ret (Coded p (exit_code h (sys_ s)), s)
  | Coded p ec =>
      let! s := erase p s in
      Ret (Returned ec, s)
  | Idle | Returned _ => Ret (k, s)
  end.

(** ** Threads *)

Definition resting (k : pc) : bool := match k with Idle | Returned _ => true | _ => false end.

(** The thread [i] starts a call, or goes on with the one it is in. *)
Inductive action := Start (i : nat) (c : Call) | Go (i : nat).

Definition Threads : Type := list pc * Shared.

Definition act (a : action) (st : Threads) : option (outcome Threads) :=
  let '(ks, s) := st in
  match a with
  | Start i c =>
      k ← ks !! i;
      if resting k then Some (let! '(k, s) := begin c s in Ret (<[i := k]> ks, s)) else None
  | Go i =>
      k ← ks !! i;
      if resting k then None else Some (let! '(k, s) := continue k s in Ret (<[i := k]> ks, s))
  end.

(** The calls whose effect on the map an action is, with what they return. *)
Definition takes_effect (a : action) (ks : list pc) (o : outcome Threads) : list (Call * Z) :=
  match a with
  | Start i c =>
      match o with
      | Ret (ks', _) => match ks' !! i with Some (Returned r) => [(c, r)] | _ => [] end
      | _ => []
      end
  | Go i =>
      match ks !! i with
      | Some (Spawned c p _) => [(c, p)]
      | Some (Coded p ec) => [(Wait p, ec)]
      | _ => []
      end
  end.

(** A run by actions that the threads' discipline [ok] allows, and the calls of it
    in the order of their effects. *)
Inductive interleaves (ok : action → Threads → Prop) (st0 : Threads) : list action → list (Call * Z) → outcome Threads → Prop :=
| interleaves_start : interleaves ok st0 [] [] (Ret st0)
| interleaves_step es hist st a o :
    interleaves ok st0 es hist (Ret st) → ok a st → act a st = Some o →
    interleaves ok st0 (es ++ [a]) (hist ++ takes_effect a st.1 o) o.

(** [n] threads, no handlers. *)
Definition threads0 (n : nat) (w : W) : Threads := (replicate n Idle, mkShared ∅ ∅ 0 w).

(** ** Reference definitions *)

Definition thread (a : action) : nat := match a with Start i _ | Go i => i end.

(** The pid whose handler an action removes. *)
Definition removes (a : action) (ks : list pc) : option Z :=
  match a with
  | Start _ (Terminate p) | Start _ (Terminate_With_Children p) => Some p
  | Go i => match ks !! i with Some (Coded p _) => Some p | _ => None end
  | _ => None
  end.

(** A thread that holds the pointer to the handler of [p]. *)
Definition uses (p : Z) (k : pc) : Prop :=
  match k with Found q _ | Waited q _ => q = p | _ => False end.

(** The discipline: a handler is not removed while another thread is in [wait] on
    its pid. *)
Definition exclusive (a : action) (st : Threads) : Prop :=
  ∀ p j k, removes a st.1 = Some p → j ≠ thread a → st.1 !! j = Some k → ¬ uses p k.

Definition any (a : action) (st : Threads) : Prop := True.

Definition owns (h : Handler) (p : Z) : Prop := ∃ c, proc_ h = Some c ∧ child_id c = p.

Record shared_ok (s : Shared) : Prop := mkSharedOk {
  so_table p l : table_ s !! p = Some l → ∃ h, heap_ s !! l = Some h ∧ owns h p;
  so_next l h : heap_ s !! l = Some h → (l < next_ s)%nat
}.

Definition pc_ok (s : Shared) (k : pc) : Prop :=
  match k with
  | Spawned _ p l => (∃ h, heap_ s !! l = Some h ∧ owns h p) ∧ ∀ q, table_ s !! q ≠ Some l
  | Found p l | Waited p l => table_ s !! p = Some l
  | _ => True
  end.

Definition holds_new (l : loc) (k : pc) : Prop := match k with Spawned _ _ l' => l' = l | _ => False end.

Record threads_ok (st : Threads) : Prop := mkThreadsOk {
  to_shared : shared_ok st.2;
  to_pcs i k : st.1 !! i = Some k → pc_ok st.2 k;
  to_new i j k k' l : st.1 !! i = Some k → st.1 !! j = Some k' → holds_new l k → holds_new l k' → i = j
}.

(** The manager of [ProcessManager] that the objects and the map are. *)
Definition abs (s : Shared) : Manager := mkManager (omap (λ l, heap_ s !! l) (table_ s)) (sys_ s).

(** A call by one thread that is not interrupted. *)
Definition run_call (c : Call) (s : Shared) : outcome (Z * Shared) :=
  let! '(k, s) := begin c s in
  let! '(k, s) := continue k s in
  let! '(k, s) := continue k s in
  let! '(k, s) := continue k s in
  match k with Returned r => Ret (r, s) | _ => UB end.

(** ** Lemmas *)

Lemma table_inj s p q l : shared_ok s → table_ s !! p = Some l → table_ s !! q = Some l → p = q.
Proof.
  intros Hs Hp Hq. destruct (so_table s Hs _ _ Hp) as (h & Hh & c & Hc & <-).
  destruct (so_table s Hs _ _ Hq) as (h' & Hh' & c' & Hc' & <-). congruence.
Qed.

(** ** The history *)

Lemma erase_dom p s s' : erase p s = Ret s' → dom (table_ s') = dom (table_ s) ∖ {[p]}.
Proof.
  unfold erase. destruct (table_ s !! p) as [l|] eqn:Hp.
  - intros H. apply obind_Ret_inv in H as (h & _ & H). apply obind_Ret_inv in H as (w & _ & [= <-]).
    simpl. by rewrite dom_delete_L.
  - intros [= <-]. apply not_elem_of_dom in Hp. set_solver.
Qed.

Definition spawning (k : pc) : Prop :=
  match k with Spawned c p _ => p ≠ -1 ∧ ∃ o a b e, c = Spawn o a b e | _ => True end.

Lemma begin_dom c s k s' : begin c s = Ret (k, s') →
  spawning k ∧
  dom (table_ s') = match k with Returned r => pids_after (dom (table_ s)) c r | _ => dom (table_ s) end.
Proof.
  destruct c as [opts out err ex|p|p|p]; simpl.
  - intros H. apply obind_Ret_inv in H as ([[p h] w] & _ & H). destruct (Z.eqb_spec p (-1)) as [->|Hp].
    + by apply obind_Ret_inv in H as (w' & _ & [= <- <-]).
    + injection H as <- <-. split; [|done]. split; [done|]. by eexists _, _, _, _.
  - destruct (table_ s !! p) as [l|] eqn:Hp; intros [= <- <-]; (split; [done|]); [done|].
    apply not_elem_of_dom in Hp. set_solver.
  - intros H. apply obind_Ret_inv in H as (s1 & H1 & H). apply obind_Ret_inv in H as (s2 & H2 & [= <- <-]).
    split; [done|]. rewrite (erase_dom _ _ _ H2). f_equal. destruct (table_ s !! p) as [l|]; [|by injection H1 as ->].
    apply obind_Ret_inv in H1 as (h & _ & H1). by apply obind_Ret_inv in H1 as ([h' w] & _ & [= <-]).
  - intros H. apply obind_Ret_inv in H as (s2 & H2 & [= <- <-]). split; [done|]. apply (erase_dom _ _ _ H2).
Qed.

Lemma continue_dom k s k' s' : spawning k → resting k = false → continue k s = Ret (k', s') →
  spawning k' ∧
  dom (table_ s') = match k with
                    | Spawned c p _ => pids_after (dom (table_ s)) c p
                    | Coded p ec => pids_after (dom (table_ s)) (Wait p : Call) ec
                    | _ => dom (table_ s)
                    end.
Proof.
  intros Hsp Hr. destruct k as [|c p l|p l|p l|p ec|r]; simpl; try done.
  - destruct Hsp as (Hp & o & a & b & e & ->). simpl. rewrite (proj2 (Z.eqb_neq _ _)) by done.
    destruct (table_ s !! p) as [l'|] eqn:Ht.
    + apply elem_of_dom_2 in Ht. destruct emplace_builds.
      * intros H. apply obind_Ret_inv in H as (h & _ & H). apply obind_Ret_inv in H as (w & _ & [= <- <-]).
        split; [done|]. simpl. set_solver.
      * intros [= <- <-]. split; [done|]. set_solver.
    + intros [= <- <-]. split; [done|]. simpl. by rewrite dom_insert_L.
  - intros H. apply obind_Ret_inv in H as (h & _ & H). by apply obind_Ret_inv in H as (w & _ & [= <- <-]).
  - intros H. by apply obind_Ret_inv in H as (h & _ & [= <- <-]).
  - intros H. apply obind_Ret_inv in H as (s2 & H2 & [= <- <-]). split; [done|]. apply (erase_dom _ _ _ H2).
Qed.

Lemma pids_snoc ps (h : list (Call * Z)) c r : pids ps (h ++ [(c, r)]) = pids_after (pids ps h) c r.
Proof. unfold pids. by rewrite foldl_snoc. Qed.

Lemma spawning_insert (ks : list pc) i k :
  spawning k → (∀ j kj, ks !! j = Some kj → spawning kj) → ∀ j kj, <[i := k]> ks !! j = Some kj → spawning kj.
Proof. intros Hk Hks j kj [(-> & <- & _)|[_ Hj]]%list_lookup_insert_Some; [done|by eapply Hks]. Qed.

Lemma interleaves_dom ok n w es hist o : interleaves ok (threads0 n w) es hist o →
  match o with
  | Ret (ks, s) => dom (table_ s) = pids ∅ hist ∧ ∀ i k, ks !! i = Some k → spawning k
  | _ => True
  end.
Proof.
  induction 1 as [|es hist [ks s] a o Hr [IH Hsp] Hok Hact].
  { split; [done|]. by intros i k [-> _]%lookup_replicate. }
  destruct a as [i c|i]; simpl in Hact; apply bind_Some in Hact as (k & Hk & Hact); destruct (resting k) eqn:Hrest; try done;
    apply lookup_lt_Some in Hk as Hlt; injection Hact as <-.
  - destruct (begin c s) as [[k' s']| |] eqn:Hb; [|done..]. simpl. rewrite list_lookup_insert_eq by done.
    destruct (begin_dom _ _ _ _ Hb) as [Hsp' Hd]. split; [|by apply spawning_insert].
    rewrite Hd. destruct k'; rewrite ?app_nil_r; try done. by rewrite pids_snoc, IH.
  - destruct (continue k s) as [[k' s']| |] eqn:Hb; [|done..]. simpl. rewrite Hk.
    destruct (continue_dom _ _ _ _ (Hsp _ _ Hk) Hrest Hb) as [Hsp' Hd]. split; [|by apply spawning_insert].
    rewrite Hd. destruct k; rewrite ?app_nil_r; try done; by rewrite pids_snoc, IH.
Qed.

(** ** Preservation *)

Context (OSD : os_defined (os := os)).

(** What [erase] changes. *)
Definition erased (p : Z) (s s' : Shared) : Prop :=
  table_ s' = delete p (table_ s) ∧ next_ s' = next_ s ∧
  heap_ s' = match table_ s !! p with Some l => delete l (heap_ s) | None => heap_ s end.

Lemma erase_eq p s : shared_ok s → defined (erased p s) (erase p s).
Proof.
  intros Hs. unfold erase, erased. destruct (table_ s !! p) as [l|] eqn:Hp.
  - destruct (so_table s Hs _ _ Hp) as (h & -> & _). simpl.
    eapply defined_bind; [by apply destroy_defined|]. by intros w _.
  - simpl. by rewrite delete_id.
Qed.

Lemma erased_ok p s s' : shared_ok s → erased p s s' → shared_ok s'.
Proof.
  intros Hs (Ht & Hn & Hh). split.
  - intros q l. rewrite Ht. intros [Hqp Hq]%lookup_delete_Some.
    destruct (so_table s Hs _ _ Hq) as (h & Hl & Ho). exists h. split; [|done]. rewrite Hh.
    destruct (table_ s !! p) as [l'|] eqn:Hp; [|done]. rewrite lookup_delete_ne; [done|].
    intros ->. by apply Hqp, (table_inj s p q l).
  - intros l h. rewrite Hn, Hh. intros Hl. apply (so_next s Hs l h).
    destruct (table_ s !! p); [|done]. by apply lookup_delete_Some in Hl as [_ ?].
Qed.

Lemma erased_pc p s s' k : shared_ok s → erased p s s' → ¬ uses p k → pc_ok s k → pc_ok s' k.
Proof.
  intros Hs (Ht & Hn & Hh) Hu. destruct k as [|c q l|q l|q l|q ec|r]; simpl in *; try done.
  - intros [(h & Hl & Ho) Hnot]. split.
    + exists h. split; [|done]. rewrite Hh. destruct (table_ s !! p) as [l'|] eqn:Hp; [|done].
      rewrite lookup_delete_ne; [done|]. intros ->. by destruct (Hnot p).
    + intros q'. rewrite Ht. intros [_ Hq]%lookup_delete_Some. by destruct (Hnot q').
  - intros Hq. rewrite Ht, lookup_delete_ne by congruence. done.
  - intros Hq. rewrite Ht, lookup_delete_ne by congruence. done.
Qed.

(** A handler that is changed but keeps its child. *)
Lemma touch_ok s l h h' w :
  shared_ok s → heap_ s !! l = Some h → proc_ h' = proc_ h →
  let s' := mkShared (<[l := h']> (heap_ s)) (table_ s) (next_ s) w in
  shared_ok s' ∧ ∀ k, pc_ok s k → pc_ok s' k.
Proof.
  intros Hs Hl Hp s'. assert (∀ l2 h2 q, heap_ s !! l2 = Some h2 → owns h2 q → ∃ h3, heap_ s' !! l2 = Some h3 ∧ owns h3 q) as Hk.
  { intros l2 h2 q Hl2 Ho. simpl. destruct (decide (l = l2)) as [<-|Hne].
    - rewrite lookup_insert_eq. exists h'. split; [done|]. unfold owns. rewrite Hp. naive_solver.
    - rewrite lookup_insert_ne by done. eauto. }
  split; [split; simpl|].
  - intros q l2 Hq. destruct (so_table s Hs _ _ Hq) as (h2 & Hl2 & Ho). by eapply Hk.
  - intros l2 h2. destruct (decide (l = l2)) as [<-|Hne]; [intros _; by eapply so_next|].
    rewrite lookup_insert_ne by done. by apply so_next.
  - intros [|c p l2|p l2|p l2|p ec|r]; try done. intros [(h2 & Hl2 & Ho) Hn]. split; [by eapply Hk|done].
Qed.

Lemma world_ok s w : shared_ok s → shared_ok (mkShared (heap_ s) (table_ s) (next_ s) w).
Proof. intros [H1 H2]. by split. Qed.

(** A new object. *)
Lemma alloc_ok s h w :
  shared_ok s →
  let s' := mkShared (<[next_ s := h]> (heap_ s)) (table_ s) (S (next_ s)) w in
  shared_ok s' ∧ (∀ q, table_ s' !! q ≠ Some (next_ s)) ∧ ∀ k, pc_ok s k → pc_ok s' k.
Proof.
  intros Hs s'. assert (∀ l2 h2, heap_ s !! l2 = Some h2 → heap_ s' !! l2 = Some h2) as Hk.
  { intros l2 h2 Hl2. simpl. rewrite lookup_insert_ne; [done|]. apply so_next in Hl2; [lia|done]. }
  split_and!; [split; simpl| |].
  - intros q l2 Hq. destruct (so_table s Hs _ _ Hq) as (h2 & Hl2 & Ho). eauto.
  - intros l2 h2. destruct (decide (next_ s = l2)) as [<-|Hne]; [lia|].
    rewrite lookup_insert_ne by done. intros Hl2%so_next; [lia|done].
  - simpl. intros q Hq. destruct (so_table s Hs _ _ Hq) as (h2 & Hl2%so_next & Ho); [lia|done].
  - intros [|c p l2|p l2|p l2|p ec|r]; try done. intros [(h2 & Hl2 & Ho) Hn]. split; [eauto|done].
Qed.

Definition call_removes (c : Call) : option Z :=
  match c with Terminate p | Terminate_With_Children p => Some p | _ => None end.

Definition pc_removes (k : pc) : option Z := match k with Coded p _ => Some p | _ => None end.

(** What a step leaves of another thread that it does not take the handler from. *)
Definition spares (rem : option Z) (s s' : Shared) : Prop :=
  ∀ k, (∀ p, rem = Some p → ¬ uses p k) → pc_ok s k → pc_ok s' k.

Lemma world_spares rem s w : spares rem s (mkShared (heap_ s) (table_ s) (next_ s) w).
Proof. by intros []. Qed.

Lemma begin_ok c s :
  shared_ok s →
  defined (λ r, shared_ok r.2 ∧ pc_ok r.2 r.1 ∧ spares (call_removes c) s r.2 ∧
                (∀ l, holds_new l r.1 → l = next_ s)) (begin c s).
Proof.
  intros Hs. destruct c as [opts out err ex|p|p|p]; simpl.
  - unfold handler_spawn. set (h := match ex with Some _ => _ | None => _ end).
    rewrite obind_assoc. eapply defined_bind; [apply defined_not_UB, pipes_defined, OSD|]. intros w0 _.
    pose proof (spawn_defined OSD opts (exit_cb_ h) w0). destruct (os_spawn opts (exit_cb_ h) w0) as [[c w]| |]; [|split_and!; [by apply world_ok|done|by apply world_spares|done]|done].
    simpl. destruct (Z.eqb_spec (child_id c) (-1)) as [E|E].
    + eapply defined_bind; [by apply destroy_defined|]. intros w1 _.
      split_and!; [by apply world_ok|done|by apply world_spares|done].
    + simpl. edestruct (alloc_ok s) as (H1 & H2 & H3); [done|]. refine (conj H1 (conj (conj _ H2) (conj _ _))).
      * eexists. rewrite lookup_insert_eq. split; [done|]. by exists c.
      * intros k _. apply H3.
      * by intros l <-.
  - destruct (table_ s !! p) as [l|] eqn:Hp; (split_and!; [done|done|by intros k _|done]).
  - eapply (defined_bind (λ s', shared_ok s' ∧ ∀ k, pc_ok s k → pc_ok s' k)).
    { destruct (table_ s !! p) as [l|] eqn:Hp; [|by split]. destruct (so_table s Hs _ _ Hp) as (h & Hh & c & Hc & _).
      rewrite Hh. simpl. eapply defined_bind; [apply handler_terminate_defined; [done|by eexists]|].
      intros [h' w] Hh'. by eapply touch_ok. }
    intros s1 [Hs1 Hk1]. eapply defined_bind; [by apply erase_eq|]. intros s2 He. simpl.
    split_and!; [by eapply erased_ok|done| |done]. intros k Hu Hk. eapply erased_pc; eauto.
  - eapply defined_bind; [by apply erase_eq|]. intros s2 He. simpl.
    split_and!; [by eapply erased_ok|done| |done]. intros k Hu Hk. eapply erased_pc; eauto.
Qed.

(** A step that changes nothing other threads see. *)
Local Ltac stay := split_and!; [done|done|by intros ? ? ?|by intros ? ? ?].

Lemma continue_ok k s :
  shared_ok s → pc_ok s k →
  defined (λ r, shared_ok r.2 ∧ pc_ok r.2 r.1 ∧ (∀ l, resting k = false → ¬ holds_new l r.1) ∧
    ∀ k2, (∀ l, holds_new l k → ¬ holds_new l k2) → (∀ p, pc_removes k = Some p → ¬ uses p k2) → pc_ok s k2 → pc_ok r.2 k2)
    (continue k s).
Proof.
  intros Hs Hk. destruct k as [|c p l|p l|p l|p ec|r]; simpl in *.
  - stay.
  - destruct Hk as [(h & Hl & Ho) Hn]. destruct (table_ s !! p) as [l'|] eqn:Hp.
    + destruct emplace_builds; [|stay]. rewrite Hl. simpl.
      eapply defined_bind; [by apply destroy_defined|]. intros w _. simpl. split_and!; [|done|by intros ? ? ?|].
      * split; simpl.
        -- intros q l2 Hq. destruct (so_table s Hs _ _ Hq) as (h2 & Hl2 & Ho2). exists h2.
           rewrite lookup_delete_ne; [done|]. intros ->. by destruct (Hn q).
        -- intros l2 h2 [_ Hl2]%lookup_delete_Some. by eapply so_next.
      * intros [|c2 p2 l2|p2 l2|p2 l2|p2 ec|r] Hnew _ H2; try done. simpl in *.
        destruct H2 as [(h2 & Hl2 & Ho2) Hn2]. split; [|done]. exists h2.
        rewrite lookup_delete_ne; [done|]. intros ->. by destruct (Hnew l2).
    + simpl. split_and!; [|done|by intros ? ? ?|].
      * split; simpl; [|apply Hs]. intros q l2 [[<- <-]|[Hqp Hq]]%lookup_insert_Some; [eauto|by apply Hs].
      * intros [|c2 p2 l2|p2 l2|p2 l2|p2 ec|r] Hnew _ H2; try done; simpl in *.
        -- destruct H2 as [H2 Hn2]. split; [done|]. intros q [[<- <-]|[Hqp Hq]]%lookup_insert_Some; [by destruct (Hnew l)|by destruct (Hn2 q)].
        -- rewrite lookup_insert_ne; [done|congruence].
        -- rewrite lookup_insert_ne; [done|congruence].
  - destruct (so_table s Hs _ _ Hk) as (h & Hh & c & Hc & _). rewrite Hh. simpl. unfold handler_wait. rewrite Hc.
    eapply defined_bind; [apply defined_not_UB, wait_defined, OSD|]. intros w _. simpl.
    split_and!; [by apply world_ok|done|by intros ? ? ?|]. intros k2 _ _ H2. by apply (world_spares None).
  - destruct (so_table s Hs _ _ Hk) as (h & Hh & _). rewrite Hh. simpl. stay.
  - eapply defined_bind; [by apply erase_eq|]. intros s2 He. simpl. split_and!; [by eapply erased_ok|done|by intros ? ? ?|].
    intros k2 _ Hu H2. eapply erased_pc; eauto.
  - stay.
Qed.

Lemma removes_start i c ks : removes (Start i c) ks = call_removes c.
Proof. by destruct c. Qed.

Lemma act_ok a st o : threads_ok st → exclusive a st → act a st = Some o → defined threads_ok o.
Proof.
  destruct st as [ks s]. intros [Hs Hpc Hnew] Hex Hact. simpl in *.
  assert (∃ i k m, thread a = i ∧ ks !! i = Some k ∧ o = (let! '(k, s) := m in Ret (<[i := k]> ks, s)) ∧
    defined (λ r, shared_ok r.2 ∧ pc_ok r.2 r.1 ∧
      (∀ l, holds_new l r.1 → ∀ j k2, j ≠ i → ks !! j = Some k2 → ¬ holds_new l k2) ∧
      ∀ j k2, j ≠ i → ks !! j = Some k2 → pc_ok r.2 k2) m) as (i & k & m & Hi & Hk & -> & Hm).
  { destruct a as [i c|i]; simpl in Hact; apply bind_Some in Hact as (k & Hk & Hact).
    - destruct (resting k); [|done]. injection Hact as <-. exists i, k, (begin c s). split_and!; [done..|].
      pose proof (begin_ok c s Hs) as Hb. destruct (begin c s) as [[k' s']| |]; [|done..].
      destruct Hb as (H1 & H2 & H3 & H4). split_and!; [done..| |].
      + intros l ->%H4 j k2 _ Hj Hl. specialize (Hpc j k2 Hj). destruct k2; simpl in *; try done. subst.
        destruct Hpc as [(h & Hh & _) _]. apply (so_next s Hs) in Hh. lia.
      + intros j k2 Hji Hj. apply H3; [|by eapply Hpc]. intros p Hp. rewrite <-(removes_start i c ks) in Hp.
        by apply (Hex p j k2 Hp Hji Hj).
    - destruct (resting k) eqn:Hr; [done|]. injection Hact as <-. exists i, k, (continue k s). split_and!; [done..|].
      pose proof (continue_ok k s Hs (Hpc i k Hk)) as Hb. destruct (continue k s) as [[k' s']| |]; [|done..].
      destruct Hb as (H1 & H2 & H3 & H4). split_and!; [done..| |].
      + intros l Hl. by destruct (H3 l Hr).
      + intros j k2 Hji Hj. apply H4; [| |by eapply Hpc].
        * intros l Hl Hl2. apply Hji. symmetry. by eapply (Hnew i j).
        * intros p Hp. apply (Hex p j k2); [|done|done]. simpl. rewrite Hk. by destruct k. }
  destruct m as [[k' s']| |]; [|done..]. simpl in *. destruct Hm as (H1 & H2 & H3 & H4).
  assert (∀ j kj, <[i := k']> ks !! j = Some kj → (j = i ∧ kj = k') ∨ (j ≠ i ∧ ks !! j = Some kj)) as Hins.
  { intros j kj. apply lookup_lt_Some in Hk. destruct (decide (i = j)) as [<-|Hij].
    - rewrite list_lookup_insert_eq by done. intros [= <-]. by left.
    - rewrite list_lookup_insert_ne by done. by right. }
  split; simpl; [done| |].
  - intros j kj [[-> ->]|[Hji Hj]]%Hins; [done|]. by eapply H4.
  - intros j1 j2 k1 k2 l [[-> ->]|[Hj1 Hk1]]%Hins [[-> ->]|[Hj2 Hk2]]%Hins Hl1 Hl2; [done| | |by eapply Hnew].
    + by destruct (H3 l Hl1 j2 k2 Hj2 Hk2).
    + by destruct (H3 l Hl2 j1 k1 Hj1 Hk1).
Qed.

Lemma threads0_ok n w : threads_ok (threads0 n w).
Proof.
  assert (∀ i k, replicate n Idle !! i = Some k → k = Idle) as Hr by (by intros i k [-> _]%lookup_replicate).
  split; simpl; [split; simpl; intros ? ? []%lookup_empty_Some|..].
  - by intros i k ->%Hr.
  - by intros i j k k' l ->%Hr ->%Hr.
Qed.

(** ** A call that is not interrupted *)

(** A shared state as the manager it is, in a result. *)
Definition abs_result {A} (o : outcome (A * Shared)) : outcome (A * Manager) :=
  let! '(a, s) := o in Ret (a, abs s).

Lemma abs_handler s p l : shared_ok s → table_ s !! p = Some l →
  ∃ h, heap_ s !! l = Some h ∧ handlers_ (abs s) !! p = Some h.
Proof.
  intros Hs Hp. destruct (so_table s Hs _ _ Hp) as (h & Hh & _). exists h. split; [done|].
  simpl. by rewrite lookup_omap, Hp.
Qed.

Lemma abs_none s p : table_ s !! p = None → handlers_ (abs s) !! p = None.
Proof. intros Hp. simpl. by rewrite lookup_omap, Hp. Qed.

Lemma erase_abs p s : shared_ok s →
  (let! s' := erase p s in Ret (abs s')) = remove_handler p (abs s).
Proof.
  intros Hs. unfold erase, remove_handler. destruct (table_ s !! p) as [l|] eqn:Hp.
  - destruct (abs_handler s p l Hs Hp) as (h & Hh & ->). rewrite Hh. simpl.
    destruct (destroy h (sys_ s)) as [w| |]; [|done..]. unfold abs. simpl. do 2 f_equal. apply map_eq. intros q.
    rewrite lookup_omap. destruct (decide (p = q)) as [<-|Hpq]; [by rewrite !lookup_delete_eq|].
    rewrite !lookup_delete_ne by done. rewrite lookup_omap. destruct (table_ s !! q) as [l2|] eqn:Hq; [|done]. simpl.
    rewrite lookup_delete_ne; [done|]. intros ->. by apply Hpq, (table_inj s p q l2).
  - by rewrite (abs_none s p Hp).
Qed.

Lemma run_call_remove c p s : shared_ok s → c = Terminate_With_Children p →
  abs_result (run_call c s) = do_call c (abs s).
Proof.
  intros Hs ->. unfold run_call. simpl. unfold terminate_with_children. rewrite <-erase_abs by done.
  by destruct (erase p s).
Qed.

Lemma run_call_terminate c p s : shared_ok s → c = Terminate p →
  abs_result (run_call c s) = do_call c (abs s).
Proof.
  intros Hs ->. unfold run_call. simpl. unfold terminate, find_handler.
  destruct (table_ s !! p) as [l|] eqn:Hp.
  - destruct (abs_handler s p l Hs Hp) as (h & Hh & Ha). rewrite Ha, Hh. simpl.
    destruct (handler_terminate h (sys_ s)) as [[h' w]| |] eqn:Ht; [|done..]. simpl.
    set (s1 := mkShared (<[l := h']> (heap_ s)) (table_ s) (next_ s) w).
    assert (proc_ h' = proc_ h) as Hpr.
    { destruct (so_table s Hs _ _ Hp) as (h2 & Hh2 & c & Hc & _).
      assert (is_Some (proc_ h)) as Hsome by (assert (h2 = h) as -> by congruence; by eexists).
      pose proof (handler_terminate_defined OSD h (sys_ s) Hsome) as Hd. by rewrite Ht in Hd. }
    destruct (touch_ok s l h h' w Hs Hh Hpr) as [Hs1 _]. fold s1 in Hs1.
    assert (mkManager (<[p := h']> (omap (λ l, heap_ s !! l) (table_ s))) w = abs s1) as ->.
    { unfold abs, s1. simpl. f_equal. apply map_eq. intros q. destruct (decide (p = q)) as [<-|Hpq].
      - by rewrite lookup_insert_eq, lookup_omap, Hp; simpl; rewrite lookup_insert_eq.
      - rewrite lookup_insert_ne, !lookup_omap by done. destruct (table_ s !! q) as [l2|] eqn:Hq; [|done]. simpl.
        rewrite lookup_insert_ne; [done|]. intros ->. by apply Hpq, (table_inj s p q l2). }
    rewrite <-erase_abs by done. by destruct (erase p s1).
  - rewrite (abs_none s p Hp). simpl. rewrite <-erase_abs by done. by destruct (erase p s).
Qed.

Lemma run_call_wait c p s : shared_ok s → c = Wait p →
  abs_result (run_call c s) = do_call c (abs s).
Proof.
  intros Hs ->. unfold run_call. simpl. unfold wait, find_handler. destruct (table_ s !! p) as [l|] eqn:Hp.
  - destruct (abs_handler s p l Hs Hp) as (h & Hh & ->). simpl. rewrite Hh. simpl.
    destruct (handler_wait h (sys_ s)) as [w| |]; [|done..]. simpl. rewrite Hh. simpl.
    set (s1 := mkShared (heap_ s) (table_ s) (next_ s) w). change (mkManager _ w) with (abs s1).
    rewrite <-erase_abs by (by apply world_ok). by destruct (erase p s1).
  - by rewrite (abs_none s p Hp).
Qed.

Lemma run_call_spawn c o a b e s : shared_ok s → c = Spawn o a b e →
  abs_result (run_call c s) = do_call c (abs s).
Proof.
  intros Hs ->. unfold run_call. simpl. unfold spawn. cbv zeta. set (h := match e with Some _ => _ | None => _ end).
  change (world_ (abs s)) with (sys_ s). destruct (handler_spawn o h (sys_ s)) as [[[p h'] w]| |]; [|done..]. simpl.
  destruct (p =? -1); [by destruct (destroy h' w)|]. simpl.
  set (s1 := mkShared (<[next_ s := h']> (heap_ s)) (table_ s) (S (next_ s)) w).
  assert (abs s1 = mkManager (handlers_ (abs s)) w) as Hs1.
  { unfold abs, s1. simpl. f_equal. apply map_eq. intros q. rewrite !lookup_omap.
    destruct (table_ s !! q) as [l|] eqn:Hq; [|done]. simpl. rewrite lookup_insert_ne; [done|].
    destruct (so_table s Hs _ _ Hq) as (h2 & Hh2%(so_next s Hs) & _). lia. }
  destruct (table_ s !! p) as [l|] eqn:Hp.
  - destruct (abs_handler s p l Hs Hp) as (h2 & Hh2 & Ha). simpl in Ha. rewrite Ha. rewrite lookup_insert_eq. simpl.
    destruct emplace_builds; [|by simpl; rewrite Hs1]. destruct (destroy h' w) as [w'| |]; [|done..]. simpl.
    do 2 f_equal. unfold abs. simpl. f_equal. apply map_eq. intros q. rewrite !lookup_omap.
    destruct (table_ s !! q) as [l2|] eqn:Hq; [|done]. simpl.
    destruct (so_table s Hs _ _ Hq) as (h3 & Hh3%(so_next s Hs) & _).
    rewrite lookup_delete_ne, lookup_insert_ne by lia. done.
  - pose proof (abs_none s p Hp) as Hn. simpl in Hn. rewrite Hn. simpl. do 2 f_equal. unfold abs. simpl. f_equal. apply map_eq. intros q.
    rewrite lookup_omap. destruct (decide (p = q)) as [<-|Hpq]; [by rewrite !lookup_insert_eq; simpl; rewrite lookup_insert_eq|].
    rewrite !lookup_insert_ne by done. rewrite lookup_omap. destruct (table_ s !! q) as [l2|] eqn:Hq; [|done]. simpl.
    destruct (so_table s Hs _ _ Hq) as (h3 & Hh3%(so_next s Hs) & _). rewrite lookup_insert_ne; [done|lia].
Qed.

(** ** Properties *)

(** C22: threads that share the manager.  However the steps of their calls
    interleave, when no thread removes the handler of a pid (by [terminate],
    [terminate_with_children] or the end of [wait]) while another is in [wait] on
    that pid, nothing is undefined: every pointer used refers to an object, and the
    map holds only objects with a child of its pid. *)
Theorem threads_calls_defined (n : nat) (w : W) (es : list action) (hist : list (Call * Z)) (o : outcome Threads)
    (Hrun : interleaves exclusive (threads0 n w) es hist o) :
  o ≠ UB ∧ ∀ ks s, o = Ret (ks, s) → shared_ok s ∧ ∀ i k, ks !! i = Some k → pc_ok s k.
Proof.
  assert (defined threads_ok o) as Hok.
  { induction Hrun as [|es hist st a o Hr IH Hex Hact]; [apply threads0_ok|]. by eapply act_ok. }
  split; [by intros ->|]. intros ks s ->. destruct Hok as [H1 H2 _]. done.
Qed.

(** C39: the discipline is also necessary, and the manager does not impose it:
    [wait] gives the mutex back while it holds its pointer, so when another thread
    removes the handler of the pid in between, the next step of [wait] uses a
    destroyed object. *)
Theorem removal_during_wait_is_undefined (a : action) (ks : list pc) (s : Shared) (st' : Threads) (p : Z) (i : nat) (k : pc)
    (Hok : threads_ok (ks, s)) (Hi : ks !! i = Some k) (Hu : uses p k) (Hne : i ≠ thread a)
    (Hrem : removes a ks = Some p) (Hact : act a (ks, s) = Some (Ret st')) :
  act (Go i) st' = Some UB.
Proof.
  assert (∃ ks' s' l, st' = (ks', s') ∧ ks' !! i = Some k ∧ heap_ s' !! l = None ∧ (k = Found p l ∨ k = Waited p l))
    as (ks' & s' & l & -> & Hi' & Hl & Hk).
  { pose proof (to_shared _ Hok) as Hs. pose proof (to_pcs _ Hok i k Hi) as Hpc. simpl in Hs, Hpc.
    assert (∃ l, (k = Found p l ∨ k = Waited p l) ∧ table_ s !! p = Some l) as (l & Hkl & Hp).
    { destruct k; simpl in *; try done; subst; eauto. }
    assert (∀ s1 s2, shared_ok s1 → table_ s1 !! p = Some l → erase p s1 = Ret s2 → heap_ s2 !! l = None) as Herase.
    { intros s1 s2 Hs1 Hp1 He. pose proof (erase_eq p s1 Hs1) as Hd. rewrite He in Hd. destruct Hd as (_ & _ & ->).
      rewrite Hp1. apply lookup_delete_eq. }
    destruct a as [j c|j]; simpl in Hact, Hne; apply bind_Some in Hact as (kj & Hj & Hact); destruct (resting kj); try done;
      injection Hact as Hact; apply obind_Ret_inv in Hact as ([k' s'] & Hb & [= <-]);
      exists (<[j := k']> ks), s', l; rewrite list_lookup_insert_ne by done; (split_and!; [done..| |done]).
    - destruct c as [| |q|q]; simplify_eq/=; apply obind_Ret_inv in Hb as (s1 & Hb1 & Hb).
      + apply obind_Ret_inv in Hb as (s2 & Hb2 & [= _ <-]). destruct (so_table s Hs _ _ Hp) as (h & Hh & c & Hc & _).
        rewrite Hp, Hh in Hb1. simpl in Hb1. apply obind_Ret_inv in Hb1 as ([h' w] & Ht & [= <-]).
        pose proof (handler_terminate_defined OSD h (sys_ s) ltac:(by eexists)) as Hd. rewrite Ht in Hd. simpl in Hd.
        eapply (Herase _ s2); [by apply (touch_ok s l h h' w)|done|done].
      + injection Hb as _ <-. by eapply (Herase s).
    - simpl in Hrem. rewrite Hj in Hrem. destruct kj; simplify_eq/=. apply obind_Ret_inv in Hb as (s1 & Hb1 & [= _ <-]).
      by eapply (Herase s). }
  simpl. rewrite Hi'. destruct Hk as [-> | ->]; simpl; by rewrite Hl.
Qed.

(** C23: the map of pids is linearizable, whatever the threads do: as long as nothing
    undefined happened, the pids it holds are those of the calls done one after the
    other, in the order of the critical sections in which they changed the map,
    with the results they returned. *)
Theorem pid_map_linearizable (n : nat) (w : W) (es : list action) (hist : list (Call * Z)) (ks : list pc) (s : Shared)
    (Hrun : interleaves any (threads0 n w) es hist (Ret (ks, s))) :
  dom (table_ s) = pids ∅ hist.
Proof. clear OSD. apply (interleaves_dom _ _ _ _ _ _ Hrun). Qed.

(** The calls of [ProcessManager], which are atomic there, are these steps in a
    row: a call that is not interrupted returns the same result, throws the same
    exception, and leaves the same handlers and system, as the atomic call. *)
Theorem steps_refine_atomic_call (c : Call) (s : Shared) (Hs : shared_ok s) :
  abs_result (run_call c s) = do_call c (abs s).
Proof.
  destruct c as [o a b e|p|p|p].
  - by eapply run_call_spawn.
  - by eapply run_call_wait.
  - by eapply run_call_terminate.
  - by eapply run_call_remove.
Qed.
End Threads.

(** ** Two threads *)

#[local] Existing Instance toy_os.

Abbreviation toy_call := (@call string str).
Definition toy_spawn : toy_call := Spawn default_options None None None.
Definition toy_threads : Threads (Line_Callback := string) := threads0 2 (mkToy [] []).

(** The state after some actions. *)
Fixpoint perform (l : list (action (Line_Callback := string) (Exit_Callback := str))) st : option (outcome (Threads (os := toy_os))) :=
  match l with
  | [] => Some (Ret st)
  | a :: l =>
      match act a st, l with
      | Some (Ret st), _ => perform l st
      | Some o, [] => Some o
      | _, _ => None
      end
  end.

Definition after_actions l : Threads (Line_Callback := string) :=
  match perform l toy_threads with Some (Ret st) => st | _ => toy_threads end.

(** One thread waits, the other terminates; two threads wait. *)
Definition spawn_and_wait := [Start 0 toy_spawn; Go 0; Start 0 (Wait 100 : toy_call)].

Example wait_and_terminate : perform (spawn_and_wait ++ [Start 1 (Terminate 100 : toy_call); Go 0]) toy_threads = Some UB.
Proof. vm_compute. reflexivity. Qed.

Example two_waits :
  perform (spawn_and_wait ++ [Start 1 (Wait 100 : toy_call); Go 1; Go 1; Go 1; Go 0]) toy_threads = Some UB.
Proof. vm_compute. reflexivity. Qed.

Lemma spawn_and_terminate_run :
  interleaves exclusive toy_threads [Start 0 toy_spawn; Go 0; Start 1 (Terminate 100 : toy_call)]
    [(toy_spawn, 100); (Terminate 100 : toy_call, 0)]
    (Ret (after_actions [Start 0 toy_spawn; Go 0; Start 1 (Terminate 100 : toy_call)])).
Proof.
  refine (interleaves_step exclusive toy_threads [Start 0 toy_spawn; Go 0] [(toy_spawn, 100)]
    (after_actions [Start 0 toy_spawn; Go 0]) (Start 1 (Terminate 100 : toy_call)) _ _ _ eq_refl).
  - refine (interleaves_step exclusive toy_threads [Start 0 toy_spawn] [] (after_actions [Start 0 toy_spawn]) (Go 0) _ _ _ eq_refl).
    + refine (interleaves_step exclusive toy_threads [] [] toy_threads (Start 0 toy_spawn) _ _ _ eq_refl); [apply interleaves_start|done].
    + done.
  - intros p [|[|j]] k _ Hj Hk; vm_compute in Hk; [injection Hk as <-; by intros []|by destruct Hj|done].
Qed.

Lemma spawn_and_wait_run :
  interleaves any toy_threads spawn_and_wait [(toy_spawn, 100)] (Ret (after_actions spawn_and_wait)).
Proof.
  refine (interleaves_step any toy_threads [Start 0 toy_spawn; Go 0] [(toy_spawn, 100)]
    (after_actions [Start 0 toy_spawn; Go 0]) (Start 0 (Wait 100 : toy_call)) _ _ I eq_refl).
  refine (interleaves_step any toy_threads [Start 0 toy_spawn] [] (after_actions [Start 0 toy_spawn]) (Go 0) _ _ I eq_refl).
  refine (interleaves_step any toy_threads [] [] toy_threads (Start 0 toy_spawn) _ _ I eq_refl). apply interleaves_start.
Qed.

Lemma spawn_and_wait_state :
  after_actions spawn_and_wait =
  ([Found 100 0; Idle],
   mkShared {[0%nat := mkHandler (Some 0%nat : option (child (OS := toy_os))) true (mkStream true [] None []) (mkStream true [] None []) None]}
     {[100 := 0%nat]} 1 (mkToy [true] [])).
Proof. reflexivity. Qed.

Lemma spawn_and_wait_ok : threads_ok (after_actions spawn_and_wait).
Proof.
  rewrite spawn_and_wait_state. split; simpl.
  - split; simpl; intros p l.
    + intros [<- <-]%lookup_singleton_Some. rewrite lookup_singleton_eq. eexists. split; [done|]. by exists 0%nat.
    + intros [<- <-]%lookup_singleton_Some. lia.
  - intros [|[|j]] k Hk; simplify_eq/=; [|done]. apply lookup_singleton_eq.
  - intros [|[|i]] [|[|j]] k k' l Hk Hk' Hl Hl'; simplify_eq/=; done.
Qed.

Lemma threads_calls_defined_witness :
  shared_ok (after_actions [Start 0 toy_spawn; Go 0; Start 1 (Terminate 100 : toy_call)]).2.
Proof.
  destruct (threads_calls_defined toy_defined 2 (mkToy [] []) _ _ _ spawn_and_terminate_run) as [_ H].
  apply (H (after_actions [Start 0 toy_spawn; Go 0; Start 1 (Terminate 100 : toy_call)]).1). reflexivity.
Defined.

Lemma removal_during_wait_is_undefined_witness :
  ∃ st', act (Start 1 (Terminate 100 : toy_call)) (after_actions spawn_and_wait) = Some (Ret st') ∧ act (Go 0) st' = Some UB.
Proof.
  exists (after_actions (spawn_and_wait ++ [Start 1 (Terminate 100 : toy_call)])). split; [reflexivity|].
  apply (removal_during_wait_is_undefined toy_defined (Start 1 (Terminate 100 : toy_call)) (after_actions spawn_and_wait).1
    (after_actions spawn_and_wait).2 _ 100 0 (Found 100 0) spawn_and_wait_ok eq_refl eq_refl ltac:(discriminate) eq_refl).
  reflexivity.
Defined.

Lemma pid_map_linearizable_witness :
  dom (table_ (after_actions spawn_and_wait).2) = pids ∅ [(toy_spawn, 100)].
Proof.
  apply (pid_map_linearizable 2 (mkToy [] []) spawn_and_wait [(toy_spawn, 100)] (after_actions spawn_and_wait).1).
  exact spawn_and_wait_run.
Defined.

Lemma steps_refine_atomic_call_witness :
  abs_result (run_call (Wait 100 : toy_call) (after_actions spawn_and_wait).2) =
  do_call (Wait 100) (abs (after_actions spawn_and_wait).2).
Proof.
  apply (steps_refine_atomic_call toy_defined (Wait 100 : toy_call) (after_actions spawn_and_wait).2).
  exact (to_shared _ spawn_and_wait_ok).
Defined.
