(* ===== verification/HandlerLifetime.v ===== *)
(** How long a handler has to live: [process/process_handler.cpp] and
    [process/process_manager.cpp] with the [io_context] that completes their reads.

    [handle_stream] starts a read whose completion uses [this] and the handler's
    buffer.  The manager destroys a handler when its pid is removed, and asio still
    runs the completion of a read that was outstanding then, with an error.  The
    threads and the objects are those of [ManagerThreads]; here are also the reads
    that asio has and their completions, which come in any order with the steps of the
    threads. *)

From S2P Require Import Prelude Aps Scheduler ProcessManager ManagerThreads.

#[local] Open Scope Z_scope.

Section Lifetime.
Context {Line_Callback Exit_Callback W : Type} {os : OS Exit_Callback W}.

Abbreviation Handler := (Process_Handler Line_Callback Exit_Callback W).
Abbreviation Objects := (@Shared Line_Callback Exit_Callback W os).
Abbreviation Call := (@call Line_Callback Exit_Callback).
Abbreviation Act := (@action Line_Callback Exit_Callback).
Abbreviation loc := nat.

Inductive output := Stdout | Stderr.

#[export] Instance output_eq_dec : EqDecision output.
Proof. solve_decision. Defined.

Definition stream (o : output) (h : Handler) : Stream Line_Callback :=
  match o with Stdout => stdout_ h | Stderr => stderr_ h end.

Definition set_stream (o : output) (st : Stream Line_Callback) (h : Handler) : Handler :=
  match o with
  | Stdout => mkHandler (proc_ h) (stdin_ h) st (stderr_ h) (exit_cb_ h)
  | Stderr => mkHandler (proc_ h) (stdin_ h) (stdout_ h) st (exit_cb_ h)
  end.

(** The threads with the objects, and asio's reads of the objects that are gone; its
    other reads are those of the handlers. *)
Record Loop := mkLoop { threads_ : @Threads Line_Callback Exit_Callback W os; dangling_ : list (loc * output) }.

Definition objects (L : Loop) : Objects := (threads_ L).2.

(** A read ends: [data] is what [async_read_until] read into the handler's buffer
    since the last completion, and its completion handler runs with [len], for the
    handler that it points to.  The buffer is the handler's too. *)
Definition completion (l : loc) (o : output) (data : str) (len : Z) (s : Objects) : outcome Objects :=
  let! h := deref (heap_ s !! l) in
  let! '(_, st) := read_done len (arrive data (stream o h)) in
  Ret (mkShared (<[l := set_stream o st h]> (heap_ s)) (table_ s) (next_ s) (sys_ s)).

(** The reads of the objects that a step destroyed. *)
Definition reads_of (lh : loc * Handler) : list (loc * output) :=
  ((λ _, (lh.1, Stdout)) <$> reads_ (stdout_ lh.2)) ++ ((λ _, (lh.1, Stderr)) <$> reads_ (stderr_ lh.2)).

Definition released (s s' : Objects) : list (loc * output) := map_to_list (heap_ s ∖ heap_ s') ≫= reads_of.

(** A step of a thread, or the completion of a read with the bytes that came and a
    length: any bytes and any length, a line's and the 0 of an error among them. *)
Inductive event := Step (a : Act) | Complete (l : loc) (o : output) (data : str) (len : Z).

(** [asio] has a read of the stream. *)
Definition outstanding (l : loc) (o : output) (L : Loop) : Prop :=
  (l, o) ∈ dangling_ L ∨ ∃ h, heap_ (objects L) !! l = Some h ∧ reads_ (stream o h) ≠ [].

Inductive loop_step (L : Loop) : event → outcome Loop → Prop :=
| loop_thread a out :
    act a (threads_ L) = Some out →
    loop_step L (Step a) (let! ts := out in Ret (mkLoop ts (dangling_ L ++ released (objects L) ts.2)))
| loop_complete l o data len :
    outstanding l o L →
    loop_step L (Complete l o data len) (let! s := completion l o data len (objects L) in Ret (mkLoop ((threads_ L).1, s) (dangling_ L))).

Inductive loop_runs (L0 : Loop) : list event → outcome Loop → Prop :=
| loop_starts : loop_runs L0 [] (Ret L0)
| loop_goes es e L out : loop_runs L0 es (Ret L) → loop_step L e out → loop_runs L0 (es ++ [e]) out.

Definition loop0 (n : nat) (w : W) : Loop := mkLoop (threads0 n w) [].

(** The state after a schedule, when every step of it can be taken and returns. *)
Definition reading (l : loc) (o : output) (L : Loop) : bool :=
  bool_decide ((l, o) ∈ dangling_ L) ||
  match heap_ (objects L) !! l with Some h => negb (length (reads_ (stream o h)) =? 0)%nat | None => false end.

Definition exec1 (e : event) (L : Loop) : option Loop :=
  match e with
  | Step a =>
      match act a (threads_ L) with
      | Some (Ret ts) => Some (mkLoop ts (dangling_ L ++ released (objects L) ts.2))
      | _ => None
      end
  | Complete l o data len =>
      if reading l o L then
        match completion l o data len (objects L) with
        | Ret s => Some (mkLoop ((threads_ L).1, s) (dangling_ L))
        | _ => None
        end
      else None
  end.

Definition exec (es : list event) (L : Loop) : option Loop := foldl (λ o e, o ≫= exec1 e) (Some L) es.

(** No read is left, so that [io_context::run] can return. *)
Definition drained (L : Loop) : Prop := ∀ l o, ¬ outstanding l o L.

(** ** Lemmas: what a step does to the objects *)

Implicit Types (s : Objects) (h : Handler) (l : loc) (L : Loop).

(** A stream with a callback has one read outstanding, a stream without has none. *)
Definition listening (st : Stream Line_Callback) : Prop := pipe_ st = true ∧ reads_ st = option_list (cb_ st).

Definition callbacks (h : Handler) : option Line_Callback * option Line_Callback := (cb_ (stdout_ h), cb_ (stderr_ h)).

Definition spawned (c : Call) (h : Handler) : Prop :=
  ∃ opts out err ex, c = Spawn opts out err ex ∧ callbacks h = (out, err) ∧ listening (stdout_ h) ∧ listening (stderr_ h).

Lemma erase_heap p s s' : erase p s = Ret s' →
  next_ s' = next_ s ∧ heap_ s' ⊆ heap_ s ∧ ∀ l, table_ s !! p = Some l → heap_ s' !! l = None.
Proof.
  unfold erase. destruct (table_ s !! p) as [l|].
  - intros H. apply obind_Ret_inv in H as (h & _ & H). apply obind_Ret_inv in H as (w & _ & [= <-]). simpl.
    split_and!; [done|apply delete_subseteq|]. intros ? [= <-]. apply lookup_delete_eq.
  - by intros [= <-].
Qed.

Lemma begin_heap c s k s' : begin c s = Ret (k, s') →
  (next_ s ≤ next_ s')%nat ∧
  ∀ l h, heap_ s' !! l = Some h → heap_ s !! l = Some h ∨ (l = next_ s ∧ (next_ s < next_ s')%nat ∧ spawned c h).
Proof.
  destruct c as [opts out err ex|p|p|p]; unfold begin.
  - intros H. apply obind_Ret_inv in H as ([[p h] w] & Hh & H). destruct (Z.eqb_spec p (-1)) as [->|Hp].
    { apply obind_Ret_inv in H as (w' & _ & [= _ <-]). simpl. split; [lia|by left]. }
    injection H as _ <-. simpl. split; [lia|]. intros l h' [[<- <-]|[_ Hl]]%lookup_insert_Some; [right|by left].
    split_and!; [done|lia|]. exists opts, out, err, ex. split; [done|]. unfold handler_spawn in Hh.
    apply obind_Ret_inv in Hh as (w0 & _ & Hh). destruct (os_spawn _ _ _) as [[ch w1]| |]; [|by injection Hh as <-|done]. injection Hh as _ <- _.
    by destruct out, err, ex.
  - destruct (table_ s !! p); intros [= _ <-]; (split; [lia|by left]).
  - intros H. apply obind_Ret_inv in H as (s1 & H1 & H). apply obind_Ret_inv in H as (s2 & H2 & [= _ <-]).
    destruct (erase_heap _ _ _ H2) as (Hn & Hsub & Hgone). destruct (table_ s !! p) as [l|] eqn:Hp.
    + apply obind_Ret_inv in H1 as (h & _ & H1). apply obind_Ret_inv in H1 as ([h' w] & _ & [= <-]). simpl in *.
      split; [lia|]. intros l' h'' Hl. left. assert (l' ≠ l) as Hne by (intros ->; by rewrite Hgone in Hl).
      apply (lookup_weaken _ _ _ _ Hl) in Hsub. by rewrite lookup_insert_ne in Hsub.
    + injection H1 as ->. split; [lia|]. intros l' h Hl. left. by eapply lookup_weaken.
  - intros H. apply obind_Ret_inv in H as (s2 & H2 & [= _ <-]). destruct (erase_heap _ _ _ H2) as (Hn & Hsub & _).
    split; [lia|]. intros l h Hl. left. by eapply lookup_weaken.
Qed.

Lemma continue_heap k s k' s' : continue k s = Ret (k', s') → next_ s' = next_ s ∧ heap_ s' ⊆ heap_ s.
Proof.
  destruct k as [|c p l|p l|p l|p ec|r]; simpl; try by intros [= _ <-].
  - destruct (table_ s !! p) as [l'|]; [|by intros [= _ <-]]. destruct emplace_builds; [|by intros [= _ <-]].
    intros H. apply obind_Ret_inv in H as (h & _ & H). apply obind_Ret_inv in H as (w & _ & [= _ <-]).
    split; [done|apply delete_subseteq].
  - intros H. apply obind_Ret_inv in H as (h & _ & H). by apply obind_Ret_inv in H as (w & _ & [= _ <-]).
  - intros H. by apply obind_Ret_inv in H as (h & _ & [= _ <-]).
  - intros H. apply obind_Ret_inv in H as (s2 & H2 & [= _ <-]). by destruct (erase_heap _ _ _ H2) as (? & ? & _).
Qed.

(** The call that an action starts. *)
Definition starts (a : Act) (c : Call) : Prop := match a with Start _ c' => c' = c | Go _ => False end.

Lemma act_heap a ts ts' : act a ts = Some (Ret ts') →
  (next_ ts.2 ≤ next_ ts'.2)%nat ∧
  ∀ l h, heap_ ts'.2 !! l = Some h →
    heap_ ts.2 !! l = Some h ∨ (l = next_ ts.2 ∧ (next_ ts.2 < next_ ts'.2)%nat ∧ ∃ c, starts a c ∧ spawned c h).
Proof.
  destruct ts as [ks s], a as [i c|i]; simpl; intros H; apply bind_Some in H as (k & _ & H); destruct (resting k); try done;
    injection H as H; apply obind_Ret_inv in H as ([k' s'] & Hs & [= <-]); simpl.
  - destruct (begin_heap _ _ _ _ Hs) as [Hn Hh]. split; [done|]. intros l h Hl.
    destruct (Hh l h Hl) as [?|(? & ? & ?)]; [by left|right]. split_and!; [done..|by exists c].
  - destruct (continue_heap _ _ _ _ Hs) as [-> Hsub]. split; [lia|]. intros l h Hl. left. by eapply lookup_weaken.
Qed.

Lemma elem_released l o s s' :
  (l, o) ∈ released s s' ↔ ∃ h, heap_ s !! l = Some h ∧ heap_ s' !! l = None ∧ reads_ (stream o h) ≠ [].
Proof.
  assert (∀ (A : Type) (r : list A) (x y : loc * output), x ∈ (λ _, y) <$> r ↔ x = y ∧ r ≠ []) as Hconst.
  { intros A r x y. rewrite list_elem_of_fmap. destruct r as [|a r]; [set_solver|]. split; [by intros (? & -> & _)|].
    intros [-> _]. exists a. set_solver. }
  unfold released. rewrite list_elem_of_bind. split.
  - intros ([l' h] & Hr & Hin). apply elem_of_map_to_list, lookup_difference_Some in Hin as [Hl Hl'].
    unfold reads_of in Hr. simpl in Hr. rewrite elem_of_app, !Hconst in Hr. exists h. destruct o; naive_solver.
  - intros (h & Hl & Hl' & Hr). exists (l, h). split; [|by apply elem_of_map_to_list, lookup_difference_Some].
    unfold reads_of. simpl. rewrite elem_of_app, !Hconst. destruct o; naive_solver.
Qed.

Lemma completion_heap l o data len s s' : completion l o data len s = Ret s' →
  next_ s' = next_ s ∧
  ∀ l' h', heap_ s' !! l' = Some h' → ∃ h, heap_ s !! l' = Some h ∧ callbacks h' = callbacks h ∧
    (listening (stdout_ h) ∧ listening (stderr_ h) → listening (stdout_ h') ∧ listening (stderr_ h')).
Proof.
  unfold completion. destruct (heap_ s !! l) as [h|] eqn:Hl; [|done]. simpl. intros H.
  apply obind_Ret_inv in H as ([x st] & Hd & [= <-]). simpl. split; [done|]. intros l' h' H'.
  assert (cb_ st = cb_ (stream o h) ∧ (listening (stream o h) → listening st)) as [Hcb Hls].
  { unfold read_done, arrive in Hd. simpl in Hd. destruct (reads_ (stream o h)) as [|cb rest] eqn:Hr; [done|].
    destruct (buf_ (stream o h) ++ data); [done|]. injection Hd as _ <-. unfold handle_stream, listening. simpl.
    destruct (pipe_ (stream o h)) eqn:Hp, (cb_ (stream o h)) as [cb'|] eqn:Hc; simpl; split; try done;
      rewrite Hr; intros [? [=]]; by subst. }
  apply lookup_insert_Some in H' as [[<- <-]|[Hne H']]; [|by exists h'].
  exists h. split; [done|]. unfold callbacks. destruct o; simpl in *; rewrite Hcb; (split; [done|]); intros [? ?]; auto.
Qed.

Lemma exec1_step e L L' : exec1 e L = Some L' → loop_step L e (Ret L').
Proof.
  destruct e as [a|l o data len]; simpl.
  - destruct (act a (threads_ L)) as [[ts| |]|] eqn:Ha; try done. intros [= <-]. exact (loop_thread L a (Ret ts) Ha).
  - destruct (reading l o L) eqn:Hr; [|done]. destruct (completion l o data len (objects L)) as [s| |] eqn:Hc; [|done..]. intros [= <-].
    assert (outstanding l o L) as Ho.
    { unfold reading in Hr. apply orb_true_iff in Hr as [Hr%bool_decide_eq_true|Hr]; [by left|right].
      destruct (heap_ (objects L) !! l) as [h|]; [|done]. exists h. split; [done|]. by destruct (reads_ (stream o h)). }
    pose proof (loop_complete L l o data len Ho) as Hs. by rewrite Hc in Hs.
Qed.

Lemma exec_runs es L L' : exec es L = Some L' → loop_runs L es (Ret L').
Proof.
  unfold exec. revert L'. induction es as [|e es IH] using rev_ind; intros L'; [intros [= <-]; constructor|].
  rewrite foldl_snoc. intros (L1 & H1 & H2)%bind_Some. econstructor; [by apply IH|by apply exec1_step].
Qed.

(** ** Invariants *)

Record loop_ok L : Prop := mkLoopOk {
  lo_next l h : heap_ (objects L) !! l = Some h → (l < next_ (objects L))%nat;
  lo_listening l h : heap_ (objects L) !! l = Some h → listening (stdout_ h) ∧ listening (stderr_ h);
  lo_dangling l o : (l, o) ∈ dangling_ L → (l < next_ (objects L))%nat ∧ heap_ (objects L) !! l = None
}.

Lemma loop0_ok n w : loop_ok (loop0 n w).
Proof. split; simpl; intros l; [by intros h|by intros h|intros o; by rewrite elem_of_nil]. Qed.

(** Objects that are gone stay gone. *)
Lemma act_gone (a : Act) (ts ts' : @Threads Line_Callback Exit_Callback W os) l :
  act a ts = Some (Ret ts') → (l < next_ ts.2)%nat → heap_ ts.2 !! l = None → heap_ ts'.2 !! l = None.
Proof.
  intros [_ Hh]%act_heap Hl Hn. destruct (heap_ ts'.2 !! l) as [h|] eqn:E; [|done].
  destruct (Hh l h E) as [?|(-> & _)]; [congruence|lia].
Qed.

Lemma completion_gone l o data len s s' l' : completion l o data len s = Ret s' → heap_ s !! l' = None → heap_ s' !! l' = None.
Proof.
  intros [_ Hh]%completion_heap Hn. destruct (heap_ s' !! l') as [h|] eqn:E; [|done].
  destruct (Hh l' h E) as (h' & Hl & _). congruence.
Qed.

(** The two kinds of step, seen backwards. *)
Lemma loop_step_inv L e L' : loop_step L e (Ret L') →
  match e with
  | Step a => ∃ ts, act a (threads_ L) = Some (Ret ts) ∧ L' = mkLoop ts (dangling_ L ++ released (objects L) ts.2)
  | Complete l o data len => outstanding l o L ∧ ∃ s', completion l o data len (objects L) = Ret s' ∧
      L' = mkLoop ((threads_ L).1, s') (dangling_ L)
  end.
Proof.
  intros H. remember (Ret L') as r eqn:Hr. destruct H as [a out Ha|l o data len Ho].
  - destruct out as [ts| |]; [|done..]. exists ts. by injection Hr as <-.
  - split; [done|]. apply obind_Ret_inv in Hr as (s' & Hs & [= <-]). by exists s'.
Qed.

Lemma loop_step_ok L e L' : loop_ok L → loop_step L e (Ret L') → loop_ok L'.
Proof.
  intros [Hnext Hlis Hdang] Hs%loop_step_inv. destruct e as [a|l o data len].
  - destruct Hs as (ts & Ha & ->). destruct (act_heap _ _ _ Ha) as [Hn Hh]. split; unfold objects in *; simpl.
    + intros l h Hl. destruct (Hh l h Hl) as [Hl'|(-> & Hlt & _)]; [|done]. specialize (Hnext l h Hl'). lia.
    + intros l h Hl. destruct (Hh l h Hl) as [Hl'|(-> & _ & c & _ & Hsp)]; [by eapply Hlis|]. by destruct Hsp as (? & ? & ? & ? & _ & _ & ?).
    + intros l o [Hin|Hin]%elem_of_app.
      * destruct (Hdang l o Hin) as [Hlt Hnone]. split; [lia|by eapply act_gone].
      * apply elem_released in Hin as (h & Hl & Hl' & _). specialize (Hnext l h Hl). split; [lia|done].
  - destruct Hs as (_ & s' & Hc & ->). destruct (completion_heap _ _ _ _ _ _ Hc) as [Hn Hh]. split; unfold objects in *; simpl.
    + intros l' h' Hl. destruct (Hh l' h' Hl) as (h & Hl' & _). rewrite Hn. by eapply Hnext.
    + intros l' h' Hl. destruct (Hh l' h' Hl) as (h & Hl' & _ & Hlis'). by eapply Hlis', Hlis.
    + intros l' o' Hin. destruct (Hdang l' o' Hin) as [Hlt Hnone]. rewrite Hn. split; [done|by eapply completion_gone].
Qed.

Lemma loop_runs_ok L0 es out : loop_ok L0 → loop_runs L0 es out → ∀ L, out = Ret L → loop_ok L.
Proof.
  intros H0. induction 1 as [|es e L out Hr IH Hs]; intros L' Heq; [by injection Heq as <-|].
  subst. eapply loop_step_ok; [by apply IH|done].
Qed.

(** ** Processes whose output nobody asked for *)

Definition silent (e : event) : Prop :=
  match e with Step (Start _ (Spawn _ out err _)) => out = None ∧ err = None | _ => True end.

Definition deaf L : Prop :=
  dangling_ L = [] ∧ ∀ l h, heap_ (objects L) !! l = Some h → callbacks h = (None, None).

Lemma deaf_drained L : loop_ok L → deaf L → drained L.
Proof.
  intros Hok [Hd Hcb] l o [Hin|(h & Hl & Hr)]; [rewrite Hd in Hin; by apply not_elem_of_nil in Hin|].
  specialize (Hcb l h Hl). destruct (lo_listening L Hok l h Hl) as [[_ H1] [_ H2]]. injection Hcb as Hc1 Hc2.
  rewrite Hc1 in H1. rewrite Hc2 in H2. by destruct o.
Qed.

Lemma loop_step_deaf L e L' : loop_ok L → deaf L → silent e → loop_step L e (Ret L') → deaf L'.
Proof.
  intros Hok [Hd Hcb] Hsil Hs%loop_step_inv. destruct e as [a|l o data len].
  - destruct Hs as (ts & Ha & ->). destruct (act_heap _ _ _ Ha) as [_ Hh]. unfold deaf, objects in *. simpl. split.
    + rewrite Hd. simpl. apply elem_of_nil_inv. intros [l o] (h & Hl & _ & Hr)%elem_released.
      apply (deaf_drained L Hok (conj Hd Hcb) l o). right. by exists h.
    + intros l h Hl. destruct (Hh l h Hl) as [?|(-> & _ & c & Hst & Hsp)]; [by eapply Hcb|].
      destruct Hsp as (opts & out & err & ex & -> & -> & _). destruct a as [i c'|i]; [|done]. simpl in Hst. subst.
      by destruct Hsil as [-> ->].
  - destruct Hs as (Ho & _). by destruct (deaf_drained L Hok (conj Hd Hcb) l o).
Qed.

(** ** Properties *)

(** C26: a program that passes no line callbacks, as the scheduler, leaves asio nothing
    to complete: whatever its threads do, in any order, as long as nothing undefined
    or thrown has happened asio has no read of any handler, so none is left when a
    handler is destroyed.  If something undefined or an exception comes, it is of a
    step of a thread (such as the removal during a wait), never of a completion. *)
Theorem silent_processes_never_dangle (n : nat) (w : W) (es : list event) (out : outcome Loop)
    (Hsilent : Forall silent es) (Hrun : loop_runs (loop0 n w) es out) :
  match out with
  | Ret L => drained L
  | Throw _ | UB => ∃ es' a L, es = es' ++ [Step a] ∧ loop_runs (loop0 n w) es' (Ret L) ∧ drained L
  end.
Proof.
  assert (∀ es L, Forall silent es → loop_runs (loop0 n w) es (Ret L) → loop_ok L ∧ deaf L) as H.
  { clear. intros es L Hsilent Hrun. remember (Ret L) as out eqn:Heq. revert L Heq.
    induction Hrun as [|es e L out Hr IH Hs]; intros L' Heq.
    - injection Heq as <-. split; [apply loop0_ok|]. split; [done|]. by intros l h.
    - apply Forall_app in Hsilent as [Hsil He]. apply Forall_cons in He as [He _]. subst.
      destruct (IH Hsil L eq_refl) as [Hok Hdeaf]. split; [by eapply loop_step_ok|exact (loop_step_deaf L e L' Hok Hdeaf He Hs)]. }
  assert (∀ es L, Forall silent es → loop_runs (loop0 n w) es (Ret L) → drained L) as Hdr.
  { intros es' L Hs Hr. destruct (H es' L Hs Hr) as [H1 H2]. exact (deaf_drained L H1 H2). }
  destruct out as [L|x|] eqn:Eo; [by eapply Hdr|..]; rewrite <-Eo in Hrun; inversion Hrun as [|es' e L out' Hr Hs]; subst; try done;
    apply Forall_app in Hsilent as [Hsil _]; specialize (Hdr es' L Hsil Hr);
    (destruct e as [a|l o data len]; [by exists es', a, L|]); inversion Hs; subst; by destruct (Hdr l o).
Qed.

(** C25: a program that passes a line callback must not remove the handler.  When a step
    destroys a handler that has a callback for one of its outputs, in any state that can
    be reached (it may have delivered lines before), then from there on, whatever happens, asio has a read whose completion
    uses the destroyed handler, which is undefined; and the reads of the [io_context]
    are never drained, so a program that goes on to run it comes to that completion. *)
Theorem removed_handler_dangles (n : nat) (w : W) (es es' : list event) (e : event) (L L1 L2 : Loop) (l : loc) (h : Handler)
    (Hrun : loop_runs (loop0 n w) es (Ret L)) (Hl : heap_ (objects L) !! l = Some h) (Hcb : callbacks h ≠ (None, None))
    (Hstep : loop_step L e (Ret L1)) (Hgone : heap_ (objects L1) !! l = None) (Hrun' : loop_runs L1 es' (Ret L2)) :
  ¬ drained L2 ∧ ∃ o, ∀ data len, loop_step L2 (Complete l o data len) UB.
Proof.
  assert (loop_ok L) as Hok by (by eapply loop_runs_ok; [apply loop0_ok| |]).
  assert (∃ o, reads_ (stream o h) ≠ []) as [o Ho].
  { destruct (lo_listening L Hok l h Hl) as [[_ H1] [_ H2]]. unfold callbacks in Hcb.
    destruct (cb_ (stdout_ h)); [exists Stdout; simpl; by rewrite H1|].
    destruct (cb_ (stderr_ h)); [exists Stderr; simpl; by rewrite H2|done]. }
  assert ((l, o) ∈ dangling_ L1) as Hd1.
  { apply loop_step_inv in Hstep. destruct e as [a|l' o' data len].
    - destruct Hstep as (ts & _ & ->). simpl. apply elem_of_app. right. apply elem_released. by exists h.
    - destruct Hstep as (_ & s' & Hc & ->). unfold completion in Hc.
      apply obind_Ret_inv in Hc as (h' & Hh' & Hc). apply obind_Ret_inv in Hc as ([x st] & _ & [= <-]).
      unfold objects in Hgone. simpl in Hgone. apply lookup_insert_None in Hgone as [Hgone _]. unfold objects in Hl. congruence. }
  assert (∀ L', Ret L2 = Ret L' → (l, o) ∈ dangling_ L' ∧ loop_ok L') as H.
  { revert Hrun'. generalize (Ret L2). induction 1 as [|es' e' L' out Hr IH Hs]; intros L'' Heq.
    - injection Heq as <-. split; [done|by eapply loop_step_ok].
    - subst. destruct (IH L' eq_refl) as [Hin Hok']. split; [|by eapply loop_step_ok].
      apply loop_step_inv in Hs. destruct e'; [destruct Hs as (ts & _ & ->); simpl; set_solver|by destruct Hs as (_ & s' & _ & ->)]. }
  destruct (H L2 eq_refl) as [Hd Hok2]. split; [intros Hdr; apply (Hdr l o); by left|].
  exists o. intros data len. pose proof (loop_complete L2 l o data len (or_introl Hd)) as Hc.
  unfold completion in Hc. destruct (lo_dangling L2 Hok2 l o Hd) as [_ Hnone]. by rewrite Hnone in Hc.
Qed.
End Lifetime.

(** ** Two runs: a job without callbacks, a process with one for its output

    The second process has written a line before it is terminated. *)

#[local] Existing Instance toy_os.

Abbreviation Toy_event := (event (Line_Callback := string) (Exit_Callback := str)).
Abbreviation Toy_loop := (Loop (Line_Callback := string) (Exit_Callback := str) (os := toy_os)).

Definition toy_loop : Toy_loop := loop0 1 (mkToy [] []).

Definition silent_job : list Toy_event :=
  [Step (Start 0%nat (Spawn default_options None None (Some (lit "a")))); Step (Go 0%nat); Step (Start 0%nat (Terminate 100))].

Definition talking_process : list Toy_event :=
  [Step (Start 0%nat (Spawn default_options (Some "print"%string) None None)); Step (Go 0%nat);
   Complete 0%nat Stdout (lit "hi" ++ [newline]) 3].

Definition after_events (es : list Toy_event) : Toy_loop := default toy_loop (exec es toy_loop).

Lemma silent_job_run : loop_runs toy_loop silent_job (Ret (after_events silent_job)).
Proof. apply exec_runs. vm_compute. reflexivity. Qed.

Lemma silent_processes_never_dangle_witness : drained (after_events silent_job).
Proof.
  apply (silent_processes_never_dangle 1 (mkToy [] []) silent_job (Ret (after_events silent_job))); [|exact silent_job_run].
  repeat constructor.
Defined.

Definition talking_loop : Toy_loop := after_events talking_process.
Definition removed_loop : Toy_loop := default talking_loop (exec1 (Step (Start 0%nat (Terminate 100))) talking_loop).

Definition talking_handler : Process_Handler string str toy :=
  mkHandler (Some 0%nat : option (child (OS := toy_os))) true (mkStream true [] (Some "print"%string) ["print"%string])
    (mkStream true [] None []) None.

Lemma talking_run : loop_runs toy_loop talking_process (Ret talking_loop).
Proof. apply exec_runs. vm_compute. reflexivity. Qed.

Lemma talking_handler_alive : heap_ (objects talking_loop) !! 0%nat = Some talking_handler.
Proof. vm_compute. reflexivity. Qed.

Lemma talking_removed : loop_step talking_loop (Step (Start 0%nat (Terminate 100))) (Ret removed_loop).
Proof. apply exec1_step. vm_compute. reflexivity. Qed.

Lemma talking_gone : heap_ (objects removed_loop) !! 0%nat = None.
Proof. vm_compute. reflexivity. Qed.

Lemma removed_handler_dangles_witness :
  ¬ drained removed_loop ∧ ∃ o, ∀ data len, loop_step removed_loop (Complete 0%nat o data len) UB.
Proof.
  apply (removed_handler_dangles 1 (mkToy [] []) talking_process [] (Step (Start 0%nat (Terminate 100)))
           talking_loop removed_loop removed_loop 0%nat talking_handler).
  - exact talking_run.
  - exact talking_handler_alive.
  - discriminate.
  - exact talking_removed.
  - exact talking_gone.
  - apply loop_starts.
Defined.
