(* ===== verification/SchedulerProcesses.v ===== *)
(** The scheduler on the process manager: [process/aps_scheduler.cpp] with
    [process/process_manager.cpp] for its [Process_Manager::instance()].

    [Scheduler] is proved against what any process manager promises; here it runs on
    [ProcessManager]'s, and the jobs of its table are related to the handlers of the
    manager's map. *)

From S2P Require Import Prelude Double P90 Aps Scheduler SlotPool SchedulerLiveness SchedulerExceptions ProcessManager.

#[local] Open Scope Z_scope.

Section Composition.
Context {St Line_Callback W : Type} `{!Finished_IStorage St} {os : OS str W}.

Abbreviation Manager := (Process_Manager Line_Callback str W).
Implicit Types (s : Scheduler St Manager) (m : Manager) (es : list event).

(** ** Reference definitions *)

(** The handler of the process that was started for the job [i]: its exit callback
    holds the job's id. *)
Definition own_handler (i : str) (p : Z) m : Prop :=
  ∃ h c, handlers_ m !! p = Some h ∧ proc_ h = Some c ∧ child_id c = p ∧ exit_cb_ h = Some i.

(** Every job whose process could be started has its own handler. *)
Definition jobs_own_handlers s : Prop :=
  ∀ i rj, running_ s !! i = Some rj → rj_pid rj ≠ -1 → own_handler i (rj_pid rj) (pm_ s).

(** The system does not give a new child the pid of a handler in the map. *)
Definition fresh_pid m : Prop :=
  ∀ o i p m', spawn o None None (Some i) m = Ret (p, m') → handlers_ m !! p = None.

(** It does not along a run. *)
Fixpoint no_pid_reuse es s : Prop :=
  fresh_pid (pm_ s) ∧
  match es with
  | [] => True
  | e :: es => match step e s with Ret s' => no_pid_reuse es s' | _ => True end
  end.

(** ** Lemmas *)

Lemma spawn_handlers o i m p m' :
  spawn o None None (Some i) m = Ret (p, m') → handlers_ m !! p = None →
  (p = -1 ∧ handlers_ m' = handlers_ m) ∨
  (p ≠ -1 ∧ ∃ h c, handlers_ m' = <[p := h]> (handlers_ m) ∧ proc_ h = Some c ∧ child_id c = p ∧ exit_cb_ h = Some i).
Proof.
  unfold spawn. cbv zeta. intros H Hp. apply obind_Ret_inv in H as ([[p' h] w] & Hs & H).
  destruct (Z.eqb_spec p' (-1)) as [->|Hne].
  - apply obind_Ret_inv in H as (w' & _ & [= <- <-]). by left.
  - destruct (handlers_ m !! p') as [h'|] eqn:E.
    + apply obind_Ret_inv in H as (w' & _ & [= <- <-]). congruence.
    + injection H as -> <-. right. split; [done|]. unfold handler_spawn in Hs.
      apply obind_Ret_inv in Hs as (w0 & _ & Hs). destruct (os_spawn _ _ _) as [[c w1]| |]; simplify_eq/=. by eexists _, c.
Qed.

Lemma remove_handler_handlers p m m' : remove_handler p m = Ret m' → handlers_ m' = delete p (handlers_ m).
Proof.
  unfold remove_handler. destruct (handlers_ m !! p) as [h|] eqn:Hp.
  - intros H. by apply obind_Ret_inv in H as (w & _ & [= <-]).
  - intros [= <-]. by rewrite delete_id.
Qed.

Lemma terminate_handlers p m m' : terminate p m = Ret m' →
  handlers_ m' = delete p (handlers_ m) ∧
  ∀ h, handlers_ m !! p = Some h → ∃ h' w, handler_terminate h (world_ m) = Ret (h', w).
Proof.
  unfold terminate, find_handler. intros H. apply obind_Ret_inv in H as (m1 & Hm1 & H%remove_handler_handlers).
  destruct (handlers_ m !! p) as [h|] eqn:Hp.
  - apply obind_Ret_inv in Hm1 as ([h' w] & Ht & [= <-]). simpl in H.
    rewrite delete_insert_eq in H. split; [done|]. intros h2 [= <-]. eauto.
  - by injection Hm1 as <-.
Qed.

(** Starting a job, and the two ways of its end. *)
Lemma schedule_own now pj s s' :
  fresh_pid (pm_ s) → jobs_own_handlers s → schedule now pj s = Ret s' → jobs_own_handlers s'.
Proof.
  intros Hf Hs H. unfold schedule in H. cbv zeta in H. apply obind_Ret_inv in H as ([p m] & Hp & H).
  apply obind_Ret_inv in H as (tm & _ & [= <-]).
  assert (pm_ (bump (actual_lane (pj_lane pj) s) 1 s) = pm_ s ∧ running_ (bump (actual_lane (pj_lane pj) s) 1 s) = running_ s)
    as [Hpm Hrun] by (by destruct (actual_lane _ _)).
  simpl in Hp. rewrite Hpm in Hp. pose proof (Hf _ _ _ _ Hp) as Hnone.
  assert (∀ i q, own_handler i q (pm_ s) → own_handler i q m) as Hkeep.
  { intros i q (h & c & Hh & Hc). exists h, c. split; [|done].
    destruct (spawn_handlers _ _ _ _ _ Hp Hnone) as [[-> ->]|(Hp1 & h' & c' & -> & _)]; [done|].
    rewrite lookup_insert_ne; [done|congruence]. }
  intros i rj. simpl. rewrite Hrun. unfold emplace.
  destruct (running_ s !! id (pj_spec pj)) as [rj'|] eqn:Hi; [intros Hr Hne; by apply Hkeep, Hs|].
  intros [[<- <-]|[_ Hr]]%lookup_insert_Some Hne; [|by apply Hkeep, Hs]. simpl in *.
  destruct (spawn_handlers _ _ _ _ _ Hp Hnone) as [[-> _]|(_ & h & c & Hm & Hc & Hid & Hcb)]; [done|].
  exists h, c. rewrite Hm, lookup_insert_eq. done.
Qed.

Lemma timeout_own i s s' : jobs_own_handlers s → handle_timeout i s = Ret s' → jobs_own_handlers s'.
Proof.
  intros Hs H. unfold handle_timeout in H. destruct (running_ s !! i) as [rj|] eqn:Hi; [|by injection H as <-].
  apply obind_Ret_inv in H as (m & Hm & [= <-]). apply terminate_handlers in Hm as [Hm _].
  assert (∀ (d : Z) s1, pm_ (bump (rj_lane rj) d s1) = pm_ s1 ∧ running_ (bump (rj_lane rj) d s1) = running_ s1) as Hb
    by (by intros; destruct (rj_lane rj)).
  intros j rj'. simpl. rewrite (proj1 (Hb _ _)), (proj2 (Hb _ _)). simpl.
  intros [Hij Hj]%lookup_delete_Some Hne. destruct (Hs j rj' Hj Hne) as (h & c & Hh & Hc & Hid & Hcb).
  exists h, c. split_and!; [|done..]. rewrite Hm, lookup_delete_ne; [done|]. intros E.
  destruct (Hs i rj Hi) as (h2 & c2 & Hh2 & _ & _ & Hcb2); congruence.
Qed.

Lemma exit_own i code now s s' : jobs_own_handlers s → handle_exit i code now s = Ret s' → jobs_own_handlers s'.
Proof.
  intros Hs H. unfold handle_exit in H. destruct (running_ s !! i) as [rj|] eqn:Hi; [|by injection H as <-].
  apply obind_Ret_inv in H as (s1 & H1 & [= <-]).
  assert (pm_ s1 = pm_ s ∧ running_ s1 = running_ s) as [Hpm Hrun].
  { destruct (WIFEXITED code); [|by injection H1 as <-]. by apply obind_Ret_inv in H1 as (e & _ & [= <-]). }
  assert (pm_ (bump (rj_lane rj) (-1) s1) = pm_ s ∧ running_ (bump (rj_lane rj) (-1) s1) = running_ s) as [Hpm2 Hrun2]
    by (by destruct (rj_lane rj)).
  intros j rj'. simpl. rewrite Hpm2, Hrun2. intros [_ Hj]%lookup_delete_Some. by apply Hs.
Qed.

Lemma step_own e s s' : fresh_pid (pm_ s) → jobs_own_handlers s → step e s = Ret s' → jobs_own_handlers s'.
Proof.
  intros Hf Hs. destruct e as [| |pj|now|i code now|i [| |]]; simpl; try by intros [= <-].
  - destruct (loops_ s) as [|n]; [by intros [= <-]|]. unfold run_loop.
    change (stop_ (set_loops n s)) with (stop_ s). destruct (stop_ s); [by intros [= <-]|].
    intros H. apply obind_Ret_inv in H as (s1 & H & [= <-]).
    destruct (Pending_Q.empty _); [by injection H as <-|]. apply obind_Ret_inv in H as (pj & _ & H).
    destruct (schedulable _ _); [|by injection H as <-]. apply obind_Ret_inv in H as ([pj' q] & _ & H).
    apply (schedule_own now pj' (set_queue q (set_loops n s)) s1); done.
  - by apply exit_own.
  - by apply timeout_own.
Qed.

Lemma steps_own es s s' : no_pid_reuse es s → jobs_own_handlers s → steps es s = Ret s' → jobs_own_handlers s'.
Proof.
  revert s. induction es as [|e es IH]; intros s Hn Hs H; simpl in H; [by injection H as <-|].
  apply obind_Ret_inv in H as (s1 & Hs1 & H). destruct Hn as [Hf Hn]. rewrite Hs1 in Hn.
  by eapply (IH s1); [|eapply step_own|].
Qed.

(** The manager is one that [SchedulerExceptions] asks for, when the system's
    operations return or throw. *)
#[export] Instance process_manager_ok : Process_Manager_Ok Manager := managed.

Lemma process_manager_keeps : os_defined → Process_Manager_Keeps Manager.
Proof.
  intros OSD. split.
  - intros o i m Hm. eapply defined_mono; [|by apply (spawn_ok OSD o None None (Some i))]. by intros r [].
  - intros p m Hm. pose proof (call_ok OSD (Terminate p) m Hm) as H. simpl in *.
    destruct (terminate p m); [by destruct H|done|done].
Qed.

(** ** Properties *)

(** C24: the scheduler's table and the manager's map agree.  After any callbacks,
    when the system never gave a new process the pid of a handler still in the map:
    each running job whose process could be started has a handler under its pid,
    of a child with that pid, whose exit callback holds the job's own id; so no two
    jobs share a process, and the time-out of a job terminates the job's own
    process, takes its handler out of the map and no other. *)
Theorem jobs_own_their_processes lane q (st : St) m es s0 s
    (Hnew : Scheduler_new true (Some q) (Some st) lane m = Ret s0) (Hreuse : no_pid_reuse es s0) (Hrun : steps es s0 = Ret s) :
  (∀ i rj, running_ s !! i = Some rj → rj_pid rj ≠ -1 →
    own_handler i (rj_pid rj) (pm_ s) ∧
    (∀ j rj', running_ s !! j = Some rj' → rj_pid rj' = rj_pid rj → j = i) ∧
    ∀ s', step (Timer i expired) s = Ret s' →
      handlers_ (pm_ s') = delete (rj_pid rj) (handlers_ (pm_ s)) ∧ jobs_own_handlers s' ∧
      ∃ h h' w, handlers_ (pm_ s) !! rj_pid rj = Some h ∧ handler_terminate h (world_ (pm_ s)) = Ret (h', w)).
Proof.
  assert (jobs_own_handlers s) as Hs.
  { eapply steps_own; [done| |done]. unfold Scheduler_new in Hnew. simpl in Hnew.
    destruct (lane <? 4); [done|]. injection Hnew as <-. intros i rj Hi. simpl in Hi. by rewrite lookup_empty in Hi. }
  intros i rj Hi Hne. destruct (Hs i rj Hi Hne) as (h & c & Hh & Hc & Hid & Hcb). split_and!.
  - by exists h, c.
  - intros j rj' Hj Hp. destruct (Hs j rj' Hj) as (h2 & c2 & Hh2 & _ & _ & Hcb2); congruence.
  - intros s' Hstep. pose proof (timeout_own i s s' Hs Hstep) as Hs'. simpl in Hstep. unfold handle_timeout in Hstep.
    rewrite Hi in Hstep. apply obind_Ret_inv in Hstep as (m' & Hm & Heq).
    apply terminate_handlers in Hm as [Hm Ht]. destruct (Ht h Hh) as (h' & w & Hw).
    split_and!; [|done|by exists h, h', w]. injection Heq as <-. rewrite <-Hm. by destruct (rj_lane rj).
Qed.
End Composition.

(** ** On the numbered children of [ProcessManager]'s example *)

#[local] Existing Instance toy_os.

Abbreviation Toy_Manager := (Process_Manager string str toy).
Abbreviation Toy_Scheduler := (Scheduler Finished_Storage.sink Toy_Manager).

(** Every pid in the map was given out before. *)
Definition pids_old (m : Toy_Manager) : Prop :=
  map_Forall (λ p _, p < 100 + Z.of_nat (length (toy_children (world_ m)))) (handlers_ m).

Lemma pids_old_fresh (m : Toy_Manager) : pids_old m → fresh_pid m.
Proof.
  intros Hm o i p m' H. destruct (handlers_ m !! p) as [h|] eqn:Hp; [|done]. exfalso.
  unfold spawn in H. simpl in H. destruct (Z.eqb_spec (100 + Z.of_nat (length (toy_children (world_ m)))) (-1)); [lia|].
  apply Hm in Hp. destruct (handlers_ m !! _) in H; injection H as <- _; lia.
Qed.

Fixpoint pids_old_along (es : list event) (s : Toy_Scheduler) : bool :=
  bool_decide (pids_old (pm_ s)) &&
  match es with
  | [] => true
  | e :: es => match step e s with Ret s' => pids_old_along es s' | _ => true end
  end.

Lemma pids_old_no_reuse es s : pids_old_along es s = true → no_pid_reuse es s.
Proof.
  revert s. induction es as [|e es IH]; intros s; simpl; rewrite andb_true_iff; intros [Hm%bool_decide_eq_true Hes];
    (split; [by apply pids_old_fresh|]); [done|].
  destruct (step e s); [by apply IH|done..].
Qed.

Definition two_jobs : list Pending_Job :=
  [mkPending (mkSpec (lit "a") default_options) FAST; mkPending (mkSpec (lit "b") default_options) SLOW].

Definition toy_start : Toy_Scheduler :=
  mkScheduler false two_jobs ∅ 4 1 3 0 0 (P90_new 1000) ∅ toy_manager 0.

Definition toy_run (es : list event) : Toy_Scheduler :=
  match steps es toy_start with Ret s => s | _ => toy_start end.

Definition toy_events : list event := [Run; Tick 1; Tick 2].

Lemma toy_start_eq :
  Scheduler_new true (Some two_jobs) (Some (∅ : Finished_Storage.sink)) 4 toy_manager = Ret toy_start.
Proof. vm_compute. reflexivity. Qed.

Lemma toy_no_reuse : no_pid_reuse toy_events toy_start.
Proof. apply pids_old_no_reuse. vm_compute. reflexivity. Qed.

Lemma toy_run_eq : steps toy_events toy_start = Ret (toy_run toy_events).
Proof. vm_compute. reflexivity. Qed.

Lemma toy_running :
  running_ (toy_run toy_events) !! lit "a" = Some (mkRunning (mkSpec (lit "a") default_options) FAST 100 1 (Some 30)) ∧
  running_ (toy_run toy_events) !! lit "b" = Some (mkRunning (mkSpec (lit "b") default_options) SLOW 101 2 None).
Proof. vm_compute. split; reflexivity. Qed.

Lemma jobs_own_their_processes_witness :
  own_handler (lit "a") 100 (pm_ (toy_run toy_events)) ∧ own_handler (lit "b") 101 (pm_ (toy_run toy_events)).
Proof.
  pose proof (jobs_own_their_processes 4 two_jobs (∅ : Finished_Storage.sink) toy_manager toy_events toy_start
    (toy_run toy_events) toy_start_eq toy_no_reuse toy_run_eq) as H.
  destruct toy_running as [Ha Hb]. split.
  - destruct (H (lit "a") _ Ha) as [Hown _]; [discriminate|exact Hown].
  - destruct (H (lit "b") _ Hb) as [Hown _]; [discriminate|exact Hown].
Defined.

(** A system that has descriptors for the pipes of one child only. *)
Definition poor_os : OS str toy := {|
  child := nat;
  child_id c := 100 + Z.of_nat c;
  os_pipes w := if decide (toy_children w = []) then Ret w else Throw (lit "pipe(2) failed");
  os_spawn := os_spawn (OS := toy_os);
  os_running := os_running (OS := toy_os);
  os_terminate := os_terminate (OS := toy_os);
  os_wait := os_wait (OS := toy_os);
  os_exit_code := os_exit_code (OS := toy_os);
  os_kill := os_kill (OS := toy_os);
  os_waitpid := os_waitpid (OS := toy_os);
  os_write := os_write (OS := toy_os);
  emplace_builds := false
|}.

(** The pipes are made outside of the [try] of [Process_Handler::spawn]: for want of
    descriptors it throws instead of returning -1.  The second job is lost with its
    slot, and no turn is left. *)
Example no_descriptors :
  let m : Process_Manager string str toy (os := poor_os) := mkManager ∅ (mkToy [] []) in
  let m' : Process_Manager string str toy (os := poor_os) := mkManager ∅ (mkToy [true] []) in
  ∃ s, (let! s := Scheduler_new true (Some two_jobs) (Some (∅ : Finished_Storage.sink)) 4 m in
        SchedulerExceptions.resume ((λ e, (e, m')) <$> [Run; Tick 1; Tick 2; Exit (lit "a") 0 3; Tick 4]) s) = Ret s ∧
    pq_ s = [] ∧ running_ s = ∅ ∧ running_fast_ s = 0 ∧ running_slow_ s = 1 ∧ loops_ s = 0%nat.
Proof. eexists. split; [vm_compute; reflexivity|]. vm_compute. repeat split. Qed.
